(** * pyslvs: position analysis of planar linkages

    A shallow embedding of the solver core of pyslvs:

    - [tinycadlib.pyx]: the closed-form geometry kernel ([plap], [pllp],
      [plpp], [pxy]), the expression interpreter ([expr_parser]), the
      degree-of-freedom count ([vpoint_dof]), the data collector
      ([data_collecting]) and the entry point [expr_solving];
    - [triangulation.pyx]: the expression stack and its synthesizer
      [t_config];
    - [graph_layout.pyx]: the ordered set, [cycle_basis], [outer_loop] and
      the layouts.

    Part I holds the definitions, Part II the notions of the statements,
    Part III the theorems. *)

From Stdlib Require Import Floats.
From Stdlib Require Import ZArith String List Bool Reals Lra Lia.
From stdpp Require Import gmap strings list fin_maps pretty.

Set Default Proof Using "Type".

(* ===================================================================== *)
(** * Part I: definitions *)
(* ===================================================================== *)

(** ** C [double] arithmetic

    The sources compute on C [double]s.  The operations the code applies
    to them are gathered in one interface, so that the same definitions
    run on IEEE 754 binary64 numbers (the kernel's primitive floats, which
    evaluate) and on exact real numbers extended with a NaN (the
    idealisation in which the geometric identities are stated). *)

Class Float64 (D : Type) := {
  dadd : D -> D -> D;
  dsub : D -> D -> D;
  dmul : D -> D -> D;
  ddiv : D -> D -> D;
  dsqrt : D -> D;
  (** [abs] on a C double, that is [fabs]. *)
  dabs : D -> D;
  (** [<] and [==]; [>] is [<] with its operands exchanged. *)
  dltb : D -> D -> bool;
  deqb : D -> D -> bool;
  isnan : D -> bool;
  NAN : D;
  (** An integer literal or C [int] converted to [double]. *)
  dlit : Z -> D
}.

Declare Scope double_scope.
Delimit Scope double_scope with D.
Notation "a + b" := (dadd a b) : double_scope.
Notation "a - b" := (dsub a b) : double_scope.
Notation "a * b" := (dmul a b) : double_scope.
Notation "a / b" := (ddiv a b) : double_scope.
Notation "a <? b" := (dltb a b) : double_scope.
Notation "a >? b" := (dltb b a) : double_scope.
Notation "a =? b" := (deqb a b) : double_scope.

(** *** IEEE 754 binary64 *)

Definition float_of_Z (z : Z) : float :=
  match z with
  | Z0 => PrimFloat.zero
  | Zpos _ => PrimFloat.of_uint63 (Uint63.of_Z z)
  | Zneg p => PrimFloat.opp (PrimFloat.of_uint63 (Uint63.of_Z (Zpos p)))
  end.

#[export] Instance ieee_double : Float64 float := {|
  dadd := PrimFloat.add;
  dsub := PrimFloat.sub;
  dmul := PrimFloat.mul;
  ddiv := PrimFloat.div;
  dsqrt := PrimFloat.sqrt;
  dabs := PrimFloat.abs;
  dltb := PrimFloat.ltb;
  deqb := PrimFloat.eqb;
  isnan := PrimFloat.is_nan;
  NAN := PrimFloat.nan;
  dlit := float_of_Z
|}.

(** [hypot] of the C library on binary64: the square root of [x² + y²]
    rounded once, to the nearest double (ties to even), with no
    intermediate overflow or underflow, as IEEE 754 recommends and glibc
    computes it.  The sum of the squares is formed exactly on the integer
    mantissas and the square root is rounded by the kernel's specification
    of binary64.  As C's Annex F requires, [hypot] of an infinity and any
    number is the infinity, and [hypot x 0] is [|x|]. *)
Definition ieee_hypot (x y : float) : float :=
  match Prim2SF x, Prim2SF y with
  | S754_infinity _, _ | _, S754_infinity _ => PrimFloat.infinity
  | S754_nan, _ | _, S754_nan => PrimFloat.nan
  | S754_zero _, _ => PrimFloat.abs y
  | _, S754_zero _ => PrimFloat.abs x
  | S754_finite _ mx ex, S754_finite _ my ey =>
      let e := Z.min ex ey in
      let m := (Z.shiftl (Zpos mx * Zpos mx) (2 * (ex - e))
                + Z.shiftl (Zpos my * Zpos my) (2 * (ey - e)))%Z in
      match m with
      | Zpos m => SF2Prim (SFsqrt prec emax (S754_finite false m (2 * e)))
      | _ => PrimFloat.nan
      end
  end.

(** *** Exact reals with a NaN

    Rounding, overflow and infinities are left out: every finite double is
    read as the real number it denotes, and an operation that IEEE leaves
    undefined on the reals (a NaN operand, the square root of a negative
    number, a zero divisor) yields [XNaN]. *)

Inductive xreal : Type :=
  | XNaN
  | XR (r : R).

Definition xlift2 (f : R -> R -> R) (a b : xreal) : xreal :=
  match a, b with
  | XR u, XR v => XR (f u v)
  | _, _ => XNaN
  end.

Definition xdiv (a b : xreal) : xreal :=
  match a, b with
  | XR u, XR v => if Req_dec_T v 0 then XNaN else XR (u / v)
  | _, _ => XNaN
  end.

Definition xsqrt (a : xreal) : xreal :=
  match a with
  | XR u => if Rlt_dec u 0 then XNaN else XR (sqrt u)
  | XNaN => XNaN
  end.

Definition xabs (a : xreal) : xreal :=
  match a with
  | XR u => XR (Rabs u)
  | XNaN => XNaN
  end.

Definition xltb (a b : xreal) : bool :=
  match a, b with
  | XR u, XR v => if Rlt_dec u v then true else false
  | _, _ => false
  end.

Definition xeqb (a b : xreal) : bool :=
  match a, b with
  | XR u, XR v => if Req_dec_T u v then true else false
  | _, _ => false
  end.

Definition xisnan (a : xreal) : bool :=
  match a with
  | XNaN => true
  | XR _ => false
  end.

#[export] Instance exact_double : Float64 xreal := {|
  dadd := xlift2 Rplus;
  dsub := xlift2 Rminus;
  dmul := xlift2 Rmult;
  ddiv := xdiv;
  dsqrt := xsqrt;
  dabs := xabs;
  dltb := xltb;
  deqb := xeqb;
  isnan := xisnan;
  NAN := XNaN;
  dlit := fun z => XR (IZR z)
|}.

(** [hypot] on the exact reals. *)
Definition exact_hypot (a b : xreal) : xreal :=
  match a, b with
  | XR u, XR v => XR (sqrt (u * u + v * v))
  | _, _ => XNaN
  end.

(** ** Python exceptions

    A subscript, a dictionary lookup or an unpacking that fails raises; the
    model returns the exception instead of a value.

    [Undefined] is no exception.  It marks a computation for which the
    compiled code has no defined result: a subscript out of range in a
    function compiled with [boundscheck(False)], which reads or writes
    outside the list, and the use of the C tuple of a function that has
    dropped an exception.  The model has no result for it. *)

Inductive PyErr : Type :=
  | KeyError
  | IndexError
  | TypeError
  | ValueError (msg : string)
  | Undefined.

Inductive result (A : Type) : Type :=
  | Ok (a : A)
  | Raise (e : PyErr).
Arguments Ok {A} a.
Arguments Raise {A} e.

Definition bind {A B : Type} (r : result A) (k : A -> result B) : result B :=
  match r with
  | Ok a => k a
  | Raise e => Raise e
  end.

Notation "'let*' x ':=' r 'in' k" := (bind r (fun x => k))
  (at level 10, x name, r at level 100, k at level 200).
Notation "'let*' ' p ':=' r 'in' k" := (bind r (fun x => match x with p => k end))
  (at level 10, p pattern, r at level 100, k at level 200).

Definition or_raise {A : Type} (o : option A) (e : PyErr) : result A :=
  match o with
  | Some a => Ok a
  | None => Raise e
  end.

(** The sources are compiled by Cython 0.29.  A [cdef] or [cpdef] function
    that returns a C value ([void], [int], [bint], [double], a C tuple) and
    declares no [except] clause cannot report an exception: an exception
    raised in it is printed and dropped, and the function returns at once,
    with 0 for a number and nothing set for a C tuple.  [unset] is the
    result of a function that returns a C tuple. *)
Definition unset {A : Type} (r : result A) : result A :=
  match r with
  | Ok a => Ok a
  | Raise _ => Raise Undefined
  end.

(** ** The geometry kernel ([tinycadlib.pyx]) *)

Section Kernel.
Context {D : Type} {F : Float64 D}.
(** The C library's [math.h], which the sources import. *)
Variables (cos sin : D -> D) (atan2 hypot : D -> D -> D) (M_PI : D).
Local Open Scope double_scope.

(** [radians]: degrees to radians. *)
Definition radians (degree : D) : D := degree / dlit 180 * M_PI.

(** [distance]: distance of two cartesian coordinates. *)
Definition distance (x1 y1 x2 y2 : D) : D := hypot (x2 - x1) (y2 - y1).

Record Coordinate : Type := mkCoordinate { x : D; y : D }.

Definition Coordinate_distance (self p : Coordinate) : D :=
  distance (x self) (y self) (x p) (y p).

Definition Coordinate_is_nan (self : Coordinate) : bool := isnan (x self).

(** [plap]: point on circle by angle; [c2 = None] is the default argument. *)
Definition plap (c1 : Coordinate) (d0 a0 : D) (c2 : option Coordinate)
    (inverse : bool) : D * D :=
  let a1 := match c2 with
            | Some c2 => atan2 (y c2 - y c1) (x c2 - x c1)
            | None => dlit 0
            end in
  if inverse then
    (x c1 + d0 * cos (a1 - a0), y c1 + d0 * sin (a1 - a0))
  else
    (x c1 + d0 * cos (a1 + a0), y c1 + d0 * sin (a1 + a0)).

(** [pllp]: two intersection points of two circles. *)
Definition pllp (c1 : Coordinate) (d0 d1 : D) (c2 : Coordinate)
    (inverse : bool) : D * D :=
  let dx := x c2 - x c1 in
  let dy := y c2 - y c1 in
  let d := Coordinate_distance c1 c2 in
  (* No solutions, the circles are separate. *)
  if d >? d0 + d1 then (NAN, NAN)
  (* No solutions because one circle is contained within the other. *)
  else if d <? dabs (d0 - d1) then (NAN, NAN)
  (* Circles are coincident and there are an infinite number of solutions. *)
  else if (d =? dlit 0) && (d0 =? d1) then (NAN, NAN)
  else
    let a := (d0 * d0 - d1 * d1 + d * d) / (dlit 2 * d) in
    let h := dsqrt (d0 * d0 - a * a) in
    let xm := x c1 + a * dx / d in
    let ym := y c1 + a * dy / d in
    if inverse then (xm + h * dy / d, ym - h * dx / d)
    else (xm - h * dy / d, ym + h * dx / d).

(** [plpp]: two intersection points of a line and a circle. *)
Definition plpp (c1 : Coordinate) (d0 : D) (c2 c3 : Coordinate)
    (inverse : bool) : D * D :=
  let line_mag := Coordinate_distance c2 c3 in
  let dx := x c3 - x c2 in
  let dy := y c3 - y c2 in
  let u := ((x c1 - x c2) * dx + (y c1 - y c2) * dy) / (line_mag * line_mag) in
  let inter := mkCoordinate (x c2 + u * dx) (y c2 + u * dy) in
  (* Test distance between point A and intersection. *)
  let d := Coordinate_distance c1 inter in
  if d >? d0 then (NAN, NAN)
  else if d =? d0 then (x inter, y inter)
  else
    let d := dsqrt (d0 * d0 - d * d) / line_mag in
    if inverse then (x inter - dx * d, y inter - dy * d)
    else (x inter + dx * d, y inter + dy * d).

(** [pxy]: relative cartesian coordinate. *)
Definition pxy (c1 : Coordinate) (x' y' : D) : D * D :=
  (x c1 + x', y c1 + y').

End Kernel.

Arguments Coordinate D : clear implicits.
Arguments mkCoordinate {D} x y.

(** ** C [int]

    A [cdef int] is a 32-bit two's complement integer: arithmetic on it is
    arithmetic on [Z] followed by [int32].  List lengths and the Python
    integers handed to a [cdef int] are taken to fit in 32 bits. *)

Definition int32 (z : Z) : Z := ((z + 2 ^ 31) mod 2 ^ 32 - 2 ^ 31)%Z.

(** ** Symbols and expressions ([triangulation.pyx]) *)

Inductive Label : Type := P_LABEL | L_LABEL | A_LABEL | S_LABEL.

(** [sym], a pair of a label and an index. *)
Definition sym : Type := Label * Z.

(** [symbol_str]: pair to string. *)
Definition symbol_str (p : sym) : string :=
  match p.1 with
  | P_LABEL => "P" +:+ pretty p.2
  | L_LABEL => "L" +:+ pretty p.2
  | A_LABEL => "a" +:+ pretty p.2
  | S_LABEL => "S" +:+ pretty p.2
  end.

Inductive Func : Type := PLA | PLAP | PLLP | PLPP | PXY.

(** The [Expr] struct.  A field that an [add_*] method leaves unset holds
    [sym_unset]; no reader looks at it. *)
Record Expr : Type := mkExpr {
  func : Func;
  c1 : sym;
  v1 : sym;
  v2 : sym;
  c2 : sym;
  c3 : sym;
  c4 : sym;
  op : bool
}.

Definition sym_unset : sym := (P_LABEL, (-1)%Z).

(** [EStack]: the triangle solution stack, a vector of [Expr]. *)
Abbreviation EStack := (list Expr).

Definition add_pla (self : EStack) (c1 v1 v2 target : sym) : EStack :=
  self ++ [mkExpr PLA c1 v1 v2 target sym_unset sym_unset false].

Definition add_plap (self : EStack) (c1 v1 v2 c2 target : sym) : EStack :=
  self ++ [mkExpr PLAP c1 v1 v2 c2 target sym_unset false].

Definition add_pllp (self : EStack) (c1 v1 v2 c2 t : sym) : EStack :=
  self ++ [mkExpr PLLP c1 v1 v2 c2 t sym_unset false].

Definition add_plpp (self : EStack) (c1 v1 c2 c3 t : sym) (op : bool) : EStack :=
  self ++ [mkExpr PLPP c1 v1 sym_unset c2 c3 t op].

Definition add_pxy (self : EStack) (c1 v1 v2 t : sym) : EStack :=
  self ++ [mkExpr PXY c1 v1 v2 t sym_unset sym_unset false].

(** ** Joints

    [expression.pyx], which declares [VJoint], [VLink] and [VPoint], is not
    among the sources; the code reads the attributes below. *)

Module VJoint.
Inductive t : Type := R | P | RP.
Definition eqb (a b : t) : bool :=
  match a, b with
  | R, R | P, P | RP, RP => true
  | _, _ => false
  end.
End VJoint.

Module VLink.
(** Modelled from the spec: [VLink.FRAME], the name of the distinguished
    frame link; [vpoint_dof] spells it ['ground']. *)
Definition FRAME : string := "ground".
End VLink.

Module VPoint.
Section VPoint.
Context {D : Type}.

(** The attributes of a joint: its links, its kind, its angle, its original
    position [x], [y] and its current coordinates [c[0]], [c[1]] (a revolute
    joint uses [c[0]] only). *)
Record t : Type := mk {
  links : list string;
  type : VJoint.t;
  angle : D;
  x : D;
  y : D;
  c0 : D * D;
  c1 : D * D
}.

(** Modelled from the spec: [VPoint.grounded], which [expression.pyx]
    defines: a joint is grounded when one of its links is the frame link. *)
Definition grounded (self : t) : bool :=
  bool_decide (VLink.FRAME ∈ links self).

(** Modelled from the spec: [VPoint.c_slider_joint], the constructor of a
    slider joint, which [expression.pyx] defines: the joint with the given
    links, kind, angle and position, both of whose coordinates are the
    position. *)
Definition c_slider_joint (links : list string) (type : VJoint.t)
    (angle x y : D) : t :=
  mk links type angle x y (x, y) (x, y).

End VPoint.
Arguments t D : clear implicits.
End VPoint.

(** ** The object store

    The joint sequence a caller passes is a Python list of references to
    [VPoint] objects, and both [t_config] and [data_collecting] assign
    into a list.  Lists and joints therefore live in a store; an address
    is an index in it, and allocation appends. *)

(** An address. *)
Abbreviation loc := nat.

Inductive PyObj (D : Type) : Type :=
  | ObjVPoint (v : VPoint.t D)
  | ObjList (items : list loc).
Arguments ObjVPoint {D} v.
Arguments ObjList {D} items.

Abbreviation heap D := (list (PyObj D)).

Section Store.
Context {D : Type}.

(** A new object. *)
Definition alloc (h : heap D) (o : PyObj D) : heap D * loc := (h ++ [o], length h).

(** The items of the list at [l]. *)
Definition list_items (h : heap D) (l : loc) : result (list loc) :=
  match h !! l with
  | Some (ObjList items) => Ok items
  | _ => Raise TypeError
  end.

(** The joint at [a]; a [cdef VPoint] variable takes no other object. *)
Definition load_vpoint (h : heap D) (a : loc) : result (VPoint.t D) :=
  match h !! a with
  | Some (ObjVPoint v) => Ok v
  | _ => Raise TypeError
  end.

(** [vpoints[i]] for a list [vpoints] of joints and an index in range. *)
Definition getitem (h : heap D) (l : loc) (i : nat) : result (VPoint.t D) :=
  let* items := list_items h l in
  let* a := or_raise (items !! i) IndexError in
  load_vpoint h a.

(** [vpoints[i] = o] for an index in range: the list at [l] is updated in
    place. *)
Definition setitem (h : heap D) (l : loc) (i : nat) (a : loc) : result (heap D) :=
  let* items := list_items h l in
  if decide (i < length items)%nat then Ok (<[l := ObjList (<[i := a]> items)]> h)
  else Raise IndexError.

(** [list(vpoints_)]: a new list with the items of the list at [l]. *)
Definition list_copy (h : heap D) (l : loc) : result (heap D * loc) :=
  let* items := list_items h l in
  Ok (alloc h (ObjList items)).

Fixpoint load_vpoints (h : heap D) (items : list loc) : result (list (VPoint.t D)) :=
  match items with
  | [] => Ok []
  | a :: items =>
      let* v := load_vpoint h a in
      let* vs := load_vpoints h items in
      Ok (v :: vs)
  end.

(** The joints of the list at [l], in order. *)
Definition snapshot (h : heap D) (l : loc) : result (list (VPoint.t D)) :=
  let* items := list_items h l in
  load_vpoints h items.

End Store.

(** Loops over a list whose body may write to the store and may raise. *)
Fixpoint hfor {D A : Type} (xs : list A)
    (body : A -> heap D -> heap D * result unit) (h : heap D)
    : heap D * result unit :=
  match xs with
  | [] => (h, Ok tt)
  | a :: xs =>
      match body a h with
      | (h', Ok _) => hfor xs body h'
      | (h', Raise e) => (h', Raise e)
      end
  end.

(** Subscripts.  [py_index] is Python's rule (a negative index counts from
    the end, an index out of range raises [IndexError]).  [c_index] is the
    subscript in the body of [t_config], which is compiled with
    [boundscheck(False)] and [wraparound(False)]: the item at the index is
    read with no check, and out of range the read is undefined. *)
Definition py_index {A : Type} (l : list A) (i : Z) : result A :=
  let n := Z.of_nat (length l) in
  if (0 <=? i)%Z then or_raise (l !! Z.to_nat i) IndexError
  else if (- n <=? i)%Z then or_raise (l !! Z.to_nat (n + i)) IndexError
  else Raise IndexError.

Definition c_index {A : Type} (l : list A) (i : Z) : result A :=
  if (0 <=? i)%Z then or_raise (l !! Z.to_nat i) Undefined
  else Raise Undefined.

(** [enumerate]. *)
Definition enumerate {A : Type} (l : list A) : list (Z * A) :=
  zip (Z.of_nat <$> seq 0 (length l)) l.

(** [range(n)]. *)
Definition range (n : nat) : list Z := Z.of_nat <$> seq 0 n.

(** ** Degrees of freedom ([tinycadlib.pyx]) *)

Section Dof.
Context {D : Type}.

Record DofCount : Type := mkDofCount {
  (** Joint with DOF 1. *)
  j1 : Z;
  (** Joint with DOF 2. *)
  j2 : Z;
  vlinks : gset string
}.

(** One round of the loop of [vpoint_dof]. *)
Definition vpoint_dof_joint (acc : DofCount) (vpoint : VPoint.t D) : DofCount :=
  let link_count := int32 (Z.of_nat (length (VPoint.links vpoint))) in
  if negb (link_count >? 1)%Z then
    (* If a point doesn't have two more links, it can not be call a 'joint'. *)
    acc
  else
    let vlinks := vlinks acc ∪ list_to_set (VPoint.links vpoint) in
    match VPoint.type vpoint with
    | VJoint.R =>
        mkDofCount (int32 (j1 acc + int32 (link_count - 1))) (j2 acc) vlinks
    | VJoint.P =>
        let j1 := if (link_count >? 2)%Z
                  then int32 (j1 acc + int32 (link_count - 2)) else j1 acc in
        mkDofCount (int32 (j1 + 1)) (j2 acc) vlinks
    | VJoint.RP =>
        let j1 := if (link_count >? 2)%Z
                  then int32 (j1 acc + int32 (link_count - 2)) else j1 acc in
        mkDofCount j1 (int32 (j2 acc + 1)) vlinks
    end.

(** [vpoint_dof]: degree of freedoms calculate from PMKS expressions. *)
Definition vpoint_dof (vpoints : list (VPoint.t D)) : Z :=
  let acc := fold_left vpoint_dof_joint vpoints
               (mkDofCount 0 0 {["ground"]}) in
  int32 (3 * (Z.of_nat (size (vlinks acc)) - 1) - 2 * j1 acc - j2 acc).

End Dof.

(** ** The expression synthesizer ([triangulation.pyx]) *)

Section TConfig.
Context {D : Type} {F : Float64 D}.
(** The C library's [math.h]. *)
Variables (cos sin : D -> D) (M_PI : D).
(** [VPoint.pin_grounded] and [VPoint.has_offset], which [expression.pyx]
    defines and the spec only names. *)
Variables (pin_grounded has_offset : VPoint.t D -> bool).

(** [_is_all_lock]: test is all status done. *)
Definition _is_all_lock (status : gmap Z bool) : bool :=
  bool_decide (map_Forall (fun _ n_status => n_status = true) status).

(** [_clockwise]: check orientation of three points. *)
Definition _clockwise (c1 c2 c3 : D * D) : bool :=
  let val := ((c2.2 - c1.2) * (c3.1 - c2.1) - (c2.1 - c1.1) * (c3.2 - c2.2))%D in
  (val =? dlit 0)%D || (val >? dlit 0)%D.

(** [status[f]]. *)
Definition status_get (status : gmap Z bool) (f : Z) : result bool :=
  or_raise (status !! f) KeyError.

(** [vlinks[link]]. *)
Definition vlinks_get (vlinks : gmap string (list Z)) (link : string)
    : result (list Z) :=
  or_raise (vlinks !! link) KeyError.

(** The inner loop of [_get_reliable_friend] over the joints of one link:
    the friend found so far, and the second friend when the loop returns. *)
Fixpoint reliable_scan (node : Z) (status : gmap Z bool) (fs : list Z)
    (fa : Z) : result (Z * option Z) :=
  match fs with
  | [] => Ok (fa, None)
  | f :: fs =>
      let* locked := status_get status f in
      if locked && negb (f =? node)%Z then
        if (fa =? -1)%Z then reliable_scan node status fs f
        else Ok (fa, Some f)
      else reliable_scan node status fs fa
  end.

(** The outer loop of [_get_reliable_friend] over the links of the joint. *)
Fixpoint reliable_links (node : Z) (vlinks : gmap string (list Z))
    (status : gmap Z bool) (links : list string) (fa : Z)
    : result (bool * Z * Z) :=
  match links with
  | [] => Ok (false, fa, (-1)%Z)
  | link :: links =>
      let* members := vlinks_get vlinks link in
      if (length members <? 2)%nat then
        reliable_links node vlinks status links fa
      else
        let* '(fa, fb) := reliable_scan node status members fa in
        match fb with
        | Some fb => Ok (true, fa, fb)
        | None => reliable_links node vlinks status links fa
        end
  end.

(** [_get_reliable_friend]: two joints that have been solved on the links
    of [node].  The function returns a C tuple and declares no [except]
    clause, like the two after it: a subscript or lookup that fails in it
    leaves the tuple [unset]. *)
Definition _get_reliable_friend (node : Z) (vpoints : list (VPoint.t D))
    (vlinks : gmap string (list Z)) (status : gmap Z bool)
    : result (bool * Z * Z) :=
  unset
    (let* vpoint := py_index vpoints node in
     reliable_links node vlinks status (VPoint.links vpoint) (-1)%Z).

Fixpoint first_locked (status : gmap Z bool) (fs : list Z) : result (bool * Z) :=
  match fs with
  | [] => Ok (false, (-1)%Z)
  | f :: fs =>
      let* locked := status_get status f in
      if locked then Ok (true, f) else first_locked status fs
  end.

(** [_get_not_base_friend]: get a friend from constrained nodes. *)
Definition _get_not_base_friend (node : Z) (vpoints : list (VPoint.t D))
    (vlinks : gmap string (list Z)) (status : gmap Z bool) : result (bool * Z) :=
  unset
    (let* vpoint := py_index vpoints node in
     if pin_grounded vpoint
        || negb (VPoint.grounded vpoint)
        || has_offset vpoint
        || (length (VPoint.links vpoint) <? 2)%nat
     then Ok (false, (-1)%Z)
     else
       let* link := or_raise (VPoint.links vpoint !! 1%nat) IndexError in
       let* members := vlinks_get vlinks link in
       first_locked status members).

(** [_get_base_friend]: get the constrained node of same links. *)
Definition _get_base_friend (node : Z) (vpoints : list (VPoint.t D))
    (vlinks : gmap string (list Z)) (status : gmap Z bool)
    : result (bool * Z * Z) :=
  unset
    (let* vpoint := py_index vpoints node in
     if (length (VPoint.links vpoint) <? 1)%nat then Ok (false, (-1)%Z, (-1)%Z)
     else
       let* link := or_raise (VPoint.links vpoint !! 0%nat) IndexError in
       let* members := vlinks_get vlinks link in
       match members with
       | fa :: fb :: _ => Ok (true, fa, fb)
       | [fa] => Ok (false, fa, (-1)%Z)
       | [] => Ok (false, (-1)%Z, (-1)%Z)
       end).

(** [_get_input_base]: get the base node for input pairs. *)
Fixpoint _get_input_base (node : Z) (inputs : list (Z * Z)) : Z :=
  match inputs with
  | [] => (-1)%Z
  | (base, node_) :: inputs =>
      if (node =? node_)%Z then base else _get_input_base node inputs
  end.

(** *** Preprocessing *)

(** A Python set of joint indices, in insertion order. *)
Definition set_add (s : list Z) (node : Z) : list Z :=
  if bool_decide (node ∈ s) then s else s ++ [node].

(** The first loop of [t_config], for one joint: its status, and its links
    added to [vlinks]. *)
Definition init_joint (acc : gmap Z bool * gmap string (list Z))
    (item : Z * VPoint.t D) : gmap Z bool * gmap string (list Z) :=
  let '(node, vpoint) := item in
  let '(status, vlinks) := acc in
  let status := <[node := false]> status in
  match VPoint.links vpoint with
  | [] => (<[node := true]> status, vlinks)
  | _ =>
      fold_left
        (fun '(status, vlinks) link =>
           (* Connect on the ground and it is not a slider. *)
           let status :=
             if String.eqb link VLink.FRAME && VJoint.eqb (VPoint.type vpoint) VJoint.R
             then <[node := true]> status else status in
           (* Add as vlink. *)
           let vlinks :=
             match vlinks !! link with
             | None => <[link := [node]]> vlinks
             | Some s => <[link := set_add s node]> vlinks
             end in
           (status, vlinks))
        (VPoint.links vpoint) (status, vlinks)
  end.

(** The list comprehension of the replacement: the links of the new joint. *)
Definition merged_links (vpoint vpoint_ : VPoint.t D) : list string :=
  match VPoint.links vpoint with
  | [] => []
  | link0 :: _ =>
      link0 :: filter (fun link_ => link_ ∉ VPoint.links vpoint) (VPoint.links vpoint_)
  end.

(** Replace the P joints and their friends with RP joint: the body of the
    loop over [base], writing into the list at [vpoints]. *)
Definition t_config_replace (vlinks : gmap string (list Z)) (vpoints : loc)
    (base : Z) (h : heap D) : heap D * result unit :=
  match bind (list_items h vpoints) (fun items =>
          bind (c_index items base) (load_vpoint h)) with
  | Raise e => (h, Raise e)
  | Ok vpoint =>
      if negb (VJoint.eqb (VPoint.type vpoint) VJoint.P)
         || negb (VPoint.grounded vpoint)
      then (h, Ok tt)
      else
        hfor (tail (VPoint.links vpoint)) (fun link h =>
          match vlinks !! link with
          | None => (h, Raise KeyError)
          | Some members =>
              hfor members (fun node h =>
                match bind (list_items h vpoints) (fun items =>
                        bind (c_index items node) (load_vpoint h)) with
                | Raise e => (h, Raise e)
                | Ok vpoint_ =>
                    if (node =? base)%Z
                       || negb (VJoint.eqb (VPoint.type vpoint_) VJoint.R)
                    then (h, Ok tt)
                    else
                      let '(h, a) :=
                        alloc h (ObjVPoint (VPoint.c_slider_joint
                          (merged_links vpoint vpoint_) VJoint.RP
                          (VPoint.angle vpoint)
                          (VPoint.x vpoint_) (VPoint.y vpoint_))) in
                      match setitem h vpoints (Z.to_nat node) a with
                      | Ok h' => (h', Ok tt)
                      | Raise e => (h, Raise e)
                      end
                end) h
          end) h
  end.

(** Add positions parameters. *)
Definition positions (vpoints : list (VPoint.t D)) : list (D * D) :=
  (fun vpoint => if VJoint.eqb (VPoint.type vpoint) VJoint.R
                 then VPoint.c0 vpoint else VPoint.c1 vpoint) <$> vpoints.

(** [pos[i]] on the memory view, which is read without a bounds check; the
    indices the code passes are joint indices. *)
Definition pos_at (pos : list (D * D)) (i : Z) : D * D :=
  default (dlit 0, dlit 0) (pos !! Z.to_nat i).

(** *** The state of the synthesis *)

Record LoopState : Type := mkLoopState {
  node : Z;
  skip_times : Z;
  status : gmap Z bool;
  exprs : EStack;
  link_symbol : Z;
  angle_symbol : Z
}.

(** Input joints (R) that was connect with ground. *)
Fixpoint input_joints (inputs : list (Z * Z)) (s : LoopState) : result LoopState :=
  match inputs with
  | [] => Ok s
  | (base, node_) :: inputs =>
      let* locked := status_get (status s) base in
      if locked then
        input_joints inputs
          (mkLoopState (node s) (skip_times s) (<[node_ := true]> (status s))
             (add_pla (exprs s) (P_LABEL, base) (L_LABEL, link_symbol s)
                (A_LABEL, angle_symbol s) (P_LABEL, node_))
             (int32 (link_symbol s + 1)) (int32 (angle_symbol s + 1)))
      else input_joints inputs s
  end.

(** What the main loop reads and never writes. *)
Record LoopEnv : Type := mkLoopEnv {
  vpoints : list (VPoint.t D);
  env_vlinks : gmap string (list Z);
  pos : list (D * D);
  inputs : list (Z * Z);
  input_targets : list Z;
  around : Z
}.

(** The inner loop of the P branch over the joints of one link: place every
    friend that is not solved yet. *)
Fixpoint place_friends (node : Z) (fs : list Z)
    (st : gmap Z bool * EStack * Z) : result (gmap Z bool * EStack * Z) :=
  match fs with
  | [] => Ok st
  | fb :: fs =>
      let '(status, exprs, link_symbol) := st in
      let* locked := status_get status fb in
      if locked then place_friends node fs st
      else
        place_friends node fs
          (<[fb := true]> status,
           add_pxy exprs (P_LABEL, node) (L_LABEL, link_symbol)
             (L_LABEL, int32 (link_symbol + 1)) (P_LABEL, fb),
           int32 (link_symbol + 2))
  end.

(** The outer loop of the P branch over the links but the first. *)
Fixpoint place_links (node : Z) (vlinks : gmap string (list Z))
    (links : list string) (st : gmap Z bool * EStack * Z)
    : result (gmap Z bool * EStack * Z) :=
  match links with
  | [] => Ok st
  | link :: links =>
      let* members := vlinks_get vlinks link in
      let* st := place_friends node members st in
      place_links node vlinks links st
  end.

(** *** The main loop *)

(** [skip_times += 1]. *)
Definition skipped (s : LoopState) : LoopState :=
  mkLoopState (node s) (int32 (skip_times s + 1)) (status s) (exprs s)
    (link_symbol s) (angle_symbol s).

(** The R branch: an input joint is placed from its base, another joint
    from two solved friends. *)
Definition joint_R (env : LoopEnv) (s : LoopState) : result LoopState :=
  if bool_decide (node s ∈ input_targets env) then
    let base := _get_input_base (node s) (inputs env) in
    let* locked := status_get (status s) base in
    if locked then
      Ok (mkLoopState (node s) (skip_times s) (<[node s := true]> (status s))
            (add_pla (exprs s) (P_LABEL, base) (L_LABEL, link_symbol s)
               (A_LABEL, angle_symbol s) (P_LABEL, node s))
            (int32 (link_symbol s + 1)) (int32 (angle_symbol s + 1)))
    else Ok (skipped s)
  else
    let* '(ok, fa, fb) :=
      _get_reliable_friend (node s) (vpoints env) (env_vlinks env) (status s) in
    if negb ok then Ok (skipped s)
    else
      let '(fa, fb) :=
        if negb (_clockwise (pos_at (pos env) fa) (pos_at (pos env) (node s))
                   (pos_at (pos env) fb))
        then (fb, fa) else (fa, fb) in
      Ok (mkLoopState (node s) 0 (<[node s := true]> (status s))
            (add_pllp (exprs s) (P_LABEL, fa) (L_LABEL, link_symbol s)
               (L_LABEL, int32 (link_symbol s + 1)) (P_LABEL, fb)
               (P_LABEL, node s))
            (int32 (link_symbol s + 2)) (angle_symbol s)).

(** The P branch: need to solve P joint itself here (only grounded), then
    solution for all friends. *)
Definition joint_P (env : LoopEnv) (s : LoopState) : result LoopState :=
  let* '(ok, fa) :=
    _get_not_base_friend (node s) (vpoints env) (env_vlinks env) (status s) in
  if negb ok then Ok (skipped s)
  else
    let exprs := add_pxy (exprs s) (P_LABEL, fa) (L_LABEL, link_symbol s)
                   (L_LABEL, int32 (link_symbol s + 1)) (P_LABEL, node s) in
    let status := <[node s := true]> (status s) in
    let link_symbol := int32 (link_symbol s + 2) in
    let* vpoint := c_index (vpoints env) (node s) in
    let* '(status, exprs, link_symbol) :=
      place_links (node s) (env_vlinks env) (tail (VPoint.links vpoint))
        (status, exprs, link_symbol) in
    Ok (mkLoopState (node s) 0 status exprs link_symbol (angle_symbol s)).

(** The RP branch. *)
Definition joint_RP (env : LoopEnv) (s : LoopState) : result LoopState :=
  (* Copy as 'fc'. *)
  let fc := node s in
  let* vpoint := c_index (vpoints env) (node s) in
  (* 'S' point. *)
  let tmp := pos_at (pos env) (node s) in
  let angle := (VPoint.angle vpoint / dlit 180 * M_PI)%D in
  let tmp := ((tmp.1 + cos angle)%D, (tmp.2 + sin angle)%D) in
  let* '(ok, fa) :=
    _get_not_base_friend (node s) (vpoints env) (env_vlinks env) (status s) in
  let* '(ok2, fb, fd) :=
    _get_base_friend (node s) (vpoints env) (env_vlinks env) (status s) in
  if negb ok || negb ok2 then Ok (skipped s)
  else
    (* Slot is not grounded. *)
    let '(fb, exprs, link_symbol) :=
      if negb (VPoint.grounded vpoint) then
        let '(fb, fd) :=
          if negb (_clockwise (pos_at (pos env) fb) tmp (pos_at (pos env) fd))
          then (fd, fb) else (fb, fd) in
        (fb,
         add_pllp (exprs s) (P_LABEL, fb) (L_LABEL, link_symbol s)
           (L_LABEL, int32 (link_symbol s + 1)) (P_LABEL, fd) (P_LABEL, node s),
         int32 (link_symbol s + 2))
      else (fb, exprs s, link_symbol s) in
    let '(fb, fc) :=
      if negb (_clockwise (pos_at (pos env) fb) tmp (pos_at (pos env) fc))
      then (fc, fb) else (fb, fc) in
    let exprs := add_pllp exprs (P_LABEL, fb) (L_LABEL, link_symbol)
                   (L_LABEL, int32 (link_symbol + 1)) (P_LABEL, fc)
                   (S_LABEL, node s) in
    (* Two conditions. *)
    let exprs := add_plpp exprs (P_LABEL, fa) (L_LABEL, int32 (link_symbol + 2))
                   (P_LABEL, node s) (S_LABEL, node s) (P_LABEL, node s)
                   (xorb
                      (((pos_at (pos env) fa).1 - (pos_at (pos env) (node s)).1
                        >? dlit 0)%D)
                      ((VPoint.angle vpoint >? dlit 90)%D)) in
    Ok (mkLoopState (node s) 0 (<[node s := true]> (status s)) exprs
          (int32 (link_symbol + 3)) (angle_symbol s)).

Inductive LoopStep : Type :=
  | Continue (s : LoopState)
  | Stop (s : LoopState)
  | Raised (e : PyErr).

(** One round of [while not _is_all_lock(status)]. *)
Definition t_config_step (env : LoopEnv) (s : LoopState) : LoopStep :=
  if _is_all_lock (status s) then Stop s
  else
    match (status s !! node s : option bool) with
    | None =>
        Continue (mkLoopState 0 (skip_times s) (status s) (exprs s)
                    (link_symbol s) (angle_symbol s))
    | Some locked =>
        (* Check and break the loop if it's re-scan again. *)
        if (skip_times s >=? around env)%Z then Stop s
        else if locked then
          Continue (mkLoopState (int32 (node s + 1)) (int32 (skip_times s + 1))
                      (status s) (exprs s) (link_symbol s) (angle_symbol s))
        else
          match
            (let* vpoint := c_index (vpoints env) (node s) in
             match VPoint.type vpoint with
             | VJoint.R => joint_R env s
             | VJoint.P => joint_P env s
             | VJoint.RP => joint_RP env s
             end)
          with
          | Ok s' =>
              Continue (mkLoopState (int32 (node s' + 1)) (skip_times s')
                          (status s') (exprs s') (link_symbol s')
                          (angle_symbol s'))
          | Raise e => Raised e
          end
    end.

(** The loop, for at most [fuel] rounds; [None] when they do not suffice. *)
Fixpoint t_config_loop (fuel : nat) (env : LoopEnv) (s : LoopState)
    : option (result LoopState) :=
  match fuel with
  | O => None
  | S fuel =>
      match t_config_step env s with
      | Continue s' => t_config_loop fuel env s'
      | Stop s' => Some (Ok s')
      | Raised e => Some (Raise e)
      end
  end.

(** The joints that are not solved yet. *)
Definition unsolved (status : gmap Z bool) : nat :=
  size (filter (fun kv => kv.2 = false) status).

(** A number of rounds that suffices (see [t_config_loop_terminates]). *)
Definition t_config_fuel (around : Z) (status : gmap Z bool) : nat :=
  S (unsolved status * (2 * Z.to_nat around + 2) + 2 * Z.to_nat around + 1).

(** The dictionary [status] of a state. *)
Definition state_status (s : LoopState) : gmap Z bool := status s.

(** The preprocessing of [t_config] on the items of [vpoints_]: the copy
    [vpoints], the first loop and the replacement of the P joints' friends.
    It returns [status], [vlinks] and the joints of [vpoints]. *)
Definition t_config_normalize (h : heap D) (items : list loc)
    (status : gmap Z bool)
    : heap D * result (gmap Z bool * gmap string (list Z) * list (VPoint.t D)) :=
  (* vpoints will make a copy that we don't want to modified itself *)
  let '(h, vpoints) := alloc h (ObjList items) in
  match load_vpoints h items with
  | Raise e => (h, Raise e)
  | Ok joints =>
      let '(status, vlinks) :=
        fold_left init_joint (enumerate joints) (status, ∅) in
      match hfor (range (length items)) (t_config_replace vlinks vpoints) h with
      | (h, Raise e) => (h, Raise e)
      | (h, Ok _) =>
          (h, let* joints := snapshot h vpoints in Ok (status, vlinks, joints))
      end
  end.

(** [t_config]: generate the triangle solution stack by mechanism
    expression [vpoints_].  [status = None] is the empty dictionary.  The
    result is the store, and the status and the stack when the call
    returns; [None] when the rounds of the main loop do not suffice. *)
Definition t_config (h : heap D) (vpoints_ : loc) (inputs : list (Z * Z))
    (status : gmap Z bool) : heap D * option (result (gmap Z bool * EStack)) :=
  match list_items h vpoints_ with
  | Raise e => (h, Some (Raise e))
  | Ok [] => (h, Some (Ok (status, [])))
  | Ok items =>
      match inputs with
      | [] => (h, Some (Ok (status, [])))
      | _ =>
          match t_config_normalize h items status with
          | (h, Raise e) => (h, Some (Raise e))
          | (h, Ok (status, vlinks, joints)) =>
              match input_joints inputs (mkLoopState 0 0 status [] 0 0) with
              | Raise e => (h, Some (Raise e))
              | Ok s =>
                  let around := int32 (Z.of_nat (size (state_status s))) in
                  let env := mkLoopEnv joints vlinks (positions joints)
                               inputs (inputs.*2) around in
                  match t_config_loop (t_config_fuel around (state_status s)) env s with
                  | None => (h, None)
                  | Some (Raise e) => (h, Some (Raise e))
                  | Some (Ok s) => (h, Some (Ok (state_status s, exprs s)))
                  end
              end
          end
      end
  end.

End TConfig.
Arguments LoopEnv D : clear implicits.

(** ** The data collector and the solver ([tinycadlib.pyx]) *)

Section Solving.
Context {D : Type} {F : Float64 D}.
(** The C library's [math.h]. *)
Variables (cos sin : D -> D) (atan2 hypot : D -> D -> D) (M_PI : D).

(** A value of [data_dict] or of a string key of [mapping]: a coordinate
    or a number. *)
Inductive PyData : Type :=
  | Coord (c : D * D)
  | Num (v : D).

(** An item of the dictionary [mapping], whose keys are of three types:
    [{0: 'P0'}] names a joint, [{'P0': (10., 20.)}] specifies a position (or
    a number for a length symbol) and [{(a, b): 20.}] a link length.  The
    dictionary is the list of its items in insertion order; its keys are
    distinct. *)
Inductive MapItem : Type :=
  | ItemInt (k : Z) (v : string)
  | ItemStr (k : string) (v : PyData)
  | ItemPair (k : Z * Z) (v : D).

(** [mapping[i]] for an integer and for a string key. *)
Fixpoint mapping_int (mapping : list MapItem) (i : Z) : option string :=
  match mapping with
  | [] => None
  | ItemInt k v :: mapping => if (k =? i)%Z then Some v else mapping_int mapping i
  | _ :: mapping => mapping_int mapping i
  end.

Fixpoint mapping_str (mapping : list MapItem) (s : string) : option PyData :=
  match mapping with
  | [] => None
  | ItemStr k v :: mapping => if String.eqb k s then Some v else mapping_str mapping s
  | _ :: mapping => mapping_str mapping s
  end.

(** What the external solver is given: [p_data_dict], in insertion order. *)
Inductive PDataItem : Type :=
  | PPoint (i : Z) (v : PyData)
  | PLength (k : Z * Z) (v : D).

(** An entry of the result: the coordinate of a revolute joint, or the two
    coordinates of a slider. *)
Inductive SolvedPoint : Type :=
  | SolvedR (c : D * D)
  | SolvedSlider (c0 c1 : D * D).

(** [VPoint.slope_angle], which [expression.pyx] defines and the spec only
    names. *)
Variable slope_angle : VPoint.t D -> VPoint.t D -> Z -> Z -> D.
(** [vpoint_solving], the external numeric solver of [bfgs.pxd]. *)
Variable vpoint_solving :
  list (VPoint.t D) -> list PDataItem -> result (list SolvedPoint).

(** [frozenset({a, b})] as a key. *)
Definition frozenset (a b : Z) : Z * Z := (Z.min a b, Z.max a b).

(** The loop of [base_friend]: the first joint on the link. *)
Fixpoint base_friend_scan (link0 : string) (items : list (Z * VPoint.t D)) : Z :=
  match items with
  | [] => 0%Z
  | (i, vpoint) :: items =>
      if bool_decide (link0 ∈ VPoint.links vpoint) then i
      else base_friend_scan link0 items
  end.

(** [base_friend]; a [cdef int] function that reaches its end returns 0,
    and so does one that drops an exception: the function declares no
    [except] clause, and [vpoints[node]] out of range ends it with 0. *)
Definition base_friend (node : Z) (vpoints : list (VPoint.t D)) : Z :=
  match py_index vpoints node with
  | Raise _ => 0%Z
  | Ok vpoint_node =>
      match VPoint.links vpoint_node with
      | [] => 0%Z
      | link0 :: _ => base_friend_scan link0 (enumerate vpoints)
      end
  end.

(** [tuple_distance]: the distance between two tuple coordinates. *)
Definition tuple_distance (c1 c2 : D * D) : D :=
  distance hypot c1.1 c1.2 c2.1 c2.2.

(** The first loop of [data_collecting], for one joint: "VLinks", where a
    link holds the list of its joints. *)
Definition collect_links (vlinks : gmap string (list Z))
    (item : Z * VPoint.t D) : gmap string (list Z) :=
  let '(node, vpoint) := item in
  fold_left
    (fun vlinks link =>
       match vlinks !! link with
       | None => <[link := [node]]> vlinks
       | Some l => <[link := l ++ [node]]> vlinks
       end)
    (VPoint.links vpoint) vlinks.

(** Replace the P joints and their friends with RP joint: the body of the
    loop over [base], writing into the list at [vpoints]. *)
Definition data_collecting_replace (vlinks : gmap string (list Z))
    (vpoints : loc) (base : Z) (h : heap D) : heap D * result unit :=
  match bind (list_items h vpoints) (fun items =>
          bind (py_index items base) (load_vpoint h)) with
  | Raise e => (h, Raise e)
  | Ok vpoint =>
      if negb (VJoint.eqb (VPoint.type vpoint) VJoint.P) then (h, Ok tt)
      else
        hfor (tail (VPoint.links vpoint)) (fun link h =>
          match vlinks !! link with
          | None => (h, Raise KeyError)
          | Some members =>
              hfor members (fun node h =>
                match bind (list_items h vpoints) (fun items =>
                        bind (py_index items node) (load_vpoint h)) with
                | Raise e => (h, Raise e)
                | Ok vpoint_ =>
                    if (node =? base)%Z
                       || VJoint.eqb (VPoint.type vpoint_) VJoint.P
                       || VJoint.eqb (VPoint.type vpoint_) VJoint.RP
                    then (h, Ok tt)
                    else
                      let '(x, y) := VPoint.c0 vpoint_ in
                      let '(h, a) :=
                        alloc h (ObjVPoint (VPoint.c_slider_joint
                          (merged_links vpoint vpoint_) VJoint.RP
                          (VPoint.angle vpoint) x y)) in
                      match setitem h vpoints (Z.to_nat node) a with
                      | Ok h' => (h', Ok tt)
                      | Raise e => (h, Raise e)
                      end
                end) h
          end) h
  end.

(** The dictionaries [data_collecting] builds. *)
Record Collected : Type := mkCollected {
  mapping_r : gmap string Z;
  length_ : gmap (Z * Z) D;
  data_dict : gmap string PyData
}.

(** Reverse mapping, exclude specified link length: one item. *)
Definition reverse_item (mapping : list MapItem) (acc : Collected)
    (item : MapItem) : Collected :=
  match item with
  | ItemInt k v =>
      let mapping_r := <[v := k]> (mapping_r acc) in
      match mapping_str mapping v with
      | Some d => mkCollected mapping_r (length_ acc) (<[v := d]> (data_dict acc))
      | None => mkCollected mapping_r (length_ acc) (data_dict acc)
      end
  | ItemStr _ _ => acc
  | ItemPair (a, b) v =>
      mkCollected (mapping_r acc) (<[frozenset a b := v]> (length_ acc))
        (data_dict acc)
  end.

(** The list [pos] before the slider slots. *)
Definition joint_positions (vpoints : list (VPoint.t D)) : list (D * D) :=
  (fun vpoint => if VJoint.eqb (VPoint.type vpoint) VJoint.R
                 then VPoint.c0 vpoint else VPoint.c1 vpoint) <$> vpoints.

(** Add slider slot virtual coordinates: one joint. *)
Definition slider_slot (vpoints : list (VPoint.t D))
    (acc : list (D * D) * gmap string Z) (item : Z * VPoint.t D)
    : result (list (D * D) * gmap string Z) :=
  let '(i, vpoint) := item in
  let '(pos, mapping_r) := acc in
  (* PLPP dependents. *)
  if negb (VJoint.eqb (VPoint.type vpoint) VJoint.RP) then Ok acc
  else
    let bf := base_friend i vpoints in
    let* friend := py_index vpoints bf in
    let angle := radians M_PI
                   (VPoint.angle vpoint - slope_angle vpoint friend 1 0
                    + slope_angle vpoint friend 0 0)%D in
    let pos := pos ++ [(((VPoint.c1 vpoint).1 + cos angle)%D,
                        ((VPoint.c1 vpoint).2 + sin angle)%D)] in
    Ok (pos, <["S" +:+ pretty i := (Z.of_nat (length pos) - 1)%Z]> mapping_r).

Fixpoint slider_slots (vpoints : list (VPoint.t D))
    (items : list (Z * VPoint.t D)) (acc : list (D * D) * gmap string Z)
    : result (list (D * D) * gmap string Z) :=
  match items with
  | [] => Ok acc
  | item :: items =>
      let* acc := slider_slot vpoints acc item in
      slider_slots vpoints items acc
  end.

(** [mapping_r[name]]. *)
Definition mapping_r_get (mapping_r : gmap string Z) (name : string) : result Z :=
  or_raise (mapping_r !! name) KeyError.

(** [if name not in data_dict: data_dict[name] = pos[mapping_r[name]]]. *)
Definition collect_point (mapping_r : gmap string Z) (pos : list (D * D))
    (name : string) (data_dict : gmap string PyData)
    : result (gmap string PyData) :=
  match data_dict !! name with
  | Some _ => Ok data_dict
  | None =>
      let* i := mapping_r_get mapping_r name in
      let* c := py_index pos i in
      Ok (<[name := Coord c]> data_dict)
  end.

(** A link: the specified length of the pair, or else the distance of the
    two positions. *)
Definition collect_link (length_ : gmap (Z * Z) D) (pos : list (D * D))
    (a target : Z) (name : string) (data_dict : gmap string PyData)
    : result (gmap string PyData) :=
  match length_ !! frozenset a target with
  | Some len => Ok (<[name := Num len]> data_dict)
  | None =>
      let* ca := py_index pos a in
      let* ct := py_index pos target in
      Ok (<[name := Num (tuple_distance ca ct)]> data_dict)
  end.

(** X or Y of a PXY expression: the specified number, or else the offset
    of the two positions. *)
Definition collect_offset (mapping : list MapItem) (pos : list (D * D))
    (node target : Z) (name : string) (coord : D * D -> D)
    (data_dict : gmap string PyData) : result (gmap string PyData) :=
  match mapping_str mapping name with
  | Some d => Ok (<[name := d]> data_dict)
  | None =>
      let* ct := py_index pos target in
      let* cn := py_index pos node in
      Ok (<[name := Num (coord ct - coord cn)%D]> data_dict)
  end.

(** Add data to 'data_dict' and counting DOF: one expression. *)
Definition collect_expr (mapping : list MapItem) (mapping_r : gmap string Z)
    (length_ : gmap (Z * Z) D) (pos : list (D * D))
    (acc : gmap string PyData * Z) (expr : Expr)
    : result (gmap string PyData * Z) :=
  let '(data_dict, dof) := acc in
  let* node := mapping_r_get mapping_r (symbol_str (c1 expr)) in
  (* Point 1 *)
  let* data_dict := collect_point mapping_r pos (symbol_str (c1 expr)) data_dict in
  match func expr with
  | PLA =>
      let* target := mapping_r_get mapping_r (symbol_str (c2 expr)) in
      (* Link 1 *)
      let* data_dict :=
        collect_link length_ pos node target (symbol_str (v1 expr)) data_dict in
      (* Inputs *)
      Ok (data_dict, int32 (dof + 1))
  | PLAP =>
      let* target := mapping_r_get mapping_r (symbol_str (c3 expr)) in
      (* Link 1 *)
      let* data_dict :=
        collect_link length_ pos node target (symbol_str (v1 expr)) data_dict in
      (* Point 2 *)
      let* data_dict :=
        collect_point mapping_r pos (symbol_str (c2 expr)) data_dict in
      (* Inputs *)
      Ok (data_dict, int32 (dof + 1))
  | PLLP =>
      let* target := mapping_r_get mapping_r (symbol_str (c3 expr)) in
      (* Link 1 *)
      let* data_dict :=
        collect_link length_ pos node target (symbol_str (v1 expr)) data_dict in
      (* Link 2 *)
      let* node2 := mapping_r_get mapping_r (symbol_str (c2 expr)) in
      let* data_dict :=
        collect_link length_ pos node2 target (symbol_str (v2 expr)) data_dict in
      (* Point 2 *)
      let* data_dict :=
        collect_point mapping_r pos (symbol_str (c2 expr)) data_dict in
      Ok (data_dict, dof)
  | PLPP =>
      let* target := mapping_r_get mapping_r (symbol_str (c4 expr)) in
      (* Link 1 *)
      let* data_dict :=
        collect_link length_ pos node target (symbol_str (v1 expr)) data_dict in
      (* Point 2 *)
      let* data_dict :=
        collect_point mapping_r pos (symbol_str (c2 expr)) data_dict in
      Ok (data_dict, dof)
  | PXY =>
      let* target := mapping_r_get mapping_r (symbol_str (c2 expr)) in
      (* X *)
      let* data_dict :=
        collect_offset mapping pos node target (symbol_str (v1 expr)) fst data_dict in
      (* Y *)
      let* data_dict :=
        collect_offset mapping pos node target (symbol_str (v2 expr)) snd data_dict in
      Ok (data_dict, dof)
  end.

Fixpoint collect_exprs (mapping : list MapItem) (mapping_r : gmap string Z)
    (length_ : gmap (Z * Z) D) (pos : list (D * D)) (stack : EStack)
    (acc : gmap string PyData * Z) : result (gmap string PyData * Z) :=
  match stack with
  | [] => Ok acc
  | expr :: stack =>
      let* acc := collect_expr mapping mapping_r length_ pos acc expr in
      collect_exprs mapping mapping_r length_ pos stack acc
  end.

(** Other grounded R joints. *)
Fixpoint grounded_joints (mapping : list MapItem)
    (items : list (Z * VPoint.t D)) (data_dict : gmap string PyData)
    : result (gmap string PyData) :=
  match items with
  | [] => Ok data_dict
  | (i, vpoint) :: items =>
      if VPoint.grounded vpoint && VJoint.eqb (VPoint.type vpoint) VJoint.R then
        let* name := or_raise (mapping_int mapping i) KeyError in
        grounded_joints mapping items (<[name := Coord (VPoint.c0 vpoint)]> data_dict)
      else grounded_joints mapping items data_dict
  end.

(** The preprocessing of [data_collecting]: the copy [vpoints], "VLinks"
    and the replacement of the P joints' friends.  It returns the joints of
    [vpoints]. *)
Definition data_collecting_normalize (h : heap D) (vpoints_ : loc)
    : heap D * result (list (VPoint.t D)) :=
  (* vpoints will make a copy that we don't want to modified origin data. *)
  match list_copy h vpoints_ with
  | Raise e => (h, Raise e)
  | Ok (h, vpoints) =>
      match snapshot h vpoints with
      | Raise e => (h, Raise e)
      | Ok joints =>
          let vlinks := fold_left collect_links (enumerate joints) ∅ in
          match hfor (range (length joints))
                  (data_collecting_replace vlinks vpoints) h with
          | (h, Raise e) => (h, Raise e)
          | (h, Ok _) => (h, snapshot h vpoints)
          end
      end
  end.

(** [data_collecting]: data collecting process.  The result is the store,
    and [data_dict] and the consumed degrees of freedom when the call
    returns. *)
Definition data_collecting (h : heap D) (exprs : EStack)
    (mapping : list MapItem) (vpoints_ : loc)
    : heap D * result (gmap string PyData * Z) :=
  match data_collecting_normalize h vpoints_ with
  | (h, Raise e) => (h, Raise e)
  | (h, Ok joints) =>
      (h,
       let acc := fold_left (reverse_item mapping) mapping
                    (mkCollected ∅ ∅ ∅) in
       let* '(pos, mapping_r) :=
         slider_slots joints (enumerate joints)
           (joint_positions joints, mapping_r acc) in
       let* '(data_dict, dof) :=
         collect_exprs mapping mapping_r (length_ acc) pos exprs
           (data_dict acc, 0%Z) in
       let* data_dict :=
         grounded_joints mapping (enumerate joints) data_dict in
       Ok (data_dict, dof))
  end.

(** [x, y = data_dict[name]] and [data_dict[name]] as a [double]. *)
Definition get_coord (data_dict : gmap string PyData) (name : string)
    : result (D * D) :=
  match data_dict !! name with
  | None => Raise KeyError
  | Some (Coord c) => Ok c
  | Some (Num _) => Raise TypeError
  end.

Definition get_num (data_dict : gmap string PyData) (name : string) : result D :=
  match data_dict !! name with
  | None => Raise KeyError
  | Some (Num v) => Ok v
  | Some (Coord _) => Raise TypeError
  end.

(** One round of the loop of [expr_parser]. *)
Definition expr_parser_step (data_dict : gmap string PyData) (expr : Expr)
    : result (gmap string PyData) :=
  match func expr with
  | PLA =>
      let* '(x1, y1) := get_coord data_dict (symbol_str (c1 expr)) in
      let* d0 := get_num data_dict (symbol_str (v1 expr)) in
      let* a0 := get_num data_dict (symbol_str (v2 expr)) in
      Ok (<[symbol_str (c2 expr) :=
              Coord (plap cos sin atan2 (mkCoordinate x1 y1) d0 a0 None false)]>
            data_dict)
  | PLAP =>
      let* '(x1, y1) := get_coord data_dict (symbol_str (c1 expr)) in
      let* '(x2, y2) := get_coord data_dict (symbol_str (c2 expr)) in
      let* d0 := get_num data_dict (symbol_str (v1 expr)) in
      let* a0 := get_num data_dict (symbol_str (v2 expr)) in
      Ok (<[symbol_str (c3 expr) :=
              Coord (plap cos sin atan2 (mkCoordinate x1 y1) d0 a0
                       (Some (mkCoordinate x2 y2)) (op expr))]>
            data_dict)
  | PLLP =>
      let* '(x1, y1) := get_coord data_dict (symbol_str (c1 expr)) in
      let* '(x2, y2) := get_coord data_dict (symbol_str (c2 expr)) in
      let* d0 := get_num data_dict (symbol_str (v1 expr)) in
      let* d1 := get_num data_dict (symbol_str (v2 expr)) in
      Ok (<[symbol_str (c3 expr) :=
              Coord (pllp hypot (mkCoordinate x1 y1) d0 d1 (mkCoordinate x2 y2)
                       (op expr))]>
            data_dict)
  | PLPP =>
      let* '(x1, y1) := get_coord data_dict (symbol_str (c1 expr)) in
      let* '(x2, y2) := get_coord data_dict (symbol_str (c2 expr)) in
      let* '(x3, y3) := get_coord data_dict (symbol_str (c3 expr)) in
      let* d0 := get_num data_dict (symbol_str (v1 expr)) in
      Ok (<[symbol_str (c4 expr) :=
              Coord (plpp hypot (mkCoordinate x1 y1) d0 (mkCoordinate x2 y2)
                       (mkCoordinate x3 y3) (op expr))]>
            data_dict)
  | PXY =>
      let* '(x1, y1) := get_coord data_dict (symbol_str (c1 expr)) in
      let* dx := get_num data_dict (symbol_str (v1 expr)) in
      let* dy := get_num data_dict (symbol_str (v2 expr)) in
      Ok (<[symbol_str (c2 expr) := Coord (pxy (mkCoordinate x1 y1) dx dy)]>
            data_dict)
  end.

(** [expr_parser]: update data.  The function is declared [cpdef void]
    with no [except] clause: an exception raised in a round (a name that
    [data_dict] does not hold, a number where a coordinate is unpacked) is
    printed and dropped, and the function returns with the entries the
    rounds before it have written. *)
Fixpoint expr_parser (exprs : EStack) (data_dict : gmap string PyData)
    : gmap string PyData :=
  match exprs with
  | [] => data_dict
  | expr :: exprs =>
      match expr_parser_step data_dict expr with
      | Ok data_dict => expr_parser exprs data_dict
      | Raise _ => data_dict
      end
  end.

(** Check input pairs: one expression. *)
Definition check_input_pair (mapping_r : gmap string Z)
    (vpoints : list (VPoint.t D)) (expr : Expr) : result unit :=
  match func expr with
  | PLA | PLAP =>
      let* target :=
        mapping_r_get mapping_r
          (symbol_str match func expr with PLA => c2 expr | _ => c3 expr end) in
      let* base := mapping_r_get mapping_r (symbol_str (c1 expr)) in
      let* vbase := py_index vpoints base in
      if VPoint.grounded vbase then
        let* vtarget := py_index vpoints target in
        if VPoint.grounded vtarget then Raise (ValueError "wrong driver definition.")
        else Ok tt
      else Ok tt
  | _ => Ok tt
  end.

Fixpoint check_input_pairs (mapping_r : gmap string Z)
    (vpoints : list (VPoint.t D)) (stack : EStack) : result unit :=
  match stack with
  | [] => Ok tt
  | expr :: stack =>
      let* _ := check_input_pair mapping_r vpoints expr in
      check_input_pairs mapping_r vpoints stack
  end.

(** Angles. *)
Definition set_angles (angles : list D) (data_dict : gmap string PyData)
    : gmap string PyData :=
  fold_left
    (fun data_dict '(i, a) => <["a" +:+ pretty i := Num (radians M_PI a)]> data_dict)
    (enumerate angles) data_dict.

(** Add coordinate of known points: [p_data_dict] and [has_not_solved]. *)
Fixpoint known_points (mapping : list MapItem) (data_dict : gmap string PyData)
    (indices : list Z) (acc : list PDataItem * bool)
    : result (list PDataItem * bool) :=
  match indices with
  | [] => Ok acc
  | i :: indices =>
      let* name := or_raise (mapping_int mapping i) KeyError in
      match data_dict !! name with
      | Some d => known_points mapping data_dict indices (acc.1 ++ [PPoint i d], acc.2)
      | None => known_points mapping data_dict indices (acc.1, true)
      end
  end.

(** Add specified link lengths. *)
Definition specified_lengths (mapping : list MapItem) : list PDataItem :=
  omap (fun item => match item with
                    | ItemPair k v => Some (PLength k v)
                    | _ => None
                    end) mapping.

(** The entry the loop appends for joint [i]. *)
Definition solved_point (mapping : list MapItem)
    (data_dict : gmap string PyData) (solved_bfgs : option (list SolvedPoint))
    (i : Z) (vpoint : VPoint.t D) : result SolvedPoint :=
  let* name := or_raise (mapping_int mapping i) KeyError in
  match data_dict !! name with
  | Some d =>
      (* These points has been solved. *)
      let* c := match d with
                | Coord c => Ok c
                | Num _ => Raise TypeError
                end in
      if isnan c.1 then
        Raise (ValueError ("result contains failure: Point" +:+ pretty i))
      else if VJoint.eqb (VPoint.type vpoint) VJoint.R then Ok (SolvedR c)
      else Ok (SolvedSlider (VPoint.c0 vpoint) c)
  | None =>
      match solved_bfgs with
      | Some solved_bfgs =>
          (* These points solved by Sketch Solve. *)
          let* s := py_index solved_bfgs i in
          if VJoint.eqb (VPoint.type vpoint) VJoint.R then Ok s
          else
            (* (solved_bfgs[i][0], solved_bfgs[i][1]) *)
            Ok match s with
               | SolvedSlider c0 c1 => SolvedSlider c0 c1
               | SolvedR (x, y) => SolvedR (x, y)
               end
      | None =>
          (* No answer. *)
          if VJoint.eqb (VPoint.type vpoint) VJoint.R
          then Ok (SolvedR (VPoint.c0 vpoint))
          else Ok (SolvedSlider (VPoint.c0 vpoint) (VPoint.c1 vpoint))
      end
  end.

(** The last loop of [expr_solving]: the list [solved_points]. *)
Fixpoint solved_points (mapping : list MapItem)
    (data_dict : gmap string PyData) (solved_bfgs : option (list SolvedPoint))
    (items : list (Z * VPoint.t D)) : result (list SolvedPoint) :=
  match items with
  | [] => Ok []
  | (i, vpoint) :: items =>
      let* p := solved_point mapping data_dict solved_bfgs i vpoint in
      let* ps := solved_points mapping data_dict solved_bfgs items in
      Ok (p :: ps)
  end.

(** Reverse mapping, exclude specified link length. *)
Definition reverse_mapping (mapping : list MapItem) : gmap string Z :=
  fold_left (fun mapping_r item =>
               match item with
               | ItemInt k v => <[v := k]> mapping_r
               | _ => mapping_r
               end) mapping ∅.

(** [expr_solving] up to the last loop: the checks, the parser and the
    external solver.  It returns [data_dict] and [solved_bfgs]. *)
Definition expr_solving_stages (data_dict : gmap string PyData) (dof_input : Z)
    (exprs : EStack) (mapping : list MapItem) (vpoints : list (VPoint.t D))
    (angles : list D)
    : result (gmap string PyData * option (list SolvedPoint)) :=
  (* Check input number. *)
  let dof := vpoint_dof vpoints in
  if (dof_input >? dof)%Z then
    Raise (ValueError ("wrong number of input parameters: "
                       +:+ pretty dof_input +:+ " / " +:+ pretty dof))
  else
    (* Check input pairs. *)
    let* _ := check_input_pairs (reverse_mapping mapping) vpoints exprs in
    let data_dict := set_angles angles data_dict in
    (* Solve *)
    let data_dict := match exprs with
                     | [] => data_dict
                     | _ => expr_parser exprs data_dict
                     end in
    let* '(p_data_dict, has_not_solved) :=
      known_points mapping data_dict (range (length vpoints)) ([], false) in
    (* Calling Sketch Solve kernel and try to get the result. *)
    let* solved_bfgs :=
      if has_not_solved then
        match vpoint_solving vpoints (p_data_dict ++ specified_lengths mapping) with
        | Ok solved => Ok (Some solved)
        | Raise (ValueError _) =>
            Raise (ValueError "result contains failure from sketch solve")
        | Raise e => Raise e
        end
      else Ok None in
    Ok (data_dict, solved_bfgs).

(** [expr_solving]: solving function.  [angles = None] is the empty list.
    The result is the store, and the list of solved points when the call
    returns. *)
Definition expr_solving (h : heap D) (exprs : EStack) (mapping : list MapItem)
    (vpoints : loc) (angles : list D) : heap D * result (list SolvedPoint) :=
  match data_collecting h exprs mapping vpoints with
  | (h, Raise e) => (h, Raise e)
  | (h, Ok (data_dict, dof_input)) =>
      (h,
       let* joints := snapshot h vpoints in
       let* '(data_dict, solved_bfgs) :=
         expr_solving_stages data_dict dof_input exprs mapping joints angles in
       solved_points mapping data_dict solved_bfgs (enumerate joints))
  end.

End Solving.
Arguments PyData D : clear implicits.
Arguments MapItem D : clear implicits.
Arguments PDataItem D : clear implicits.
Arguments SolvedPoint D : clear implicits.
Arguments Collected D : clear implicits.

(** ** The ordered set ([graph_layout.pyx])

    An [OrderedSet] is a dictionary [map] from a key to its [Entry] and a
    doubly linked ring of the entries closed by the sentinel [end].  The
    model is the list of the keys from [end.next] to [end.prev]; [map]
    holds exactly these keys, so [elem in self] is membership in the
    list. *)

Section OrderedSet.
Context {K : Type} `{EqDecision K}.

Definition OrderedSet : Type := list K.

(** [__contains__]. *)
Definition contains (self : OrderedSet) (elem : K) : bool :=
  bool_decide (elem ∈ self).

(** [_add]: a key that is not in [map] is linked in before [end]. *)
Definition _add (oset : OrderedSet) (key : K) : OrderedSet :=
  if contains oset key then oset else oset ++ [key].

(** [_discard]: a key that is in [map] is unlinked. *)
Definition _discard (oset : OrderedSet) (key : K) : OrderedSet :=
  filter (fun k => k <> key) oset.

(** [__init__] on an iterable, and [_from_iterable]. *)
Definition OrderedSet_init (iterable : list K) : OrderedSet :=
  fold_left _add iterable [].

Definition _from_iterable (it : list K) : OrderedSet := OrderedSet_init it.

(** [__sub__]: an [other] that is not a [Set] is first made an ordered
    set. *)
Definition OrderedSet_sub (self other : OrderedSet) : OrderedSet :=
  let other := _from_iterable other in
  _from_iterable (filter (fun value => negb (contains other value)) self).

(** [__and__]. *)
Definition OrderedSet_and (self other : OrderedSet) : OrderedSet :=
  let other := _from_iterable other in
  _from_iterable (filter (fun value => contains other value) self).

(** [__or__]: the chain of both operands. *)
Definition OrderedSet_or (self other : OrderedSet) : OrderedSet :=
  _from_iterable (self ++ other).

(** [__ior__] and [update]. *)
Definition OrderedSet_ior (self : OrderedSet) (other : list K) : OrderedSet :=
  fold_left _add other self.

(** [reverse]: the keys in reversed order are added to the cleared set. *)
Definition OrderedSet_reverse (self : OrderedSet) : OrderedSet :=
  OrderedSet_ior [] (rev self).

(** [_isorderedsubset]. *)
Definition _isorderedsubset (seq1 seq2 : list K) : bool :=
  if negb (length seq1 <=? length seq2)%nat then false
  else forallb (fun '(self_elem, other_elem) => bool_decide (self_elem = other_elem))
         (zip seq1 seq2).

Definition isorderedsubset (self other : OrderedSet) : bool :=
  _isorderedsubset self other.

Definition isorderedsuperset (self other : OrderedSet) : bool :=
  _isorderedsubset other self.

End OrderedSet.
Arguments OrderedSet K : clear implicits.

(** ** Cycles ([graph_layout.pyx])

    [graph.pyx], which declares [Graph], is not among the sources; the
    code reads [graph.nodes] and [graph.adj]. *)

Record Graph : Type := mkGraph {
  nodes : list Z;
  adj : gmap Z (list Z)
}.

(** An element of the list [cycle_basis] returns: [cycles.append([z])]
    appends a list, [cycles.append(cycle)] an ordered set. *)
Inductive Cycle : Type :=
  | CycleList (l : list Z)
  | CycleSet (s : OrderedSet Z).

Section CycleBasis.
(** [set.pop] removes an arbitrary element: the one at position
    [pop_index s] (modulo the size) of the set [s]. *)
Variable pop_index : list Z -> nat.

Definition set_pop (s : list Z) : option (Z * list Z) :=
  let i := (pop_index s mod length s)%nat in
  match s !! i with
  | Some a => Some (a, delete i s)
  | None => None
  end.

(** What the walk of one component carries; the top of [stack] is its
    head. *)
Record Walk : Type := mkWalk {
  stack : list Z;
  pred : gmap Z Z;
  used : gmap Z (gset Z);
  cycles : list Cycle
}.

(** [while p not in pn: cycle.add(p); p = pred[p]], then [cycle.add(p)]. *)
Fixpoint close_cycle (fuel : nat) (pred : gmap Z Z) (pn : gset Z)
    (cycle : OrderedSet Z) (p : Z) : option (result (OrderedSet Z)) :=
  match fuel with
  | O => None
  | S fuel =>
      if bool_decide (p ∈ pn) then Some (Ok (_add cycle p))
      else
        match pred !! p with
        | None => Some (Raise KeyError)
        | Some p' => close_cycle fuel pred pn (_add cycle p) p'
        end
  end.

(** The body of [for nbr in graph.adj[z]]; the walk up the predecessors has
    [bound] rounds. *)
Definition visit (bound : nat) (z : Z) (w : Walk) (nbr : Z)
    : option (result Walk) :=
  match used w !! nbr with
  | None =>
      (* new node *)
      Some (Ok (mkWalk (nbr :: stack w) (<[nbr := z]> (pred w))
                  (<[nbr := {[z]}]> (used w)) (cycles w)))
  | Some pn =>
      if (nbr =? z)%Z then
        (* self loops *)
        Some (Ok (mkWalk (stack w) (pred w) (used w) (cycles w ++ [CycleList [z]])))
      else
        match used w !! z with
        | None => Some (Raise KeyError)
        | Some zused =>
            if bool_decide (nbr ∈ zused) then Some (Ok w)
            else
              (* found a cycle *)
              match pred w !! z with
              | None => Some (Raise KeyError)
              | Some p =>
                  match close_cycle bound (pred w) pn (OrderedSet_init [nbr; z]) p with
                  | None => None
                  | Some (Raise e) => Some (Raise e)
                  | Some (Ok cycle) =>
                      Some (Ok (mkWalk (stack w) (pred w)
                                  (<[nbr := pn ∪ {[z]}]> (used w))
                                  (cycles w ++ [CycleSet cycle])))
                  end
              end
        end
  end.

Fixpoint visit_all (bound : nat) (z : Z) (nbrs : list Z) (w : Walk)
    : option (result Walk) :=
  match nbrs with
  | [] => Some (Ok w)
  | nbr :: nbrs =>
      match visit bound z w nbr with
      | Some (Ok w) => visit_all bound z nbrs w
      | r => r
      end
  end.

(** [while stack]: walk the spanning tree finding cycles. *)
Fixpoint walk (fuel bound : nat) (graph : Graph) (w : Walk)
    : option (result Walk) :=
  match fuel with
  | O => None
  | S fuel =>
      match stack w with
      | [] => Some (Ok w)
      | z :: rest =>
          (* use last-in so cycles easier to find *)
          let w := mkWalk rest (pred w) (used w) (cycles w) in
          match used w !! z with
          | None => Some (Raise KeyError)
          | Some _ =>
              match adj graph !! z with
              | None => Some (Raise KeyError)
              | Some nbrs =>
                  match visit_all bound z nbrs w with
                  | Some (Ok w) => walk fuel bound graph w
                  | r => r
                  end
              end
          end
      end
  end.

(** [while g_nodes]: loop over connected components. *)
Fixpoint components (fuel bound : nat) (graph : Graph) (g_nodes : list Z)
    (cycles : list Cycle) : option (result (list Cycle)) :=
  match fuel with
  | O => None
  | S fuel =>
      match set_pop g_nodes with
      | None => Some (Ok cycles)
      | Some (root, g_nodes) =>
          match walk bound bound graph
                  (mkWalk [root] {[root := root]} {[root := ∅]} cycles) with
          | None => None
          | Some (Raise e) => Some (Raise e)
          | Some (Ok (mkWalk _ pred _ cycles)) =>
              (* g_nodes -= set(pred) *)
              components fuel bound graph
                (filter (fun n => pred !! n = None) g_nodes) cycles
          end
      end
  end.

(** The rounds given to each loop of [cycle_basis]: more than the nodes
    and the adjacency entries of the graph together. *)
Definition graph_size (graph : Graph) : nat :=
  S (length (nodes graph)
     + map_fold (fun _ nbrs n => (length nbrs + n)%nat) 0%nat (adj graph)).

(** [cycle_basis]: a list of cycles which form a basis for cycles of G;
    [None] when the rounds do not suffice. *)
Definition cycle_basis (graph : Graph) : option (result (list Cycle)) :=
  components (graph_size graph) (graph_size graph) graph
    (remove_dups (nodes graph)) [].

(** The [for c2 in cycles] loop of [outer_loop]: the index of the first
    cycle that shares two nodes with [c1], and that cycle, reversed when
    both cycles have the same direction. *)
Fixpoint find_contact (c1 : OrderedSet Z) (cycles : list Cycle) (i : nat)
    : result (nat * OrderedSet Z) :=
  match cycles with
  | [] =>
      (* No contacted. *)
      Raise (ValueError "Invalid graph")
  | CycleList _ :: _ => Raise TypeError
  | CycleSet c2 :: cycles =>
      let c3 := OrderedSet_and c1 c2 in
      if (2 <=? length c3)%nat then
        if Bool.eqb (isorderedsuperset c1 c3) (isorderedsuperset c2 c3) then
          (* Cycle 1 and cycle 2 has same direction. *)
          Ok (i, OrderedSet_reverse c2)
        else Ok (i, c2)
      else find_contact c1 cycles (S i)
  end.

(** [==] between two elements of [cycles]. *)
Definition cycle_eqb (a b : Cycle) : bool :=
  match a, b with
  | CycleSet s, CycleSet s' | CycleSet s, CycleList s'
  | CycleList s, CycleSet s' | CycleList s, CycleList s' => bool_decide (s = s')
  end.

(** [list.remove]: the first element equal to [c] is removed. *)
Fixpoint list_remove (c : Cycle) (l : list Cycle) : list Cycle :=
  match l with
  | [] => []
  | a :: l => if cycle_eqb a c then l else a :: list_remove c l
  end.

(** [while len(cycles) > 1]. *)
Fixpoint merge_cycles (fuel : nat) (cycles : list Cycle) : option (result (list Cycle)) :=
  match fuel with
  | O => None
  | S fuel =>
      if (length cycles <=? 1)%nat then Some (Ok cycles)
      else
        match reverse cycles with
        | CycleSet c1 :: rest =>
            let cycles := reverse rest in
            match find_contact c1 cycles 0 with
            | Raise e => Some (Raise e)
            | Ok (i, c2) =>
                let cycles := <[i := CycleSet c2]> cycles in
                let cycles := list_remove (CycleSet c2) cycles in
                merge_cycles fuel (cycles ++ [CycleSet (OrderedSet_or c1 c2)])
            end
        | _ => Some (Raise TypeError)
        end
  end.

(** [outer_loop]: nodes of outer loop. *)
Definition outer_loop (graph : Graph) : option (result (OrderedSet Z)) :=
  match cycle_basis graph with
  | None => None
  | Some (Raise e) => Some (Raise e)
  | Some (Ok cycles) =>
      match merge_cycles (S (length cycles)) cycles with
      | None => None
      | Some (Raise e) => Some (Raise e)
      | Some (Ok cycles) =>
          match reverse cycles with
          | CycleSet c :: _ => Some (Ok c)
          | CycleList _ :: _ => Some (Raise TypeError)
          | [] => Some (Raise IndexError)
          end
      end
  end.

End CycleBasis.

(** ** The ordered set: the other methods ([graph_layout.pyx]) *)

(** The right operand of an in-place operator: the set itself
    ([other is self]) or an iterable, given by the order of its
    iteration. *)
Inductive Operand (K : Type) : Type :=
  | Itself
  | Iterable (it : list K).
Arguments Itself {K}.
Arguments Iterable {K} it.

Section OrderedSetMethods.
Context {K : Type} `{EqDecision K}.

(** [add] and [discard]. *)
Definition OrderedSet_add (self : OrderedSet K) (elem : K) : OrderedSet K :=
  _add self elem.

Definition OrderedSet_discard (self : OrderedSet K) (elem : K) : OrderedSet K :=
  _discard self elem.

(** [_getindex]: the key at [index]; a negative index counts from the end.
    The walk along [next] (or [prev]) is the position in the list. *)
Definition _getindex (self : OrderedSet K) (index : Z) : result K :=
  let _len := Z.of_nat (length self) in
  if (_len <=? index)%Z || ((index <? 0)%Z && (_len <? Z.abs index)%Z) then
    Raise IndexError
  else if (0 <=? index)%Z then
    or_raise (self !! Z.to_nat index) IndexError
  else
    let index := (Z.abs index - 1)%Z in
    or_raise (rev self !! Z.to_nat index) IndexError.

(** [pop]: remove and return the element at [index] (the last one by
    default); [KeyError] if the set is empty.  [index] is a C [int], and
    for the subscript [self[index]] of a C integer Cython first adds the
    length to a negative index (its wraparound) and then calls
    [__getitem__], where [_getindex] counts an index that is still
    negative from the end once more. *)
Definition OrderedSet_pop (self : OrderedSet K) (index : Z)
    : result (K * OrderedSet K) :=
  match self with
  | [] => Raise KeyError
  | _ =>
      let index :=
        if (index <? 0)%Z then (index + Z.of_nat (length self))%Z else index in
      let* key := _getindex self index in
      Ok (key, _discard self key)
  end.

(** [remove].  The function is declared [cpdef void] with no [except]
    clause: the [KeyError] it raises for an [elem] that is not in the set
    is printed and dropped, and the call returns with the set as it is. *)
Definition OrderedSet_remove (self : OrderedSet K) (elem : K) : OrderedSet K :=
  if negb (contains self elem) then self
  else _discard self elem.

(** [clear]. *)
Definition OrderedSet_clear (self : OrderedSet K) : OrderedSet K := [].

(** [copy]. *)
Definition OrderedSet_copy (self : OrderedSet K) : OrderedSet K :=
  _from_iterable self.

(** [__isub__]. *)
Definition OrderedSet_isub (self : OrderedSet K) (other : Operand K)
    : OrderedSet K :=
  match other with
  | Itself => OrderedSet_clear self
  | Iterable other => fold_left OrderedSet_discard other self
  end.

(** [__iand__]: the values of [self - it] are discarded. *)
Definition OrderedSet_iand (self : OrderedSet K) (it : list K) : OrderedSet K :=
  fold_left OrderedSet_discard (OrderedSet_sub self it) self.

(** [isdisjoint]. *)
Fixpoint isdisjoint (self : OrderedSet K) (other : list K) : bool :=
  match other with
  | [] => true
  | value :: other => if contains self value then false else isdisjoint self other
  end.

(** [__xor__]. *)
Definition OrderedSet_xor (self other : OrderedSet K) : OrderedSet K :=
  OrderedSet_or (OrderedSet_sub self other) (OrderedSet_sub other self).

(** [__ixor__]: an [other] that is not a [Set] is first made an ordered
    set; each of its values is discarded if it is in the set and added
    otherwise. *)
Definition OrderedSet_ixor (self : OrderedSet K) (other : Operand K)
    : OrderedSet K :=
  match other with
  | Itself => OrderedSet_clear self
  | Iterable other =>
      fold_left (fun self value =>
                   if contains self value then OrderedSet_discard self value
                   else OrderedSet_add self value)
        (_from_iterable other) self
  end.

(** [union], [update] and [intersection]. *)
Definition OrderedSet_union (self other : OrderedSet K) : OrderedSet K :=
  OrderedSet_or self other.

Definition OrderedSet_update (self : OrderedSet K) (other : list K) : OrderedSet K :=
  OrderedSet_ior self other.

Definition OrderedSet_intersection (self other : OrderedSet K) : OrderedSet K :=
  OrderedSet_and self other.

(** The loop of [index]: [while curr.key != elem]. *)
Fixpoint index_walk (curr : list K) (elem : K) (index : Z) : option Z :=
  match curr with
  | [] => None
  | key :: next =>
      if decide (key = elem) then Some index
      else index_walk next elem (index + 1)
  end.

(** [index].  The function is declared [cpdef int] with no [except]
    clause: the [ValueError] it raises for an [elem] that is not in the
    set is printed and dropped, and the call returns 0. *)
Definition OrderedSet_index (self : OrderedSet K) (elem : K) : Z :=
  if negb (contains self elem) then 0%Z
  else default 0%Z (index_walk self elem 0).

(** [__eq__] with an ordered set or a list. *)
Definition OrderedSet_eq (self : OrderedSet K) (other : list K) : bool :=
  (length self =? length other)%nat && bool_decide (self = other).

End OrderedSetMethods.

(** ** The layout ([graph_layout.pyx]) *)

(** The exceptions of the layout: those of the ordered set and of the
    cycles, and the division by zero that Cython checks. *)
Inductive LayoutError : Type :=
  | PyError (e : PyErr)
  | ZeroDivisionError.

Inductive outcome (A : Type) : Type :=
  | Returns (a : A)
  | Fails (e : LayoutError).
Arguments Returns {A} a.
Arguments Fails {A} e.

Definition of_result {A : Type} (r : result A) : outcome A :=
  match r with
  | Ok a => Returns a
  | Raise e => Fails (PyError e)
  end.

Definition outcome_bind {A B : Type} (r : outcome A) (k : A -> outcome B)
    : outcome B :=
  match r with
  | Returns a => k a
  | Fails e => Fails e
  end.

(** [dict.update] with a sequence of pairs, and [zip]. *)
Definition dict_update {V : Type} (d : gmap Z V) (pairs : list (Z * V)) : gmap Z V :=
  fold_left (fun d '(k, v) => <[k := v]> d) pairs d.

Section Layout.
Context {D : Type} {F : Float64 D}.
Variables (cos sin : D -> D) (M_PI : D).
(** [set.pop] and the order in which a [set] is iterated. *)
Variable pop_index : list Z -> nat.
Variable set_order : list Z -> list Z.
Local Open Scope double_scope.

(** The loop of [regular_polygon_pos]. *)
Fixpoint regular_polygon_loop (rounds : nat) (angle angle_step : D) : list (D * D) :=
  match rounds with
  | O => []
  | S rounds =>
      (dlit 10 * cos angle, dlit 10 * sin angle)
        :: regular_polygon_loop rounds (angle - angle_step) angle_step
  end.

(** [regular_polygon_pos]: position of a regular polygon with radius 10,
    start from bottom with clockwise. *)
Definition regular_polygon_pos (edge_count : Z) : outcome (list (D * D)) :=
  let angle := M_PI * dlit 3 / dlit 2 in
  if (edge_count =? 0)%Z then Fails ZeroDivisionError
  else
    let angle_step := dlit 2 * M_PI / dlit edge_count in
    Returns (regular_polygon_loop (Z.to_nat edge_count) angle angle_step).

(** [linear_layout]: layout position decided by equal division between two
    points. *)
Definition linear_layout (c0 c1 : D * D) (count : Z) : outcome (list (D * D)) :=
  if (count <? 1)%Z then
    Fails (PyError (ValueError ("Invalid point number " +:+ pretty count)))
  else
    let count := int32 (count + 1) in
    if (count =? 0)%Z then Fails ZeroDivisionError
    else
      let sx := (c1.1 - c0.1) / dlit count in
      let sy := (c1.2 - c0.2) / dlit count in
      Returns ((fun i : Z => (c0.1 + dlit i * sx, c0.2 + dlit i * sy))
                 <$> (Z.succ <$> range (Z.to_nat (count - 1)))).

(** What the loop of [outer_loop_layout] carries. *)
Record LayoutState : Type := mkLayoutState {
  layout_nodes : OrderedSet Z;
  layout_line : OrderedSet Z;
  used_nodes : OrderedSet Z;
  layout_pos : gmap Z (D * D)
}.

(** One round of [while nodes], the set being not empty. *)
Definition outer_loop_layout_step (g : Graph) (o_loop : OrderedSet Z)
    (s : LayoutState) : outcome LayoutState :=
  outcome_bind (of_result (OrderedSet_pop (layout_nodes s) 0)) (fun '(n, nodes) =>
  outcome_bind (of_result (or_raise (adj g !! n) KeyError)) (fun adj_n =>
  let neighbors := OrderedSet_init adj_n in
  let intersection :=
    OrderedSet_and neighbors (OrderedSet_or (used_nodes s) (layout_line s)) in
  match intersection with
  | [] =>
      (* Not contacted yet. *)
      Returns (mkLayoutState (OrderedSet_add nodes n) (layout_line s)
                 (used_nodes s) (layout_pos s))
  | _ =>
      let line := OrderedSet_add (layout_line s) n in
      let new_neighbors := OrderedSet_sub neighbors intersection in
      outcome_bind
        (match new_neighbors with
         | _ :: _ =>
             (* New nodes to add. *)
             outcome_bind (of_result (OrderedSet_pop new_neighbors (-1)))
               (fun '(new, _) =>
                  Returns (OrderedSet_add line new, used_nodes s, layout_pos s))
         | [] =>
             (* Line is ended. *)
             let intersection := OrderedSet_and line o_loop in
             outcome_bind (of_result (OrderedSet_pop intersection (-1)))
               (fun '(start, intersection) =>
             outcome_bind (of_result (OrderedSet_pop intersection (-1)))
               (fun '(end_, _) =>
             outcome_bind (of_result (or_raise (layout_pos s !! start) KeyError))
               (fun pos_start =>
             outcome_bind (of_result (or_raise (layout_pos s !! end_) KeyError))
               (fun pos_end =>
             outcome_bind
               (linear_layout pos_start pos_end (Z.of_nat (length line)))
               (fun layout =>
                  Returns (OrderedSet_clear line,
                           OrderedSet_update (used_nodes s) line,
                           dict_update (layout_pos s) (zip line layout)))))))
         end)
        (fun '(line, used, pos) =>
           (* [n] was popped: [remove] drops its [KeyError]. *)
           Returns (mkLayoutState (OrderedSet_remove nodes n) line used pos))
  end)).

(** [while nodes]: layout for inner nodes of graph block. *)
Fixpoint outer_loop_layout_loop (fuel : nat) (g : Graph) (o_loop : OrderedSet Z)
    (s : LayoutState) : option (outcome (gmap Z (D * D))) :=
  match fuel with
  | O => None
  | S fuel =>
      match layout_nodes s with
      | [] => Some (Returns (layout_pos s))
      | _ =>
          match outer_loop_layout_step g o_loop s with
          | Returns s => outer_loop_layout_loop fuel g o_loop s
          | Fails e => Some (Fails e)
          end
      end
  end.

(** [outer_loop_layout]: layout position decided by outer loop; [None]
    when the rounds of a loop do not suffice. *)
Definition outer_loop_layout (fuel : nat) (g : Graph)
    : option (outcome (gmap Z (D * D))) :=
  match outer_loop pop_index g with
  | None => None
  | Some (Raise e) => Some (Fails (PyError e))
  | Some (Ok o_loop) =>
      match regular_polygon_pos (Z.of_nat (length o_loop)) with
      | Fails e => Some (Fails e)
      | Returns outer_pos =>
          (* Match the outer loop. *)
          let pos := dict_update ∅ (zip o_loop outer_pos) in
          (* Find other connections from edges. *)
          let line := OrderedSet_init [] in
          let nodes := OrderedSet_sub (set_order (remove_dups (nodes g))) o_loop in
          let used_nodes := OrderedSet_copy o_loop in
          outer_loop_layout_loop fuel g o_loop
            (mkLayoutState nodes line used_nodes pos)
      end
  end.

End Layout.
Arguments LayoutState D : clear implicits.

(** ** The stack as a list ([triangulation.pyx]) *)

(** The tuple that [as_list] appends for one expression, as the list of
    its strings. *)
Definition as_list_tuple (expr : Expr) : list string :=
  match func expr with
  | PLA =>
      ["PLAP"; symbol_str (c1 expr); symbol_str (v1 expr); symbol_str (v2 expr);
       symbol_str (c2 expr)]
  | PLAP =>
      ["PLAP"; symbol_str (c1 expr); symbol_str (v1 expr); symbol_str (v2 expr);
       symbol_str (c2 expr); symbol_str (c3 expr)]
  | PLLP =>
      ["PLLP"; symbol_str (c1 expr); symbol_str (v1 expr); symbol_str (v2 expr);
       symbol_str (c2 expr); symbol_str (c3 expr)]
  | PLPP =>
      ["PLPP"; symbol_str (c1 expr); symbol_str (v1 expr); symbol_str (c2 expr);
       symbol_str (c3 expr); symbol_str (c4 expr)]
  | PXY =>
      ["PXY"; symbol_str (c1 expr); symbol_str (v1 expr); symbol_str (v2 expr);
       symbol_str (c2 expr)]
  end%string.

(** [EStack.as_list]: copy the dataset as list object. *)
Definition as_list (self : EStack) : list (list string) :=
  fold_left (fun stack expr => stack ++ [as_list_tuple expr]) self [].

(* ===================================================================== *)
(** * Part II: the notions of the statements *)
(* ===================================================================== *)

(** ** Degrees of freedom, as a formula *)

Section DofFormula.
Context {D : Type}.
Implicit Types (vpoint : VPoint.t D) (vpoints : list (VPoint.t D)).
Local Open Scope Z_scope.

(** The count as the specification words it: a joint has at least two
    link memberships. *)
Definition memberships vpoint : Z := Z.of_nat (length (VPoint.links vpoint)).

Definition is_joint vpoint : bool := (2 <=? memberships vpoint).

(** The distinct links on the joints, with the ground link. *)
Definition dof_links vpoints : gset string :=
  {["ground"%string]} ∪
  ⋃ ((fun vpoint => list_to_set (VPoint.links vpoint)) <$> filter is_joint vpoints).

(** What a joint adds to [j1] and to [j2]. *)
Definition dof_j1_of vpoint : Z :=
  match VPoint.type vpoint with
  | VJoint.R => memberships vpoint - 1
  | VJoint.P => 1 + Z.max 0 (memberships vpoint - 2)
  | VJoint.RP => Z.max 0 (memberships vpoint - 2)
  end.

Definition dof_j2_of vpoint : Z :=
  match VPoint.type vpoint with
  | VJoint.RP => 1
  | _ => 0
  end.

Definition sumZ (l : list Z) : Z := foldr Z.add 0 l.

Definition dof_j1 vpoints : Z := sumZ (dof_j1_of <$> filter is_joint vpoints).

Definition dof_j2 vpoints : Z := sumZ (dof_j2_of <$> filter is_joint vpoints).

Definition dof_formula vpoints : Z :=
  3 * (Z.of_nat (size (dof_links vpoints)) - 1) - 2 * dof_j1 vpoints - dof_j2 vpoints.

(** All link memberships of a mechanism. *)
Definition total_memberships vpoints : Z := sumZ (memberships <$> vpoints).

End DofFormula.

(** A four-bar linkage: four revolute joints, two of them on the ground. *)
Definition fourbar_dof : list (VPoint.t unit) :=
  [VPoint.mk ["ground"; "L0"]%string VJoint.R tt tt tt (tt, tt) (tt, tt);
   VPoint.mk ["L0"; "L1"]%string VJoint.R tt tt tt (tt, tt) (tt, tt);
   VPoint.mk ["L1"; "L2"]%string VJoint.R tt tt tt (tt, tt) (tt, tt);
   VPoint.mk ["ground"; "L2"]%string VJoint.R tt tt tt (tt, tt) (tt, tt)].

(** ** The main loop of the synthesizer *)

(** Two dictionaries with the same keys. *)
Definition same_keys (st st' : gmap Z bool) : Prop :=
  forall k, is_Some (st' !! k) <-> is_Some (st !! k).

Section LoopMeasure.
Context {D : Type}.
Local Open Scope Z_scope.

(** A successful placement: the joint is solved, no key is added and
    [skip_times] is reset or kept. *)
Definition placed (s s' : LoopState) : Prop :=
  same_keys (status s) (status s') /\
  (unsolved (status s') < unsolved (status s))%nat /\
  (skip_times s' = 0 \/ skip_times s' = skip_times s).

(** What decreases in every round: the joints that are not solved, then the
    rounds left before [skip_times] reaches [around], then a round that
    only resets [node]. *)
Definition loop_measure (env : LoopEnv D) (s : LoopState) : nat :=
  (unsolved (status s) * (2 * Z.to_nat (around env) + 2)
   + 2 * Z.to_nat (around env - skip_times s)
   + match status s !! node s with Some _ => 0 | None => 1 end)%nat.

(** What holds in every round: joint 0 has a status, and the counters are
    in range. *)
Definition loop_inv (env : LoopEnv D) (s : LoopState) : Prop :=
  is_Some (status s !! 0) /\ 0 <= skip_times s /\ around env < 2 ^ 31.

End LoopMeasure.

(** ** The errors of the solver *)

(** The exceptions of a failed subscript, lookup or unpacking. *)
Definition plain (e : PyErr) : Prop :=
  match e with
  | ValueError _ => False
  | _ => True
  end.

(** An expression that consumes a degree of freedom. *)
Definition is_input (expr : Expr) : bool :=
  match func expr with
  | PLA | PLAP => true
  | _ => false
  end.

(** The number of PLA and PLAP expressions of a stack. *)
Definition count_inputs (stack : EStack) : Z :=
  Z.of_nat (length (filter is_input stack)).

(** The error of the check of the input number. *)
Definition wrong_number (dof_input dof : Z) : PyErr :=
  ValueError ("wrong number of input parameters: "
              +:+ pretty dof_input +:+ " / " +:+ pretty dof).

(** An error whose message is that of the check of the input number. *)
Definition wrong_number_error (e : PyErr) : Prop :=
  match e with
  | ValueError msg => String.prefix "wrong number of input parameters: " msg = true
  | _ => False
  end.

(** The error of a closed-form coordinate that is NaN. *)
Definition point_failure (i : Z) : PyErr :=
  ValueError ("result contains failure: Point" +:+ pretty i).

Section ClosedForm.
Context {D : Type}.

(** The closed-form entry of joint [i]: its name in [mapping] is a key of
    [data_dict], with a coordinate. *)
Definition closed_form (mapping : list (MapItem D)) (dd : gmap string (PyData D))
    (i : Z) (c : D * D) : Prop :=
  exists name, mapping_int mapping i = Some name /\ dd !! name = Some (Coord c).

(** The entry of the result for a joint with the closed-form coordinate
    [c]. *)
Definition resolved (vpoint : VPoint.t D) (c : D * D) : SolvedPoint D :=
  if VJoint.eqb (VPoint.type vpoint) VJoint.R then SolvedR c
  else SolvedSlider (VPoint.c0 vpoint) c.

End ClosedForm.

(** ** Circles in the real plane *)

Section Circles.
Local Open Scope R_scope.

(** A coordinate with real components. *)
Definition xc (a b : R) : Coordinate xreal := mkCoordinate (XR a) (XR b).

(** The distance of two points of the real plane. *)
Definition rdist (x1 y1 x2 y2 : R) : R :=
  sqrt ((x2 - x1) * (x2 - x1) + (y2 - y1) * (y2 - y1)).

(** The circles of radii [d0] and [d1] whose centers are [d] apart are
    separate, nested or coincident. *)
Definition circles_fail (d d0 d1 : R) : Prop :=
  d0 + d1 < d \/ d < Rabs (d0 - d1) \/ (d = 0 /\ d0 = d1).

(** Twice the signed area of the triangle [c1], [c2], [p]: positive when
    [p] is on the left of the line from [c1] to [c2], negative on the
    right, zero on the line. *)
Definition side (x1 y1 x2 y2 px py : R) : R :=
  (x2 - x1) * (py - y1) - (y2 - y1) * (px - x1).

End Circles.

(** One of the three tests of [pllp] holds for the distance [d] of the
    centers, as the arithmetic of [D] computes them. *)
Definition pllp_test_fires {D : Type} {F : Float64 D} (d d0 d1 : D) : Prop :=
  (d >? d0 + d1)%D = true \/
  (d <? dabs (d0 - d1))%D = true \/
  ((d =? dlit 0)%D = true /\ (d0 =? d1)%D = true).

(** ** Example mechanisms *)

(** A revolute joint at a position. *)
Definition revolute (links : list string) (px py : float) : VPoint.t float :=
  VPoint.mk links VJoint.R 0%float px py (px, py) (px, py).

(** A prismatic joint at a position. *)
Definition prismatic (links : list string) (angle px py : float) : VPoint.t float :=
  VPoint.mk links VJoint.P angle px py (px, py) (px, py).

(** The store of a caller who holds the list of the given joints: the
    joints, then the list. *)
Definition store_of (joints : list (VPoint.t float)) : heap float :=
  (ObjVPoint <$> joints) ++ [ObjList (seq 0 (length joints))].

(** Joint 3 is placed from the grounded joints 1 and 2, joint 0 is driven
    from joint 3, and joint 5 hangs on joint 0 and the grounded joint 4. *)
Definition driven_from_a_floating_joint : list (VPoint.t float) :=
  [revolute ["L5"; "L3"] 5 15;
   revolute ["ground"; "L1"] 0 0;
   revolute ["ground"; "L2"] 10 0;
   revolute ["L1"; "L2"; "L5"] 5 5;
   revolute ["ground"; "L4"] 20 0;
   revolute ["L3"; "L4"] 20 10]%float%string.

(** A prismatic joint that is not on the ground, and a revolute joint on
    its second link. *)
Definition floating_slider : list (VPoint.t float) :=
  [prismatic ["L1"; "L2"] 0 0 0;
   revolute ["L2"; "L3"] 10 0]%float%string.

(** ** Rings, polygons and the two triangles *)

Section Rings.
Implicit Types (r a z : Z) (done todo path : list Z) (g : Graph).

(** The dictionaries [pred] and [used] once the root [r] has been visited
    and the walk has gone through [done] (the last node first): [a] is the
    neighbour of the root that waits on the stack. *)
Fixpoint preds r a done : gmap Z Z :=
  match done with
  | [] => <[a := r]> {[r := r]}
  | z :: done => <[z := hd r done]> (preds r a done)
  end.

Fixpoint useds r a done : gmap Z (gset Z) :=
  match done with
  | [] => <[a := {[r]}]> {[r := ∅]}
  | z :: done => <[z := {[hd r done]}]> (useds r a done)
  end.

(** The adjacency of the nodes of a path that comes from [prev] and goes on
    to [a]: each node has its two neighbours on the path, in either
    order. *)
Fixpoint chain g (prev : Z) path a : Prop :=
  match path with
  | [] => True
  | y :: ys =>
      (adj g !! y = Some [prev; hd a ys] \/ adj g !! y = Some [hd a ys; prev]) /\
      chain g y ys a
  end.

(** A graph that is one ring through the root [r]: the adjacency of the
    root names [a] first, [path] leads from the other neighbour of the
    root round to [a], and each node has its two neighbours on the ring, in
    either order. *)
Definition ring g r a path : Prop :=
  NoDup (r :: a :: path) /\
  path <> [] /\
  adj g !! r = Some [a; hd r path] /\
  chain g r path a /\
  (adj g !! a = Some [hd r (rev path); r] \/
   adj g !! a = Some [r; hd r (rev path)]) /\
  (forall x, x ∈ nodes g <-> x ∈ r :: a :: path).

End Rings.

(** A polygon of [n] nodes: the nodes are [cyc 0], ..., [cyc (n - 1)], all
    different, and the adjacency of each names the node before it and the
    node after it on the polygon, in either order. *)
Definition polygon (g : Graph) (n : Z) (cyc : Z -> Z) : Prop :=
  (3 <= n)%Z /\
  (forall i j, (0 <= i < n)%Z -> (0 <= j < n)%Z -> cyc i = cyc j -> i = j) /\
  (forall v, v ∈ nodes g <-> exists i, (0 <= i < n)%Z /\ v = cyc i) /\
  (forall i, (0 <= i < n)%Z ->
     adj g !! cyc i = Some [cyc ((i - 1) mod n)%Z; cyc ((i + 1) mod n)%Z] \/
     adj g !! cyc i = Some [cyc ((i + 1) mod n)%Z; cyc ((i - 1) mod n)%Z]).

(** The node at [j] steps from the root [cyc i] in the direction [s]. *)
Definition node_at (n : Z) (cyc : Z -> Z) (i s : Z) (j : Z) : Z :=
  cyc ((i + s * j) mod n)%Z.

(** The nodes of the polygon after the root, up to the last but one. *)
Definition ring_path (n : Z) (cyc : Z -> Z) (i s : Z) : list Z :=
  (fun k : nat => node_at n cyc i s (Z.of_nat k)) <$> seq 1 (Z.to_nat (n - 2)).

(** The triangles [0 1 2] and [1 2 3], which share the edge [1 2]; the
    adjacency of each node names its neighbours in any order. *)
Definition two_triangles_graph (l0 l1 l2 l3 : list Z) : Graph :=
  mkGraph [0; 1; 2; 3]%Z (list_to_map [(0, l0); (1, l1); (2, l2); (3, l3)]%Z).

Definition two_triangles (g : Graph) : Prop :=
  exists l0 l1 l2 l3,
    l0 ≡ₚ [1; 2]%Z /\ l1 ≡ₚ [0; 2; 3]%Z /\ l2 ≡ₚ [0; 1; 3]%Z /\ l3 ≡ₚ [1; 2]%Z /\
    g = two_triangles_graph l0 l1 l2 l3.

(** An edge of the graph, read from the adjacency of its first end. *)
Definition edge_b (g : Graph) (x y : Z) : bool :=
  match adj g !! x with
  | Some nbrs => bool_decide (y ∈ nbrs)
  | None => false
  end.

(** The nodes of [l] one after the other are joined by edges. *)
Fixpoint path_b (g : Graph) (l : list Z) : bool :=
  match l with
  | [] => true
  | x :: t =>
      match t with
      | [] => true
      | y :: _ => edge_b g x y && path_b g t
      end
  end.

(** The nodes of [c] in their order walk round a loop of the graph: each
    is joined to the next by an edge, and the last to the first. *)
Definition closed_walk (g : Graph) (c : list Z) : bool :=
  match c with
  | [] => false
  | x :: _ => path_b g (c ++ [x])
  end.

(** The triangles [0 1 2] and [0 2 3], which share the edge [0 2], with the
    adjacency in the order of the edges [(0, 1)], [(1, 2)], [(0, 2)],
    [(2, 3)], [(0, 3)]. *)
Definition triangles_on_root : Graph :=
  mkGraph [0; 1; 2; 3]%Z
    (list_to_map [(0, [1; 2; 3]); (1, [0; 2]); (2, [1; 0; 3]); (3, [2; 0])]%Z).

(** What [outer_loop] does with the cycle basis. *)
Definition merged_loop (cycles : list Cycle) : option (result (OrderedSet Z)) :=
  match merge_cycles (S (length cycles)) cycles with
  | None => None
  | Some (Raise e) => Some (Raise e)
  | Some (Ok cycles) =>
      match reverse cycles with
      | CycleSet c :: _ => Some (Ok c)
      | CycleList _ :: _ => Some (Raise TypeError)
      | [] => Some (Raise IndexError)
      end
  end.

(** The cycles of a graph that the walk from [root] covers, [rest] being
    the other nodes. *)
Definition one_component (g : Graph) (root : Z) (rest : list Z)
    : option (list Cycle) :=
  match walk (graph_size g) (graph_size g) g
          (mkWalk [root] {[root := root]} {[root := ∅]} []) with
  | Some (Ok w) =>
      if forallb (fun n => bool_decide (is_Some (pred w !! n))) rest
      then Some (cycles w) else None
  | _ => None
  end.

(** What [set.pop] can return. *)
Definition pops (s : list Z) : list (Z * list Z) :=
  imap (fun i e => (e, delete i s)) s.

Definition two_triangles_cases
    : list (list Z * list Z * list Z * list Z * (Z * list Z)) :=
  l0 ← permutations [1; 2]%Z; l1 ← permutations [0; 2; 3]%Z;
  l2 ← permutations [0; 1; 3]%Z; l3 ← permutations [1; 2]%Z;
  p ← pops [0; 1; 2; 3]%Z; [(l0, l1, l2, l3, p)].

Definition two_triangles_check
    (c : list Z * list Z * list Z * list Z * (Z * list Z)) : bool :=
  let '(l0, l1, l2, l3, (root, rest)) := c in
  match one_component (two_triangles_graph l0 l1 l2 l3) root rest with
  | Some cycles =>
      match merged_loop cycles with
      | Some (Ok o) =>
          (length o =? 4)%nat && forallb (fun v => bool_decide (v ∈ o)) [0; 1; 2; 3]%Z
          && ((root =? 1)%Z || (root =? 2)%Z
              || closed_walk (two_triangles_graph l0 l1 l2 l3) o)
      | _ => false
      end
  | None => false
  end.

(** A pentagon, and the two triangles with their adjacency in ascending
    order. *)
Definition pentagon : Graph :=
  mkGraph [0; 1; 2; 3; 4]%Z
    (list_to_map [(0, [4; 1]); (1, [0; 2]); (2, [1; 3]); (3, [2; 4]); (4, [3; 0])]%Z).

(** ** The layout in the real plane *)

(** [cos], [sin] and [M_PI] on the exact reals. *)
Definition exact_cos (a : xreal) : xreal :=
  match a with
  | XR r => XR (cos r)
  | XNaN => XNaN
  end.

Definition exact_sin (a : xreal) : xreal :=
  match a with
  | XR r => XR (sin r)
  | XNaN => XNaN
  end.

Definition exact_pi : xreal := XR PI.

(** A triangle with a fourth node that hangs on it. *)
Definition triangle_with_tail : Graph :=
  mkGraph [0; 1; 2; 3]%Z
    (list_to_map [(0, [1; 2; 3]); (1, [0; 2]); (2, [0; 1]); (3, [0])]%Z).

(** ** The stack and the status of the synthesizer *)

(** The symbol an expression solves: the target its [add_*] method
    stores. *)
Definition expr_target (e : Expr) : sym :=
  match func e with
  | PLA | PXY => c2 e
  | PLAP | PLLP => c3 e
  | PLPP => c4 e
  end.

(** The joints that the expressions [added] solve. *)
Definition solves (added : list Expr) (k : Z) : Prop :=
  exists e, e ∈ added /\ expr_target e = (P_LABEL, k).

(** From the status [st] and the stack [ex] to [st'] and [ex']: the stack
    has grown, and the solved joints are those that were solved and those
    that the new expressions solve. *)
Definition tracks (st : gmap Z bool) (ex : EStack) (st' : gmap Z bool)
    (ex' : EStack) : Prop :=
  exists added, ex' = ex ++ added /\
    forall k, st' !! k = Some true <-> st !! k = Some true \/ solves added k.

(** From a state of the loop to a later one. *)
Definition follows (s s' : LoopState) : Prop :=
  tracks (status s) (exprs s) (status s') (exprs s') /\
  same_keys (status s) (status s').

(** A crank on the ground: joint 0 is on the ground, joint 1 is driven
    from it. *)
Definition crank_env : LoopEnv float :=
  mkLoopEnv
    [revolute ["ground"; "L1"] 0 0; revolute ["L1"] 1 0]%float%string
    (list_to_map [("ground", [0]); ("L1", [0; 1])]%Z%string)
    [(0, 0); (1, 0)]%float [(0, 1)]%Z [1]%Z 2.

Definition crank_start : LoopState :=
  mkLoopState 0 0 (list_to_map [(0, true); (1, false)]%Z) [] 0 0.

Definition crank_end : LoopState :=
  mkLoopState 2 1 (list_to_map [(0, true); (1, true)]%Z)
    [mkExpr PLA (P_LABEL, 0%Z) (L_LABEL, 0%Z) (A_LABEL, 0%Z) (P_LABEL, 1%Z)
       sym_unset sym_unset false] 1 1.

(** The links of [driven_from_a_floating_joint] with their joints, and the
    status in which the joints on the ground are solved. *)
Definition driven_vlinks : gmap string (list Z) :=
  list_to_map [("ground", [1; 2; 4]); ("L1", [1; 3]); ("L2", [2; 3]);
               ("L3", [0; 5]); ("L4", [4; 5]); ("L5", [0; 3])]%Z%string.

Definition driven_status : gmap Z bool :=
  list_to_map [(0, false); (1, true); (2, true); (3, false); (4, true);
               (5, false)]%Z.

(** A reliable friend of [node]: a solved joint other than the node. *)
Definition reliable (node : Z) (status : gmap Z bool) (f : Z) : Prop :=
  status !! f = Some true /\ f <> node.

(** ** The messages of the solver *)

(** The messages of the [ValueError]s that [expr_solving] words. *)
Definition solving_message (msg : string) : Prop :=
  (exists dof_input dof, ValueError msg = wrong_number dof_input dof) \/
  msg = "wrong driver definition."%string \/
  msg = "result contains failure from sketch solve"%string \/
  (exists i, ValueError msg = point_failure i).

(** Two pins on the ground that share a link, with the second one driven
    from the first. *)
Definition two_ground_pins : list (VPoint.t float) :=
  [revolute ["ground"; "L1"] 0 0; revolute ["ground"; "L1"] 1 0]%float%string.

Definition two_ground_pins_exprs : EStack :=
  [mkExpr PLA (P_LABEL, 0%Z) (L_LABEL, 0%Z) (A_LABEL, 0%Z) (P_LABEL, 1%Z)
     sym_unset sym_unset false].

Definition two_ground_pins_mapping : list (MapItem float) :=
  [ItemInt 0 "P0"; ItemInt 1 "P1"]%string.

(** A four-bar linkage: the crank from joint 0 to joint 1, the coupler
    from joint 1 to joint 2, the rocker from joint 2 to joint 3; joints 0
    and 3 are on the ground. *)
Definition fourbar : list (VPoint.t float) :=
  [revolute ["ground"; "L1"] 0 0; revolute ["L1"; "L2"] 3 4;
   revolute ["L2"; "L3"] 10 8; revolute ["ground"; "L3"] 12 0]%float%string.

(** Its stack: joint 1 from the crank angle, joint 2 from joints 1 and 3. *)
Definition fourbar_exprs : EStack :=
  [mkExpr PLA (P_LABEL, 0%Z) (L_LABEL, 0%Z) (A_LABEL, 0%Z) (P_LABEL, 1%Z)
     sym_unset sym_unset false;
   mkExpr PLLP (P_LABEL, 1%Z) (L_LABEL, 1%Z) (L_LABEL, 2%Z) (P_LABEL, 3%Z)
     (P_LABEL, 2%Z) sym_unset false].

Definition fourbar_mapping : list (MapItem float) :=
  [ItemInt 0 "P0"; ItemInt 1 "P1"; ItemInt 2 "P2"; ItemInt 3 "P3"]%string.

(** What [data_collecting] gathers for the four-bar: the positions of the
    joints the expressions start from, as the joints are drawn, and the
    lengths of the links. *)
Definition fourbar_data : gmap string (PyData float) :=
  list_to_map
    [("P0", Coord (0, 0)); ("P1", Coord (3, 4)); ("P3", Coord (12, 0));
     ("L0", Num 5); ("L1", Num (ieee_hypot 7 4)); ("L2", Num (ieee_hypot 2 8))
    ]%float%string.

(** The points of the four-bar that are passed to the external solver as
    known. *)
Definition fourbar_known : list (PDataItem float) :=
  [PPoint 0 (Coord (0, 0)); PPoint 1 (Coord (3, 4)); PPoint 3 (Coord (12, 0))]%float.

(** ** Lines and angles in the real plane *)

Section Lines.
Local Open Scope R_scope.

(** The distance of the point [(x1, y1)] to the line through [(x2, y2)]
    and [(x3, y3)]. *)
Definition line_distance (x1 y1 x2 y2 x3 y3 : R) : R :=
  Rabs ((x1 - x2) * (y3 - y2) - (y1 - y2) * (x3 - x2)) / rdist x2 y2 x3 y3.

(** The angle of the vector [(x, y)], in the range of the C library's
    [atan2]. *)
Definition Ratan2 (y x : R) : R :=
  if Rlt_dec 0 x then atan (y / x)
  else if Rlt_dec x 0 then
    if Rle_dec 0 y then atan (y / x) + PI else atan (y / x) - PI
  else if Rlt_dec 0 y then PI / 2
  else if Rlt_dec y 0 then - (PI / 2)
  else 0.

End Lines.

Definition exact_atan2 (a b : xreal) : xreal :=
  match a, b with
  | XR y, XR x => XR (Ratan2 y x)
  | _, _ => XNaN
  end.

(** ** The nodes of the cycles *)

(** The nodes of an element of the cycle basis. *)
Definition cycle_nodes (c : Cycle) : list Z :=
  match c with
  | CycleList l => l
  | CycleSet s => s
  end.

(** A node that lies on one of the cycles. *)
Definition on_cycles (cycles : list Cycle) (v : Z) : Prop :=
  exists c, c ∈ cycles /\ v ∈ cycle_nodes c.

(** A graph without edges: every node has an empty list of neighbours. *)
Definition edgeless (g : Graph) : Prop :=
  forall n, n ∈ nodes g -> adj g !! n = Some [].

(** Three nodes and no edge. *)
Definition three_points : Graph :=
  mkGraph [0; 1; 2]%Z (list_to_map [(0, []); (1, []); (2, [])]%Z).

(** Four nodes, each joined with the three others: in the plane, one of
    them lies inside the triangle of the others. *)
Definition complete_four : Graph :=
  mkGraph [0; 1; 2; 3]%Z
    (list_to_map [(0, [1; 2; 3]); (1, [0; 2; 3]); (2, [0; 1; 3]); (3, [0; 1; 2])]%Z).

(** ** The synthesizer: joints placed once *)

(** From the status [st] to [st']: no solved joint is lost, and a joint
    that is unsolved was unsolved. *)
Definition grows (st st' : gmap Z bool) : Prop :=
  forall k, (st !! k = Some true -> st' !! k = Some true) /\
            (st' !! k = Some false -> st !! k = Some false).

(** From the status [st] and the stack [ex] to [st'] and [ex']: the
    targets of the new expressions are pairwise distinct symbols of joints
    that were unsolved and are solved. *)
Definition places_once (st : gmap Z bool) (ex : EStack) (st' : gmap Z bool)
    (ex' : EStack) : Prop :=
  grows st st' /\
  exists added, ex' = ex ++ added /\
    NoDup (expr_target <$> added) /\
    forall e, e ∈ added ->
      st !! (expr_target e).2 = Some false /\
      st' !! (expr_target e).2 = Some true.

(** A slider on the ground: joint 0 slides on the ground and carries the
    link L1, joint 1 is a pin on the ground, joint 2 joins L1 and L2. *)
Definition slider_env : LoopEnv float :=
  mkLoopEnv
    [VPoint.c_slider_joint ["ground"; "L1"] VJoint.RP 0 5 0;
     revolute ["ground"; "L2"] 0 0;
     revolute ["L1"; "L2"] 5 5]%float%string
    (list_to_map [("ground", [0; 1]); ("L1", [0; 2]); ("L2", [1; 2])]%Z%string)
    [(5, 0); (0, 0); (5, 5)]%float [(1, 2)]%Z [2]%Z 3.

Definition slider_start : LoopState :=
  mkLoopState 0 0 (list_to_map [(0, false); (1, true); (2, true)]%Z) [] 0 0.

(** ** The stack as a list *)

(** An expression as one of the [add_*] methods stores it: the fields the
    method does not set hold [sym_unset]. *)
Inductive built : Expr -> Prop :=
  | built_pla c1 v1 v2 t :
      built (mkExpr PLA c1 v1 v2 t sym_unset sym_unset false)
  | built_plap c1 v1 v2 c2 t :
      built (mkExpr PLAP c1 v1 v2 c2 t sym_unset false)
  | built_pllp c1 v1 v2 c2 t :
      built (mkExpr PLLP c1 v1 v2 c2 t sym_unset false)
  | built_plpp c1 v1 c2 c3 t op :
      built (mkExpr PLPP c1 v1 sym_unset c2 c3 t op)
  | built_pxy c1 v1 v2 t :
      built (mkExpr PXY c1 v1 v2 t sym_unset sym_unset false).

(** An expression without its flag [op]. *)
Definition without_op (e : Expr) : Expr :=
  mkExpr (func e) (c1 e) (v1 e) (v2 e) (c2 e) (c3 e) (c4 e) false.

(** The two expressions of a slider, with the flag of the PLPP. *)
Definition slot_exprs (op : bool) : EStack :=
  add_plpp
    (add_pllp [] (P_LABEL, 0%Z) (L_LABEL, 0%Z) (L_LABEL, 1%Z) (P_LABEL, 1%Z)
       (S_LABEL, 0%Z))
    (P_LABEL, 2%Z) (L_LABEL, 2%Z) (P_LABEL, 0%Z) (S_LABEL, 0%Z) (P_LABEL, 0%Z) op.

(** A graph whose adjacency lists name nodes of the graph, and in which no
    node is its own neighbour. *)
Definition simple_graph (g : Graph) : Prop :=
  forall v nbrs, adj g !! v = Some nbrs ->
    (v ∉ nbrs) /\ (forall w, w ∈ nbrs -> w ∈ nodes g).

(** ** The synthesizer: the arguments it returns a stack for *)

Section Accepts.
Context {D : Type}.
Local Open Scope Z_scope.

(** The arguments [t_config] takes without a failed lookup: the base of
    every input pair is a joint, or a key of [status]; and every key of
    [status] that is not a joint is solved. *)
Definition t_config_accepts (joints : list (VPoint.t D)) (inputs : list (Z * Z))
    (status : gmap Z bool) : Prop :=
  (forall base node, (base, node) ∈ inputs ->
     0 <= base < Z.of_nat (length joints) \/ is_Some (status !! base)) /\
  (forall k, status !! k = Some false -> 0 <= k < Z.of_nat (length joints)).

(** [vlinks] has the links of the joints as its keys, and joints as the
    members of its links. *)
Definition links_known (vlinks : gmap string (list Z))
    (joints : list (VPoint.t D)) : Prop :=
  (forall v link, v ∈ joints -> link ∈ VPoint.links v -> is_Some (vlinks !! link)) /\
  (forall link members f, vlinks !! link = Some members -> f ∈ members ->
     0 <= f < Z.of_nat (length joints)).

(** What the main loop reads is as the preprocessing leaves it. *)
Definition env_wf (env : LoopEnv D) : Prop :=
  links_known (env_vlinks env) (vpoints env) /\
  input_targets env = (inputs env).*2.

(** [status] has the joints and the bases of the input pairs as keys. *)
Definition status_wf (env : LoopEnv D) (st : gmap Z bool) : Prop :=
  (forall k, 0 <= k < Z.of_nat (length (vpoints env)) -> is_Some (st !! k)) /\
  (forall base node, (base, node) ∈ inputs env -> is_Some (st !! base)).

(** Every key of [status] that is not solved is a joint. *)
Definition unsolved_are_joints (n : nat) (st : gmap Z bool) : Prop :=
  forall k, st !! k = Some false -> 0 <= k < Z.of_nat n.

(** What the main loop of [t_config] starts from: the joints, [vlinks]
    and the positions the preprocessing leaves, [around], and the state
    after the input pairs; [None] when the call returns or raises before
    its main loop. *)
Definition t_config_setup (h : heap D) (vpoints_ : loc) (inputs : list (Z * Z))
    (status : gmap Z bool) : option (LoopEnv D * LoopState) :=
  match list_items h vpoints_ with
  | Ok (a :: items) =>
      match inputs with
      | [] => None
      | _ =>
          match t_config_normalize h (a :: items) status with
          | (_, Ok (status, vlinks, joints)) =>
              match input_joints inputs (mkLoopState 0 0 status [] 0 0) with
              | Ok s =>
                  Some (mkLoopEnv joints vlinks (positions joints) inputs
                          (inputs.*2) (int32 (Z.of_nat (size (state_status s)))),
                        s)
              | Raise _ => None
              end
          | (_, Raise _) => None
          end
      end
  | _ => None
  end.

End Accepts.

(** ** The layout: what its loop keeps *)

Section LayoutInv.
Context {D : Type}.

(** What the loop keeps while it does not fail: the nodes to lay out and
    the line are off the outer loop, every node off the loop is to be laid
    out or on the line, and a node is left to lay out. *)
Definition layout_inv (g : Graph) (o_loop : OrderedSet Z) (s : LayoutState D)
    : Prop :=
  NoDup (layout_nodes s) /\
  (forall v, v ∈ layout_nodes s -> v ∉ o_loop) /\
  (forall v, v ∈ layout_line s -> v ∉ o_loop) /\
  (forall v, v ∈ o_loop -> v ∈ used_nodes s) /\
  (forall v, v ∈ nodes g -> v ∉ o_loop -> v ∈ layout_nodes s \/ v ∈ layout_line s) /\
  layout_nodes s <> [].

End LayoutInv.

(** ** The synthesizer: the joints in the store *)

Section Stored.
Context {D : Type}.

(** The list at [vpoints] holds [n] joints, whose links are keys of
    [vlinks]. *)
Definition joints_stored (vlinks : gmap string (list Z)) (n : nat) (vpoints : loc)
    (h : heap D) : Prop :=
  exists items,
    h !! vpoints = Some (ObjList items) /\ length items = n /\
    forall a, a ∈ items ->
      exists v, h !! a = Some (ObjVPoint v) /\
        forall link, link ∈ VPoint.links v -> is_Some (vlinks !! link).

End Stored.

(** Two joints, the first on the ground, and a status with a key that is
    no joint. *)
Definition two_joints : list (VPoint.t float) :=
  [revolute ["ground"; "L1"] 0 0; revolute ["L1"] 1 0]%float%string.

(* ===================================================================== *)
(** * Part III: theorems *)
(* ===================================================================== *)

(** ** C [int] *)

Section Int32.
Local Open Scope Z_scope.

Lemma int32_small z : - 2 ^ 31 <= z < 2 ^ 31 -> int32 z = z.
Proof.
  intros Hz. unfold int32.
  change (2 ^ 32) with 4294967296 in *.
  change (2 ^ 31) with 2147483648 in *.
  rewrite Z.mod_small by lia. lia.
Qed.

Lemma int32_range z : - 2 ^ 31 <= int32 z < 2 ^ 31.
Proof.
  unfold int32.
  change (2 ^ 32) with 4294967296 in *.
  change (2 ^ 31) with 2147483648 in *.
  pose proof (Z.mod_pos_bound (z + 2147483648) 4294967296). lia.
Qed.

End Int32.

Ltac pow2 :=
  change (2 ^ 32)%Z with 4294967296%Z in *;
  change (2 ^ 31)%Z with 2147483648%Z in *;
  change (2 ^ 30)%Z with 1073741824%Z in *;
  change (2 ^ 28)%Z with 268435456%Z in *.

Ltac int32_elim :=
  repeat match goal with
         | |- context [int32 ?z] => rewrite (int32_small z) by (pow2; lia)
         end.

(** ** The ordered set *)

Section OrderedSetFacts.
Context {K : Type} `{EqDecision K}.
Implicit Types (A B : OrderedSet K) (l : list K).

Lemma filter_ext_elem (P Q : K -> Prop) `{!forall e, Decision (P e)}
    `{!forall e, Decision (Q e)} l :
  (forall e, e ∈ l -> P e <-> Q e) -> filter P l = filter Q l.
Proof.
  induction l as [|a l IH]; intros Hpq; [done|].
  rewrite !filter_cons.
  rewrite IH by (intros e He; apply Hpq; by right).
  destruct (decide (P a)) as [Hp|Hp], (decide (Q a)) as [Hq|Hq]; try done.
  - exfalso. apply Hq, Hpq; [by left|done].
  - exfalso. apply Hp, Hpq; [by left|done].
Qed.

Lemma filter_all (P : K -> Prop) `{!forall e, Decision (P e)} l :
  (forall e, e ∈ l -> P e) -> filter P l = l.
Proof.
  induction l as [|a l IH]; intros Hp; [done|].
  rewrite filter_cons, decide_True by (apply Hp; by left).
  rewrite IH; [done|]. intros e He. apply Hp. by right.
Qed.

Lemma contains_spec A (e : K) : contains A e = true <-> e ∈ A.
Proof. unfold contains. apply bool_decide_eq_true. Qed.

(** Adding the keys of a duplicate-free sequence appends those that are
    new, in their order. *)
Lemma ior_NoDup l : forall A,
  NoDup l ->
  OrderedSet_ior A l = A ++ filter (fun e => e ∉ A) l.
Proof.
  unfold OrderedSet_ior.
  induction l as [|a l IH]; intros A Hnd; simpl.
  - by rewrite app_nil_r.
  - apply NoDup_cons in Hnd as [Ha Hnd].
    unfold _add at 2, contains. rewrite filter_cons.
    destruct (decide (a ∈ A)) as [Hin|Hin].
    + rewrite bool_decide_eq_true_2 by done. rewrite IH by done.
      rewrite decide_False; [done|]. by intros Hn.
    + rewrite bool_decide_eq_false_2 by done. rewrite IH by done.
      rewrite decide_True by done.
      rewrite <- app_assoc. simpl. do 2 f_equal.
      apply filter_ext_elem. intros e He.
      rewrite elem_of_app, list_elem_of_singleton.
      split; [tauto|]. intros Hne [Hx| ->]; [tauto|]. done.
Qed.

Lemma ior_NoDup_result l : forall A, NoDup A -> NoDup (OrderedSet_ior A l).
Proof.
  unfold OrderedSet_ior.
  induction l as [|a l IH]; intros A Hnd; simpl; [done|].
  apply IH. unfold _add, contains. case_bool_decide; [done|].
  apply NoDup_app. split_and!; [done| |apply NoDup_singleton].
  intros e He ->%list_elem_of_singleton. done.
Qed.

(** The key sequence of an ordered set has no duplicates. *)
Lemma OrderedSet_init_NoDup l : NoDup (OrderedSet_init l).
Proof. apply (ior_NoDup_result l []). constructor. Qed.

(** An ordered set built from its own key sequence is itself. *)
Lemma OrderedSet_init_id A : NoDup A -> OrderedSet_init A = A.
Proof.
  intros Hnd. change (OrderedSet_ior [] A = A).
  rewrite ior_NoDup by done. simpl.
  apply filter_all. intros e _. apply not_elem_of_nil.
Qed.

Lemma OrderedSet_or_NoDup A B :
  NoDup A -> NoDup B ->
  OrderedSet_or A B = A ++ filter (fun e => e ∉ A) B.
Proof.
  intros HA HB. unfold OrderedSet_or, _from_iterable, OrderedSet_init.
  rewrite fold_left_app.
  change (fold_left _add A []) with (OrderedSet_init A).
  rewrite (OrderedSet_init_id A) by done.
  by apply ior_NoDup.
Qed.

Lemma OrderedSet_sub_NoDup A B :
  NoDup A -> NoDup B ->
  OrderedSet_sub A B = filter (fun e => e ∉ B) A.
Proof.
  intros HA HB. unfold OrderedSet_sub, _from_iterable.
  rewrite (OrderedSet_init_id B) by done.
  rewrite OrderedSet_init_id.
  - apply list_filter_iff. intros e. unfold contains.
    rewrite negb_True, bool_decide_spec. done.
  - by apply NoDup_filter.
Qed.


End OrderedSetFacts.

(** ** Degrees of freedom *)

Section DofFacts.
Context {D : Type}.
Implicit Types (vpoint : VPoint.t D) (vpoints : list (VPoint.t D)).
Local Open Scope Z_scope.

Lemma memberships_nonneg vpoint : 0 <= memberships vpoint.
Proof. unfold memberships. lia. Qed.

Lemma total_memberships_cons vpoint vpoints :
  total_memberships (vpoint :: vpoints) = memberships vpoint + total_memberships vpoints.
Proof. reflexivity. Qed.

Lemma total_memberships_nonneg vpoints : 0 <= total_memberships vpoints.
Proof.
  induction vpoints as [|v vs IH]; [done|].
  rewrite total_memberships_cons. pose proof (memberships_nonneg v). lia.
Qed.

Lemma dof_j1_of_bounds vpoint :
  is_joint vpoint = true -> 0 <= dof_j1_of vpoint <= memberships vpoint.
Proof.
  unfold is_joint, dof_j1_of. intros Hj%Z.leb_le.
  destruct (VPoint.type vpoint); lia.
Qed.

Lemma dof_j2_of_bounds vpoint :
  is_joint vpoint = true -> 0 <= dof_j2_of vpoint <= memberships vpoint.
Proof.
  unfold is_joint, dof_j2_of. intros Hj%Z.leb_le.
  destruct (VPoint.type vpoint); lia.
Qed.

(** One round of the loop adds what the specification says, as long as the
    counters stay small. *)
Lemma vpoint_dof_joint_spec (acc : DofCount) vpoint :
  0 <= j1 acc -> 0 <= j2 acc ->
  j1 acc + memberships vpoint < 2 ^ 30 ->
  j2 acc + memberships vpoint < 2 ^ 30 ->
  vpoint_dof_joint acc vpoint =
    if is_joint vpoint then
      mkDofCount (j1 acc + dof_j1_of vpoint) (j2 acc + dof_j2_of vpoint)
        (vlinks acc ∪ list_to_set (VPoint.links vpoint))
    else acc.
Proof.
  intros H1 H2 Hb1 Hb2. unfold vpoint_dof_joint, is_joint, dof_j1_of, dof_j2_of.
  fold (memberships vpoint).
  pose proof (memberships_nonneg vpoint) as Hm.
  pow2. rewrite (int32_small (memberships vpoint)) by (pow2; lia).
  destruct (Z.leb_spec 2 (memberships vpoint)) as [Hj|Hj].
  - replace (memberships vpoint >? 1) with true by (symmetry; apply Z.gtb_lt; lia).
    simpl negb. cbv iota.
    destruct (VPoint.type vpoint).
    + int32_elim. f_equal; lia.
    + destruct (Z.gtb_spec (memberships vpoint) 2) as [Hg|Hg];
        int32_elim; f_equal; lia.
    + destruct (Z.gtb_spec (memberships vpoint) 2) as [Hg|Hg];
        int32_elim; f_equal; lia.
  - replace (memberships vpoint >? 1) with false; [done|].
    symmetry. rewrite Z.gtb_ltb. apply Z.ltb_ge. lia.
Qed.

Lemma filter_is_joint_cons vpoint vpoints :
  filter is_joint (vpoint :: vpoints) =
    if is_joint vpoint then vpoint :: filter is_joint vpoints
    else filter is_joint vpoints.
Proof.
  rewrite filter_cons. case_decide as Hd.
  - by rewrite (Is_true_true_1 _ Hd).
  - by rewrite (Is_true_false_1 _ Hd).
Qed.

(** The loop computes the three quantities of the specification. *)
Lemma vpoint_dof_loop_spec vpoints : forall acc : DofCount,
  0 <= j1 acc -> 0 <= j2 acc ->
  j1 acc + total_memberships vpoints < 2 ^ 30 ->
  j2 acc + total_memberships vpoints < 2 ^ 30 ->
  fold_left vpoint_dof_joint vpoints acc =
    mkDofCount (j1 acc + dof_j1 vpoints) (j2 acc + dof_j2 vpoints)
      (vlinks acc ∪
       ⋃ ((fun vpoint => list_to_set (VPoint.links vpoint)) <$> filter is_joint vpoints)).
Proof.
  induction vpoints as [|v vs IH]; intros acc H1 H2 Hb1 Hb2.
  - destruct acc as [a b s]. cbn. unfold dof_j1, dof_j2. cbn.
    f_equal; [lia|lia|]. by rewrite union_empty_r_L.
  - simpl fold_left.
    pose proof (memberships_nonneg v) as Hm.
    pose proof (total_memberships_nonneg vs) as Ht.
    rewrite total_memberships_cons in Hb1, Hb2.
    rewrite vpoint_dof_joint_spec by (pow2; lia).
    unfold dof_j1, dof_j2. rewrite filter_is_joint_cons.
    destruct (is_joint v) eqn:Ej.
    + pose proof (dof_j1_of_bounds v Ej). pose proof (dof_j2_of_bounds v Ej).
      rewrite IH by (cbn [j1 j2]; pow2; lia).
      cbn [j1 j2 vlinks]. rewrite !fmap_cons.
      rewrite union_list_cons. unfold dof_j1, dof_j2, sumZ. cbn [foldr].
      f_equal; [lia|lia|]. by rewrite (assoc_L (∪)).
    + rewrite IH by (pow2; lia). reflexivity.
Qed.

Lemma size_difference_le (X Y : gset string) : (size (X ∖ Y) <= size X)%nat.
Proof. apply subseteq_size, subseteq_difference_l. done. Qed.

Lemma size_list_to_set_le (l : list string) :
  (size (list_to_set l : gset string) <= length l)%nat.
Proof.
  induction l as [|a l IH].
  - rewrite list_to_set_nil, size_empty. simpl. lia.
  - rewrite list_to_set_cons. rewrite size_union_alt, size_singleton.
    pose proof (size_difference_le (list_to_set l) {[a]}).
    simpl. lia.
Qed.

Lemma joint_links_size vpoints :
  (size (⋃ ((fun vpoint : VPoint.t D => list_to_set (VPoint.links vpoint)) <$>
              filter is_joint vpoints) : gset string)
   <= Z.to_nat (total_memberships vpoints))%nat.
Proof.
  induction vpoints as [|v vs IH].
  - cbn. rewrite size_empty. lia.
  - rewrite filter_is_joint_cons, total_memberships_cons.
    pose proof (total_memberships_nonneg vs) as Ht.
    pose proof (memberships_nonneg v) as Hm.
    destruct (is_joint v).
    + rewrite fmap_cons, union_list_cons, size_union_alt.
      pose proof (size_list_to_set_le (VPoint.links v)) as Hl.
      match goal with
      | |- (size ?a + size (?b ∖ ?c) <= _)%nat =>
          pose proof (size_difference_le b c)
      end.
      unfold memberships in *. lia.
    + lia.
Qed.

Lemma dof_links_size vpoints :
  1 <= Z.of_nat (size (dof_links vpoints)) <= 1 + total_memberships vpoints.
Proof.
  unfold dof_links. rewrite size_union_alt, size_singleton.
  pose proof (joint_links_size vpoints) as Hj.
  pose proof (total_memberships_nonneg vpoints) as Ht.
  match goal with
  | |- context [size (?b ∖ ?c)] => pose proof (size_difference_le b c)
  end.
  lia.
Qed.

Lemma dof_sums_bounds vpoints :
  0 <= dof_j1 vpoints <= total_memberships vpoints /\
  0 <= dof_j2 vpoints <= total_memberships vpoints.
Proof.
  unfold dof_j1, dof_j2.
  induction vpoints as [|v vs IH]; [cbn; lia|].
  rewrite filter_is_joint_cons.
  rewrite total_memberships_cons. pose proof (memberships_nonneg v).
  destruct (is_joint v) eqn:Ej; [|lia].
  pose proof (dof_j1_of_bounds v Ej). pose proof (dof_j2_of_bounds v Ej).
  rewrite !fmap_cons. unfold sumZ in *. cbn [foldr]. lia.
Qed.

(** C4. For every joint list, [vpoint_dof] returns [3 (L - 1) - 2 j1 - j2],
    where [L] counts the distinct links on the joints with at least two
    link memberships plus the ground link, [j1] adds [memberships - 1] for
    such a revolute joint, 1 plus the memberships beyond 2 for a prismatic
    joint and the memberships beyond 2 for an RP joint, and [j2] adds 1
    for an RP joint; joints with fewer than two memberships add nothing.
    The C [int]s of the code do not overflow when the mechanism has fewer
    than [2 ^ 28] link memberships. *)
Theorem vpoint_dof_formula vpoints :
  total_memberships vpoints < 2 ^ 28 ->
  vpoint_dof vpoints = dof_formula vpoints.
Proof.
  intros Hb. unfold vpoint_dof, dof_formula.
  rewrite vpoint_dof_loop_spec by (simpl; pow2; lia).
  cbn [j1 j2 vlinks]. fold (dof_links vpoints).
  pose proof (dof_links_size vpoints).
  pose proof (dof_sums_bounds vpoints).
  rewrite !Z.add_0_l. apply int32_small. pow2. lia.
Qed.

End DofFacts.

Lemma vpoint_dof_formula_fourbar :
  (total_memberships fourbar_dof < 2 ^ 28)%Z /\
  vpoint_dof fourbar_dof = dof_formula fourbar_dof /\
  vpoint_dof fourbar_dof = 1%Z.
Proof.
  assert (Hb : (total_memberships fourbar_dof < 2 ^ 28)%Z) by (vm_compute; reflexivity).
  split; [exact Hb|]. split.
  - exact (vpoint_dof_formula fourbar_dof Hb).
  - vm_compute. reflexivity.
Defined.

(** ** The synthesizer: termination of the main loop *)

Section StatusFacts.
Implicit Types (st : gmap Z bool) (k : Z).

Lemma same_keys_refl st : same_keys st st.
Proof. by intros k. Qed.

Lemma same_keys_trans st1 st2 st3 :
  same_keys st1 st2 -> same_keys st2 st3 -> same_keys st1 st3.
Proof. intros H12 H23 k. etrans; [apply H23|apply H12]. Qed.

Lemma same_keys_insert st k v : is_Some (st !! k) -> same_keys st (<[k := v]> st).
Proof.
  intros Hk j. destruct (decide (k = j)) as [->|Hne].
  - rewrite lookup_insert_eq. split; [done|]. by eexists.
  - by rewrite lookup_insert_ne.
Qed.

Lemma unsolved_insert_solved st k :
  st !! k = Some false -> S (unsolved (<[k := true]> st)) = unsolved st.
Proof.
  intros Hk. unfold unsolved.
  rewrite map_filter_insert_False by (simpl; discriminate).
  rewrite map_filter_delete, map_size_delete_Some.
  - assert (Hpos : size (filter (fun kv : Z * bool => kv.2 = false) st) <> 0%nat).
    { intros H0%map_size_empty_inv.
      assert (Hl : filter (fun kv : Z * bool => kv.2 = false) st !! k = Some false)
        by (by apply map_lookup_filter_Some).
      rewrite H0 in Hl. by rewrite lookup_empty in Hl. }
    lia.
  - exists false. by apply map_lookup_filter_Some.
Qed.

Lemma unsolved_insert_le st k :
  (unsolved (<[k := true]> st) <= unsolved st)%nat.
Proof.
  unfold unsolved.
  rewrite map_filter_insert_False by (simpl; discriminate).
  rewrite map_filter_delete, map_size_delete.
  destruct (filter _ st !! k); simpl; lia.
Qed.

Lemma all_lock_unsolved st : _is_all_lock st = true <-> unsolved st = 0%nat.
Proof.
  unfold _is_all_lock, unsolved. rewrite bool_decide_eq_true, map_size_empty_iff.
  rewrite map_empty. unfold map_Forall.
  split.
  - intros H k. apply eq_None_not_Some. intros [b Hb].
    apply map_lookup_filter_Some in Hb as [Hk Hb]. simpl in Hb.
    rewrite (H k b Hk) in Hb. discriminate.
  - intros H k b Hk. destruct b; [done|]. exfalso.
    assert (Hl : filter (fun kv : Z * bool => kv.2 = false) st !! k = Some false)
      by (by apply map_lookup_filter_Some).
    by rewrite H in Hl.
Qed.

End StatusFacts.

Ltac unfold_joint_P := unfold joint_P.
Ltac unfold_joint_RP := unfold joint_RP.
Ltac unfold_t_config_step := unfold t_config_step.
Ltac unfold_t_config := unfold t_config.

Section TConfigFacts.
Context {D : Type} {F : Float64 D}.
Variables (cos sin : D -> D) (M_PI : D).
Variables (pin_grounded has_offset : VPoint.t D -> bool).
Local Open Scope Z_scope.
Implicit Types (env : LoopEnv D).

Local Abbreviation joint_P := (@joint_P D pin_grounded has_offset).
Local Abbreviation joint_RP := (@joint_RP D F cos sin M_PI pin_grounded has_offset).
Local Abbreviation t_config_step := (@t_config_step D F cos sin M_PI pin_grounded has_offset).
Local Abbreviation t_config_loop := (@t_config_loop D F cos sin M_PI pin_grounded has_offset).
Local Abbreviation t_config := (@t_config D F cos sin M_PI pin_grounded has_offset).

Lemma placed_insert (s : LoopState) st' ex ls an sk :
  status s !! node s = Some false ->
  st' = <[node s := true]> (status s) ->
  sk = 0 \/ sk = skip_times s ->
  placed s (mkLoopState (node s) sk st' ex ls an).
Proof.
  intros Hn -> Hsk. split; [|split]; simpl.
  - apply same_keys_insert. by eexists.
  - pose proof (unsolved_insert_solved _ _ Hn). lia.
  - done.
Qed.

Lemma place_friends_advance nd fs : forall st ex ls st' ex' ls',
  place_friends nd fs (st, ex, ls) = Ok (st', ex', ls') ->
  same_keys st st' /\ (unsolved st' <= unsolved st)%nat.
Proof.
  induction fs as [|fb fs IH]; intros st ex ls st' ex' ls' Hp; simpl in Hp.
  - injection Hp as <- <- <-. split; [apply same_keys_refl|lia].
  - unfold status_get in Hp. destruct (st !! fb) as [locked|] eqn:Hfb; simpl in Hp;
      [|discriminate].
    destruct locked.
    + by apply IH in Hp.
    + apply IH in Hp as [Hk Hu]. split.
      * eapply same_keys_trans; [|exact Hk]. apply same_keys_insert. by eexists.
      * pose proof (unsolved_insert_le st fb). lia.
Qed.

Lemma place_links_advance nd vl ls0 : forall st ex ls st' ex' ls',
  place_links nd vl ls0 (st, ex, ls) = Ok (st', ex', ls') ->
  same_keys st st' /\ (unsolved st' <= unsolved st)%nat.
Proof.
  induction ls0 as [|link ls0 IH]; intros st ex ls st' ex' ls' Hp; simpl in Hp.
  - injection Hp as <- <- <-. split; [apply same_keys_refl|lia].
  - destruct (vlinks_get vl link) as [members|]; simpl in Hp; [|discriminate].
    destruct (place_friends nd members (st, ex, ls)) as [[[st1 ex1] ls1]|] eqn:Hf;
      simpl in Hp; [|discriminate].
    apply place_friends_advance in Hf as [Hk1 Hu1].
    apply IH in Hp as [Hk2 Hu2]. split.
    + eapply same_keys_trans; eassumption.
    + lia.
Qed.

Lemma joint_R_cases env s s' :
  status s !! node s = Some false ->
  joint_R env s = Ok s' ->
  s' = skipped s \/ placed s s'.
Proof.
  intros Hn. unfold joint_R. case_bool_decide.
  - unfold status_get.
    destruct (status s !! _get_input_base (node s) (inputs env)) as [[|]|];
      simpl; intros Hs; [| |discriminate]; injection Hs as <-.
    + right. apply placed_insert; auto.
    + by left.
  - destruct (_get_reliable_friend _ _ _ _) as [[[ok fa] fb]|]; simpl;
      [|discriminate].
    destruct ok; simpl.
    + destruct (negb (_clockwise _ _ _)); intros Hs; injection Hs as <-;
        right; apply placed_insert; auto.
    + intros Hs; injection Hs as <-. by left.
Qed.

Lemma joint_P_cases env s s' :
  status s !! node s = Some false ->
  joint_P env s = Ok s' ->
  s' = skipped s \/ placed s s'.
Proof.
  intros Hn. unfold_joint_P.
  destruct (_get_not_base_friend _ _ _ _ _ _) as [[ok fa]|]; simpl; [|discriminate].
  destruct ok; simpl.
  - destruct (c_index _ _) as [vpoint|]; simpl; [|discriminate].
    destruct (place_links _ _ _ _) as [[[st ex] ls]|] eqn:Hp; simpl; [|discriminate].
    intros Hs; injection Hs as <-. right.
    apply place_links_advance in Hp as [Hk Hu].
    pose proof (unsolved_insert_solved _ _ Hn) as Hi.
    split; [|split]; simpl.
    + eapply same_keys_trans; [|exact Hk]. apply same_keys_insert. by eexists.
    + lia.
    + by left.
  - intros Hs; injection Hs as <-. by left.
Qed.

Lemma joint_RP_cases env s s' :
  status s !! node s = Some false ->
  joint_RP env s = Ok s' ->
  s' = skipped s \/ placed s s'.
Proof.
  intros Hn. unfold_joint_RP.
  destruct (c_index _ _) as [vpoint|]; simpl; [|discriminate].
  destruct (_get_not_base_friend _ _ _ _ _ _) as [[ok fa]|]; simpl; [|discriminate].
  destruct (_get_base_friend _ _ _ _) as [[[ok2 fb] fd]|]; simpl; [|discriminate].
  destruct (negb ok || negb ok2).
  - intros Hs; injection Hs as <-. by left.
  - repeat match goal with
           | |- context [if ?b then _ else _] => destruct b
           end;
      intros Hs; injection Hs as <-; right; apply placed_insert; auto.
Qed.

Lemma indicator_le (st : gmap Z bool) (k : Z) :
  (match st !! k with Some _ => 0 | None => 1 end <= 1)%nat.
Proof. destruct (st !! k); lia. Qed.

Lemma skipped_decreases env s nd :
  loop_inv env s -> skip_times s < around env ->
  is_Some (status s !! node s) ->
  let s' := mkLoopState nd (int32 (skip_times s + 1)) (status s) (exprs s)
              (link_symbol s) (angle_symbol s) in
  loop_inv env s' /\ (loop_measure env s' < loop_measure env s)%nat.
Proof.
  intros (H0 & Hsk & Ha) Hlt [b Hb] s'. subst s'.
  unfold loop_inv, loop_measure. simpl.
  rewrite int32_small by (pow2; lia). rewrite Hb.
  split; [repeat split; [done|lia|done]|].
  pose proof (indicator_le (status s) nd).
  replace (Z.to_nat (around env - skip_times s))
    with (S (Z.to_nat (around env - (skip_times s + 1)))) by lia.
  lia.
Qed.

Lemma placed_decreases env s s' nd :
  loop_inv env s -> skip_times s < around env ->
  placed s s' ->
  let s'' := mkLoopState nd (skip_times s') (status s') (exprs s')
               (link_symbol s') (angle_symbol s') in
  loop_inv env s'' /\ (loop_measure env s'' < loop_measure env s)%nat.
Proof.
  intros (H0 & Hsk & Ha) Hlt (Hk & Hu & Hs) s''. subst s''.
  unfold loop_inv, loop_measure. simpl.
  split.
  - repeat split; [by apply Hk|destruct Hs as [-> | ->]; lia|done].
  - pose proof (indicator_le (status s') nd).
    assert (Hle : (Z.to_nat (around env - skip_times s') <= Z.to_nat (around env))%nat)
      by (destruct Hs as [-> | ->]; lia).
    nia.
Qed.

(** Every round that continues decreases the measure. *)
Lemma t_config_step_decreases env s s' :
  loop_inv env s ->
  t_config_step env s = Continue s' ->
  loop_inv env s' /\ (loop_measure env s' < loop_measure env s)%nat.
Proof.
  intros Hinv. unfold_t_config_step.
  destruct (_is_all_lock (status s)); [discriminate|].
  destruct (status s !! node s) as [locked|] eqn:Hn.
  - destruct (Z.geb_spec (skip_times s) (around env)) as [Hge|Hlt]; [discriminate|].
    destruct locked.
    + intros Hs; injection Hs as <-.
      apply skipped_decreases; [done|done|by eexists].
    + destruct (c_index _ _) as [vpoint|]; simpl; [|discriminate].
      destruct (match VPoint.type vpoint with
                | VJoint.R => joint_R env s
                | VJoint.P => joint_P env s
                | VJoint.RP => joint_RP env s
                end) as [s1|] eqn:Hj; [|discriminate].
      intros Hs; injection Hs as <-.
      assert (Hc : s1 = skipped s \/ placed s s1).
      { destruct (VPoint.type vpoint);
          [eapply joint_R_cases|eapply joint_P_cases|eapply joint_RP_cases];
          eassumption. }
      destruct Hc as [-> | Hp].
      * apply (skipped_decreases env s); [done|done|by eexists].
      * by apply placed_decreases.
  - intros Hs; injection Hs as <-.
    destruct Hinv as (H0 & Hsk & Ha).
    unfold loop_inv, loop_measure. simpl. rewrite Hn.
    destruct H0 as [b ->]. repeat split; [by eexists|done|done|lia].
Qed.

(** A round stops the loop only when every status is solved or
    [skip_times] has reached [around]. *)
Lemma t_config_step_stop env s s' :
  t_config_step env s = Stop s' ->
  s' = s /\ (_is_all_lock (status s) = true \/ around env <= skip_times s).
Proof.
  unfold_t_config_step.
  destruct (_is_all_lock (status s)) eqn:Hl.
  { intros Hs; injection Hs as <-. auto. }
  destruct (status s !! node s) as [locked|]; [|discriminate].
  destruct (Z.geb_spec (skip_times s) (around env)) as [Hge|Hlt].
  { intros Hs; injection Hs as <-. split; [done|right; lia]. }
  destruct locked; [discriminate|].
  destruct (bind _ _); discriminate.
Qed.

(** The main loop terminates: with more rounds than the measure of the
    state it ends, by a stop or by an exception. *)
Lemma t_config_loop_terminates env : forall fuel s,
  loop_inv env s ->
  (loop_measure env s < fuel)%nat ->
  exists r, t_config_loop fuel env s = Some r.
Proof.
  induction fuel as [|fuel IH]; intros s Hinv Hm; [lia|].
  simpl. destruct (t_config_step env s) as [s1|s1|e] eqn:Hs.
  - apply t_config_step_decreases in Hs as [Hinv1 Hm1]; [|done].
    apply IH; [done|lia].
  - by eexists.
  - by eexists.
Qed.

Lemma t_config_loop_exit env : forall fuel s s',
  t_config_loop fuel env s = Some (Ok s') ->
  _is_all_lock (status s') = true \/ around env <= skip_times s'.
Proof.
  induction fuel as [|fuel IH]; intros s s'; [discriminate|].
  simpl. destruct (t_config_step env s) as [s1|s1|e] eqn:Hs.
  - apply IH.
  - intros Hr; injection Hr as <-.
    by apply t_config_step_stop in Hs as [-> Hs].
  - discriminate.
Qed.

(** The preprocessing gives joint 0 a status. *)
Lemma init_links_keys (nd : Z) (vpoint : VPoint.t D) (links : list string) :
  forall (st : gmap Z bool) (vl : gmap string (list Z)) (k : Z),
  is_Some (st !! k) ->
  is_Some ((fold_left
              (fun '(status, vlinks) link =>
                 let status :=
                   if String.eqb link VLink.FRAME
                      && VJoint.eqb (VPoint.type vpoint) VJoint.R
                   then <[nd := true]> status else status in
                 let vlinks :=
                   match vlinks !! link with
                   | None => <[link := [nd]]> vlinks
                   | Some s => <[link := set_add s nd]> vlinks
                   end in
                 (status, vlinks))
              links (st, vl)).1 !! k).
Proof.
  induction links as [|link links IH]; intros st vl k Hk; [done|].
  simpl. apply IH.
  destruct (String.eqb link VLink.FRAME && _); [|done].
  destruct (decide (nd = k)) as [->|Hne].
  - rewrite lookup_insert_eq. by eexists.
  - by rewrite lookup_insert_ne.
Qed.

Lemma init_joint_keys (acc : gmap Z bool * gmap string (list Z))
    (item : Z * VPoint.t D) (k : Z) :
  is_Some (acc.1 !! k) \/ k = item.1 ->
  is_Some ((init_joint acc item).1 !! k).
Proof.
  destruct acc as [st vl], item as [nd vpoint]. simpl. intros Hk.
  assert (Hf : is_Some (<[nd := false]> st !! k)).
  { destruct Hk as [Hk | ->].
    - destruct (decide (nd = k)) as [->|Hne].
      + rewrite lookup_insert_eq. by eexists.
      + by rewrite lookup_insert_ne.
    - rewrite lookup_insert_eq. by eexists. }
  destruct (VPoint.links vpoint) as [|link links] eqn:Hl.
  - simpl. destruct (decide (nd = k)) as [->|Hne].
    + rewrite lookup_insert_eq. by eexists.
    + by rewrite lookup_insert_ne.
  - by apply init_links_keys.
Qed.

Lemma init_joints_keys (items : list (Z * VPoint.t D)) :
  forall (acc : gmap Z bool * gmap string (list Z)) (k : Z),
  is_Some (acc.1 !! k) \/ k ∈ items.*1 ->
  is_Some ((fold_left init_joint items acc).1 !! k).
Proof.
  induction items as [|item items IH]; intros acc k Hk; simpl.
  - destruct Hk as [Hk|Hk]; [done|]. by apply elem_of_nil in Hk.
  - apply IH. destruct Hk as [Hk|Hk].
    + left. apply init_joint_keys. by left.
    + rewrite fmap_cons in Hk. apply elem_of_cons in Hk as [->|Hk].
      * left. apply init_joint_keys. by right.
      * by right.
Qed.

Lemma input_joints_inv (inputs : list (Z * Z)) : forall s s',
  input_joints inputs s = Ok s' ->
  skip_times s' = skip_times s /\
  forall k, is_Some (status s !! k) -> is_Some (status s' !! k).
Proof.
  induction inputs as [|[base nd] inputs IH]; intros s s' Hi; simpl in Hi.
  - injection Hi as <-. auto.
  - destruct (status_get (status s) base) as [locked|]; simpl in Hi; [|discriminate].
    destruct locked.
    + apply IH in Hi as [Hsk Hk]. simpl in *. split; [done|].
      intros k Hs. apply Hk.
      destruct (decide (nd = k)) as [->|Hne].
      * rewrite lookup_insert_eq. by eexists.
      * by rewrite lookup_insert_ne.
    + by apply IH in Hi.
Qed.

Lemma load_vpoints_length (h : heap D) (items : list loc) (joints : list (VPoint.t D)) :
  load_vpoints h items = Ok joints -> length joints = length items.
Proof.
  revert joints. induction items as [|a items IH]; intros joints Hl; simpl in Hl.
  - by injection Hl as <-.
  - destruct (load_vpoint h a); simpl in Hl; [|discriminate].
    destruct (load_vpoints h items) as [vs|]; simpl in Hl; [|discriminate].
    injection Hl as <-. simpl. f_equal. by apply IH.
Qed.

Lemma enumerate_first {A : Type} (a : A) (l : list A) : 0 ∈ (enumerate (a :: l)).*1.
Proof. unfold enumerate. simpl. left. Qed.

(** [t_config] ends for every store, joint list, input-pair list and
    initial status map.  Its main loop ends within the rounds the measure
    gives, and it stops either when every status is solved or when
    [skip_times] has reached [around], the number of status entries. *)
Lemma t_config_ends :
  (forall h vpoints_ inputs status,
     exists r, (t_config h vpoints_ inputs status).2 = Some r) /\
  (forall env fuel s,
     loop_inv env s -> (loop_measure env s < fuel)%nat ->
     exists r, t_config_loop fuel env s = Some r) /\
  (forall env fuel s s',
     t_config_loop fuel env s = Some (Ok s') ->
     _is_all_lock (status s') = true \/ around env <= skip_times s').
Proof.
  split; [|split].
  - intros h vpoints_ inputs status0. unfold_t_config.
    destruct (list_items h vpoints_) as [[|a items]|]; [by eexists| |by eexists].
    destruct inputs as [|input inputs]; [by eexists|].
    unfold t_config_normalize.
    destruct (alloc h (ObjList (a :: items))) as [h1 vpoints].
    destruct (load_vpoints h1 (a :: items)) as [joints|] eqn:Hload; [|by eexists].
    destruct (fold_left init_joint (enumerate joints) (status0, ∅)) as [st vl] eqn:Hinit.
    destruct (hfor _ _ h1) as [h2 [[]|]]; [|by eexists].
    destruct (snapshot h2 vpoints) as [joints'|]; cbn [bind]; [|by eexists].
    destruct (input_joints (input :: inputs) (mkLoopState 0 0 st [] 0 0))
      as [s|] eqn:Hin; [|by eexists].
    apply input_joints_inv in Hin as [Hsk Hk]. simpl in Hsk, Hk.
    match goal with
    | |- context [t_config_loop ?fuel ?env s] =>
        destruct (t_config_loop_terminates env fuel s) as [r Hr]
    end.
    + split; [|split].
      * apply Hk.
        assert (Hj : exists v vs, joints = v :: vs).
        { apply load_vpoints_length in Hload. destruct joints; [done|]. by eauto. }
        destruct Hj as (v & vs & ->).
        pose proof (init_joints_keys (enumerate (v :: vs)) (status0, ∅) 0) as Hi.
        rewrite Hinit in Hi. apply Hi. right. apply enumerate_first.
      * lia.
      * simpl. apply int32_range.
    + unfold loop_measure, t_config_fuel, state_status. simpl. rewrite Hsk.
      rewrite Z.sub_0_r. pose proof (indicator_le (status s) (node s)). lia.
    + rewrite Hr. destruct r; by eexists.
  - apply t_config_loop_terminates.
  - apply t_config_loop_exit.
Qed.

End TConfigFacts.

(** ** The caller's joints are not written *)

Section FrameFacts.
Context {D : Type} {F : Float64 D}.
Implicit Types (h : heap D).

Lemma alloc_prefix h0 h (o : PyObj D) :
  h0 `prefix_of` h -> h0 `prefix_of` (alloc h o).1.
Proof. intros Hp. simpl. by apply prefix_app_r. Qed.

Lemma alloc_fresh h (o : PyObj D) : (alloc h o).2 = length h.
Proof. reflexivity. Qed.

(** An assignment into a list that was allocated after [h0] leaves [h0]
    as it is. *)
Lemma setitem_prefix h0 h h' (l : loc) (i : nat) (a : loc) :
  h0 `prefix_of` h -> (length h0 <= l)%nat ->
  setitem h l i a = Ok h' -> h0 `prefix_of` h'.
Proof.
  intros [ext ->] Hl. unfold setitem.
  destruct (list_items _ l) as [items|]; simpl; [|discriminate].
  case_decide; [|discriminate]. intros Hs; injection Hs as <-.
  rewrite insert_app_r_alt by done. by exists (<[(l - length h0)%nat := ObjList (<[i := a]> items)]> ext).
Qed.

Lemma setitem_length h h' (l : loc) (i : nat) (a : loc) :
  setitem h l i a = Ok h' -> length h' = length h.
Proof.
  unfold setitem. destruct (list_items _ l) as [items|]; simpl; [|discriminate].
  case_decide; [|discriminate]. intros Hs; injection Hs as <-.
  by rewrite length_insert.
Qed.

Lemma hfor_prefix {A : Type} h0 (xs : list A)
    (body : A -> heap D -> heap D * result unit) :
  (forall a h, h0 `prefix_of` h -> h0 `prefix_of` (body a h).1) ->
  forall h, h0 `prefix_of` h -> h0 `prefix_of` (hfor xs body h).1.
Proof.
  intros Hbody. induction xs as [|a xs IH]; intros h Hp; simpl; [done|].
  specialize (Hbody a h Hp). destruct (body a h) as [h' [u|e]]; simpl in *.
  - by apply IH.
  - done.
Qed.

Lemma t_config_replace_prefix h0 vlinks (vpoints : loc) (base : Z) h :
  (length h0 <= vpoints)%nat ->
  h0 `prefix_of` h ->
  h0 `prefix_of` (t_config_replace vlinks vpoints base h).1.
Proof.
  intros Hv Hp. unfold t_config_replace.
  destruct (bind (list_items h vpoints) _) as [vpoint|]; [|done].
  destruct (negb _ || negb _); [done|].
  apply hfor_prefix; [|done]. clear h Hp. intros link h Hp.
  destruct (vlinks !! link) as [members|]; [|done].
  apply hfor_prefix; [|done]. clear h Hp. intros nd h Hp.
  destruct (bind (list_items h vpoints) _) as [vpoint_|]; [|done].
  destruct ((nd =? base)%Z || negb _); [done|].
  unfold alloc.
  match goal with
  | |- context [setitem ?h1 vpoints ?i ?a] =>
      assert (Hp1 : h0 `prefix_of` h1) by (by apply prefix_app_r);
      destruct (setitem h1 vpoints i a) as [h2|] eqn:Hs; simpl; [|done]
  end.
  by eapply setitem_prefix.
Qed.

Lemma data_collecting_replace_prefix h0 vlinks (vpoints : loc) (base : Z) h :
  (length h0 <= vpoints)%nat ->
  h0 `prefix_of` h ->
  h0 `prefix_of` (data_collecting_replace vlinks vpoints base h).1.
Proof.
  intros Hv Hp. unfold data_collecting_replace.
  destruct (bind (list_items h vpoints) _) as [vpoint|]; [|done].
  destruct (negb _); [done|].
  apply hfor_prefix; [|done]. clear h Hp. intros link h Hp.
  destruct (vlinks !! link) as [members|]; [|done].
  apply hfor_prefix; [|done]. clear h Hp. intros nd h Hp.
  destruct (bind (list_items h vpoints) _) as [vpoint_|]; [|done].
  destruct ((nd =? base)%Z || _ || _); [done|].
  destruct (VPoint.c0 vpoint_) as [x y].
  unfold alloc.
  match goal with
  | |- context [setitem ?h1 vpoints ?i ?a] =>
      assert (Hp1 : h0 `prefix_of` h1) by (by apply prefix_app_r);
      destruct (setitem h1 vpoints i a) as [h2|] eqn:Hs; simpl; [|done]
  end.
  by eapply setitem_prefix.
Qed.

Lemma t_config_normalize_prefix h (items : list loc) (status : gmap Z bool) :
  h `prefix_of` (t_config_normalize h items status).1.
Proof.
  unfold t_config_normalize. simpl.
  destruct (load_vpoints _ items) as [joints|]; simpl; [|by apply prefix_app_r].
  destruct (fold_left init_joint _ _) as [st vl].
  pose proof (hfor_prefix h (range (length items))
                (t_config_replace vl (length h))
                (fun a h' => t_config_replace_prefix h vl (length h) a h' (le_n _))
                (h ++ [ObjList items]) (prefix_app_r _ _ _ (reflexivity h))) as Hp.
  destruct (hfor _ _ _) as [h2 [u|e]]; done.
Qed.

Lemma data_collecting_normalize_prefix h (vpoints_ : loc) :
  h `prefix_of` (data_collecting_normalize h vpoints_).1.
Proof.
  unfold data_collecting_normalize, list_copy.
  destruct (list_items h vpoints_) as [items|]; simpl; [|done].
  destruct (snapshot _ _) as [joints|]; simpl; [|by apply prefix_app_r].
  pose proof (hfor_prefix h (range (length joints))
                (data_collecting_replace (fold_left collect_links (enumerate joints) ∅)
                   (length h))
                (fun a h' => data_collecting_replace_prefix h _ (length h) a h' (le_n _))
                (h ++ [ObjList items]) (prefix_app_r _ _ _ (reflexivity h))) as Hp.
  destruct (hfor _ _ _) as [h2 [u|e]]; done.
Qed.

End FrameFacts.

Section FrameTheorem.
Context {D : Type} {F : Float64 D}.
Variables (cos sin : D -> D) (atan2 hypot : D -> D -> D) (M_PI : D).
Variables (pin_grounded has_offset : VPoint.t D -> bool).
Variable slope_angle : VPoint.t D -> VPoint.t D -> Z -> Z -> D.

(** C8. Neither [t_config] nor [data_collecting] writes to the caller's
    joint sequence or to the joints in it: the replacement joints are new
    objects, assigned into the copy of the list only, so the store the
    caller passed is a prefix of the store after the call, unchanged at
    every address. *)
Theorem callers_joints_unchanged (h : heap D) (vpoints_ : loc) :
  (forall inputs status,
     h `prefix_of` (t_config cos sin M_PI pin_grounded has_offset
                      h vpoints_ inputs status).1) /\
  (forall exprs mapping,
     h `prefix_of` (data_collecting cos sin hypot M_PI slope_angle
                      h exprs mapping vpoints_).1).
Proof.
  split.
  - intros inputs status. unfold t_config.
    destruct (list_items h vpoints_) as [[|a items]|]; [done| |done].
    destruct inputs as [|input inputs]; [done|].
    pose proof (t_config_normalize_prefix h (a :: items) status) as Hp.
    destruct (t_config_normalize h (a :: items) status) as [h1 [[[st vl] joints]|e]];
      [|done].
    destruct (input_joints _ _) as [s|]; [|done].
    destruct (t_config_loop _ _ _ _ _ _ _ _) as [[s'|e]|]; done.
  - intros exprs mapping. unfold data_collecting.
    pose proof (data_collecting_normalize_prefix h vpoints_) as Hp.
    destruct (data_collecting_normalize h vpoints_) as [h1 [joints|e]]; done.
Qed.

End FrameTheorem.

(** ** The solver: which exceptions a stage raises *)

Ltac raise_step :=
  match goal with
  | H : Raise _ = Raise _ |- _ => injection H as <-
  | H : Ok _ = Raise _ |- _ => discriminate H
  | H : (_, Raise _) = (_, Raise _) |- _ => injection H as <- <-
  | H : (_, Ok _) = (_, Raise _) |- _ => discriminate H
  | H : bind ?r _ = Raise _ |- _ =>
      let E := fresh "E" in destruct r eqn:E; cbn [bind] in H
  | H : or_raise ?o _ = Raise _ |- _ => destruct o; cbn [or_raise] in H
  | H : (match ?x with _ => _ end) = Raise _ |- _ =>
      let E := fresh "E" in destruct x eqn:E
  | H : (match ?x with _ => _ end) = (_, Raise _) |- _ =>
      let E := fresh "E" in destruct x eqn:E
  end.

Ltac raises := repeat raise_step; try exact I; eauto.

Section Raises.
Context {D : Type} {F : Float64 D}.
Variables (cos sin : D -> D) (atan2 hypot : D -> D -> D) (M_PI : D).
Variable slope_angle : VPoint.t D -> VPoint.t D -> Z -> Z -> D.

Lemma py_index_plain {A : Type} (l : list A) (i : Z) e :
  py_index l i = Raise e -> plain e.
Proof. unfold py_index. intros H. raises. Qed.

Lemma list_items_plain (h : heap D) (l : loc) e :
  list_items h l = Raise e -> plain e.
Proof. unfold list_items. intros H. raises. Qed.

Lemma load_vpoint_plain (h : heap D) (a : loc) e :
  load_vpoint h a = Raise e -> plain e.
Proof. unfold load_vpoint. intros H. raises. Qed.

Lemma load_vpoints_plain (h : heap D) (items : list loc) e :
  load_vpoints h items = Raise e -> plain e.
Proof.
  induction items as [|a items IH]; simpl; intros H; raises.
  eauto using load_vpoint_plain.
Qed.

Lemma snapshot_plain (h : heap D) (l : loc) e :
  snapshot h l = Raise e -> plain e.
Proof.
  unfold snapshot. intros H. raises;
    eauto using load_vpoints_plain, list_items_plain.
Qed.

Lemma setitem_plain (h : heap D) (l : loc) (i : nat) (a : loc) e :
  setitem h l i a = Raise e -> plain e.
Proof.
  unfold setitem. intros H. raises; eauto using list_items_plain.
Qed.

Lemma hfor_plain {A : Type} (xs : list A)
    (body : A -> heap D -> heap D * result unit) :
  (forall a h h' e, body a h = (h', Raise e) -> plain e) ->
  forall h h' e, hfor xs body h = (h', Raise e) -> plain e.
Proof.
  intros Hbody. induction xs as [|a xs IH]; intros h h' e; simpl.
  - discriminate.
  - destruct (body a h) as [h1 [u|e1]] eqn:Hb.
    + apply IH.
    + intros Hr. injection Hr as <- <-. eauto.
Qed.

Lemma getitem_py_plain (h : heap D) (vpoints : loc) (i : Z) e :
  bind (list_items h vpoints)
    (fun items => bind (py_index items i) (load_vpoint h)) = Raise e ->
  plain e.
Proof.
  intros H. raises; eauto using list_items_plain, py_index_plain, load_vpoint_plain.
Qed.

Lemma data_collecting_replace_plain vlinks (vpoints : loc) (base : Z)
    (h h' : heap D) e :
  data_collecting_replace vlinks vpoints base h = (h', Raise e) -> plain e.
Proof.
  unfold data_collecting_replace.
  destruct (bind (list_items h vpoints) _) as [vpoint|e1] eqn:E1.
  2: { intros H. injection H as <- <-. eauto using getitem_py_plain. }
  destruct (negb _); [discriminate|].
  apply hfor_plain. clear. intros link h h' e.
  destruct (vlinks !! link) as [members|]; [|by intros H; injection H as <- <-].
  apply hfor_plain. clear. intros nd h h' e.
  destruct (bind (list_items h vpoints) _) as [vpoint_|e1] eqn:E1.
  2: { intros H. injection H as <- <-. eauto using getitem_py_plain. }
  destruct (_ || _ || _); [discriminate|].
  destruct (VPoint.c0 vpoint_) as [x y]. unfold alloc.
  destruct (setitem _ _ _ _) eqn:Hs; [discriminate|].
  intros H. injection H as <- <-. eauto using setitem_plain.
Qed.

Lemma data_collecting_normalize_plain (h h' : heap D) (vpoints_ : loc) e :
  data_collecting_normalize h vpoints_ = (h', Raise e) -> plain e.
Proof.
  unfold data_collecting_normalize, list_copy.
  destruct (list_items h vpoints_) as [items|e1] eqn:E1; cbn [bind].
  2: { intros H. injection H as <- <-. eauto using list_items_plain. }
  unfold alloc.
  destruct (snapshot _ _) as [joints|e1] eqn:E2.
  2: { intros H. injection H as <- <-. eauto using snapshot_plain. }
  destruct (hfor _ _ _) as [h2 [u|e1]] eqn:E3.
  - intros H. injection H as <- H. eauto using snapshot_plain.
  - intros H. injection H as <- <-. eapply hfor_plain; [|exact E3].
    intros a h0 h1 e0. apply data_collecting_replace_plain.
Qed.

Lemma slider_slot_plain (vpoints : list (VPoint.t D)) acc item e :
  slider_slot cos sin M_PI slope_angle vpoints acc item = Raise e -> plain e.
Proof.
  unfold slider_slot. destruct item as [i vpoint], acc as [pos mr]. intros H.
  raises; eauto using py_index_plain.
Qed.

Lemma slider_slots_plain (vpoints : list (VPoint.t D)) items : forall acc e,
  slider_slots cos sin M_PI slope_angle vpoints items acc = Raise e -> plain e.
Proof.
  induction items as [|item items IH]; intros acc e; cbn [slider_slots]; intros H.
  - discriminate.
  - raises; eauto using slider_slot_plain.
Qed.

Lemma mapping_r_get_plain (mr : gmap string Z) name e :
  mapping_r_get mr name = Raise e -> plain e.
Proof. unfold mapping_r_get. intros H. raises. Qed.

Lemma collect_point_plain (mr : gmap string Z) (pos : list (D * D)) name
    (dd : gmap string (PyData D)) e :
  collect_point mr pos name dd = Raise e -> plain e.
Proof.
  unfold collect_point. intros H.
  raises; eauto using mapping_r_get_plain, py_index_plain.
Qed.

Lemma collect_link_plain (len : gmap (Z * Z) D) (pos : list (D * D)) a t name
    (dd : gmap string (PyData D)) e :
  collect_link hypot len pos a t name dd = Raise e -> plain e.
Proof. unfold collect_link. intros H. raises; eauto using py_index_plain. Qed.

Lemma collect_offset_plain (mapping : list (MapItem D)) (pos : list (D * D))
    a t name coord (dd : gmap string (PyData D)) e :
  collect_offset mapping pos a t name coord dd = Raise e -> plain e.
Proof. unfold collect_offset. intros H. raises; eauto using py_index_plain. Qed.

Lemma collect_expr_plain mapping mr len pos acc expr e :
  collect_expr hypot mapping mr len pos acc expr = Raise e -> plain e.
Proof.
  unfold collect_expr. destruct acc as [dd dof]. intros H.
  raises; eauto using mapping_r_get_plain, collect_point_plain,
    collect_link_plain, collect_offset_plain.
Qed.

Lemma collect_exprs_plain mapping mr len pos stack : forall acc e,
  collect_exprs hypot mapping mr len pos stack acc = Raise e -> plain e.
Proof.
  induction stack as [|expr stack IH]; intros acc e; cbn [collect_exprs]; intros H.
  - discriminate.
  - raises; eauto using collect_expr_plain.
Qed.

Lemma grounded_joints_plain (mapping : list (MapItem D)) items : forall dd e,
  grounded_joints mapping items dd = Raise e -> plain e.
Proof.
  induction items as [|[i vpoint] items IH]; intros dd e;
    cbn [grounded_joints]; intros H.
  - discriminate.
  - destruct (_ && _); [|eauto]. raises.
Qed.

(** [data_collecting] raises no [ValueError]. *)
Lemma data_collecting_plain (h h' : heap D) exprs mapping (vpoints_ : loc) e :
  data_collecting cos sin hypot M_PI slope_angle h exprs mapping vpoints_
    = (h', Raise e) -> plain e.
Proof.
  unfold data_collecting. intros H.
  destruct (data_collecting_normalize h vpoints_) as [h1 [joints|e1]] eqn:E1.
  - injection H as <- H.
    raises; eauto using slider_slots_plain, collect_exprs_plain,
      grounded_joints_plain.
  - injection H as <- <-. eauto using data_collecting_normalize_plain.
Qed.

End Raises.

(** ** The solver: the check of the input number *)

Lemma plain_not_wrong_number e : plain e -> ~ wrong_number_error e.
Proof. destruct e; simpl; tauto. Qed.

Ltac unfold_data_collecting := unfold data_collecting.
Ltac unfold_expr_solving_stages := unfold expr_solving_stages.
Ltac unfold_expr_solving := unfold expr_solving.

Section InputNumber.
Context {D : Type} {F : Float64 D}.
Variables (cos sin : D -> D) (atan2 hypot : D -> D -> D) (M_PI : D).
Variable slope_angle : VPoint.t D -> VPoint.t D -> Z -> Z -> D.
Variable vpoint_solving :
  list (VPoint.t D) -> list (PDataItem D) -> result (list (SolvedPoint D)).
Local Open Scope Z_scope.

Local Abbreviation data_collecting :=
  (@data_collecting D F cos sin hypot M_PI slope_angle).
Local Abbreviation expr_solving_stages :=
  (@expr_solving_stages D F cos sin atan2 hypot M_PI vpoint_solving).
Local Abbreviation expr_solving :=
  (@expr_solving D F cos sin atan2 hypot M_PI slope_angle vpoint_solving).

Lemma count_inputs_cons expr stack :
  count_inputs (expr :: stack) =
    (if is_input expr then 1 else 0) + count_inputs stack.
Proof.
  unfold count_inputs. rewrite filter_cons.
  destruct (is_input expr); case_decide; simpl in *; try done; lia.
Qed.

Lemma count_inputs_bounds stack :
  0 <= count_inputs stack <= Z.of_nat (length stack).
Proof.
  unfold count_inputs. pose proof (length_filter (fun e => is_input e) stack). lia.
Qed.

Lemma collect_expr_dof mapping mr len pos dd dof expr dd' dof' :
  collect_expr hypot mapping mr len pos (dd, dof) expr = Ok (dd', dof') ->
  dof' = if is_input expr then int32 (dof + 1) else dof.
Proof.
  unfold collect_expr, is_input.
  destruct (mapping_r_get mr _); cbn [bind]; [|discriminate].
  destruct (collect_point _ _ _ _); cbn [bind]; [|discriminate].
  destruct (func expr);
    repeat match goal with
           | |- bind ?r _ = Ok _ -> _ => destruct r; cbn [bind]; [|discriminate]
           end;
    intros H; by injection H as <- <-.
Qed.

Lemma collect_exprs_dof mapping mr len pos stack : forall dd dof dd' dof',
  collect_exprs hypot mapping mr len pos stack (dd, dof) = Ok (dd', dof') ->
  0 <= dof -> dof + count_inputs stack < 2 ^ 31 ->
  dof' = dof + count_inputs stack.
Proof.
  induction stack as [|expr stack IH]; intros dd dof dd' dof';
    cbn [collect_exprs].
  - intros H _ _. injection H as <- <-. unfold count_inputs. simpl. lia.
  - rewrite count_inputs_cons. pose proof (count_inputs_bounds stack) as Hcb.
    destruct (collect_expr _ _ _ _ _ _ _) as [[dd1 dof1]|] eqn:E; cbn [bind];
      [|discriminate].
    apply collect_expr_dof in E. intros H H0 Hb.
    apply IH in H.
    + subst dof1. destruct (is_input expr); [|lia].
      rewrite int32_small in H by (pow2; lia). lia.
    + subst dof1. destruct (is_input expr); [|lia].
      rewrite int32_small by (pow2; lia). lia.
    + subst dof1. destruct (is_input expr); [|lia].
      rewrite int32_small by (pow2; lia). lia.
Qed.

(** The count [data_collecting] returns is the number of PLA and PLAP
    expressions of the stack. *)
Lemma data_collecting_dof (h h' : heap D) exprs mapping (vpoints_ : loc) dd dof :
  data_collecting h exprs mapping vpoints_ = (h', Ok (dd, dof)) ->
  Z.of_nat (length exprs) < 2 ^ 31 ->
  dof = count_inputs exprs.
Proof.
  unfold_data_collecting.
  destruct (data_collecting_normalize h vpoints_) as [h1 [joints|e1]];
    [|discriminate].
  intros H Hb. injection H as <- H.
  destruct (slider_slots _ _ _ _ _ _ _) as [[pos mr]|]; cbn [bind] in H;
    [|discriminate].
  destruct (collect_exprs _ _ _ _ _ _ _) as [[dd1 dof1]|] eqn:E; cbn [bind] in H;
    [|discriminate].
  destruct (grounded_joints _ _ _); cbn [bind] in H; [|discriminate].
  injection H as <- <-.
  pose proof (count_inputs_bounds exprs).
  apply collect_exprs_dof in E; lia.
Qed.

Lemma check_input_pairs_raise (mr : gmap string Z) (vpoints : list (VPoint.t D))
    stack e :
  check_input_pairs mr vpoints stack = Raise e -> ~ wrong_number_error e.
Proof.
  induction stack as [|expr stack IH]; cbn [check_input_pairs]; [discriminate|].
  destruct (check_input_pair mr vpoints expr) as [u|e1] eqn:E; cbn [bind]; [done|].
  intros H; injection H as <-. unfold check_input_pair in E.
  destruct (func expr); try discriminate.
  all: raises; try (apply plain_not_wrong_number;
                    eauto using mapping_r_get_plain, py_index_plain; fail).
  all: simpl; discriminate.
Qed.

Lemma get_coord_plain (dd : gmap string (PyData D)) name e :
  get_coord dd name = Raise e -> plain e.
Proof. unfold get_coord. intros H. raises. Qed.

Lemma get_num_plain (dd : gmap string (PyData D)) name e :
  get_num dd name = Raise e -> plain e.
Proof. unfold get_num. intros H. raises. Qed.

Lemma known_points_plain (mapping : list (MapItem D)) dd indices : forall acc e,
  known_points mapping dd indices acc = Raise e -> plain e.
Proof.
  induction indices as [|i indices IH]; intros acc e; cbn [known_points];
    [discriminate|].
  intros H. raises.
Qed.

Lemma solved_points_raise (mapping : list (MapItem D)) dd sb items e :
  solved_points mapping dd sb items = Raise e -> ~ wrong_number_error e.
Proof.
  induction items as [|[i vpoint] items IH]; cbn [solved_points]; [discriminate|].
  destruct (solved_point mapping dd sb i vpoint) as [p|e1] eqn:E; cbn [bind].
  - destruct (solved_points mapping dd sb items); cbn [bind]; [discriminate|].
    intros H; injection H as <-. by apply IH.
  - intros H; injection H as <-. unfold solved_point in E.
    raises; try (apply plain_not_wrong_number; eauto using py_index_plain; fail).
    simpl. discriminate.
Qed.

(** The stages after [data_collecting] raise the error of the check of the
    input number exactly when the consumed degrees of freedom exceed the
    degrees of freedom of the mechanism. *)
Lemma expr_solving_stages_wrong_number dd dof_input exprs mapping vpoints angles :
  let dof := vpoint_dof vpoints in
  (dof_input > dof ->
   expr_solving_stages dd dof_input exprs mapping vpoints angles
     = Raise (wrong_number dof_input dof)) /\
  (forall e,
     expr_solving_stages dd dof_input exprs mapping vpoints angles = Raise e ->
     wrong_number_error e -> dof_input > dof /\ e = wrong_number dof_input dof).
Proof.
  intros dof. unfold_expr_solving_stages. fold dof. split.
  - intros Hgt. by rewrite (proj2 (Z.gtb_gt _ _) Hgt).
  - intros e. destruct (Z.gtb_spec dof_input dof) as [Hgt|Hle].
    + intros H; injection H as <-. intros _. split; [lia|done].
    + intros H Hw. exfalso. revert Hw.
      destruct (check_input_pairs _ _ _) as [u|e1] eqn:E1; cbn [bind] in H.
      2: { injection H as <-. by eapply check_input_pairs_raise. }
      destruct (known_points _ _ _ _) as [[pdd hns]|e1] eqn:E3; cbn [bind] in H.
      2: { injection H as <-. apply plain_not_wrong_number.
           by eapply known_points_plain. }
      destruct hns; cbn [bind] in H; [|discriminate].
      destruct (vpoint_solving _ _) as [l|[| | |msg|]]; cbn [bind] in H;
        try discriminate; injection H as <-; simpl; auto; discriminate.
Qed.

(** C3. [expr_solving] raises the "wrong number of input parameters" error
    if and only if the consumed degrees of freedom that [data_collecting]
    returns strictly exceed the degrees of freedom that [vpoint_dof]
    computes; that count is the number of PLA and PLAP expressions of the
    stack (of fewer than [2 ^ 31] expressions). *)
Theorem expr_solving_wrong_number (h : heap D) exprs mapping (vpoints : loc) angles :
  let collected := data_collecting h exprs mapping vpoints in
  let r := (expr_solving h exprs mapping vpoints angles).2 in
  (forall dd dof_input,
     collected.2 = Ok (dd, dof_input) -> Z.of_nat (length exprs) < 2 ^ 31 ->
     dof_input = count_inputs exprs) /\
  (forall dd dof_input joints,
     collected.2 = Ok (dd, dof_input) ->
     snapshot collected.1 vpoints = Ok joints ->
     dof_input > vpoint_dof joints ->
     r = Raise (wrong_number dof_input (vpoint_dof joints))) /\
  (forall e,
     r = Raise e -> wrong_number_error e ->
     exists dd dof_input joints,
       collected.2 = Ok (dd, dof_input) /\
       snapshot collected.1 vpoints = Ok joints /\
       dof_input > vpoint_dof joints /\
       e = wrong_number dof_input (vpoint_dof joints)).
Proof.
  intros collected r. subst r. unfold_expr_solving. fold collected.
  destruct collected as [h1 [[dd dof_input]|e1]] eqn:Hc; cbn [fst snd].
  - split; [|split].
    + intros dd' dof' H Hb. injection H as <- <-.
      by eapply data_collecting_dof.
    + intros dd' dof' joints H Hs Hgt. injection H as <- <-.
      rewrite Hs. cbn [bind].
      pose proof (expr_solving_stages_wrong_number dd dof_input exprs mapping
                    joints angles) as [Hw _].
      by rewrite (Hw Hgt).
    + intros e H Hw.
      destruct (snapshot h1 vpoints) as [joints|e2] eqn:Hs; cbn [bind] in H.
      2: { injection H as <-. exfalso. revert Hw. apply plain_not_wrong_number.
           by eapply snapshot_plain. }
      destruct (expr_solving_stages _ _ _ _ _ _) as [[dd1 sb]|e2] eqn:Hst;
        cbn [bind] in H.
      * exfalso. revert Hw. by eapply solved_points_raise.
      * injection H as <-.
        pose proof (expr_solving_stages_wrong_number dd dof_input exprs mapping
                      joints angles) as [_ Hw2].
        destruct (Hw2 _ Hst Hw) as [Hgt ->].
        by exists dd, dof_input, joints.
  - split; [|split]; try discriminate.
    intros e H Hw. injection H as <-. exfalso. revert Hw.
    apply plain_not_wrong_number. unfold collected in Hc.
    by eapply data_collecting_plain.
Qed.

End InputNumber.

(** ** The solver: a complete result or an error *)

Section NoPartialResult.
Context {D : Type} {F : Float64 D}.
Variables (cos sin : D -> D) (atan2 hypot : D -> D -> D) (M_PI : D).
Variable slope_angle : VPoint.t D -> VPoint.t D -> Z -> Z -> D.
Variable vpoint_solving :
  list (VPoint.t D) -> list (PDataItem D) -> result (list (SolvedPoint D)).
Implicit Types (mapping : list (MapItem D)) (dd : gmap string (PyData D))
  (sb : option (list (SolvedPoint D))) (vpoint : VPoint.t D).

Local Abbreviation data_collecting :=
  (@data_collecting D F cos sin hypot M_PI slope_angle).
Local Abbreviation expr_solving_stages :=
  (@expr_solving_stages D F cos sin atan2 hypot M_PI vpoint_solving).
Local Abbreviation expr_solving :=
  (@expr_solving D F cos sin atan2 hypot M_PI slope_angle vpoint_solving).

Lemma solved_point_nan mapping dd sb i vpoint c :
  closed_form mapping dd i c -> isnan c.1 = true ->
  solved_point mapping dd sb i vpoint = Raise (point_failure i).
Proof.
  intros (name & Hm & Hd) Hn. unfold solved_point.
  rewrite Hm. cbn [or_raise bind]. rewrite Hd. cbn [bind]. by rewrite Hn.
Qed.

Lemma solved_point_closed mapping dd sb i vpoint c :
  closed_form mapping dd i c -> isnan c.1 = false ->
  solved_point mapping dd sb i vpoint = Ok (resolved vpoint c).
Proof.
  intros (name & Hm & Hd) Hn. unfold solved_point, resolved.
  rewrite Hm. cbn [or_raise bind]. rewrite Hd. cbn [bind]. rewrite Hn.
  by destruct (VJoint.eqb _ _).
Qed.

(** The last loop returns one entry per joint, in the order of the
    joints. *)
Lemma solved_points_Forall2 mapping dd sb items : forall l,
  solved_points mapping dd sb items = Ok l <->
  Forall2 (fun item p => solved_point mapping dd sb item.1 item.2 = Ok p) items l.
Proof.
  induction items as [|[i vpoint] items IH]; intros l; cbn [solved_points].
  - split.
    + intros H; injection H as <-. constructor.
    + by intros ->%Forall2_nil_inv_l.
  - split.
    + destruct (solved_point mapping dd sb i vpoint) as [p|] eqn:Ep; cbn [bind];
        [|discriminate].
      destruct (solved_points mapping dd sb items) as [ps|] eqn:E; cbn [bind];
        [|discriminate].
      intros H; injection H as <-. constructor; [done|]. by apply IH.
    + intros (p & ps & Hp & Hps & ->)%Forall2_cons_inv_l. simpl in Hp.
      rewrite Hp. cbn [bind]. apply IH in Hps. by rewrite Hps.
Qed.

Lemma solved_points_total mapping dd sb items :
  Forall (fun item => exists p, solved_point mapping dd sb item.1 item.2 = Ok p)
    items ->
  exists l, solved_points mapping dd sb items = Ok l.
Proof.
  induction 1 as [|[i vpoint] items [p Hp] _ [l IH]]; cbn [solved_points].
  - by eexists.
  - simpl in Hp. rewrite Hp. cbn [bind]. rewrite IH. by eexists.
Qed.

(** The last loop raises at the first joint whose entry fails. *)
Lemma solved_points_first_failure mapping dd sb pre i vpoint post e :
  Forall (fun item => exists p, solved_point mapping dd sb item.1 item.2 = Ok p) pre ->
  solved_point mapping dd sb i vpoint = Raise e ->
  solved_points mapping dd sb (pre ++ (i, vpoint) :: post) = Raise e.
Proof.
  intros Hpre He. induction Hpre as [|[j vj] pre [p Hp] Hpre IH];
    cbn [app solved_points].
  - by rewrite He.
  - simpl in Hp. rewrite Hp. cbn [bind]. by rewrite IH.
Qed.

Lemma enumerate_lookup {A : Type} (l : list A) (i : nat) (a : A) :
  l !! i = Some a -> enumerate l !! i = Some (Z.of_nat i, a).
Proof.
  intros Hl. unfold enumerate. apply lookup_zip_with_Some.
  exists (Z.of_nat i), a. split; [done|]. split; [|done].
  rewrite list_lookup_fmap, lookup_seq_lt; [done|].
  by apply lookup_lt_Some in Hl.
Qed.

Lemma enumerate_length {A : Type} (l : list A) : length (enumerate l) = length l.
Proof.
  unfold enumerate. rewrite length_zip_with, length_fmap, length_seq. lia.
Qed.

Lemma enumerate_lookup_inv {A : Type} (l : list A) (i : nat) (item : Z * A) :
  enumerate l !! i = Some item -> item.1 = Z.of_nat i /\ l !! i = Some item.2.
Proof.
  unfold enumerate. intros (z & a & -> & Hz & Ha)%lookup_zip_with_Some.
  rewrite list_lookup_fmap in Hz.
  destruct (seq 0 (length l) !! i) as [k|] eqn:Hk; [|discriminate].
  apply lookup_seq in Hk as [-> _]. simpl in Hz. injection Hz as <-. done.
Qed.

(** What the last loop of [expr_solving] does.  When the call returns,
    the list has exactly one entry per joint, in the order of the joints,
    each the entry the last loop resolves for that joint.  When the stages
    before the last loop have returned and the entry of a joint in
    [data_dict] has NaN as its x-component, the call fails; it fails with
    "result contains failure: Point{i}" for the first such joint [i], the
    joints before it being resolved.  When every joint has an entry in
    [data_dict] that is not NaN, the call returns these coordinates. *)
Lemma expr_solving_last_loop (h : heap D) exprs mapping
    (vpoints : loc) angles :
  let collected := data_collecting h exprs mapping vpoints in
  let r := (expr_solving h exprs mapping vpoints angles).2 in
  (forall l,
     r = Ok l ->
     exists joints dd sb,
       snapshot collected.1 vpoints = Ok joints /\
       length l = length joints /\
       Forall2 (fun item p => solved_point mapping dd sb item.1 item.2 = Ok p)
         (enumerate joints) l) /\
  (forall dd0 dof joints dd sb,
     collected.2 = Ok (dd0, dof) ->
     snapshot collected.1 vpoints = Ok joints ->
     expr_solving_stages dd0 dof exprs mapping joints angles = Ok (dd, sb) ->
     (forall (i : nat) vpoint c,
        joints !! i = Some vpoint ->
        closed_form mapping dd (Z.of_nat i) c -> isnan c.1 = true ->
        (exists e, r = Raise e) /\
        ((forall (j : nat) vj,
            (j < i)%nat -> joints !! j = Some vj ->
            exists p, solved_point mapping dd sb (Z.of_nat j) vj = Ok p) ->
         r = Raise (point_failure (Z.of_nat i)))) /\
     ((forall (i : nat) vpoint,
         joints !! i = Some vpoint ->
         exists c, closed_form mapping dd (Z.of_nat i) c /\ isnan c.1 = false) ->
      exists l,
        r = Ok l /\ length l = length joints /\
        forall (i : nat) vpoint,
          joints !! i = Some vpoint ->
          exists c, closed_form mapping dd (Z.of_nat i) c /\
                    l !! i = Some (resolved vpoint c))).
Proof.
  intros collected r. subst r. unfold_expr_solving. fold collected.
  destruct collected as [h1 [[dd0 dof]|e1]] eqn:Hc; cbn [fst snd].
  2: { split; [discriminate|]. intros; discriminate. }
  split.
  - intros l Hl.
    destruct (snapshot h1 vpoints) as [joints|] eqn:Hs; cbn [bind] in Hl;
      [|discriminate].
    destruct (expr_solving_stages _ _ _ _ _ _) as [[dd sb]|] eqn:Hst;
      cbn [bind] in Hl; [|discriminate].
    apply solved_points_Forall2 in Hl.
    exists joints, dd, sb. split; [done|]. split; [|done].
    apply Forall2_length in Hl. rewrite enumerate_length in Hl. done.
  - intros dd0' dof' joints dd sb H Hs Hst. injection H as <- <-.
    rewrite Hs. cbn [bind]. rewrite Hst. cbn [bind]. split.
    + intros i vpoint c Hi Hcf Hnan.
      pose proof (solved_point_nan mapping dd sb (Z.of_nat i) vpoint c Hcf Hnan)
        as Hfail.
      split.
      * destruct (solved_points mapping dd sb (enumerate joints)) as [l|e] eqn:Hl;
          [|by eexists].
        exfalso. apply solved_points_Forall2 in Hl.
        apply enumerate_lookup in Hi.
        destruct (Forall2_lookup_l _ _ _ _ _ Hl Hi) as (p & _ & Hp).
        simpl in Hp. rewrite Hfail in Hp. discriminate.
      * intros Hbefore.
        apply enumerate_lookup in Hi.
        rewrite <- (take_drop_middle _ _ _ Hi).
        apply solved_points_first_failure; [|done].
        apply Forall_forall. intros item [j Hj]%list_elem_of_lookup.
        apply lookup_take_Some in Hj as [Hj Hlt].
        apply enumerate_lookup_inv in Hj as [Hj1 Hj2].
        destruct item as [z vj]. simpl in *. subst z. by eapply Hbefore.
    + intros Hall.
      destruct (solved_points_total mapping dd sb (enumerate joints)) as [l Hl].
      { apply Forall_forall. intros [z vj] [j Hj]%list_elem_of_lookup.
        apply enumerate_lookup_inv in Hj as [Hj1 Hj2]. simpl in *. subst z.
        destruct (Hall j vj Hj2) as (c & Hcf & Hn).
        eexists. by apply solved_point_closed. }
      exists l. split; [done|].
      apply solved_points_Forall2 in Hl. split.
      * apply Forall2_length in Hl. by rewrite enumerate_length in Hl.
      * intros i vpoint Hi. destruct (Hall i vpoint Hi) as (c & Hcf & Hn).
        exists c. split; [done|].
        pose proof (enumerate_lookup _ _ _ Hi) as Hi'.
        destruct (Forall2_lookup_l _ _ _ _ _ Hl Hi') as (p & Hp & Hsp).
        simpl in Hsp.
        rewrite (solved_point_closed mapping dd sb _ vpoint c Hcf Hn) in Hsp.
        by injection Hsp as <-.
Qed.

End NoPartialResult.

(** ** The solver: the error of the parser is dropped *)

Section ParserErrorDropped.
Variables (cos sin : float -> float) (atan2 : float -> float -> float).
Variable M_PI : float.
Variable slope_angle : VPoint.t float -> VPoint.t float -> Z -> Z -> float.
Variable vpoint_solving :
  list (VPoint.t float) -> list (PDataItem float) -> result (list (SolvedPoint float)).

Local Abbreviation data_collecting :=
  (@data_collecting float ieee_double cos sin ieee_hypot M_PI slope_angle).
Local Abbreviation expr_parser := (@expr_parser float ieee_double cos sin atan2 ieee_hypot).
Local Abbreviation expr_parser_step :=
  (@expr_parser_step float ieee_double cos sin atan2 ieee_hypot).
Local Abbreviation expr_solving_stages :=
  (@expr_solving_stages float ieee_double cos sin atan2 ieee_hypot M_PI vpoint_solving).
Local Abbreviation expr_solving :=
  (@expr_solving float ieee_double cos sin atan2 ieee_hypot M_PI slope_angle
     vpoint_solving).

Lemma fourbar_collected :
  data_collecting (store_of fourbar) fourbar_exprs fourbar_mapping 4%nat
  = (store_of fourbar ++ [ObjList [0; 1; 2; 3]%nat], Ok (fourbar_data, 1%Z)).
Proof. vm_compute. reflexivity. Qed.

Lemma fourbar_pla_fails :
  hd_error fourbar_exprs
  = Some (mkExpr PLA (P_LABEL, 0%Z) (L_LABEL, 0%Z) (A_LABEL, 0%Z) (P_LABEL, 1%Z)
            sym_unset sym_unset false) /\
  fourbar_data !! "a0"%string = None /\
  expr_parser_step fourbar_data
    (mkExpr PLA (P_LABEL, 0%Z) (L_LABEL, 0%Z) (A_LABEL, 0%Z) (P_LABEL, 1%Z)
       sym_unset sym_unset false) = Raise KeyError /\
  expr_parser fourbar_exprs fourbar_data = fourbar_data.
Proof. vm_compute. repeat split. Qed.

Lemma fourbar_stages :
  expr_solving_stages fourbar_data 1%Z fourbar_exprs fourbar_mapping fourbar []
  = match vpoint_solving fourbar fourbar_known with
    | Ok solved => Ok (fourbar_data, Some solved)
    | Raise (ValueError _) =>
        Raise (ValueError "result contains failure from sketch solve")
    | Raise e => Raise e
    end.
Proof.
  unfold_expr_solving_stages.
  assert (Hdof : vpoint_dof fourbar = 1%Z) by (vm_compute; reflexivity).
  rewrite Hdof. change (1 >? 1)%Z with false. cbv iota.
  assert (Hpairs : check_input_pairs (reverse_mapping fourbar_mapping) fourbar
                     fourbar_exprs = Ok tt) by (vm_compute; reflexivity).
  rewrite Hpairs. cbn [bind].
  change (set_angles M_PI [] fourbar_data) with fourbar_data.
  change (match fourbar_exprs with
          | [] => fourbar_data
          | _ :: _ => expr_parser fourbar_exprs fourbar_data
          end) with (expr_parser fourbar_exprs fourbar_data).
  rewrite (proj2 (proj2 (proj2 fourbar_pla_fails))).
  assert (Hknown : known_points fourbar_mapping fourbar_data (range (length fourbar))
                     ([], false) = Ok (fourbar_known, true))
    by (vm_compute; reflexivity).
  rewrite Hknown. cbn [bind].
  change (fourbar_known ++ specified_lengths fourbar_mapping) with fourbar_known.
  destruct (vpoint_solving fourbar fourbar_known) as [solved|[| | |msg|]];
    reflexivity.
Qed.

Lemma fourbar_last_loop solved :
  solved_points fourbar_mapping fourbar_data (Some solved) (enumerate fourbar)
  = let* p := py_index solved 2 in
    Ok [SolvedR (0, 0); SolvedR (3, 4); p; SolvedR (12, 0)]%float.
Proof.
  change (enumerate fourbar)
    with [(0%Z, revolute ["ground"; "L1"] 0 0); (1%Z, revolute ["L1"; "L2"] 3 4);
          (2%Z, revolute ["L2"; "L3"] 10 8);
          (3%Z, revolute ["ground"; "L3"] 12 0)]%float%string.
  cbn [solved_points].
  assert (H0 : solved_point fourbar_mapping fourbar_data (Some solved) 0
                 (revolute ["ground"; "L1"] 0 0)%float%string
               = Ok (SolvedR (0, 0)%float)) by (vm_compute; reflexivity).
  assert (H1 : solved_point fourbar_mapping fourbar_data (Some solved) 1
                 (revolute ["L1"; "L2"] 3 4)%float%string
               = Ok (SolvedR (3, 4)%float)) by (vm_compute; reflexivity).
  assert (H3 : solved_point fourbar_mapping fourbar_data (Some solved) 3
                 (revolute ["ground"; "L3"] 12 0)%float%string
               = Ok (SolvedR (12, 0)%float)) by (vm_compute; reflexivity).
  assert (H2 : solved_point fourbar_mapping fourbar_data (Some solved) 2
                 (revolute ["L2"; "L3"] 10 8)%float%string
               = py_index solved 2).
  { unfold solved_point.
    change (mapping_int fourbar_mapping 2) with (Some "P2"%string).
    cbn [or_raise bind].
    assert (Hno : fourbar_data !! "P2"%string = None) by (vm_compute; reflexivity).
    rewrite Hno. destruct (py_index solved 2) as [p|e]; reflexivity. }
  rewrite H0, H1, H2, H3. cbn [bind]. by destruct (py_index solved 2).
Qed.

(** C1. [expr_solving] returns a partial result when [expr_parser] fails:
    the parser is a [cpdef void] function with no [except] clause, so its
    exception is dropped and the call goes on with the entries that
    [data_collecting] has put into [data_dict].  For the four-bar with its
    stack of a PLA and a PLLP and no angle, the PLA finds no ['a0'] and
    raises [KeyError]; the parser returns with [data_dict] as it was, in
    which joint 1, which the PLLP starts from, has the position it is
    drawn at.  The call then does not fail: whatever the external solver
    returns for joint 2, the list holds the position joint 1 was drawn
    at, (3, 4), as if it were solved.  The only errors of the call are
    those of the external solver. *)
Theorem expr_solving_drops_parser_error :
  let r := (expr_solving (store_of fourbar) fourbar_exprs fourbar_mapping
              4%nat []).2 in
  fourbar_data !! "a0"%string = None /\
  (exists expr rest, fourbar_exprs = expr :: rest /\
     expr_parser_step fourbar_data expr = Raise KeyError) /\
  expr_parser fourbar_exprs fourbar_data = fourbar_data /\
  match vpoint_solving fourbar fourbar_known with
  | Ok solved =>
      r = (let* p := py_index solved 2 in
           Ok [SolvedR (0, 0); SolvedR (3, 4); p; SolvedR (12, 0)]%float)
  | Raise (ValueError _) =>
      r = Raise (ValueError "result contains failure from sketch solve")
  | Raise e => r = Raise e
  end.
Proof.
  intros r. destruct fourbar_pla_fails as (Hhd & Hno & Hstep & Hparse).
  split; [done|]. split; [by eexists _, _|]. split; [done|].
  subst r. unfold_expr_solving. rewrite fourbar_collected. cbn [snd].
  assert (Hsnap : snapshot (store_of fourbar ++ [ObjList [0; 1; 2; 3]%nat]) 4%nat
                  = Ok fourbar) by (vm_compute; reflexivity).
  rewrite Hsnap. cbn [bind]. rewrite fourbar_stages.
  destruct (vpoint_solving fourbar fourbar_known) as [solved|[| | |msg|]];
    cbn [bind]; try reflexivity.
  apply fourbar_last_loop.
Qed.

End ParserErrorDropped.

(** ** The geometry kernel: circle-circle intersection *)

Section PllpExact.
Local Open Scope R_scope.

Lemma xc_distance a b u v :
  Coordinate_distance exact_hypot (xc a b) (xc u v) = XR (rdist a b u v).
Proof. reflexivity. Qed.

Lemma rdist_sq x1 y1 x2 y2 :
  rdist x1 y1 x2 y2 * rdist x1 y1 x2 y2 = (x2 - x1) * (x2 - x1) + (y2 - y1) * (y2 - y1).
Proof.
  unfold rdist. apply sqrt_sqrt.
  pose proof (Rle_0_sqr (x2 - x1)). pose proof (Rle_0_sqr (y2 - y1)).
  unfold Rsqr in *. lra.
Qed.

Lemma rdist_nonneg x1 y1 x2 y2 : 0 <= rdist x1 y1 x2 y2.
Proof. apply sqrt_pos. Qed.

Lemma rdist_eq x1 y1 x2 y2 r :
  0 <= r -> (x2 - x1) * (x2 - x1) + (y2 - y1) * (y2 - y1) = r * r ->
  rdist x1 y1 x2 y2 = r.
Proof.
  intros Hr He. unfold rdist. rewrite He. apply sqrt_square. exact Hr.
Qed.

Lemma heron_nonneg d d0 d1 a :
  0 < d -> d <= d0 + d1 -> Rabs (d0 - d1) <= d ->
  a = (d0 * d0 - d1 * d1 + d * d) / (2 * d) ->
  0 <= d0 * d0 - a * a.
Proof.
  intros Hd Hs Hn Ha.
  assert (H1 : d0 - d1 <= d) by (pose proof (Rle_abs (d0 - d1)); lra).
  assert (H2 : d1 - d0 <= d).
  { pose proof (Rle_abs (- (d0 - d1))) as H. rewrite Rabs_Ropp in H. lra. }
  assert (Hq : (d0 * d0 - a * a) * (4 * (d * d)) =
               (d0 + d1 - d) * (d1 + d - d0) * ((d + d0 - d1) * (d + d0 + d1))).
  { subst a. field. lra. }
  assert (Hp : 0 <= (d0 + d1 - d) * (d1 + d - d0) * ((d + d0 - d1) * (d + d0 + d1))).
  { apply Rmult_le_pos; apply Rmult_le_pos; lra. }
  rewrite <- Hq in Hp.
  assert (H4 : 0 < 4 * (d * d)) by nra.
  destruct (Rle_or_lt 0 (d0 * d0 - a * a)) as [|Hneg]; [assumption|].
  exfalso. nra.
Qed.

Lemma x_add u v : (XR u + XR v)%D = XR (u + v).
Proof. reflexivity. Qed.
Lemma x_sub u v : (XR u - XR v)%D = XR (u - v).
Proof. reflexivity. Qed.
Lemma x_mul u v : (XR u * XR v)%D = XR (u * v).
Proof. reflexivity. Qed.
Lemma x_div u v : v <> 0 -> (XR u / XR v)%D = XR (u / v).
Proof. intros Hv. cbn. destruct (Req_dec_T v 0); [contradiction|reflexivity]. Qed.
Lemma x_sqrt u : 0 <= u -> dsqrt (XR u) = XR (sqrt u).
Proof. intros Hu. cbn. destruct (Rlt_dec u 0); [lra|reflexivity]. Qed.
Lemma x_abs u : dabs (XR u) = XR (Rabs u).
Proof. reflexivity. Qed.
Lemma x_lit z : dlit z = XR (IZR z).
Proof. reflexivity. Qed.
Lemma x_ltb u v : (XR u <? XR v)%D = if Rlt_dec u v then true else false.
Proof. reflexivity. Qed.
Lemma x_eqb u v : (XR u =? XR v)%D = if Req_dec_T u v then true else false.
Proof. reflexivity. Qed.

Ltac xarith :=
  repeat first [rewrite x_mul | rewrite x_add | rewrite x_sub
               | rewrite x_lit | rewrite x_abs].

Lemma pllp_exact x1 y1 x2 y2 d0 d1 inverse :
  let d := rdist x1 y1 x2 y2 in
  let r := pllp exact_hypot (xc x1 y1) (XR d0) (XR d1) (xc x2 y2) inverse in
  (circles_fail d d0 d1 /\ r = (XNaN, XNaN)) \/
  (~ circles_fail d d0 d1 /\ exists px py, r = (XR px, XR py) /\
      Coordinate_distance exact_hypot (xc px py) (xc x1 y1) = XR d0 /\
      Coordinate_distance exact_hypot (xc px py) (xc x2 y2) = XR d1 /\
      (if inverse then side x1 y1 x2 y2 px py <= 0
       else 0 <= side x1 y1 x2 y2 px py)).
Proof.
  intros d r. subst r. unfold pllp. rewrite xc_distance. fold d.
  cbn [x y xc].
  rewrite !x_sub, !x_add, !x_abs, !x_lit, !x_ltb, !x_eqb.
  destruct (Rlt_dec (d0 + d1) d) as [Hsep|Hsep].
  { left. split; [left; exact Hsep | reflexivity]. }
  destruct (Rlt_dec d (Rabs (d0 - d1))) as [Hnest|Hnest].
  { left. split; [right; left; exact Hnest | reflexivity]. }
  destruct (Req_dec_T d 0) as [Hz|Hz]; cbn [andb].
  - destruct (Req_dec_T d0 d1) as [He|He].
    { left. split; [right; right; split; assumption | reflexivity]. }
    exfalso. apply Hnest. rewrite Hz.
    apply Rabs_pos_lt. lra.
  - pose proof (rdist_nonneg x1 y1 x2 y2) as Hd0. fold d in Hd0.
    pose proof (rdist_sq x1 y1 x2 y2) as Hdd. fold d in Hdd.
    assert (Hd : 0 < d) by lra.
    assert (Hs : d <= d0 + d1) by lra.
    assert (Hn : Rabs (d0 - d1) <= d) by lra.
    assert (H1 : d0 - d1 <= d) by (pose proof (Rle_abs (d0 - d1)); lra).
    assert (H2 : d1 - d0 <= d).
    { pose proof (Rle_abs (- (d0 - d1))) as H. rewrite Rabs_Ropp in H. lra. }
    set (a := (d0 * d0 - d1 * d1 + d * d) / (2 * d)).
    pose proof (heron_nonneg d d0 d1 a Hd Hs Hn eq_refl) as Hh.
    set (h := sqrt (d0 * d0 - a * a)).
    assert (Hhh : h * h = d0 * d0 - a * a) by (apply sqrt_sqrt; exact Hh).
    assert (Had : a * (2 * d) = d0 * d0 - d1 * d1 + d * d).
    { unfold a. field. lra. }
    right. split.
    { intros [C|[C|[C _]]]; lra. }
    xarith. rewrite (x_div _ (2 * d)) by lra. fold a.
    xarith. rewrite (x_sqrt _ Hh). fold h.
    xarith. rewrite !(x_div _ d) by lra.
    assert (Hh0 : 0 <= h) by apply sqrt_pos.
    assert (Hside : forall sg, sg = 1 \/ sg = -1 ->
              side x1 y1 x2 y2 (x1 + a * (x2 - x1) / d - sg * (h * (y2 - y1) / d))
                   (y1 + a * (y2 - y1) / d + sg * (h * (x2 - x1) / d))
              = sg * (h * d)).
    { intros sg Hsg. unfold side.
      transitivity (sg * h * (((x2 - x1) * (x2 - x1) + (y2 - y1) * (y2 - y1)) / d));
        [field; lra|].
      rewrite <- Hdd. field. lra. }
    destruct inverse; rewrite ?x_add, ?x_sub; eexists; eexists;
      (split; [reflexivity|]); rewrite !xc_distance;
      (split; [|split]); [f_equal; apply rdist_eq; try lra
                         |f_equal; apply rdist_eq; try lra
                         |
                         |f_equal; apply rdist_eq; try lra
                         |f_equal; apply rdist_eq; try lra
                         |].
    3: { pose proof (Hside (-1) (or_intror eq_refl)) as Hs1.
         replace (side _ _ _ _ _ _) with (-1 * (h * d)); [nra|].
         rewrite <- Hs1. f_equal; lra. }
    5: { pose proof (Hside 1 (or_introl eq_refl)) as Hs1.
         replace (side _ _ _ _ _ _) with (1 * (h * d)); [nra|].
         rewrite <- Hs1. f_equal; lra. }
    all: set (dx := x2 - x1) in *; set (dy := y2 - y1) in *.
    all: clear Hside; clearbody a h d.
    1, 3: transitivity ((a * a + h * h) * ((dx * dx + dy * dy) / (d * d)));
      [field; lra | rewrite <- Hdd, Hhh; field; lra].
    all: replace x2 with (x1 + dx) by (unfold dx; ring);
      replace y2 with (y1 + dy) by (unfold dy; ring).
    all: clearbody dx dy.
    all: transitivity (((d - a) * (d - a) + h * h) * ((dx * dx + dy * dy) / (d * d)));
      [field; lra | rewrite <- Hdd, Hhh].
    all: replace (d * d / (d * d)) with 1 by (field; lra); lra.
Qed.

(** Whatever the arithmetic, [pllp] returns (NaN, NaN) when one of its
    three tests holds. *)
Lemma pllp_test_nan {D : Type} {F : Float64 D} (hypot : D -> D -> D)
    (c1 : Coordinate D) (d0 d1 : D) (c2 : Coordinate D) (inverse : bool) :
  pllp_test_fires (Coordinate_distance hypot c1 c2) d0 d1 ->
  pllp hypot c1 d0 d1 c2 inverse = (NAN, NAN).
Proof.
  unfold pllp_test_fires, pllp. cbv zeta. intros H.
  destruct (dltb (d0 + d1)%D _) eqn:E1; [done|].
  destruct (dltb _ (dabs (d0 - d1)%D)) eqn:E2; [done|].
  destruct (deqb _ (dlit 0)) eqn:E3; destruct (deqb d0 d1) eqn:E4; cbn [andb];
    [done|exfalso..]; destruct H as [H|[H|[H3 H4]]]; congruence.
Qed.

End PllpExact.

(** On binary64 numbers the square root in [pllp] can meet a negative
    number by rounding: two circles of radius 0.1 whose centers are 0.2
    apart touch, none of the three tests fires, and the result is
    (NaN, NaN).  And a point that is returned is not at the distances
    asked for: for the circles of radius 1 round (0, 0) and (1, 1) the
    point returned is a number, and its distance to (1, 1) is not 1. *)
Lemma pllp_tangent_nan :
  let c1 := mkCoordinate 0%float 0%float in
  let c2 := mkCoordinate 0x1.999999999999ap-3%float 0%float in
  let d0 := 0x1.999999999999ap-4%float in
  let d1 := 0x1.999999999999ap-4%float in
  let d := Coordinate_distance ieee_hypot c1 c2 in
  let c3 := mkCoordinate 1%float 1%float in
  let p := pllp ieee_hypot c1 1%float 1%float c3 false in
  d = 0x1.999999999999ap-3%float /\
  (d >? d0 + d1)%D = false /\
  (d <? dabs (d0 - d1))%D = false /\
  ((d =? dlit 0)%D && (d0 =? d1)%D) = false /\
  pllp ieee_hypot c1 d0 d1 c2 false = (NAN, NAN) /\
  pllp ieee_hypot c1 d0 d1 c2 true = (NAN, NAN) /\
  isnan p.1 = false /\ isnan p.2 = false /\
  (Coordinate_distance ieee_hypot (mkCoordinate p.1 p.2) c1 =? 1%float)%D = true /\
  (Coordinate_distance ieee_hypot (mkCoordinate p.1 p.2) c3 =? 1%float)%D = false.
Proof. vm_compute. repeat split. Qed.

(** C2. Whatever the arithmetic, so on IEEE doubles with the [hypot] of
    the C library as on exact numbers, [pllp] returns (NaN, NaN) when the
    circles are separate ([d > d0 + d1]), nested ([d < |d0 - d1|]) or
    coincident ([d == 0] and [d0 == d1]), [d] being the distance of the
    centers as computed.  In exact real arithmetic it returns (NaN, NaN)
    only then, and in every other case it returns the intersection point
    selected by [inverse]: the point lies at distance [d0] from [c1] and
    [d1] from [c2], on the left of the line from [c1] to [c2] (or on it)
    when [inverse] is false, on the right (or on it) when it is true. *)
Theorem pllp_spec :
  (forall (D : Type) (F : Float64 D) (hypot : D -> D -> D)
          (c1 : Coordinate D) (d0 d1 : D) (c2 : Coordinate D) (inverse : bool),
     pllp_test_fires (Coordinate_distance hypot c1 c2) d0 d1 ->
     pllp hypot c1 d0 d1 c2 inverse = (NAN, NAN)) /\
  (forall (x1 y1 x2 y2 d0 d1 : R) (inverse : bool),
     let d := rdist x1 y1 x2 y2 in
     let r := pllp exact_hypot (xc x1 y1) (XR d0) (XR d1) (xc x2 y2) inverse in
     (circles_fail d d0 d1 /\ r = (XNaN, XNaN)) \/
     (~ circles_fail d d0 d1 /\ exists px py, r = (XR px, XR py) /\
        Coordinate_distance exact_hypot (xc px py) (xc x1 y1) = XR d0 /\
        Coordinate_distance exact_hypot (xc px py) (xc x2 y2) = XR d1 /\
        (if inverse then side x1 y1 x2 y2 px py <= 0
         else 0 <= side x1 y1 x2 y2 px py))%R).
Proof.
  split.
  - intros D F hypot c1 d0 d1 c2 inverse. apply pllp_test_nan.
  - intros x1 y1 x2 y2 d0 d1 inverse. apply pllp_exact.
Qed.

(** Two circles of radius 1 whose centers are 3 apart are separate, on
    doubles; two circles of radius 1 round (0, 0) and (1, 1) meet in
    (0, 1), on the left of the line from the first center to the second,
    and in (1, 0), on its right. *)
Lemma pllp_spec_separate_and_unit :
  pllp ieee_hypot (mkCoordinate 0%float 0%float) 1%float 1%float
    (mkCoordinate 3%float 0%float) false = (NAN, NAN) /\
  ((circles_fail (rdist 0 0 1 1) 1 1 /\
    pllp exact_hypot (xc 0 0) (XR 1) (XR 1) (xc 1 1) false = (XNaN, XNaN)) \/
   (~ circles_fail (rdist 0 0 1 1) 1 1 /\ exists px py,
      pllp exact_hypot (xc 0 0) (XR 1) (XR 1) (xc 1 1) false = (XR px, XR py) /\
      Coordinate_distance exact_hypot (xc px py) (xc 0 0) = XR 1 /\
      Coordinate_distance exact_hypot (xc px py) (xc 1 1) = XR 1 /\
      0 <= side 0 0 1 1 px py))%R.
Proof.
  split.
  - apply (proj1 pllp_spec float ieee_double ieee_hypot).
    left. vm_compute. reflexivity.
  - exact (proj2 pllp_spec 0 0 1 1 1 1 false)%R.
Defined.

(** ** Example mechanisms *)

(** ** The synthesizer: the input branch keeps [skip_times] *)

Section SkipTimes.
Variables (cos sin : float -> float) (M_PI : float).
Variables (pin_grounded has_offset : VPoint.t float -> bool).
Local Open Scope Z_scope.

(** The placement of an input joint from its solved base leaves
    [skip_times] as it is. *)
Lemma joint_R_input_keeps_skip_times {D : Type} {F : Float64 D}
    (env : LoopEnv D) (s : LoopState) :
  node s ∈ input_targets env ->
  status s !! _get_input_base (node s) (inputs env) = Some true ->
  exists s', joint_R env s = Ok s' /\
             status s' = <[node s := true]> (status s) /\
             skip_times s' = skip_times s.
Proof.
  intros Hin Hbase. unfold joint_R.
  rewrite bool_decide_eq_true_2 by done.
  unfold status_get. rewrite Hbase. cbn [or_raise bind].
  eexists. split; [reflexivity|]. done.
Qed.

(** C6, on the code. On [driven_from_a_floating_joint] with the input pair
    (3, 0) the loop places joint 3 (PLLP, [skip_times] reset), skips joints
    4 and 5, places the input joint 0 (PLA) without resetting [skip_times],
    and breaks after four more skips, before it comes back to joint 5:
    joint 5 stays unsolved although its friends 0 and 4 are solved. *)
Theorem t_config_input_placement_keeps_skip_times :
  (t_config cos sin M_PI pin_grounded has_offset
     (store_of driven_from_a_floating_joint) 6%nat [(3, 0)] ∅).2
  = Some (Ok (list_to_map [(0, true); (1, true); (2, true); (3, true);
                           (4, true); (5, false)],
              [mkExpr PLLP (P_LABEL, 1) (L_LABEL, 0) (L_LABEL, 1)
                 (P_LABEL, 2) (P_LABEL, 3) sym_unset false;
               mkExpr PLA (P_LABEL, 3) (L_LABEL, 2) (A_LABEL, 0)
                 (P_LABEL, 0) sym_unset sym_unset false])).
Proof. vm_compute. reflexivity. Qed.

End SkipTimes.

(** ** The two replacements of the P joints' friends *)

(** C7, on the code. On [floating_slider], whose prismatic joint is not
    grounded, [t_config] leaves the revolute joint as it is and
    [data_collecting] replaces it by an RP joint. *)
Theorem normalizations_differ :
  let h := store_of floating_slider in
  (exists status vlinks,
     (t_config_normalize h [0; 1]%nat ∅).2
     = Ok (status, vlinks, floating_slider)) /\
  (data_collecting_normalize h 2%nat).2
  = Ok [prismatic ["L1"; "L2"] 0 0 0;
        VPoint.c_slider_joint ["L1"; "L3"]%string VJoint.RP 0%float 10%float 0%float].
Proof.
  split.
  - eexists _, _. vm_compute. reflexivity.
  - vm_compute. reflexivity.
Qed.

(** ** Cycles: the walk around a polygon *)

Section PolygonWalk.
Implicit Types (r a z : Z) (done todo path : list Z) (g : Graph).

Lemma preds_dom r a done x :
  is_Some (preds r a done !! x) <-> x = r \/ x = a \/ x ∈ done.
Proof.
  induction done as [|z done IH]; simpl.
  - rewrite lookup_insert_is_Some, lookup_singleton_is_Some.
    rewrite elem_of_nil. destruct (decide (a = x)); intuition congruence.
  - rewrite lookup_insert_is_Some, IH, elem_of_cons.
    destruct (decide (z = x)); intuition congruence.
Qed.

Lemma useds_dom r a done x :
  is_Some (useds r a done !! x) <-> x = r \/ x = a \/ x ∈ done.
Proof.
  induction done as [|z done IH]; simpl.
  - rewrite lookup_insert_is_Some, lookup_singleton_is_Some.
    rewrite elem_of_nil. destruct (decide (a = x)); intuition congruence.
  - rewrite lookup_insert_is_Some, IH, elem_of_cons.
    destruct (decide (z = x)); intuition congruence.
Qed.

Lemma useds_root r a done :
  r <> a -> r ∉ done -> useds r a done !! r = Some ∅.
Proof.
  intros Hra Hr. induction done as [|z done IH]; simpl.
  - rewrite lookup_insert_ne by done. apply lookup_singleton_eq.
  - apply not_elem_of_cons in Hr as [Hz Hr].
    rewrite lookup_insert_ne by done. by apply IH.
Qed.

Lemma useds_other r a done :
  a ∉ done -> useds r a done !! a = Some {[r]}.
Proof.
  intros Ha. induction done as [|z done IH]; simpl.
  - apply lookup_insert_eq.
  - apply not_elem_of_cons in Ha as [Hz Ha].
    rewrite lookup_insert_ne by done. by apply IH.
Qed.

(** The predecessor of a node of the walk is the node before it. *)
Lemma preds_lookup r a front b back :
  b ∉ front -> preds r a (front ++ b :: back) !! b = Some (hd r back).
Proof.
  intros Hb. induction front as [|f front IH]; simpl.
  - apply lookup_insert_eq.
  - apply not_elem_of_cons in Hb as [Hf Hb].
    rewrite lookup_insert_ne by done. by apply IH.
Qed.

Lemma add_new (cycle : OrderedSet Z) (p : Z) : p ∉ cycle -> _add cycle p = cycle ++ [p].
Proof. intros Hp. unfold _add, contains. by rewrite bool_decide_eq_false_2. Qed.

(** The walk up the predecessors from the end of the path adds the path
    and then the root. *)
Lemma close_cycle_path r a back : forall front (fuel : nat),
  NoDup (r :: a :: front ++ back) ->
  (length back < fuel)%nat ->
  close_cycle fuel (preds r a (front ++ back)) {[r]} (a :: front) (hd r back)
  = Some (Ok (a :: front ++ back ++ [r])).
Proof.
  induction back as [|b back IH]; intros front fuel Hnd Hf.
  - destruct fuel as [|fuel]; [simpl in Hf; lia|]. simpl.
    rewrite bool_decide_eq_true_2 by (by apply elem_of_singleton).
    rewrite app_nil_r in *. rewrite add_new; [done|].
    apply NoDup_cons in Hnd as [Hr _]. done.
  - destruct fuel as [|fuel]; [simpl in Hf; lia|]. cbn [close_cycle hd].
    assert (Hbr : b <> r).
    { apply NoDup_cons in Hnd as [Hr _]. intros ->. apply Hr.
      right. apply elem_of_app. right. by left. }
    rewrite bool_decide_eq_false_2 by (by rewrite elem_of_singleton).
    assert (Hbf : b ∉ front).
    { apply NoDup_cons in Hnd as [_ Hnd]. apply NoDup_cons in Hnd as [_ Hnd].
      apply NoDup_app in Hnd as (_ & Hd & _). intros Hb. apply (Hd b Hb). by left. }
    rewrite preds_lookup by done.
    assert (Hba : b ∉ a :: front).
    { apply NoDup_cons in Hnd as [_ Hnd]. apply NoDup_cons in Hnd as [Ha _].
      apply not_elem_of_cons. split; [|done].
      intros ->. apply Ha. apply elem_of_app. right. by left. }
    rewrite add_new by done.
    replace (front ++ b :: back) with ((front ++ [b]) ++ back)
      by (by rewrite <- app_assoc).
    change ((a :: front) ++ [b]) with (a :: (front ++ [b])).
    rewrite IH.
    + by rewrite <- !app_assoc.
    + by rewrite <- app_assoc.
    + simpl in Hf. lia.
Qed.

Lemma visit_new bound z w nbr :
  used w !! nbr = None ->
  visit bound z w nbr
  = Some (Ok (mkWalk (nbr :: stack w) (<[nbr := z]> (pred w))
                (<[nbr := {[z]}]> (used w)) (cycles w))).
Proof. intros H. unfold visit. by rewrite H. Qed.

Lemma visit_seen bound z w nbr zused :
  is_Some (used w !! nbr) -> nbr <> z ->
  used w !! z = Some zused -> nbr ∈ zused ->
  visit bound z w nbr = Some (Ok w).
Proof.
  intros [pn Hn] Hz Hu Hin. unfold visit. rewrite Hn, Hu.
  rewrite (proj2 (Z.eqb_neq _ _) Hz). by rewrite bool_decide_eq_true_2.
Qed.

Lemma visit_cycle bound z w nbr pn zused p cycle :
  used w !! nbr = Some pn -> nbr <> z ->
  used w !! z = Some zused -> nbr ∉ zused ->
  pred w !! z = Some p ->
  close_cycle bound (pred w) pn (OrderedSet_init [nbr; z]) p = Some (Ok cycle) ->
  visit bound z w nbr
  = Some (Ok (mkWalk (stack w) (pred w) (<[nbr := pn ∪ {[z]}]> (used w))
                (cycles w ++ [CycleSet cycle]))).
Proof.
  intros Hn Hz Hu Hin Hp Hc. unfold visit. rewrite Hn, Hu.
  rewrite (proj2 (Z.eqb_neq _ _) Hz). rewrite bool_decide_eq_false_2 by done.
  by rewrite Hp, Hc.
Qed.

Lemma OrderedSet_init_pair (u v : Z) : u <> v -> OrderedSet_init [u; v] = [u; v].
Proof.
  intros H. unfold OrderedSet_init. cbn [fold_left].
  rewrite (add_new [] u) by apply not_elem_of_nil.
  rewrite add_new; [done|]. simpl. intros [->|Hn]%elem_of_cons; [done|]. by apply elem_of_nil in Hn.
Qed.

(** The two neighbours of a node of the path, in either order: the one
    the walk came from is known, the other is new and is pushed. *)
Lemma visit_both_push bound z w prev y zused nbrs :
  nbrs = [prev; y] \/ nbrs = [y; prev] ->
  is_Some (used w !! prev) -> prev <> z -> prev <> y -> y <> z ->
  used w !! z = Some zused -> prev ∈ zused -> used w !! y = None ->
  visit_all bound z nbrs w
  = Some (Ok (mkWalk (y :: stack w) (<[y := z]> (pred w))
                (<[y := {[z]}]> (used w)) (cycles w))).
Proof.
  intros [-> | ->] Hprev Hpz Hpy Hyz Hz Hin Hy; cbn [visit_all].
  - rewrite (visit_seen _ _ _ _ zused) by done. by rewrite visit_new.
  - rewrite visit_new by done.
    rewrite (visit_seen _ _ _ _ zused); [done| | done | |done]; cbn [used].
    + by rewrite lookup_insert_ne.
    + by rewrite lookup_insert_ne.
Qed.

(** The same at the end of the path: the other neighbour is the one that
    waits on the stack, and a cycle is found. *)
Lemma visit_both_cycle bound z w prev a zused pn p cycle nbrs :
  nbrs = [prev; a] \/ nbrs = [a; prev] ->
  is_Some (used w !! prev) -> prev <> z -> prev <> a -> a <> z ->
  used w !! z = Some zused -> prev ∈ zused -> a ∉ zused ->
  used w !! a = Some pn -> pred w !! z = Some p ->
  close_cycle bound (pred w) pn (OrderedSet_init [a; z]) p = Some (Ok cycle) ->
  visit_all bound z nbrs w
  = Some (Ok (mkWalk (stack w) (pred w) (<[a := pn ∪ {[z]}]> (used w))
                (cycles w ++ [CycleSet cycle]))).
Proof.
  intros [-> | ->] Hprev Hpz Hpa Haz Hz Hin Hnin Ha Hp Hc; cbn [visit_all].
  - rewrite (visit_seen _ _ _ _ zused) by done.
    by rewrite (visit_cycle _ _ _ _ pn zused p cycle).
  - rewrite (visit_cycle _ _ _ _ pn zused p cycle) by done.
    rewrite (visit_seen _ _ _ _ zused); [done| | done | |done]; cbn [used].
    + by rewrite lookup_insert_ne.
    + by rewrite lookup_insert_ne.
Qed.

Lemma visit_both_seen bound z w u v zused nbrs :
  nbrs = [u; v] \/ nbrs = [v; u] ->
  is_Some (used w !! u) -> is_Some (used w !! v) -> u <> z -> v <> z ->
  used w !! z = Some zused -> u ∈ zused -> v ∈ zused ->
  visit_all bound z nbrs w = Some (Ok w).
Proof.
  intros [-> | ->] Hu Hv Huz Hvz Hz Huin Hvin; cbn [visit_all].
  - rewrite (visit_seen _ _ _ _ zused) by done.
    by rewrite (visit_seen _ _ _ _ zused).
  - rewrite (visit_seen _ _ _ _ zused) by done.
    by rewrite (visit_seen _ _ _ _ zused).
Qed.

Lemma elem_of_rev (x : Z) l : x ∈ rev l <-> x ∈ l.
Proof. rewrite !list_elem_of_In. symmetry. apply in_rev. Qed.

Lemma hd_cases r done : hd r done = r \/ hd r done ∈ done.
Proof. destruct done; [by left|right; by left]. Qed.

(** What the distinctness of the nodes gives at a step of the walk. *)
Lemma walk_distinct r a done z todo :
  NoDup (r :: a :: rev done ++ z :: todo) ->
  r <> a /\ r <> z /\ a <> z /\ (r ∉ done) /\ (a ∉ done) /\ (z ∉ done) /\
  NoDup (r :: a :: z :: done) /\
  (forall y, y ∈ todo -> y <> r /\ y <> a /\ y <> z /\ y ∉ done).
Proof.
  intros Hnd.
  apply NoDup_cons in Hnd as [Hr Hnd]. apply NoDup_cons in Hnd as [Ha Hnd].
  apply NoDup_app in Hnd as (Hdone & Hsep & Hzt).
  apply NoDup_cons in Hzt as [Hz Htodo].
  rewrite not_elem_of_cons, elem_of_app, elem_of_rev, elem_of_cons in Hr.
  rewrite elem_of_app, elem_of_rev, elem_of_cons in Ha.
  assert (Hzd : z ∉ done).
  { intros Hin. apply (Hsep z); [by apply elem_of_rev|by left]. }
  do 6 (split; [tauto|]). split.
  - repeat (apply NoDup_cons; split).
    + rewrite !elem_of_cons. tauto.
    + rewrite !elem_of_cons. tauto.
    + done.
    + apply NoDup_ListNoDup. apply NoDup_ListNoDup in Hdone.
      by apply NoDup_rev in Hdone; rewrite rev_involutive in Hdone.
  - intros e He. repeat split.
    + intros ->. tauto.
    + intros ->. tauto.
    + intros ->. done.
    + intros Hin. apply (Hsep e); [by apply elem_of_rev|by right].
Qed.

Lemma hd_known r a done z :
  is_Some (useds r a (z :: done) !! hd r done).
Proof.
  apply useds_dom. destruct (hd_cases r done) as [->|Hin]; [by left|].
  right; right. by right.
Qed.

(** The walk along a path.  The stack holds the node [z] the walk has
    reached and the other neighbour [a] of the root; the walk goes through
    [todo], finds the one cycle when it meets [a], and ends. *)
Lemma walk_path g r a : forall todo done z (fuel bound : nat),
  NoDup (r :: a :: rev done ++ z :: todo) ->
  (adj g !! z = Some [hd r done; hd a todo] \/
   adj g !! z = Some [hd a todo; hd r done]) ->
  chain g z todo a ->
  (adj g !! a = Some [hd r (rev todo ++ z :: done); r] \/
   adj g !! a = Some [r; hd r (rev todo ++ z :: done)]) ->
  (length todo + 3 <= fuel)%nat ->
  (length done + length todo + 1 < bound)%nat ->
  walk fuel bound g
    (mkWalk [z; a] (preds r a (z :: done)) (useds r a (z :: done)) [])
  = Some (Ok (mkWalk [] (preds r a (rev todo ++ z :: done))
                (<[a := {[r]} ∪ {[hd r (rev todo ++ z :: done)]}]>
                   (useds r a (rev todo ++ z :: done)))
                [CycleSet (a :: (rev todo ++ z :: done) ++ [r])])).
Proof.
  induction todo as [|y ys IH]; intros done z fuel bound Hnd Hz Hchain Ha Hfuel Hbound.
  - (* the end of the path *)
    destruct (walk_distinct _ _ _ _ _ Hnd)
      as (Hra & Hrz & Haz & Hrd & Had & Hzd & Hnd' & _).
    cbn [rev app hd] in *.
    destruct fuel as [|[|[|fuel]]]; [simpl in Hfuel; lia..|].
    assert (Hpz : hd r done <> z).
    { destruct (hd_cases r done) as [->|Hin]; [done|]. by intros <-. }
    assert (Hpa : hd r done <> a).
    { destruct (hd_cases r done) as [->|Hin]; [done|]. by intros <-. }
    assert (Hnbrs : exists nbrs, adj g !! z = Some nbrs /\
              (nbrs = [hd r done; a] \/ nbrs = [a; hd r done])).
    { destruct Hz as [Hz|Hz]; eexists; (split; [exact Hz|]); [by left|by right]. }
    destruct Hnbrs as (nbrs & Hadj & Hnbrs).
    assert (Hnbrs' : exists nbrs', adj g !! a = Some nbrs' /\
              (nbrs' = [z; r] \/ nbrs' = [r; z])).
    { destruct Ha as [Ha|Ha]; eexists; (split; [exact Ha|]); [by left|by right]. }
    destruct Hnbrs' as (nbrs' & Hadj' & Hnbrs').
    cbn [walk stack pred used cycles useds preds].
    rewrite (lookup_insert_eq (useds r a done) z), Hadj.
    rewrite (visit_both_cycle bound z _ (hd r done) a {[hd r done]} {[r]}
               (hd r done) (a :: [z] ++ done ++ [r]) nbrs Hnbrs);
      cbn [stack pred used cycles]; try done.
    + cbn [app].
      rewrite lookup_insert_eq, Hadj'.
      rewrite (visit_both_seen bound a _ z r ({[r]} ∪ {[z]}) nbrs' Hnbrs');
        cbn [stack pred used cycles]; try done.
      * rewrite lookup_insert_ne by done. cbn [useds]. rewrite lookup_insert_eq. done.
      * rewrite lookup_insert_ne by done. apply (useds_dom r a (z :: done)). by left.
      * apply lookup_insert_eq.
      * apply elem_of_union. right. by apply elem_of_singleton.
      * apply elem_of_union. left. by apply elem_of_singleton.
    + apply (hd_known r a done z).
    + apply (lookup_insert_eq (useds r a done) z).
    + by apply elem_of_singleton.
    + rewrite elem_of_singleton. congruence.
    + apply (useds_other r a (z :: done)). by apply not_elem_of_cons.
    + apply (lookup_insert_eq (preds r a done) z).
    + rewrite OrderedSet_init_pair by done.
      apply (close_cycle_path r a done [z]).
      * done.
      * simpl in Hbound. lia.
  - (* a step along the path *)
    destruct (walk_distinct _ _ _ _ _ Hnd)
      as (Hra & Hrz & Haz & Hrd & Had & Hzd & Hnd' & Hy).
    destruct (Hy y) as (Hyr & Hya & Hyz & Hyd); [by left|].
    destruct Hchain as [Hyadj Hchain].
    cbn [hd] in Hz.
    destruct fuel as [|fuel]; [simpl in Hfuel; lia|].
    assert (Hpz : hd r done <> z).
    { destruct (hd_cases r done) as [->|Hin]; [done|]. by intros <-. }
    assert (Hpy : hd r done <> y).
    { destruct (hd_cases r done) as [->|Hin]; [done|]. by intros <-. }
    assert (Hnbrs : exists nbrs, adj g !! z = Some nbrs /\
              (nbrs = [hd r done; y] \/ nbrs = [y; hd r done])).
    { destruct Hz as [Hz|Hz]; eexists; (split; [exact Hz|]); [by left|by right]. }
    destruct Hnbrs as (nbrs & Hadj & Hnbrs).
    cbn [walk stack pred used cycles useds preds].
    rewrite (lookup_insert_eq (useds r a done) z), Hadj.
    rewrite (visit_both_push bound z _ (hd r done) y {[hd r done]} nbrs Hnbrs);
      cbn [stack pred used cycles]; try done.
    + cbn [rev]. rewrite <- !(app_assoc (rev ys) [y] (z :: done)). cbn [app].
      apply (IH (z :: done) y fuel bound).
      * cbn [rev]. by rewrite <- app_assoc.
      * exact Hyadj.
      * exact Hchain.
      * cbn [rev] in Ha. rewrite <- !(app_assoc (rev ys) [y] (z :: done)) in Ha. exact Ha.
      * simpl in Hfuel. lia.
      * simpl in Hbound |- *. lia.
    + apply (hd_known r a done z).
    + apply (lookup_insert_eq (useds r a done) z).
    + by apply elem_of_singleton.
    + apply eq_None_not_Some. rewrite (useds_dom r a (z :: done)), elem_of_cons. tauto.
Qed.

Lemma filter_none {A} (P : A -> Prop) `{!forall e, Decision (P e)} (l : list A) :
  (forall e, e ∈ l -> ~ P e) -> filter P l = [].
Proof.
  induction l as [|e l IH]; intros Hl; [done|].
  rewrite filter_cons. destruct (decide (P e)) as [HP|HP].
  - destruct (Hl e); [by left|done].
  - apply IH. intros b Hb. apply Hl. by right.
Qed.

Lemma set_pop_elem (pop_index : list Z -> nat) s r rest :
  set_pop pop_index s = Some (r, rest) ->
  r ∈ s /\ (forall x, x ∈ rest -> x ∈ s).
Proof.
  unfold set_pop. destruct (s !! _) as [e|] eqn:E; [|done].
  intros [= <- <-]. split.
  - by apply list_elem_of_lookup_2 in E.
  - intros y Hy. eapply elem_of_submseteq; [exact Hy|]. apply submseteq_delete.
Qed.

Lemma set_pop_nil (pop_index : list Z -> nat) : set_pop pop_index [] = None.
Proof. done. Qed.

Lemma set_pop_some (pop_index : list Z -> nat) s :
  s <> [] -> exists r rest, set_pop pop_index s = Some (r, rest).
Proof.
  intros Hs. unfold set_pop.
  destruct (lookup_lt_is_Some_2 s (pop_index s mod length s)) as [x Hx].
  - apply Nat.mod_upper_bound. by destruct s.
  - rewrite Hx. by eexists _, _.
Qed.

Lemma ring_walk g r a path (fuel bound : nat) :
  ring g r a path ->
  (length path + 3 <= fuel)%nat -> (length path < bound)%nat ->
  walk fuel bound g (mkWalk [r] {[r := r]} {[r := ∅]} [])
  = Some (Ok (mkWalk [] (preds r a (rev path))
                (<[a := {[r]} ∪ {[hd r (rev path)]}]> (useds r a (rev path)))
                [CycleSet (a :: rev path ++ [r])])).
Proof.
  intros (Hnd & Hne & Hr & Hchain & Ha & _) Hfuel Hbound.
  destruct path as [|z todo]; [done|]. clear Hne.
  destruct (walk_distinct r a [] z todo Hnd)
    as (Hra & Hrz & Haz & _ & _ & _ & _ & _).
  destruct fuel as [|fuel]; [lia|].
  cbn [walk stack pred used cycles].
  rewrite lookup_singleton_eq. cbn [hd] in Hr. rewrite Hr.
  cbn [visit_all].
  rewrite visit_new by (cbn [used]; by apply lookup_singleton_ne).
  rewrite visit_new.
  2:{ cbn [used]. rewrite lookup_insert_ne by done. by apply lookup_singleton_ne. }
  cbn [stack pred used cycles].
  destruct Hchain as [Hz Hchain].
  cbn [rev] in *.
  apply (walk_path g r a todo [] z fuel bound).
  - exact Hnd.
  - exact Hz.
  - exact Hchain.
  - exact Ha.
  - simpl in Hfuel. lia.
  - simpl in Hbound |- *. lia.
Qed.

Lemma ring_length g r a path :
  ring g r a path -> (length path + 2 <= length (nodes g))%nat.
Proof.
  intros (Hnd & _ & _ & _ & _ & Hnodes).
  change (length path + 2)%nat with (length path + 2)%nat.
  replace (length path + 2)%nat with (length (r :: a :: path)) by (simpl; lia).
  apply submseteq_length, NoDup_submseteq; [done|].
  intros x Hx. by apply Hnodes.
Qed.

Lemma path_b_snoc g l y z :
  path_b g (l ++ [y]) = true -> edge_b g y z = true -> path_b g (l ++ [y; z]) = true.
Proof.
  intros Hl Hyz. induction l as [|x l IH]; cbn [app path_b] in *.
  - by rewrite Hyz.
  - destruct (l ++ [y]) as [|u t] eqn:E1; [by destruct l|].
    destruct (l ++ [y; z]) as [|u' t'] eqn:E2; [by destruct l|].
    assert (u' = u) as -> by (destruct l; simplify_eq/=; done).
    apply andb_true_iff in Hl as [Hxu Ht]. by rewrite Hxu, IH.
Qed.

Lemma path_b_cons g x l z :
  l <> [] -> edge_b g x (hd z l) = true -> path_b g l = true ->
  path_b g (x :: l) = true.
Proof.
  intros Hl Hx Hp. destruct l as [|y l]; [done|]. cbn [hd] in Hx.
  change (path_b g (x :: y :: l)) with (edge_b g x y && path_b g (y :: l)).
  by rewrite Hx, Hp.
Qed.

Lemma edge_b_first g x y z : adj g !! x = Some [y; z] -> edge_b g x y = true.
Proof.
  intros H. unfold edge_b. rewrite H. apply bool_decide_eq_true_2. by left.
Qed.

Lemma edge_b_second g x y z : adj g !! x = Some [y; z] -> edge_b g x z = true.
Proof.
  intros H. unfold edge_b. rewrite H. apply bool_decide_eq_true_2. right. by left.
Qed.

(** Back along a chain, each node is joined to the one before it. *)
Lemma chain_path g a : forall path prev,
  chain g prev path a -> path_b g (rev path ++ [prev]) = true.
Proof.
  induction path as [|y ys IH]; intros prev; [done|].
  intros [Hy Hys]. cbn [rev]. rewrite <- app_assoc. cbn [app].
  apply path_b_snoc; [by apply IH|].
  destruct Hy as [Hy|Hy]; [by eapply edge_b_first|by eapply edge_b_second].
Qed.

(** The cycle of a ring walks round the ring. *)
Lemma ring_closed_walk g r a path :
  ring g r a path -> closed_walk g (a :: rev path ++ [r]) = true.
Proof.
  intros (_ & Hne & Hr & Hchain & Ha & _). unfold closed_walk.
  change ((a :: rev path ++ [r]) ++ [a]) with (a :: ((rev path ++ [r]) ++ [a])).
  rewrite <- app_assoc. cbn [app].
  assert (Hback : path_b g (rev path ++ [r; a]) = true).
  { apply path_b_snoc; [by apply (chain_path g a)|]. by eapply edge_b_first. }
  apply (path_b_cons g a _ r); [by destruct (rev path)| |done].
  assert (Hhd : hd r (rev path ++ [r; a]) = hd r (rev path)).
  { destruct (rev path) eqn:E; [|done].
    apply (f_equal (@rev Z)) in E. rewrite rev_involutive in E. done. }
  rewrite Hhd.
  destruct Ha as [Ha|Ha]; [by eapply edge_b_first|by eapply edge_b_second].
Qed.

(** The cycle basis of a ring is its one cycle, from [a] back along the
    path to the root. *)
Lemma cycle_basis_ring (pop_index : list Z -> nat) g r a path rest :
  ring g r a path ->
  set_pop pop_index (remove_dups (nodes g)) = Some (r, rest) ->
  cycle_basis pop_index g = Some (Ok [CycleSet (a :: rev path ++ [r])]).
Proof.
  intros Hring Hpop.
  pose proof (ring_length _ _ _ _ Hring) as Hlen.
  unfold cycle_basis, graph_size.
  set (m := map_fold _ _ _). clearbody m.
  cbn [components]. rewrite Hpop.
  rewrite (ring_walk g r a path _ _ Hring) by lia.
  destruct (length (nodes g) + m)%nat as [|fuel] eqn:E; [lia|].
  cbn [components].
  rewrite filter_none; [by rewrite set_pop_nil|].
  intros n Hn Hnone.
  destruct Hring as (_ & _ & _ & _ & _ & Hnodes).
  apply set_pop_elem in Hpop as [_ Hrest].
  apply Hrest, elem_of_remove_dups, Hnodes in Hn.
  assert (Hsome : is_Some (preds r a (rev path) !! n)).
  { apply preds_dom. rewrite elem_of_rev. by rewrite !elem_of_cons in Hn. }
  rewrite Hnone in Hsome. by destruct Hsome.
Qed.
End PolygonWalk.

(** ** Cycles: polygons *)

Section PolygonRing.
Local Open Scope Z_scope.
Variables (g : Graph) (n : Z) (cyc : Z -> Z).
Hypothesis Hpoly : polygon g n cyc.
(** The root is [cyc i]; the walk leaves it in the direction [s]. *)
Variables (i s : Z).
Hypothesis Hi : 0 <= i < n.
Hypothesis Hs : s = 1 \/ s = -1.

Local Abbreviation node_at := (node_at n cyc i s).
Local Abbreviation ring_path := (ring_path n cyc i s).

Lemma mod_inj (u v : Z) : u mod n = v mod n -> - n < u - v < n -> u = v.
Proof using Hpoly.
  destruct Hpoly as (Hn & _). intros Hmod Hlt.
  assert (Hdiv : (n | u - v)).
  { apply Z.mod_divide; [lia|]. rewrite Zminus_mod, Hmod, Z.sub_diag. by apply Z.mod_0_l; lia. }
  destruct Hdiv as [c Hc].
  assert (c < 1) by nia. assert (-1 < c) by nia.
  assert (c = 0) by lia. subst c. lia.
Qed.

Lemma node_at_inj (j j' : Z) :
  0 <= j < n -> 0 <= j' < n -> node_at j = node_at j' -> j = j'.
Proof using Hpoly Hs.
  destruct Hpoly as (Hn & Hinj & _). intros Hj Hj' Heq.
  apply Hinj in Heq; [|apply Z.mod_pos_bound; lia..].
  apply mod_inj in Heq; [|destruct Hs; subst s; lia].
  destruct Hs; subst s; lia.
Qed.

Lemma node_at_0 : node_at 0 = cyc i.
Proof using Hi.
  unfold node_at. rewrite Z.mul_0_r, Z.add_0_r. by rewrite Z.mod_small.
Qed.

Lemma node_at_period (j : Z) : node_at (j + n) = node_at j.
Proof.
  unfold node_at. replace (i + s * (j + n)) with (i + s * j + s * n) by lia.
  by rewrite Z_mod_plus_full.
Qed.

Lemma node_at_index (j : Z) : 0 <= (i + s * j) mod n < n.
Proof using Hpoly. destruct Hpoly as (Hn & _). apply Z.mod_pos_bound. lia. Qed.

(** The adjacency of a node of the polygon, seen from the walk. *)
Lemma node_adj (j : Z) :
  adj g !! node_at j = Some [node_at (j - 1); node_at (j + 1)] \/
  adj g !! node_at j = Some [node_at (j + 1); node_at (j - 1)].
Proof using Hpoly Hs.
  pose proof (node_at_index j) as Hk.
  destruct Hpoly as (Hn & _ & _ & Hadj).
  specialize (Hadj _ Hk). unfold node_at.
  rewrite Zminus_mod_idemp_l, Zplus_mod_idemp_l in Hadj.
  destruct Hs; subst s.
  - replace (i + 1 * (j - 1)) with (i + 1 * j - 1) by lia.
    replace (i + 1 * (j + 1)) with (i + 1 * j + 1) by lia.
    exact Hadj.
  - replace (i + -1 * (j - 1)) with (i + -1 * j + 1) by lia.
    replace (i + -1 * (j + 1)) with (i + -1 * j - 1) by lia.
    destruct Hadj as [Hadj|Hadj]; [by right|by left].
Qed.

Lemma hd_nodes (d : Z) (k m : nat) :
  hd d ((fun k : nat => node_at (Z.of_nat k)) <$> seq k (S m)) = node_at (Z.of_nat k).
Proof. done. Qed.

Lemma chain_from (m : nat) : forall k : nat,
  (1 <= k)%nat -> Z.of_nat k + Z.of_nat m = n - 1 ->
  chain g (node_at (Z.of_nat k - 1))
    ((fun k : nat => node_at (Z.of_nat k)) <$> seq k m) (node_at (n - 1)).
Proof using Hpoly Hs.
  induction m as [|m IH]; intros k Hk Hkm; [done|].
  cbn [seq fmap list_fmap chain]. split.
  - replace (hd (node_at (n - 1)) _) with (node_at (Z.of_nat k + 1)).
    + apply node_adj.
    + destruct m as [|m]; cbn [seq fmap list_fmap hd].
      * f_equal. lia.
      * f_equal. lia.
  - replace (Z.of_nat k) with (Z.of_nat (S k) - 1) at 1 by lia.
    apply IH; lia.
Qed.

Lemma ring_path_nodes :
  ring_path = node_at <$> (Z.of_nat <$> seq 1 (Z.to_nat (n - 2))).
Proof. unfold ring_path. by rewrite <- list_fmap_compose. Qed.

Lemma ring_path_last (d : Z) : hd d (rev ring_path) = node_at (n - 2).
Proof using Hpoly.
  destruct Hpoly as (Hn & _). unfold ring_path.
  destruct (Z.to_nat (n - 2)) as [|m] eqn:E; [lia|].
  rewrite seq_S, fmap_app, rev_app_distr. cbn [fmap list_fmap rev app hd].
  f_equal. lia.
Qed.

Lemma ring_NoDup : NoDup (node_at 0 :: node_at (n - 1) :: ring_path).
Proof using Hpoly Hs.
  pose proof Hpoly as (Hn & _). rewrite ring_path_nodes.
  change (NoDup (node_at <$> (0 :: (n - 1) :: (Z.of_nat <$> seq 1 (Z.to_nat (n - 2)))))).
  assert (Hrange : forall j, j ∈ 0 :: (n - 1) :: (Z.of_nat <$> seq 1 (Z.to_nat (n - 2))) ->
            0 <= j < n).
  { intros j. rewrite !elem_of_cons, list_elem_of_fmap.
    intros [->|[->|(k & -> & Hk%elem_of_seq)]]; lia. }
  apply NoDup_fmap_2_strong.
  - intros j j' Hj Hj'. apply node_at_inj; by apply Hrange.
  - assert (Hseq : forall j, j ∈ (Z.of_nat <$> seq 1 (Z.to_nat (n - 2))) -> 1 <= j < n - 1).
    { intros j (k & -> & Hk%elem_of_seq)%list_elem_of_fmap. lia. }
    apply NoDup_cons. split.
    { rewrite elem_of_cons. intros [?|Hin%Hseq]; lia. }
    apply NoDup_cons. split.
    { intros Hin%Hseq. lia. }
    apply NoDup_fmap_2; [apply Nat2Z.inj'|apply NoDup_seq].
Qed.

Lemma ring_nodes (v : Z) :
  v ∈ nodes g <-> v ∈ node_at 0 :: node_at (n - 1) :: ring_path.
Proof using Hpoly Hs Hi.
  pose proof Hpoly as (Hn & _ & Hnodes & _). rewrite Hnodes. split.
  - intros (k & Hk & ->).
    set (j := (s * (k - i)) mod n).
    assert (Hj : 0 <= j < n) by (apply Z.mod_pos_bound; lia).
    assert (Hat : node_at j = cyc k).
    { unfold node_at, j. f_equal.
      rewrite <- Z.add_mod_idemp_r, Z.mul_mod_idemp_r, Z.add_mod_idemp_r by lia.
      replace (i + s * (s * (k - i))) with k by (destruct Hs; subst s; lia).
      by apply Z.mod_small. }
    rewrite <- Hat.
    destruct (decide (j = 0)) as [->|Hj0]; [by left|].
    destruct (decide (j = n - 1)) as [->|Hj1]; [right; by left|].
    right; right. unfold ring_path. apply list_elem_of_fmap.
    exists (Z.to_nat j). split; [f_equal; lia|]. apply elem_of_seq. lia.
  - assert (Hany : forall j, exists k, 0 <= k < n /\ node_at j = cyc k).
    { intros j. exists ((i + s * j) mod n). split; [apply node_at_index|done]. }
    rewrite !elem_of_cons. unfold ring_path. rewrite list_elem_of_fmap.
    intros [->|[->|(k & -> & _)]]; apply Hany.
Qed.

(** The polygon is a ring through its root, when the adjacency of the root
    names first the node against the direction of the walk. *)
Lemma polygon_ring :
  adj g !! cyc i = Some [node_at (-1); node_at 1] ->
  ring g (cyc i) (node_at (n - 1)) ring_path.
Proof using Hpoly Hs Hi.
  intros Hroot. pose proof Hpoly as (Hn & _).
  assert (E0 : node_at (-1) = node_at (n - 1)).
  { rewrite <- (node_at_period (-1)). f_equal. lia. }
  assert (E1 : node_at (n - 1 - 1) = node_at (n - 2)) by (f_equal; lia).
  assert (E2 : node_at (n - 1 + 1) = node_at 0).
  { rewrite <- (node_at_period 0). f_equal. lia. }
  assert (Ehd : hd (node_at 0) ring_path = node_at 1).
  { unfold ring_path. destruct (Z.to_nat (n - 2)) eqn:E; [lia|done]. }
  rewrite <- node_at_0. repeat split.
  - apply ring_NoDup.
  - unfold ring_path. destruct (Z.to_nat (n - 2)) eqn:E; [lia|done].
  - by rewrite node_at_0, Hroot, E0, <- node_at_0, Ehd.
  - unfold ring_path. replace (node_at 0) with (node_at (Z.of_nat 1 - 1)) by done.
    apply chain_from; lia.
  - rewrite ring_path_last.
    destruct (node_adj (n - 1)) as [H|H]; rewrite E1, E2 in H; [by left|by right].
  - apply ring_nodes.
  - apply ring_nodes.
Qed.
End PolygonRing.

Section PolygonBasis.
Variable pop_index : list Z -> nat.

(** The cycle basis of a polygon: one cycle, which holds each node of the
    polygon once and walks round the polygon. *)
Lemma cycle_basis_polygon g n cyc :
  polygon g n cyc ->
  exists c, cycle_basis pop_index g = Some (Ok [CycleSet c]) /\
    NoDup c /\ length c = Z.to_nat n /\ (forall v, v ∈ c <-> v ∈ nodes g) /\
    closed_walk g c = true.
Proof.
  intros Hpoly. pose proof Hpoly as (Hn & Hinj & Hnodes & Hadj).
  destruct (set_pop_some pop_index (remove_dups (nodes g))) as (r & rest & Hpop).
  { assert (H0 : cyc 0%Z ∈ remove_dups (nodes g)).
    { apply elem_of_remove_dups, Hnodes. exists 0%Z. split; [lia|done]. }
    intros E. rewrite E in H0. by apply elem_of_nil in H0. }
  pose proof (set_pop_elem _ _ _ _ Hpop) as [Hr _].
  apply elem_of_remove_dups, Hnodes in Hr as (i & Hi & ->).
  assert (Hring : exists s, (s = 1 \/ s = -1)%Z /\
            ring g (cyc i) (node_at n cyc i s (n - 1)) (ring_path n cyc i s)).
  { destruct (Hadj i Hi) as [Hroot|Hroot].
    - exists 1%Z. split; [by left|]. apply polygon_ring; [done|done|by left|].
      exact Hroot.
    - exists (-1)%Z. split; [by right|]. apply polygon_ring; [done|done|by right|].
      exact Hroot. }
  destruct Hring as (s & Hs & Hring).
  exists (node_at n cyc i s (n - 1) :: rev (ring_path n cyc i s) ++ [cyc i]).
  pose proof Hring as (Hnd & _ & _ & _ & _ & Hmem).
  assert (Hperm : node_at n cyc i s (n - 1) :: rev (ring_path n cyc i s) ++ [cyc i]
                  ≡ₚ cyc i :: node_at n cyc i s (n - 1) :: ring_path n cyc i s).
  { etrans; [|apply Permutation_swap]. constructor.
    rewrite <- Permutation_cons_append. constructor.
    symmetry. apply Permutation_rev. }
  split; [|split; [|split; [|split]]].
  - by apply (cycle_basis_ring pop_index g _ _ _ rest).
  - by rewrite Hperm.
  - rewrite Hperm. unfold ring_path. simpl. rewrite length_fmap, length_seq. lia.
  - intros v. rewrite Hperm. symmetry. apply Hmem.
  - by apply ring_closed_walk.
Qed.
End PolygonBasis.

(** ** Cycles: two triangles that share an edge *)

Section TwoTriangles.
Variable pop_index : list Z -> nat.

Lemma outer_loop_basis g cycles :
  cycle_basis pop_index g = Some (Ok cycles) ->
  outer_loop pop_index g = merged_loop cycles.
Proof. intros H. unfold outer_loop, merged_loop. by rewrite H. Qed.

Lemma set_pop_pops s :
  s <> [] -> exists p, p ∈ pops s /\ set_pop pop_index s = Some p.
Proof.
  intros Hs. unfold set_pop, pops.
  destruct (lookup_lt_is_Some_2 s (pop_index s mod length s)) as [e He].
  - apply Nat.mod_upper_bound. by destruct s.
  - rewrite He. eexists. split; [|done].
    by apply (elem_of_lookup_imap_2 (fun i e => (e, delete i s)) s e).
Qed.

Lemma cycle_basis_one_component g root rest basis :
  set_pop pop_index (remove_dups (nodes g)) = Some (root, rest) ->
  one_component g root rest = Some basis ->
  cycle_basis pop_index g = Some (Ok basis).
Proof.
  intros Hpop. unfold one_component, cycle_basis.
  assert (Hlen : (0 < length (nodes g))%nat).
  { apply set_pop_elem in Hpop as [Hr _]. apply elem_of_remove_dups in Hr.
    destruct (nodes g); [by apply elem_of_nil in Hr|simpl; lia]. }
  unfold graph_size at 3. set (m := map_fold _ _ _). clearbody m.
  cbn [components]. rewrite Hpop.
  destruct (walk _ _ _ _) as [[[st pd us cs]|e]|]; [|done..].
  cbn [pred cycles].
  destruct (forallb _ rest) eqn:Hall; [|done]. intros [= <-].
  rewrite filter_none.
  - destruct (length (nodes g) + m)%nat eqn:E; [lia|].
    cbn [components]. by rewrite set_pop_nil.
  - intros n Hn Hnone. apply Is_true_true_2, forallb_True in Hall.
    rewrite Forall_forall in Hall. specialize (Hall n Hn).
    apply bool_decide_unpack in Hall. rewrite Hnone in Hall. by destruct Hall.
Qed.

Lemma two_triangles_checked :
  forallb two_triangles_check two_triangles_cases = true.
Proof. vm_compute. reflexivity. Qed.

(** [outer_loop] on the two triangles returns the four nodes, each once;
    they walk round the boundary when the root of the cycle basis is not
    an end of the shared edge. *)
Lemma outer_loop_two_triangles g :
  two_triangles g ->
  exists o, outer_loop pop_index g = Some (Ok o) /\ o ≡ₚ nodes g /\
    (forall root rest,
       set_pop pop_index (remove_dups (nodes g)) = Some (root, rest) ->
       root <> 1%Z -> root <> 2%Z -> closed_walk g o = true).
Proof.
  intros (l0 & l1 & l2 & l3 & H0 & H1 & H2 & H3 & ->).
  destruct (set_pop_pops [0; 1; 2; 3]%Z) as ([root rest] & Hp & Hpop); [done|].
  assert (Hcase : (l0, l1, l2, l3, (root, rest)) ∈ two_triangles_cases).
  { unfold two_triangles_cases.
    apply list_elem_of_bind. exists l0. split; [|by apply permutations_Permutation].
    apply list_elem_of_bind. exists l1. split; [|by apply permutations_Permutation].
    apply list_elem_of_bind. exists l2. split; [|by apply permutations_Permutation].
    apply list_elem_of_bind. exists l3. split; [|by apply permutations_Permutation].
    apply list_elem_of_bind. exists (root, rest). split; [by left|done]. }
  pose proof (proj1 (forallb_forall two_triangles_check two_triangles_cases)
                two_triangles_checked _ (proj1 (list_elem_of_In _ _) Hcase)) as Hall.
  cbn [two_triangles_check] in Hall.
  destruct (one_component _ root rest) as [cycles|] eqn:Hone; [|done].
  destruct (merged_loop cycles) as [[o|e]|] eqn:Hmerged; [|done..].
  apply andb_true_iff in Hall as [Hall Hwalk].
  apply andb_true_iff in Hall as [Hlen Hmem].
  apply Nat.eqb_eq in Hlen.
  apply Is_true_true_2, forallb_True in Hmem. rewrite Forall_forall in Hmem.
  exists o. split; [|split].
  - rewrite (outer_loop_basis _ cycles); [done|].
    by apply (cycle_basis_one_component _ root rest).
  - symmetry. apply submseteq_length_Permutation.
    + apply NoDup_submseteq.
      * repeat (apply NoDup_cons; split; [rewrite ?elem_of_cons, ?elem_of_nil; lia|]).
        apply NoDup_nil_2.
      * intros v Hv. specialize (Hmem v Hv). by apply bool_decide_unpack in Hmem.
    + cbn [two_triangles_graph nodes]. rewrite Hlen. done.
  - intros root' rest' Hpop' Hr1 Hr2.
    assert (root' = root) as ->.
    { change (remove_dups (nodes (two_triangles_graph l0 l1 l2 l3)))
        with [0; 1; 2; 3]%Z in Hpop'. congruence. }
    apply orb_true_iff in Hwalk as [Hroot|Hwalk]; [|done].
    apply orb_true_iff in Hroot as [Hroot|Hroot]; apply Z.eqb_eq in Hroot; done.
Qed.
End TwoTriangles.

Lemma pentagon_polygon : polygon pentagon 5 (fun i => i).
Proof.
  repeat split.
  - lia.
  - by intros i j _ _ ->.
  - cbn [pentagon nodes]. rewrite !elem_of_cons, elem_of_nil.
    intros H. exists v. split; [lia|done].
  - cbn [pentagon nodes]. rewrite !elem_of_cons, elem_of_nil.
    intros (i & Hi & ->). lia.
  - intros i Hi.
    assert (Hcases : (i = 0 \/ i = 1 \/ i = 2 \/ i = 3 \/ i = 4)%Z) by lia.
    destruct Hcases as [-> | [-> | [-> | [-> | ->]]]]; vm_compute; auto.
Qed.

Lemma sorted_two_triangles :
  two_triangles (two_triangles_graph [1; 2] [0; 2; 3] [0; 1; 3] [1; 2])%Z.
Proof. by exists [1; 2]%Z, [0; 2; 3]%Z, [0; 1; 3]%Z, [1; 2]%Z. Qed.

(** C10. For a polygon of [n] nodes, whatever the labels of its nodes, the
    order of the neighbours in its adjacency and the node [set.pop] picks,
    [cycle_basis] returns exactly one cycle; that cycle holds each of the
    [n] nodes once, and its nodes in their order walk round the polygon.
    For the two triangles [0 1 2] and [1 2 3], whatever the order of the
    neighbours and the node picked, [outer_loop] returns, without raising,
    an ordered set of four nodes, which are the nodes of both triangles;
    when the node picked is not an end of the shared edge, the four nodes
    in their order walk round the outer boundary.  They do not when the
    root is on the shared edge, as in [triangles_on_root], the triangles
    [0 1 2] and [0 2 3] with the root [0]: [outer_loop] returns
    [1, 2, 0, 3], which goes along the shared edge from [2] to [0] and
    ends on [3], which no edge joins to [1]. *)
Theorem outer_loop_two_triangles_crosses_shared_edge :
  (forall pop_index g n cyc, polygon g n cyc ->
     exists c, cycle_basis pop_index g = Some (Ok [CycleSet c]) /\
       NoDup c /\ length c = Z.to_nat n /\ (forall v, v ∈ c <-> v ∈ nodes g) /\
       closed_walk g c = true) /\
  (forall pop_index g, two_triangles g ->
     exists o, outer_loop pop_index g = Some (Ok o) /\
       length o = 4%nat /\ o ≡ₚ nodes g /\
       (forall root rest,
          set_pop pop_index (remove_dups (nodes g)) = Some (root, rest) ->
          root <> 1%Z -> root <> 2%Z -> closed_walk g o = true)) /\
  set_pop (fun _ => 0%nat) (remove_dups (nodes triangles_on_root))
    = Some (0, [1; 2; 3])%Z /\
  cycle_basis (fun _ => 0%nat) triangles_on_root
    = Some (Ok [CycleSet [2; 3; 0]; CycleSet [1; 2; 0]])%Z /\
  outer_loop (fun _ => 0%nat) triangles_on_root = Some (Ok [1; 2; 0; 3])%Z /\
  closed_walk triangles_on_root [1; 2; 0; 3]%Z = false /\
  edge_b triangles_on_root 3 1 = false.
Proof.
  split; [|split].
  - intros pop_index g n cyc. apply cycle_basis_polygon.
  - intros pop_index g Hg.
    destruct (outer_loop_two_triangles pop_index g Hg) as (o & Ho & Hperm & Hwalk).
    exists o. repeat split; [done| |done|done].
    rewrite Hperm. by destruct Hg as (l0 & l1 & l2 & l3 & _ & _ & _ & _ & ->).
  - repeat split; vm_compute; reflexivity.
Qed.

Lemma outer_loop_pentagon_sorted_triangles :
  (exists c, cycle_basis (fun _ => 0%nat) pentagon = Some (Ok [CycleSet c]) /\
     NoDup c /\ length c = 5%nat /\ (forall v, v ∈ c <-> v ∈ nodes pentagon) /\
     closed_walk pentagon c = true) /\
  (exists o, outer_loop (fun _ => 0%nat)
               (two_triangles_graph [1; 2] [0; 2; 3] [0; 1; 3] [1; 2])%Z = Some (Ok o) /\
     length o = 4%nat /\
     o ≡ₚ nodes (two_triangles_graph [1; 2] [0; 2; 3] [0; 1; 3] [1; 2])%Z /\
     closed_walk (two_triangles_graph [1; 2] [0; 2; 3] [0; 1; 3] [1; 2])%Z o = true).
Proof.
  split.
  - exact (proj1 outer_loop_two_triangles_crosses_shared_edge (fun _ => 0%nat)
             pentagon 5%Z (fun i => i) pentagon_polygon).
  - destruct (proj1 (proj2 outer_loop_two_triangles_crosses_shared_edge)
                (fun _ => 0%nat) _ sorted_two_triangles)
      as (o & Ho & Hlen & Hperm & Hwalk).
    exists o. split_and!; try done.
    apply (Hwalk 0%Z [1; 2; 3]%Z); [vm_compute; reflexivity|done|done].
Defined.

(** ** The ordered set: its methods *)

Section OrderedSetMethodFacts.
Context {K : Type} `{EqDecision K}.
Implicit Types (A B : OrderedSet K) (l it : list K) (e k : K).

Lemma add_old A e : e ∈ A -> _add A e = A.
Proof. intros He. unfold _add, contains. by rewrite bool_decide_eq_true_2. Qed.

Lemma add_fresh A e : e ∉ A -> _add A e = A ++ [e].
Proof. intros He. unfold _add, contains. by rewrite bool_decide_eq_false_2. Qed.

Lemma elem_of_add A e k : k ∈ _add A e <-> k ∈ A \/ k = e.
Proof.
  destruct (decide (e ∈ A)) as [He|He].
  - rewrite add_old by done. split; [tauto|]. intros [Hk| ->]; done.
  - rewrite add_fresh by done. by rewrite elem_of_app, list_elem_of_singleton.
Qed.

Lemma elem_of_ior l : forall A k, k ∈ OrderedSet_ior A l <-> k ∈ A \/ k ∈ l.
Proof.
  unfold OrderedSet_ior. induction l as [|a l IH]; intros A k; simpl.
  - rewrite elem_of_nil. tauto.
  - rewrite IH, elem_of_add, elem_of_cons. tauto.
Qed.

(** The keys of the set built from a sequence are the elements of the
    sequence. *)
Lemma elem_of_init l k : k ∈ OrderedSet_init l <-> k ∈ l.
Proof.
  change (OrderedSet_init l) with (OrderedSet_ior [] l).
  rewrite elem_of_ior, elem_of_nil. tauto.
Qed.

Lemma elem_of_discard A e k : k ∈ _discard A e <-> k ∈ A /\ k <> e.
Proof. unfold _discard. rewrite list_elem_of_filter. tauto. Qed.

Lemma discard_NoDup A e : NoDup A -> NoDup (_discard A e).
Proof. intros H0. by apply NoDup_filter. Qed.

Lemma discard_absent A e : e ∉ A -> _discard A e = A.
Proof.
  intros He. unfold _discard. apply filter_all. intros k Hk ->. done.
Qed.

Lemma discard_app A B e : _discard (A ++ B) e = _discard A e ++ _discard B e.
Proof. unfold _discard. apply filter_app. Qed.

Lemma discard_add A e : e ∉ A -> _discard (_add A e) e = A.
Proof.
  intros He. rewrite add_fresh by done. rewrite discard_app, discard_absent by done.
  unfold _discard. rewrite filter_cons, decide_False by (by intros Hn).
  by rewrite filter_nil, app_nil_r.
Qed.

(** Discarding the values of a sequence, one after the other, keeps the
    keys that are not in the sequence, in their order. *)
Lemma discard_all it : forall A,
  fold_left (@OrderedSet_discard K _) it A = filter (fun k => k ∉ it) A.
Proof.
  induction it as [|v it IH]; intros A; simpl.
  - symmetry. apply filter_all. intros k _. apply not_elem_of_nil.
  - rewrite IH. unfold OrderedSet_discard, _discard. rewrite list_filter_filter.
    apply filter_ext_elem. intros k _. rewrite not_elem_of_cons. tauto.
Qed.

Lemma sub_filter A it : NoDup A -> OrderedSet_sub A it = filter (fun k => k ∉ it) A.
Proof.
  intros HA. unfold OrderedSet_sub, _from_iterable.
  rewrite OrderedSet_init_id.
  - apply filter_ext_elem. intros k _. unfold contains.
    rewrite negb_True, bool_decide_spec, elem_of_init. done.
  - by apply NoDup_filter.
Qed.

Lemma and_filter A it : NoDup A -> OrderedSet_and A it = filter (fun k => k ∈ it) A.
Proof.
  intros HA. unfold OrderedSet_and, _from_iterable.
  rewrite OrderedSet_init_id.
  - apply filter_ext_elem. intros k _. unfold contains.
    rewrite bool_decide_spec, elem_of_init. done.
  - by apply NoDup_filter.
Qed.

Lemma xor_filter A B :
  NoDup A -> NoDup B ->
  OrderedSet_xor A B = filter (fun k => k ∉ B) A ++ filter (fun k => k ∉ A) B.
Proof.
  intros HA HB. unfold OrderedSet_xor.
  rewrite !sub_filter by done.
  rewrite OrderedSet_or_NoDup by (by apply NoDup_filter).
  f_equal. apply filter_all. intros k Hk.
  apply list_elem_of_filter in Hk as [Hk _].
  rewrite list_elem_of_filter. tauto.
Qed.

Lemma ixor_fold (vs : list K) : forall A acc,
  NoDup vs -> (forall v, v ∈ vs -> v ∉ acc) ->
  fold_left (fun self value =>
               if contains self value then OrderedSet_discard self value
               else OrderedSet_add self value) vs (A ++ acc)
  = filter (fun k => k ∉ vs) A ++ acc ++ filter (fun k => k ∉ A) vs.
Proof.
  induction vs as [|v vs IH]; intros A acc Hnd Hacc; cbn [fold_left].
  - rewrite !filter_nil, app_nil_r. f_equal. symmetry. apply filter_all.
    intros k _. apply not_elem_of_nil.
  - apply NoDup_cons in Hnd as [Hv Hnd].
    assert (Hvacc : v ∉ acc) by (apply Hacc; by left).
    destruct (contains (A ++ acc) v) eqn:Hin.
    + apply contains_spec in Hin.
      assert (HvA : v ∈ A) by (apply elem_of_app in Hin as [?|?]; done).
      unfold OrderedSet_discard at 1. rewrite discard_app, (discard_absent acc) by done.
      rewrite IH; [|done|intros w Hw; apply Hacc; by right].
      rewrite filter_cons, decide_False by tauto.
      f_equal; [|f_equal].
      * unfold _discard. rewrite list_filter_filter.
        apply filter_ext_elem. intros k _. rewrite not_elem_of_cons. tauto.
      * apply filter_ext_elem. intros w Hw. rewrite elem_of_discard. split.
        -- intros Hn HwA. apply Hn. split; [done|]. by intros ->.
        -- intros Hn [Hw' _]. done.
    + assert (Hnin : v ∉ A ++ acc).
      { intros Hc%contains_spec. by rewrite Hc in Hin. }
      assert (HvA : v ∉ A) by (intros HA; apply Hnin, elem_of_app; by left).
      unfold OrderedSet_add at 1. rewrite add_fresh by done.
      rewrite <- app_assoc. rewrite IH; [|done|].
      * rewrite filter_cons, decide_True by done.
        rewrite <- !app_assoc. simpl. f_equal.
        apply filter_ext_elem. intros k Hk. rewrite not_elem_of_cons.
        split; [|tauto]. intros Hn. split; [|done]. by intros ->.
      * intros w Hw [Hw'| ->%list_elem_of_singleton]%elem_of_app; [|done].
        by apply (Hacc w); [right|].
Qed.

Lemma reverse_rev A : NoDup A -> OrderedSet_reverse A = rev A.
Proof.
  intros HA. unfold OrderedSet_reverse.
  change (OrderedSet_init (rev A) = rev A). apply OrderedSet_init_id.
  apply NoDup_ListNoDup, NoDup_rev. by apply NoDup_ListNoDup.
Qed.

Lemma init_filter (P : K -> Prop) `{!forall e, Decision (P e)} l : forall A,
  fold_left _add (filter P l) (filter P A) = filter P (fold_left _add l A).
Proof.
  induction l as [|a l IH]; intros A; [done|].
  rewrite filter_cons. cbn [fold_left]. rewrite <- IH.
  destruct (decide (P a)) as [HP|HP]; cbn [fold_left]; f_equal.
  - destruct (decide (a ∈ A)) as [Ha|Ha].
    + rewrite !add_old; [done|done|]. apply list_elem_of_filter. done.
    + rewrite !add_fresh; [|done|].
      * by rewrite filter_app, filter_cons, decide_True, filter_nil.
      * rewrite list_elem_of_filter. tauto.
  - destruct (decide (a ∈ A)) as [Ha|Ha].
    + by rewrite add_old.
    + rewrite add_fresh by done.
      by rewrite filter_app, filter_cons, decide_False, filter_nil, app_nil_r.
Qed.

Lemma step_NoDup A v :
  NoDup A ->
  NoDup (if contains A v then OrderedSet_discard A v else OrderedSet_add A v).
Proof.
  intros HA. destruct (contains A v) eqn:Hc.
  - by apply discard_NoDup.
  - unfold OrderedSet_add. rewrite add_fresh.
    + apply NoDup_app. split_and!; [done| |apply NoDup_singleton].
      intros k Hk ->%list_elem_of_singleton.
      apply contains_spec in Hk. by rewrite Hk in Hc.
    + intros Hk%contains_spec. by rewrite Hk in Hc.
Qed.

Lemma ixor_NoDup (vs : list K) : forall A,
  NoDup A ->
  NoDup (fold_left (fun self value =>
                      if contains self value then OrderedSet_discard self value
                      else OrderedSet_add self value) vs A).
Proof.
  induction vs as [|v vs IH]; intros A HA; [done|].
  cbn [fold_left]. apply IH. by apply step_NoDup.
Qed.

Lemma filter_delete A (j : nat) k :
  NoDup A -> A !! j = Some k -> filter (fun e => e <> k) A = delete j A.
Proof.
  intros HA Hj.
  rewrite <- (take_drop_middle A j k Hj) in HA |- * at 1.
  apply NoDup_app in HA as (_ & Hsep & Hright).
  apply NoDup_cons in Hright as [Hk _].
  rewrite filter_app, filter_cons, decide_False by (by intros Hn).
  rewrite !filter_all.
  - by rewrite delete_take_drop.
  - intros e He ->. done.
  - intros e He ->. apply (Hsep k He). by left.
Qed.

(** X1. An ordered set never holds a key twice: the set built from any
    sequence has distinct keys, and so has the set after [add], [discard],
    [pop] and [remove], the results of [|], [-], [&], [^], [copy] and
    [reverse], and the set after [-=], [&=] and [^=]. *)
Theorem OrderedSet_keys_distinct (l it : list K) (e : K) (i : Z) :
  let A := OrderedSet_init l in
  NoDup A /\
  NoDup (OrderedSet_add A e) /\ NoDup (OrderedSet_discard A e) /\
  (forall k A', OrderedSet_pop A i = Ok (k, A') -> NoDup A') /\
  NoDup (OrderedSet_remove A e) /\
  NoDup (OrderedSet_or A it) /\ NoDup (OrderedSet_sub A it) /\
  NoDup (OrderedSet_and A it) /\ NoDup (OrderedSet_xor A it) /\
  NoDup (OrderedSet_copy A) /\ NoDup (OrderedSet_reverse A) /\
  NoDup (OrderedSet_isub A (Iterable it)) /\ NoDup (OrderedSet_iand A it) /\
  NoDup (OrderedSet_ixor A (Iterable it)).
Proof.
  intros A. assert (HA : NoDup A) by apply OrderedSet_init_NoDup.
  split_and!.
  - done.
  - apply (ior_NoDup_result [e] A HA).
  - by apply discard_NoDup.
  - intros k A'. unfold OrderedSet_pop. destruct A as [|a A0] eqn:EA; [done|].
    cbv zeta. destruct (_getindex (a :: A0) _) as [key|err]; [|done]. cbn [bind].
    intros [= <- <-]. by apply discard_NoDup.
  - unfold OrderedSet_remove.
    destruct (negb (contains A e)); [done|]. by apply discard_NoDup.
  - apply OrderedSet_init_NoDup.
  - apply OrderedSet_init_NoDup.
  - apply OrderedSet_init_NoDup.
  - apply OrderedSet_init_NoDup.
  - apply OrderedSet_init_NoDup.
  - apply (ior_NoDup_result (rev A) []). constructor.
  - cbn [OrderedSet_isub]. rewrite discard_all. by apply NoDup_filter.
  - unfold OrderedSet_iand. rewrite discard_all. by apply NoDup_filter.
  - cbn [OrderedSet_ixor]. by apply ixor_NoDup.
Qed.

(** X2. For all ordered sets [A] and [B], [A & B] enumerates the elements
    of [A] that are in [B], in the order of [A], and [A ^ B] enumerates
    the elements of [A] that are not in [B], in the order of [A], followed
    by the elements of [B] that are not in [A], in the order of [B]. *)
Theorem OrderedSet_and_xor_order (la lb : list K) :
  let A := OrderedSet_init la in
  let B := OrderedSet_init lb in
  OrderedSet_and A B = filter (fun k => k ∈ B) A /\
  OrderedSet_xor A B = filter (fun k => k ∉ B) A ++ filter (fun k => k ∉ A) B.
Proof.
  intros A B. split.
  - apply and_filter, OrderedSet_init_NoDup.
  - apply xor_filter; apply OrderedSet_init_NoDup.
Qed.

(** X3. The in-place operators leave the set their binary operators
    return: for every ordered set [A] and every iterable [it], [A -= it]
    is [A - it], [A &= it] is [A & it] and [A ^= it] is [A ^ it]; with the
    set itself as the right operand, [-=] and [^=] clear it, as [A - A] and
    [A ^ A] are empty. *)
Theorem OrderedSet_inplace_agree (la it : list K) :
  let A := OrderedSet_init la in
  OrderedSet_isub A (Iterable it) = OrderedSet_sub A it /\
  OrderedSet_iand A it = OrderedSet_and A it /\
  OrderedSet_ixor A (Iterable it) = OrderedSet_xor A it /\
  OrderedSet_isub A Itself = OrderedSet_sub A A /\
  OrderedSet_ixor A Itself = OrderedSet_xor A A.
Proof.
  cbv zeta. generalize (OrderedSet_init_NoDup la).
  generalize (OrderedSet_init la). intros A HA.
  split_and!.
  - cbn [OrderedSet_isub]. by rewrite discard_all, sub_filter.
  - unfold OrderedSet_iand. rewrite discard_all, sub_filter, and_filter by done.
    apply filter_ext_elem. intros k Hk. rewrite list_elem_of_filter.
    split; [|tauto]. intros Hn. destruct (decide (k ∈ it)); [done|]. tauto.
  - cbn [OrderedSet_ixor]. unfold _from_iterable.
    pose proof (ixor_fold (OrderedSet_init it) A [] (OrderedSet_init_NoDup it)) as Hf.
    rewrite app_nil_r in Hf. rewrite Hf by (intros v _; apply not_elem_of_nil).
    cbn [app]. unfold OrderedSet_xor.
    rewrite (sub_filter A it) by done.
    unfold OrderedSet_sub, _from_iterable.
    rewrite (OrderedSet_init_id A) by done.
    match goal with
    | |- context [OrderedSet_or _ (OrderedSet_init ?fl)] =>
        assert (Hsub : OrderedSet_init fl
                       = filter (fun k => k ∉ A) (OrderedSet_init it))
    end.
    { unfold OrderedSet_init.
      rewrite <- (init_filter (fun k => k ∉ A) it []).
      rewrite filter_nil. f_equal. apply filter_ext_elem. intros k _.
      unfold contains. by rewrite negb_True, bool_decide_spec. }
    rewrite Hsub.
    rewrite OrderedSet_or_NoDup;
      [|by apply NoDup_filter|apply NoDup_filter, OrderedSet_init_NoDup].
    f_equal.
    + apply filter_ext_elem. intros k _. by rewrite elem_of_init.
    + symmetry. apply filter_all. intros k Hk.
      apply list_elem_of_filter in Hk as [Hk _].
      rewrite list_elem_of_filter. tauto.
  - cbn [OrderedSet_isub OrderedSet_clear]. rewrite sub_filter by done.
    symmetry. apply filter_none. intros k Hk. tauto.
  - cbn [OrderedSet_ixor OrderedSet_clear]. rewrite xor_filter by done.
    rewrite (filter_none _ A); [done|]. intros k Hk. tauto.
Qed.

(** X4. [reverse] reverses the order of the keys of every ordered set, and
    reversing twice gives the set back. *)
Theorem OrderedSet_reverse_involutive (l : list K) :
  let A := OrderedSet_init l in
  OrderedSet_reverse A = rev A /\
  OrderedSet_reverse (OrderedSet_reverse A) = A.
Proof.
  intros A. assert (HA : NoDup A) by apply OrderedSet_init_NoDup.
  split; [by apply reverse_rev|].
  rewrite (reverse_rev A) by done. rewrite reverse_rev.
  - apply rev_involutive.
  - apply NoDup_ListNoDup, NoDup_rev. by apply NoDup_ListNoDup.
Qed.

Lemma isorderedsubset_cons k k' (A B : list K) :
  _isorderedsubset (k :: A) (k' :: B)
  = bool_decide (k = k') && _isorderedsubset A B.
Proof.
  unfold _isorderedsubset. cbn [length zip zip_with forallb].
  change (S (length A) <=? S (length B))%nat with (length A <=? length B)%nat.
  destruct (length A <=? length B)%nat; cbn [negb]; [done|].
  by rewrite andb_false_r.
Qed.

(** X5. [isorderedsubset] tests whether the keys of the set are the first
    keys of the other sequence, in the same order: it is true exactly when
    the one sequence is a prefix of the other, and [isorderedsuperset] is
    the same test with the operands exchanged. *)
Theorem isorderedsubset_prefix (A B : list K) :
  (isorderedsubset A B = true <-> A `prefix_of` B) /\
  (isorderedsuperset A B = true <-> B `prefix_of` A).
Proof.
  assert (Hpre : forall s1 s2 : list K,
            _isorderedsubset s1 s2 = true <-> s1 `prefix_of` s2).
  { induction s1 as [|k s1 IH]; intros s2.
    - split; [intros _; apply prefix_nil|]. intros _.
      unfold _isorderedsubset. by destruct s2.
    - destruct s2 as [|k' s2].
      + split; [done|]. intros Hp. by apply prefix_nil_inv in Hp.
      + rewrite isorderedsubset_cons, andb_true_iff, bool_decide_eq_true, IH.
        split.
        * intros [-> Hp]. by apply prefix_cons.
        * intros Hp. split; [by apply prefix_cons_inv_1 in Hp|].
          by apply prefix_cons_inv_2 in Hp. }
  split; apply Hpre.
Qed.

Lemma getindex_nonneg A (j : nat) k :
  A !! j = Some k -> _getindex A (Z.of_nat j) = Ok k.
Proof.
  intros Hj. pose proof (lookup_lt_Some _ _ _ Hj) as Hlt.
  unfold _getindex.
  rewrite (proj2 (Z.leb_gt _ _)) by lia.
  rewrite (proj2 (Z.ltb_ge _ _)) by lia. cbn [orb andb].
  rewrite (proj2 (Z.leb_le _ _)) by lia.
  by rewrite Nat2Z.id, Hj.
Qed.

Lemma getindex_negative A (j : nat) k :
  A !! j = Some k ->
  _getindex A (Z.of_nat j - Z.of_nat (length A)) = Ok k.
Proof.
  intros Hj. pose proof (lookup_lt_Some _ _ _ Hj) as Hlt.
  unfold _getindex.
  rewrite (proj2 (Z.leb_gt _ _)) by lia.
  rewrite (proj2 (Z.ltb_lt _ _)) by lia.
  rewrite (proj2 (Z.ltb_ge _ _)) by lia. cbn [orb andb].
  rewrite (proj2 (Z.leb_gt _ _)) by lia.
  replace (Z.to_nat (Z.abs (Z.of_nat j - Z.of_nat (length A)) - 1))
    with (length A - S j)%nat by lia.
  rewrite rev_alt. change (rev_append A []) with (reverse A).
  rewrite reverse_lookup by lia.
  assert (E : (length A - S (length A - S j))%nat = j) by lia.
  rewrite E. unfold OrderedSet in *. by rewrite Hj.
Qed.


Lemma index_walk_lookup A : forall (j : nat) k (n : Z),
  NoDup A -> A !! j = Some k -> index_walk A k n = Some (n + Z.of_nat j)%Z.
Proof.
  induction A as [|a A IH]; intros j k n HA Hj; [done|].
  apply NoDup_cons in HA as [Ha HA]. cbn [index_walk].
  destruct j as [|j]; simpl in Hj.
  - injection Hj as ->. rewrite decide_True by done. f_equal. lia.
  - rewrite decide_False.
    + rewrite (IH j k (n + 1)%Z HA Hj). f_equal. lia.
    + intros ->. apply Ha. by apply list_elem_of_lookup_2 in Hj.
Qed.

(** X7. [index] and the subscript of an ordered set are inverse to each
    other: the key at position [j] has index [j], and it is also the key
    at [j - len].  For a key that is not in the set [index] returns 0,
    its [ValueError] being dropped: the result 0 stands for the first key
    and for every absent key. *)
Theorem OrderedSet_index_getindex (l : list K) (e : K) :
  let A := OrderedSet_init l in
  (e ∉ A -> OrderedSet_index A e = 0%Z) /\
  (e ∈ A -> exists j : nat, A !! j = Some e) /\
  (forall (j : nat) k, A !! j = Some k ->
   OrderedSet_index A k = Z.of_nat j /\
   _getindex A (Z.of_nat j) = Ok k /\
   _getindex A (Z.of_nat j - Z.of_nat (length A)) = Ok k) /\
  (OrderedSet_index A e = 0%Z <-> e ∉ A \/ A !! 0%nat = Some e).
Proof.
  cbv zeta. generalize (OrderedSet_init_NoDup l).
  generalize (OrderedSet_init l). unfold OrderedSet. intros A HA.
  assert (Hidx : forall (j : nat) k, A !! j = Some k ->
            OrderedSet_index A k = Z.of_nat j).
  { intros j k Hj. unfold OrderedSet_index, contains.
    rewrite bool_decide_eq_true_2 by (by apply list_elem_of_lookup_2 in Hj).
    cbn [negb]. by rewrite (index_walk_lookup A j k 0 HA Hj). }
  assert (Hout : e ∉ A -> OrderedSet_index A e = 0%Z).
  { intros He. unfold OrderedSet_index, contains.
    by rewrite bool_decide_eq_false_2. }
  split_and!.
  - exact Hout.
  - apply list_elem_of_lookup_1.
  - intros j k Hj. split_and!.
    + by apply Hidx.
    + by apply getindex_nonneg.
    + by apply getindex_negative.
  - split.
    + intros H0. destruct (decide (e ∈ A)) as [He|He]; [|by left].
      right. apply list_elem_of_lookup_1 in He as [j Hj].
      rewrite (Hidx j e Hj) in H0. by replace j with 0%nat in Hj by lia.
    + intros [He|He]; [by apply Hout|]. by rewrite (Hidx 0%nat e He).
Qed.

Lemma isdisjoint_spec A it :
  isdisjoint A it = true <-> forall k, k ∈ it -> k ∉ A.
Proof.
  induction it as [|v it IH]; cbn [isdisjoint].
  - split; [|done]. intros _ k Hk. by apply elem_of_nil in Hk.
  - destruct (contains A v) eqn:Hc.
    + apply contains_spec in Hc. split; [done|].
      intros Hall. destruct (Hall v); [by left|done].
    + rewrite IH. split.
      * intros Hall k [->|Hk]%elem_of_cons; [|by apply Hall].
        intros Hk%contains_spec. by rewrite Hk in Hc.
      * intros Hall k Hk. apply Hall. by right.
Qed.

(** X8. [isdisjoint] is true exactly when no value of the other iterable
    is a key of the set, that is, exactly when the intersection [A & it]
    is empty. *)
Theorem isdisjoint_iff_and_empty (la it : list K) :
  let A := OrderedSet_init la in
  (isdisjoint A it = true <-> forall k, k ∈ it -> k ∉ A) /\
  (isdisjoint A it = true <-> OrderedSet_and A it = []).
Proof.
  cbv zeta. generalize (OrderedSet_init_NoDup la).
  generalize (OrderedSet_init la). intros A HA.
  split; [apply isdisjoint_spec|].
  rewrite isdisjoint_spec, and_filter by done. split.
  - intros Hall. apply filter_none. intros k Hk Hit. by apply (Hall k).
  - intros Hnil k Hit HkA.
    by apply (filter_nil_not_elem_of (fun k => k ∈ it) A k Hnil Hit).
Qed.

(** X9. Adding a key that the set holds changes nothing, not even the
    position of the key; a new key goes to the end, and discarding it
    again gives the set back.  [discard] and [remove] of a key that is not
    in the set change nothing, the [KeyError] of [remove] being dropped;
    on a key of the set both remove it, and the set has one key less: the
    two methods leave the same set in every case. *)
Theorem OrderedSet_add_discard_remove (l : list K) (e : K) :
  let A := OrderedSet_init l in
  (e ∈ A -> OrderedSet_add A e = A) /\
  (e ∉ A -> OrderedSet_add A e = A ++ [e] /\
            OrderedSet_discard (OrderedSet_add A e) e = A /\
            OrderedSet_discard A e = A /\
            OrderedSet_remove A e = A) /\
  (e ∈ A -> OrderedSet_remove A e = OrderedSet_discard A e /\
            (e ∉ OrderedSet_discard A e) /\
            S (length (OrderedSet_discard A e)) = length A) /\
  OrderedSet_remove A e = OrderedSet_discard A e.
Proof.
  cbv zeta. generalize (OrderedSet_init_NoDup l).
  generalize (OrderedSet_init l). unfold OrderedSet. intros A HA.
  unfold OrderedSet_add, OrderedSet_discard, OrderedSet_remove.
  split_and!.
  - apply add_old.
  - intros He. split_and!.
    + by apply add_fresh.
    + by apply discard_add.
    + by apply discard_absent.
    + unfold contains. by rewrite bool_decide_eq_false_2.
  - intros He. split_and!.
    + unfold contains. by rewrite bool_decide_eq_true_2.
    + rewrite elem_of_discard. tauto.
    + apply list_elem_of_lookup_1 in He as [j Hj].
      unfold _discard. rewrite (filter_delete A j e HA Hj).
      rewrite length_delete by (by eexists).
      pose proof (lookup_lt_Some _ _ _ Hj). lia.
  - unfold contains. case_bool_decide as He; cbn [negb]; [done|].
    symmetry. by apply discard_absent.
Qed.
End OrderedSetMethodFacts.

(** ** The layout *)

Section LayoutFacts.
Context {D : Type} {F : Float64 D}.
Variables (cos sin : D -> D) (M_PI : D).

Lemma regular_polygon_loop_length (rounds : nat) : forall angle step : D,
  length (regular_polygon_loop cos sin rounds angle step) = rounds.
Proof. induction rounds as [|rounds IH]; intros angle step; simpl; [done|]. by rewrite IH. Qed.

(** X10. [regular_polygon_pos] raises [ZeroDivisionError] for no edge,
    returns no position for a negative count, and returns exactly
    [edge_count] positions for a positive count. *)
Theorem regular_polygon_pos_count (edge_count : Z) :
  (edge_count = 0%Z ->
   regular_polygon_pos cos sin M_PI edge_count = Fails ZeroDivisionError) /\
  (edge_count <> 0%Z ->
   exists pos, regular_polygon_pos cos sin M_PI edge_count = Returns pos /\
     length pos = Z.to_nat edge_count /\
     ((edge_count < 0)%Z -> pos = [])).
Proof.
  unfold regular_polygon_pos. split.
  - by intros ->.
  - intros Hne. rewrite (proj2 (Z.eqb_neq _ _) Hne).
    eexists. split; [done|]. split.
    + apply regular_polygon_loop_length.
    + intros Hneg. by replace (Z.to_nat edge_count) with 0%nat by lia.
Qed.

(** X12. [linear_layout] raises [ValueError] ("Invalid point number") for
    a count below 1, and for a count from 1 that the C [int] holds after
    the increment it returns exactly [count] positions. *)
Theorem linear_layout_count (c0 c1 : D * D) (count : Z) :
  ((count < 1)%Z ->
   linear_layout c0 c1 count
   = Fails (PyError (ValueError ("Invalid point number " +:+ pretty count)))) /\
  ((1 <= count < 2 ^ 31 - 1)%Z ->
   exists pos, linear_layout c0 c1 count = Returns pos /\
     length pos = Z.to_nat count).
Proof.
  unfold linear_layout. split.
  - intros Hlt. by rewrite (proj2 (Z.ltb_lt _ _) Hlt).
  - intros Hc. rewrite (proj2 (Z.ltb_ge _ _)) by lia.
    rewrite int32_small by (pow2; lia).
    rewrite (proj2 (Z.eqb_neq _ _)) by lia.
    eexists. split; [done|].
    rewrite !length_fmap. unfold range. rewrite length_fmap, length_seq. lia.
Qed.
End LayoutFacts.

(** *** Positions in the real plane *)

Ltac xreal_arith :=
  repeat first [rewrite x_mul | rewrite x_add | rewrite x_sub | rewrite x_lit].

Section LayoutExact.
Local Open Scope R_scope.

Lemma regular_polygon_loop_exact (rounds : nat) : forall a s : R,
  regular_polygon_loop exact_cos exact_sin rounds (XR a) (XR s)
  = (fun k : nat => (XR (10 * cos (a - INR k * s)), XR (10 * sin (a - INR k * s))))
      <$> seq 0 rounds.
Proof.
  induction rounds as [|rounds IH]; intros a s; [done|].
  cbn [regular_polygon_loop seq fmap list_fmap]. f_equal.
  - cbn [exact_cos exact_sin]. xreal_arith. cbn [INR].
    by replace (a - 0 * s) with a by lra.
  - rewrite x_sub, IH. rewrite <- fmap_S_seq, <- list_fmap_compose.
    apply list_fmap_ext. intros _ k _. unfold compose.
    rewrite S_INR. by replace (a - s - INR k * s) with (a - (INR k + 1) * s) by lra.
Qed.

(** X11. In exact real arithmetic, [regular_polygon_pos] of [n >= 1]
    returns the [n] corners of a regular polygon: corner [k] is at the
    angle [3 pi / 2 - k (2 pi / n)] on the circle of radius 10 about the
    origin, so the first corner is the bottom (0, -10) and the corners
    follow clockwise in equal steps. *)
Theorem regular_polygon_pos_exact (n : positive) :
  let step := 2 * PI / IZR (Zpos n) in
  let corner (k : nat) :=
    (10 * cos (PI * 3 / 2 - INR k * step), 10 * sin (PI * 3 / 2 - INR k * step)) in
  regular_polygon_pos exact_cos exact_sin exact_pi (Zpos n)
  = Returns ((fun k => (XR (corner k).1, XR (corner k).2)) <$> seq 0 (Pos.to_nat n)) /\
  corner 0%nat = (0, -10) /\
  (forall k, (corner k).1 * (corner k).1 + (corner k).2 * (corner k).2 = 10 * 10).
Proof.
  intros step corner. split_and!.
  - unfold regular_polygon_pos. cbn [Z.eqb]. unfold exact_pi.
    xreal_arith. rewrite !x_div by (apply not_0_IZR; lia).
    rewrite regular_polygon_loop_exact. by rewrite Z2Nat.inj_pos.
  - unfold corner. cbn [INR]. rewrite Rmult_0_l, Rminus_0_r.
    replace (PI * 3 / 2) with (3 * (PI / 2)) by lra.
    rewrite cos_3PI2, sin_3PI2. f_equal; lra.
  - intros k. unfold corner. cbn [fst snd].
    set (t := PI * 3 / 2 - INR k * step).
    pose proof (sin2_cos2 t) as Hsc. unfold Rsqr in Hsc. nra.
Qed.

(** X13. In exact real arithmetic, [linear_layout] of two points and a
    count [n >= 1] returns the [n] points that divide the segment from the
    first point to the second into [n + 1] equal parts: point [k] (from 1
    to [n]) is [(1 - t) c0 + t c1] with [t = k / (n + 1)]. *)
Theorem linear_layout_exact (x0 y0 x1 y1 : R) (count : Z) :
  (1 <= count < 2 ^ 31 - 1)%Z ->
  let point (k : nat) :=
    let t := INR (S k) / IZR (count + 1) in
    ((1 - t) * x0 + t * x1, (1 - t) * y0 + t * y1) in
  linear_layout (XR x0, XR y0) (XR x1, XR y1) count
  = Returns ((fun k => (XR (point k).1, XR (point k).2)) <$> seq 0 (Z.to_nat count)).
Proof.
  intros Hc point. unfold linear_layout.
  rewrite (proj2 (Z.ltb_ge _ _)) by lia.
  rewrite int32_small by (pow2; lia).
  rewrite (proj2 (Z.eqb_neq _ _)) by lia.
  assert (Hn : IZR (count + 1) <> 0) by (apply not_0_IZR; lia).
  cbn [fst snd]. xreal_arith. rewrite !x_div by done.
  f_equal. unfold range. rewrite <- !list_fmap_compose.
  replace (Z.to_nat (count + 1 - 1)) with (Z.to_nat count) by lia.
  apply list_fmap_ext. intros _ k _. unfold compose, point. cbn [fst snd].
  xreal_arith.
  assert (Hk : IZR (Z.succ (Z.of_nat k)) = INR (S k)).
  { rewrite <- Nat2Z.inj_succ. symmetry. apply INR_IZR_INZ. }
  rewrite Hk. f_equal; f_equal; field; done.
Qed.

Lemma linear_layout_exact_midpoint :
  (1 <= 1 < 2 ^ 31 - 1)%Z /\
  linear_layout (XR 0, XR 0) (XR 4, XR 2) 1 = Returns [(XR 2, XR 1)].
Proof.
  assert (Hc : (1 <= 1 < 2 ^ 31 - 1)%Z) by (pow2; lia).
  split; [exact Hc|].
  rewrite (linear_layout_exact 0 0 4 2 1 Hc).
  cbv zeta. change (Z.to_nat 1) with 1%nat. change (1 + 1)%Z with 2%Z.
  cbn [seq fmap list_fmap fst snd INR].
  do 3 f_equal; f_equal; lra.
Defined.
End LayoutExact.

(** *** The layout of the nodes inside the outer loop *)

Lemma pop_first (n : Z) (rest : list Z) :
  n ∉ rest ->
  OrderedSet_pop (n :: rest) 0 = Ok (n, rest).
Proof.
  intros Hn. unfold OrderedSet_pop. cbv zeta.
  change (0 <? 0)%Z with false. cbv iota.
  pose proof (getindex_nonneg (n :: rest) 0 n eq_refl) as Hget.
  change (Z.of_nat 0) with 0%Z in Hget. rewrite Hget. cbn [bind].
  do 2 f_equal. change (n :: rest) with ([n] ++ rest).
  rewrite discard_app, (discard_absent rest) by done.
  unfold _discard. by rewrite filter_cons, decide_False, filter_nil by (by intros Hne).
Qed.

Lemma elem_of_sub (A B : list Z) (k : Z) :
  k ∈ OrderedSet_sub A B <-> k ∈ A /\ k ∉ B.
Proof.
  unfold OrderedSet_sub, _from_iterable.
  rewrite elem_of_init, list_elem_of_filter. unfold contains.
  rewrite negb_True, bool_decide_spec, elem_of_init. tauto.
Qed.

Lemma elem_of_and (A B : list Z) (k : Z) :
  k ∈ OrderedSet_and A B <-> k ∈ A /\ k ∈ B.
Proof.
  unfold OrderedSet_and, _from_iterable.
  rewrite elem_of_init, list_elem_of_filter. unfold contains.
  rewrite bool_decide_spec, elem_of_init. tauto.
Qed.

Lemma elem_of_OrderedSet_or (A B : OrderedSet Z) v :
  v ∈ OrderedSet_or A B <-> v ∈ A \/ v ∈ B.
Proof.
  unfold OrderedSet_or, _from_iterable. by rewrite elem_of_init, elem_of_app.
Qed.

Lemma pop_last_elem (A : list Z) (k : Z) (A' : list Z) :
  OrderedSet_pop A (-1) = Ok (k, A') -> k ∈ A.
Proof.
  unfold OrderedSet_pop. destruct A as [|a A0] eqn:EA; [done|]. rewrite <- EA.
  cbv zeta. destruct (_getindex A _) as [key|] eqn:Hget; [|done]. cbn [bind].
  intros [= <- <-]. unfold _getindex in Hget.
  repeat match type of Hget with
         | (if ?b then _ else _) = _ => destruct b; [done||idtac|]
         end;
    try discriminate;
    destruct (_ !! _) as [x|] eqn:Hl; try discriminate;
    injection Hget as <-; apply list_elem_of_lookup_2 in Hl; [done|].
  by apply list_elem_of_In, in_rev, list_elem_of_In in Hl.
Qed.

Section OuterLoopLayout.
Context {D : Type} {F : Float64 D}.
Variables (cos sin : D -> D) (M_PI : D).
Variable pop_index : list Z -> nat.
Variable set_order : list Z -> list Z.
Implicit Types (s : LayoutState D) (g : Graph) (o_loop : OrderedSet Z).

(** A round of the loop fails or keeps [layout_inv].  A node that is not
    contacted goes back into [nodes].  A contacted node with a new
    neighbour leaves [nodes], where the neighbour still is.  Without a new
    neighbour the line is ended: it holds no node of the outer loop, and
    [intersection.pop()] raises [KeyError] on the empty set. *)
Lemma layout_step_inv g o_loop s s' :
  simple_graph g -> layout_inv g o_loop s ->
  outer_loop_layout_step g o_loop s = Returns s' ->
  layout_inv g o_loop s'.
Proof.
  clear cos sin M_PI pop_index set_order.
  intros Hg (Hnd & Hno & Hlo & Hused & Hcov & Hne). unfold outer_loop_layout_step.
  destruct (layout_nodes s) as [|n rest] eqn:En; [done|].
  apply NoDup_cons in Hnd as [Hn Hrest].
  rewrite pop_first by done. cbn [of_result outcome_bind].
  destruct (adj g !! n) as [adj_n|] eqn:Hadj;
    cbn [or_raise of_result outcome_bind]; [|done].
  destruct (Hg n adj_n Hadj) as [Hself Hnbrs].
  assert (Hnl : n ∉ o_loop) by (apply Hno; by left).
  destruct (OrderedSet_and _ _) as [|c cs] eqn:Ei.
  - (* Not contacted yet. *)
    intros [= <-]. unfold layout_inv. cbn [layout_nodes layout_line used_nodes].
    unfold OrderedSet_add. rewrite add_fresh by done. split_and!; try done.
    + apply NoDup_app. split_and!; [done| |apply NoDup_singleton].
      intros k Hk ->%list_elem_of_singleton. done.
    + intros v [Hv| ->%list_elem_of_singleton]%elem_of_app; [|done].
      apply Hno. by right.
    + intros v Hv Hvl. destruct (Hcov v Hv Hvl) as [Hin|Hin]; [|by right].
      left. apply elem_of_app. apply elem_of_cons in Hin as [->|Hin].
      * right. by left.
      * by left.
    + by destruct rest.
  - rewrite <- Ei. clear c cs Ei.
    set (inter := OrderedSet_and (OrderedSet_init adj_n)
                    (OrderedSet_or (used_nodes s) (layout_line s))).
    destruct (OrderedSet_sub (OrderedSet_init adj_n) inter) as [|m ms] eqn:Enew.
    + (* Line is ended. *)
      assert (Hempty : OrderedSet_and (OrderedSet_add (layout_line s) n) o_loop = []).
      { destruct (OrderedSet_and _ o_loop) as [|x xs] eqn:Ex; [done|]. exfalso.
        assert (Hx : x ∈ OrderedSet_and (OrderedSet_add (layout_line s) n) o_loop)
          by (rewrite Ex; by left).
        apply elem_of_and in Hx as [Hx Hxl]. unfold OrderedSet_add in Hx.
        apply elem_of_add in Hx as [Hx| ->]; [by apply (Hlo x)|done]. }
      rewrite Hempty. cbn. done.
    + (* New nodes to add. *)
      rewrite <- Enew.
      destruct (OrderedSet_pop (OrderedSet_sub (OrderedSet_init adj_n) inter) (-1))
        as [[new others]|] eqn:Hpop; cbn [of_result outcome_bind]; [|done].
      apply pop_last_elem in Hpop.
      apply elem_of_sub in Hpop as [Hnew Hnot].
      apply (proj1 (elem_of_init _ _)) in Hnew.
      assert (Hnew_out : new ∉ OrderedSet_or (used_nodes s) (layout_line s)).
      { intros Hin. apply Hnot. apply elem_of_and. split; [|done].
        by apply (proj2 (elem_of_init _ _)). }
      rewrite elem_of_OrderedSet_or in Hnew_out.
      assert (Hnew_loop : new ∉ o_loop) by (intros H; apply Hnew_out; left; by apply Hused).
      assert (Hnew_n : new <> n) by (intros ->; done).
      assert (Hnew_rest : new ∈ rest).
      { destruct (Hcov new (Hnbrs new Hnew) Hnew_loop) as [Hin|Hin].
        - apply elem_of_cons in Hin as [->|Hin]; done.
        - exfalso. apply Hnew_out. by right. }
      intros [= <-]. unfold layout_inv. cbn [layout_nodes layout_line used_nodes].
      assert (Hrem : OrderedSet_remove rest n = rest).
      { unfold OrderedSet_remove, contains. by rewrite bool_decide_eq_false_2. }
      rewrite Hrem. unfold OrderedSet_add. split_and!; try done.
      * intros v Hv. apply Hno. by right.
      * intros v [[Hv| ->]%elem_of_add| ->]%elem_of_add; [by apply Hlo|done|done].
      * intros v Hv Hvl. rewrite !elem_of_add.
        destruct (Hcov v Hv Hvl) as [Hin|Hin]; [|tauto].
        apply elem_of_cons in Hin as [->|Hin]; tauto.
      * intros ->. by apply elem_of_nil in Hnew_rest.
Qed.

Lemma layout_loop_never_returns (fuel : nat) g o_loop : forall s,
  simple_graph g -> layout_inv g o_loop s ->
  outer_loop_layout_loop fuel g o_loop s = None \/
  exists e, outer_loop_layout_loop fuel g o_loop s = Some (Fails e).
Proof.
  clear cos sin M_PI pop_index set_order.
  induction fuel as [|fuel IH]; intros s Hg Hinv; [by left|].
  cbn [outer_loop_layout_loop].
  destruct (layout_nodes s) as [|n rest] eqn:En.
  { destruct Hinv as (_ & _ & _ & _ & _ & Hne). by rewrite En in Hne. }
  destruct (outer_loop_layout_step g o_loop s) as [s'|e] eqn:Hstep.
  - apply IH; [done|]. by eapply layout_step_inv.
  - right. by exists e.
Qed.

(** X14. [outer_loop_layout] returns no layout for a graph with a node
    that is not on the outer loop, when the adjacency lists name nodes of
    the graph and no node is its own neighbour: whatever the rounds given
    to its loop, it raises or does not come to an end.  The nodes of the
    line are never on the outer loop, so when a line is ended
    [intersection.pop()] raises [KeyError] on the empty set; until then a
    node is left to lay out, because a contacted node leaves [nodes] only
    with a neighbour that is still in it.  ([nodes.remove(n)] does
    nothing: [n] was popped, and the [KeyError] is dropped.) *)
Theorem outer_loop_layout_inner_node (fuel : nat) g o_loop (n : Z) :
  outer_loop pop_index g = Some (Ok o_loop) ->
  simple_graph g ->
  n ∈ nodes g -> n ∉ o_loop ->
  (forall l, set_order l ≡ₚ l) ->
  outer_loop_layout cos sin M_PI pop_index set_order fuel g = None \/
  exists e, outer_loop_layout cos sin M_PI pop_index set_order fuel g = Some (Fails e).
Proof.
  intros Hloop Hg Hn Hout Hperm. unfold outer_loop_layout. rewrite Hloop.
  destruct (regular_polygon_pos _ _ _ _) as [outer_pos|e]; [|right; by exists e].
  apply layout_loop_never_returns; [done|].
  unfold layout_inv. cbn [layout_nodes layout_line used_nodes].
  assert (Hsub : forall v, v ∈ OrderedSet_sub (set_order (remove_dups (nodes g))) o_loop
                   <-> v ∈ nodes g /\ v ∉ o_loop).
  { intros v. by rewrite elem_of_sub, Hperm, elem_of_remove_dups. }
  split_and!.
  - apply OrderedSet_init_NoDup.
  - intros v Hv. by apply Hsub in Hv as [_ Hv].
  - intros v Hv. by apply elem_of_nil in Hv.
  - intros v Hv. unfold OrderedSet_copy, _from_iterable. by apply elem_of_init.
  - intros v Hv Hvl. left. by apply Hsub.
  - intros Hnil. assert (Hin : n ∈ OrderedSet_sub (set_order (remove_dups (nodes g))) o_loop)
      by (by apply Hsub).
    rewrite Hnil in Hin. by apply elem_of_nil in Hin.
Qed.

(** X15. For a graph whose nodes all are on the outer loop,
    [outer_loop_layout] returns the corners of the regular polygon, given
    to the nodes in the order of the loop, or fails as
    [regular_polygon_pos] does: no node is left for the loop of the
    layout. *)
Theorem outer_loop_layout_loop_nodes (fuel : nat) g o_loop :
  outer_loop pop_index g = Some (Ok o_loop) ->
  (forall n, n ∈ nodes g -> n ∈ o_loop) ->
  (forall l, set_order l ≡ₚ l) ->
  outer_loop_layout cos sin M_PI pop_index set_order (S fuel) g
  = match regular_polygon_pos cos sin M_PI (Z.of_nat (length o_loop)) with
    | Returns outer_pos => Some (Returns (dict_update ∅ (zip o_loop outer_pos)))
    | Fails e => Some (Fails e)
    end.
Proof.
  intros Hloop Hall Hperm. unfold outer_loop_layout. rewrite Hloop.
  destruct (regular_polygon_pos _ _ _ _) as [outer_pos|e]; [|done].
  cbn [outer_loop_layout_loop layout_nodes layout_pos].
  destruct (OrderedSet_sub _ o_loop) as [|n rest] eqn:Esub; [done|].
  assert (Hin : n ∈ OrderedSet_sub (set_order (remove_dups (nodes g))) o_loop).
  { rewrite Esub. by left. }
  apply elem_of_sub in Hin as [Hin Hout]. rewrite Hperm in Hin.
  rewrite elem_of_remove_dups in Hin. exfalso. apply Hout, Hall, Hin.
Qed.
End OuterLoopLayout.

Lemma outer_loop_layout_triangle_with_tail :
  outer_loop (fun _ => 0%nat) triangle_with_tail = Some (Ok [1; 2; 0]%Z) /\
  (outer_loop_layout exact_cos exact_sin exact_pi (fun _ => 0%nat) (fun l => l)
     10 triangle_with_tail = None \/
   exists e,
     outer_loop_layout exact_cos exact_sin exact_pi (fun _ => 0%nat) (fun l => l)
       10 triangle_with_tail = Some (Fails e)).
Proof.
  assert (Hloop : outer_loop (fun _ => 0%nat) triangle_with_tail
                  = Some (Ok [1; 2; 0]%Z)) by (vm_compute; reflexivity).
  split; [exact Hloop|].
  apply (outer_loop_layout_inner_node exact_cos exact_sin exact_pi
           (fun _ => 0%nat) (fun l => l) 10 triangle_with_tail [1; 2; 0]%Z 3%Z Hloop).
  - intros v nbrs Hv. cbn [triangle_with_tail nodes adj] in *.
    assert (Hk : (v = 0 \/ v = 1 \/ v = 2 \/ v = 3 \/
                  (v <> 0 /\ v <> 1 /\ v <> 2 /\ v <> 3))%Z) by lia.
    destruct Hk as [->|[->|[->|[->|(H0 & H1 & H2 & H3)]]]].
    1-4: vm_compute in Hv; injection Hv as <-;
      rewrite !elem_of_cons, !elem_of_nil; split; [lia|];
      intros w; rewrite !elem_of_cons, !elem_of_nil; lia.
    exfalso. revert Hv. cbn [list_to_map foldr uncurry].
    by rewrite !lookup_insert_ne, lookup_empty by done.
  - cbn [triangle_with_tail nodes]. rewrite !elem_of_cons. tauto.
  - rewrite !elem_of_cons, elem_of_nil. lia.
  - intros l. reflexivity.
Defined.

Lemma outer_loop_layout_pentagon :
  outer_loop (fun _ => 0%nat) pentagon = Some (Ok [4; 3; 2; 1; 0]%Z) /\
  outer_loop_layout exact_cos exact_sin exact_pi (fun _ => 0%nat) (fun l => l)
    1 pentagon
  = match regular_polygon_pos exact_cos exact_sin exact_pi 5 with
    | Returns outer_pos =>
        Some (Returns (dict_update ∅ (zip [4; 3; 2; 1; 0]%Z outer_pos)))
    | Fails e => Some (Fails e)
    end.
Proof.
  assert (Hloop : outer_loop (fun _ => 0%nat) pentagon
                  = Some (Ok [4; 3; 2; 1; 0]%Z)) by (vm_compute; reflexivity).
  split; [exact Hloop|].
  apply (outer_loop_layout_loop_nodes exact_cos exact_sin exact_pi
           (fun _ => 0%nat) (fun l => l) 0 pentagon [4; 3; 2; 1; 0]%Z Hloop).
  - cbn [pentagon nodes]. intros n. rewrite !elem_of_cons, elem_of_nil. tauto.
  - intros l. reflexivity.
Defined.

(** ** Symbols *)

Lemma app_one_char (c : Ascii.ascii) (s : string) :
  String c EmptyString +:+ s = String c s.
Proof. reflexivity. Qed.

(** X16. [symbol_str] gives different symbols different names: two symbols
    have the same name exactly when they are the same symbol. *)
Theorem symbol_str_inj (p q : sym) : symbol_str p = symbol_str q <-> p = q.
Proof.
  split; [|by intros ->].
  destruct p as [lp np], q as [lq nq]. unfold symbol_str. cbn [fst snd].
  destruct lp, lq; rewrite !app_one_char; intros Heq; try discriminate Heq;
    injection Heq as Heq; apply (inj pretty) in Heq; by subst.
Qed.

(** ** The synthesizer: the stack follows the status *)

Section Tracks.
Implicit Types (st : gmap Z bool) (ex added : EStack) (k : Z).

Lemma solves_app added added' k :
  solves (added ++ added') k <-> solves added k \/ solves added' k.
Proof.
  unfold solves. split.
  - intros (e & [He|He]%elem_of_app & Ht); [left|right]; by exists e.
  - intros [(e & He & Ht)|(e & He & Ht)]; exists e; rewrite elem_of_app; tauto.
Qed.

Lemma solves_nil k : ~ solves [] k.
Proof. intros (e & He & _). by apply elem_of_nil in He. Qed.

Lemma tracks_refl st ex : tracks st ex st ex.
Proof.
  exists []. split; [by rewrite app_nil_r|]. intros k.
  split; [tauto|]. intros [Hk|Hk]; [done|]. by apply solves_nil in Hk.
Qed.

Lemma tracks_trans st1 ex1 st2 ex2 st3 ex3 :
  tracks st1 ex1 st2 ex2 -> tracks st2 ex2 st3 ex3 -> tracks st1 ex1 st3 ex3.
Proof.
  intros (a1 & -> & H1) (a2 & -> & H2). exists (a1 ++ a2).
  split; [by rewrite app_assoc|]. intros k.
  rewrite H2, H1, solves_app. tauto.
Qed.

(** A placement: the joint [k] is solved, by expressions that solve [k]
    or a symbol that is not a joint. *)
Lemma tracks_placed st ex added k :
  solves added k ->
  (forall e, e ∈ added -> expr_target e = (P_LABEL, k) \/ (expr_target e).1 <> P_LABEL) ->
  tracks st ex (<[k := true]> st) (ex ++ added).
Proof.
  intros Hk Hall. exists added. split; [done|]. intros k'.
  destruct (decide (k' = k)) as [->|Hne].
  - rewrite lookup_insert_eq. tauto.
  - rewrite lookup_insert_ne by done. split; [tauto|].
    intros [Hs|(e & He & Ht)]; [done|].
    destruct (Hall e He) as [Ht'|Ht'].
    + rewrite Ht in Ht'. by injection Ht' as ->.
    + rewrite Ht in Ht'. done.
Qed.

Lemma tracks_one st ex e k :
  expr_target e = (P_LABEL, k) ->
  tracks st ex (<[k := true]> st) (ex ++ [e]).
Proof.
  intros Ht. apply tracks_placed.
  - exists e. split; [by left|done].
  - intros e' ->%list_elem_of_singleton. by left.
Qed.
End Tracks.

Section TracksLoop.
Context {D : Type} {F : Float64 D}.
Variables (cos sin : D -> D) (M_PI : D).
Variables (pin_grounded has_offset : VPoint.t D -> bool).
Local Open Scope Z_scope.
Implicit Types (env : LoopEnv D) (s : LoopState).

Local Abbreviation joint_P := (@joint_P D pin_grounded has_offset).
Local Abbreviation joint_RP := (@joint_RP D F cos sin M_PI pin_grounded has_offset).
Local Abbreviation t_config_step := (@t_config_step D F cos sin M_PI pin_grounded has_offset).
Local Abbreviation t_config_loop := (@t_config_loop D F cos sin M_PI pin_grounded has_offset).

Lemma place_friends_tracks nd fs : forall st ex ls st' ex' ls',
  place_friends nd fs (st, ex, ls) = Ok (st', ex', ls') ->
  tracks st ex st' ex'.
Proof.
  induction fs as [|fb fs IH]; intros st ex ls st' ex' ls' Hp; simpl in Hp.
  - injection Hp as <- <- <-. apply tracks_refl.
  - unfold status_get in Hp. destruct (st !! fb) as [locked|] eqn:Hfb; simpl in Hp;
      [|discriminate].
    destruct locked.
    + by apply IH in Hp.
    + apply IH in Hp. eapply tracks_trans; [|exact Hp].
      unfold add_pxy. by apply tracks_one.
Qed.

Lemma place_links_tracks nd vl ls0 : forall st ex ls st' ex' ls',
  place_links nd vl ls0 (st, ex, ls) = Ok (st', ex', ls') ->
  tracks st ex st' ex'.
Proof.
  induction ls0 as [|link ls0 IH]; intros st ex ls st' ex' ls' Hp; simpl in Hp.
  - injection Hp as <- <- <-. apply tracks_refl.
  - destruct (vlinks_get vl link) as [members|]; simpl in Hp; [|discriminate].
    destruct (place_friends nd members (st, ex, ls)) as [[[st1 ex1] ls1]|] eqn:Hf;
      simpl in Hp; [|discriminate].
    apply place_friends_tracks in Hf. apply IH in Hp.
    eapply tracks_trans; eassumption.
Qed.

Lemma joint_R_tracks env s s' :
  joint_R env s = Ok s' -> tracks (status s) (exprs s) (status s') (exprs s').
Proof.
  unfold joint_R. case_bool_decide.
  - unfold status_get.
    destruct (status s !! _get_input_base (node s) (inputs env)) as [[|]|];
      simpl; intros Hs; [| |discriminate]; injection Hs as <-; cbn [status exprs].
    + unfold add_pla. by apply tracks_one.
    + apply tracks_refl.
  - destruct (_get_reliable_friend _ _ _ _) as [[[ok fa] fb]|]; simpl;
      [|discriminate].
    destruct ok; simpl.
    + destruct (negb (_clockwise _ _ _)); intros Hs; injection Hs as <-;
        cbn [status exprs]; unfold add_pllp; by apply tracks_one.
    + intros Hs; injection Hs as <-. apply tracks_refl.
Qed.

Lemma joint_P_tracks env s s' :
  joint_P env s = Ok s' -> tracks (status s) (exprs s) (status s') (exprs s').
Proof.
  unfold_joint_P.
  destruct (_get_not_base_friend _ _ _ _ _ _) as [[ok fa]|]; simpl; [|discriminate].
  destruct ok; simpl.
  - destruct (c_index _ _) as [vpoint|]; simpl; [|discriminate].
    destruct (place_links _ _ _ _) as [[[st ex] ls]|] eqn:Hp; simpl; [|discriminate].
    intros Hs; injection Hs as <-. cbn [status exprs].
    apply place_links_tracks in Hp.
    eapply tracks_trans; [|exact Hp]. unfold add_pxy. by apply tracks_one.
  - intros Hs; injection Hs as <-. apply tracks_refl.
Qed.

Lemma joint_RP_tracks env s s' :
  joint_RP env s = Ok s' -> tracks (status s) (exprs s) (status s') (exprs s').
Proof.
  unfold_joint_RP.
  destruct (c_index _ _) as [vpoint|]; simpl; [|discriminate].
  destruct (_get_not_base_friend _ _ _ _ _ _) as [[ok fa]|]; simpl; [|discriminate].
  destruct (_get_base_friend _ _ _ _) as [[[ok2 fb] fd]|]; simpl; [|discriminate].
  destruct (negb ok || negb ok2).
  - intros Hs; injection Hs as <-. apply tracks_refl.
  - repeat match goal with
           | |- context [if ?b then _ else _] => destruct b
           end;
      intros Hs; injection Hs as <-; cbn [status exprs];
      unfold add_plpp, add_pllp; rewrite <- ?app_assoc; cbn [app];
      (apply tracks_placed;
       [eexists; split; [apply list_elem_of_In; cbn [In]; eauto 6|reflexivity]
       |intros e He; apply list_elem_of_In in He; cbn [In] in He;
        repeat (destruct He as [<-|He]; [cbn; first [by left|by right]|]); done]).
Qed.

Lemma t_config_step_follows env s s' :
  t_config_step env s = Continue s' \/ t_config_step env s = Stop s' ->
  follows s s'.
Proof.
  assert (Hrefl : follows s s) by (split; [apply tracks_refl|apply same_keys_refl]).
  unfold_t_config_step.
  destruct (_is_all_lock (status s)).
  { intros [Hs|Hs]; [discriminate|]. by injection Hs as <-. }
  destruct (status s !! node s) as [locked|] eqn:Hn.
  - destruct (skip_times s >=? around env).
    { intros [Hs|Hs]; [discriminate|]. by injection Hs as <-. }
    destruct locked.
    + intros [Hs|Hs]; [|discriminate]. by injection Hs as <-.
    + destruct (c_index _ _) as [vpoint|]; simpl; [|by intros [?|?]].
      destruct (match VPoint.type vpoint with
                | VJoint.R => joint_R env s
                | VJoint.P => joint_P env s
                | VJoint.RP => joint_RP env s
                end) as [s1|] eqn:Hj; [|by intros [?|?]].
      intros [Hs|Hs]; [|discriminate]. injection Hs as <-.
      unfold follows. cbn [status exprs]. split.
      * destruct (VPoint.type vpoint);
          [eapply joint_R_tracks|eapply joint_P_tracks|eapply joint_RP_tracks];
          eassumption.
      * assert (Hc : s1 = skipped s \/ placed s s1).
        { destruct (VPoint.type vpoint);
            [eapply joint_R_cases|eapply joint_P_cases|eapply joint_RP_cases];
            eassumption. }
        destruct Hc as [-> | (Hk & _)]; [apply same_keys_refl|done].
  - intros [Hs|Hs]; [|discriminate]. by injection Hs as <-.
Qed.

Lemma follows_trans s1 s2 s3 : follows s1 s2 -> follows s2 s3 -> follows s1 s3.
Proof.
  intros [Ht1 Hk1] [Ht2 Hk2]. split.
  - eapply tracks_trans; eassumption.
  - eapply same_keys_trans; eassumption.
Qed.

Lemma t_config_loop_follows fuel env : forall s s',
  t_config_loop fuel env s = Some (Ok s') -> follows s s'.
Proof.
  induction fuel as [|fuel IH]; intros s s'; [done|]. simpl.
  destruct (t_config_step env s) as [s1|s1|e] eqn:Hs.
  - intros Hl. eapply follows_trans; [|by apply IH].
    apply (t_config_step_follows env). by left.
  - intros [= <-]. apply (t_config_step_follows env). by right.
  - done.
Qed.

(** X17. The main loop of [t_config] keeps the stack and the status in
    step.  When the loop returns, the stack it was given is a prefix of
    the stack it returns; a joint is solved in the returned status exactly
    when it was solved before or is the target of one of the expressions
    the loop has added; and the status has the keys it had. *)
Theorem t_config_loop_tracks (fuel : nat) env s s' :
  t_config_loop fuel env s = Some (Ok s') ->
  exists added,
    exprs s' = exprs s ++ added /\
    (forall k, status s' !! k = Some true <->
               status s !! k = Some true \/
               exists e, e ∈ added /\ expr_target e = (P_LABEL, k)) /\
    (forall k, is_Some (status s' !! k) <-> is_Some (status s !! k)).
Proof.
  intros Hl. apply t_config_loop_follows in Hl as [(added & Hex & Hst) Hk].
  exists added. split_and!; [done|exact Hst|exact Hk].
Qed.
End TracksLoop.

Lemma t_config_loop_tracks_crank :
  t_config_loop (fun a => a) (fun a => a) 0%float (fun _ => false) (fun _ => false)
    10 crank_env crank_start = Some (Ok crank_end) /\
  exists added,
    exprs crank_end = exprs crank_start ++ added /\
    (forall k, status crank_end !! k = Some true <->
               status crank_start !! k = Some true \/
               exists e, e ∈ added /\ expr_target e = (P_LABEL, k)) /\
    (forall k, is_Some (status crank_end !! k) <-> is_Some (status crank_start !! k)).
Proof.
  assert (Hrun : t_config_loop (fun a => a) (fun a => a) 0%float (fun _ => false)
                   (fun _ => false) 10 crank_env crank_start = Some (Ok crank_end))
    by (vm_compute; reflexivity).
  split; [exact Hrun|].
  exact (t_config_loop_tracks (fun a => a) (fun a => a) 0%float (fun _ => false)
           (fun _ => false) 10 crank_env crank_start crank_end Hrun).
Defined.

(** ** The synthesizer: reliable friends *)

Section ReliableFriend.
Context {D : Type}.
Implicit Types (status : gmap Z bool) (vlinks : gmap string (list Z)).
Local Open Scope Z_scope.

Lemma reliable_scan_spec node status fs : forall fa fa' fb,
  fa = -1 \/ reliable node status fa ->
  reliable_scan node status fs fa = Ok (fa', fb) ->
  (fa' = -1 \/ reliable node status fa') /\
  (forall f, fb = Some f -> reliable node status fa' /\ reliable node status f).
Proof.
  induction fs as [|f fs IH]; intros fa fa' fb Hfa; simpl.
  - intros [= <- <-]. split; [done|]. by intros f' [=].
  - unfold status_get. destruct (status !! f) as [locked|] eqn:Hf; simpl; [|done].
    destruct locked; simpl.
    + destruct (Z.eqb_spec f node) as [->|Hne]; simpl.
      * by apply IH.
      * destruct (Z.eqb_spec fa (-1)) as [->|Hfa1].
        -- apply IH. right. by split.
        -- intros [= <- <-]. destruct Hfa as [?|Hfa]; [done|].
           split; [by right|]. intros f' [= <-]. split; [done|]. by split.
    + by apply IH.
Qed.

Lemma reliable_links_spec node vlinks status links : forall fa fa' fb,
  fa = -1 \/ reliable node status fa ->
  reliable_links node vlinks status links fa = Ok (true, fa', fb) ->
  reliable node status fa' /\ reliable node status fb.
Proof.
  induction links as [|link links IH]; intros fa fa' fb Hfa; simpl; [done|].
  destruct (vlinks_get vlinks link) as [members|]; simpl; [|done].
  destruct (length members <? 2)%nat; [by apply IH|].
  destruct (reliable_scan node status members fa) as [[fa1 fb1]|] eqn:Hscan;
    simpl; [|done].
  destruct (reliable_scan_spec node status members fa fa1 fb1 Hfa Hscan)
    as [Hfa1 Hfb1].
  destruct fb1 as [f|].
  - intros [= <- <-]. by apply Hfb1.
  - by apply IH.
Qed.

(** X18. The two friends that [_get_reliable_friend] reports are joints
    whose status is solved, and neither is the joint itself. *)
Theorem get_reliable_friend_solved (node : Z) (vpoints : list (VPoint.t D))
    vlinks status (fa fb : Z) :
  _get_reliable_friend node vpoints vlinks status = Ok (true, fa, fb) ->
  status !! fa = Some true /\ status !! fb = Some true /\
  fa <> node /\ fb <> node.
Proof.
  unfold _get_reliable_friend, unset.
  destruct (py_index vpoints node) as [vpoint|]; cbn [bind]; [|done].
  destruct (reliable_links _ _ _ _ _) as [r|] eqn:Hl; [|done].
  intros [= ->]. apply reliable_links_spec in Hl as [[? ?] [? ?]]; [done|by left].
Qed.
End ReliableFriend.

Lemma get_reliable_friend_solved_driven :
  _get_reliable_friend 3 driven_from_a_floating_joint driven_vlinks driven_status
  = Ok (true, 1, 2)%Z /\
  driven_status !! 1%Z = Some true /\ driven_status !! 2%Z = Some true /\
  1%Z <> 3%Z /\ 2%Z <> 3%Z.
Proof.
  assert (Hrun : _get_reliable_friend 3 driven_from_a_floating_joint driven_vlinks
                   driven_status = Ok (true, 1, 2)%Z) by (vm_compute; reflexivity).
  split; [exact Hrun|].
  exact (get_reliable_friend_solved 3%Z driven_from_a_floating_joint driven_vlinks
           driven_status 1%Z 2%Z Hrun).
Defined.

(** ** Degrees of freedom: the order of the joints *)

Section DofOrder.
Context {D : Type}.
Implicit Types (vpoint : VPoint.t D) (vpoints : list (VPoint.t D)).
Local Open Scope Z_scope.

Lemma sumZ_Permutation (l k : list Z) : l ≡ₚ k -> sumZ l = sumZ k.
Proof.
  unfold sumZ. induction 1 as [|a l k _ IH|a b l|l k m _ IH1 _ IH2]; cbn [foldr];
    [done|lia|lia|congruence].
Qed.

Lemma union_list_Permutation (l k : list (gset string)) : l ≡ₚ k -> ⋃ l = ⋃ k.
Proof.
  induction 1 as [|a l k _ IH|a b l|l k m _ IH1 _ IH2];
    rewrite ?union_list_cons; [done|by rewrite IH| |congruence].
  rewrite !(assoc_L (∪)). by rewrite (comm_L (∪) a b).
Qed.

Lemma dof_formula_Permutation vpoints vpoints' :
  vpoints ≡ₚ vpoints' -> dof_formula vpoints = dof_formula vpoints'.
Proof.
  intros Hp. unfold dof_formula, dof_links, dof_j1, dof_j2.
  assert (Hf : filter is_joint vpoints ≡ₚ filter is_joint vpoints')
    by (by rewrite Hp).
  rewrite (union_list_Permutation _ _ (fmap_Permutation _ _ _ Hf)).
  rewrite (sumZ_Permutation _ _ (fmap_Permutation dof_j1_of _ _ Hf)).
  rewrite (sumZ_Permutation _ _ (fmap_Permutation dof_j2_of _ _ Hf)).
  reflexivity.
Qed.

Lemma vpoint_dof_closed vpoints :
  total_memberships vpoints < 2 ^ 28 ->
  vpoint_dof vpoints = dof_formula vpoints.
Proof.
  intros Hb. unfold vpoint_dof, dof_formula.
  rewrite vpoint_dof_loop_spec by (simpl; pow2; lia).
  cbn [j1 j2 vlinks]. fold (dof_links vpoints).
  pose proof (dof_links_size vpoints).
  pose proof (dof_sums_bounds vpoints).
  rewrite !Z.add_0_l. apply int32_small. pow2. lia.
Qed.

(** X19. The degrees of freedom do not depend on the order of the joints:
    [vpoint_dof] returns the same number for two lists that are
    permutations of each other, when the mechanism has fewer than [2 ^ 28]
    link memberships (the C [int]s of the loop do not overflow). *)
Theorem vpoint_dof_Permutation vpoints vpoints' :
  vpoints ≡ₚ vpoints' ->
  total_memberships vpoints < 2 ^ 28 ->
  vpoint_dof vpoints = vpoint_dof vpoints'.
Proof.
  intros Hp Hb.
  assert (Hb' : total_memberships vpoints' < 2 ^ 28).
  { unfold total_memberships in *.
    by rewrite <- (sumZ_Permutation _ _ (fmap_Permutation memberships _ _ Hp)). }
  rewrite !vpoint_dof_closed by done. by apply dof_formula_Permutation.
Qed.

End DofOrder.

Lemma vpoint_dof_Permutation_fourbar :
  fourbar_dof ≡ₚ rev fourbar_dof /\
  (total_memberships fourbar_dof < 2 ^ 28)%Z /\
  vpoint_dof fourbar_dof = vpoint_dof (rev fourbar_dof).
Proof.
  assert (Hp : fourbar_dof ≡ₚ rev fourbar_dof) by apply Permutation_rev.
  assert (Hb : (total_memberships fourbar_dof < 2 ^ 28)%Z) by (vm_compute; reflexivity).
  split; [exact Hp|]. split; [exact Hb|].
  exact (vpoint_dof_Permutation fourbar_dof (rev fourbar_dof) Hp Hb).
Defined.

(** ** The solver: the messages of its [ValueError]s *)

Section SolvingMessages.
Context {D : Type} {F : Float64 D}.
Variables (cos sin : D -> D) (atan2 hypot : D -> D -> D) (M_PI : D).
Variable slope_angle : VPoint.t D -> VPoint.t D -> Z -> Z -> D.
Variable vpoint_solving :
  list (VPoint.t D) -> list (PDataItem D) -> result (list (SolvedPoint D)).
Local Open Scope Z_scope.

Local Abbreviation data_collecting :=
  (@data_collecting D F cos sin hypot M_PI slope_angle).
Local Abbreviation expr_solving_stages :=
  (@expr_solving_stages D F cos sin atan2 hypot M_PI vpoint_solving).
Local Abbreviation expr_solving :=
  (@expr_solving D F cos sin atan2 hypot M_PI slope_angle vpoint_solving).

Lemma plain_no_message e msg : plain e -> e = ValueError msg -> solving_message msg.
Proof. intros Hp ->. destruct Hp. Qed.

Lemma check_input_pairs_message (mr : gmap string Z) (vpoints : list (VPoint.t D))
    stack e :
  check_input_pairs mr vpoints stack = Raise e ->
  plain e \/ e = ValueError "wrong driver definition.".
Proof.
  induction stack as [|expr stack IH]; cbn [check_input_pairs]; [discriminate|].
  destruct (check_input_pair mr vpoints expr) as [u|e1] eqn:E; cbn [bind]; [done|].
  intros H; injection H as <-. unfold check_input_pair in E.
  destruct (func expr); try discriminate.
  all: raises; try (left; eauto using mapping_r_get_plain, py_index_plain; fail).
  all: by right.
Qed.

Lemma solved_points_message (mapping : list (MapItem D)) dd sb items e :
  solved_points mapping dd sb items = Raise e ->
  plain e \/ exists i, e = point_failure i.
Proof.
  induction items as [|[i vpoint] items IH]; cbn [solved_points]; [discriminate|].
  destruct (solved_point mapping dd sb i vpoint) as [p|e1] eqn:E; cbn [bind].
  - destruct (solved_points mapping dd sb items); cbn [bind]; [discriminate|].
    intros H; injection H as <-. by apply IH.
  - intros H; injection H as <-. unfold solved_point in E.
    raises; try (left; eauto using py_index_plain; done).
    all: right; by exists i.
Qed.

Lemma expr_solving_stages_message dd dof_input exprs mapping vpoints angles msg :
  expr_solving_stages dd dof_input exprs mapping vpoints angles
    = Raise (ValueError msg) ->
  solving_message msg.
Proof.
  unfold_expr_solving_stages.
  destruct (Z.gtb_spec dof_input (vpoint_dof vpoints)) as [Hgt|Hle].
  { intros H; injection H as <-. left. by eexists _, _. }
  intros H.
  destruct (check_input_pairs _ _ _) as [u|e1] eqn:E1; cbn [bind] in H.
  2: { injection H as ->.
       destruct (check_input_pairs_message _ _ _ _ E1) as [[]|Hm].
       right; left. by injection Hm as ->. }
  destruct (known_points _ _ _ _) as [[pdd hns]|e1] eqn:E3; cbn [bind] in H.
  2: { injection H as ->. eapply plain_no_message; [|reflexivity].
       by eapply known_points_plain. }
  destruct hns; cbn [bind] in H; [|discriminate].
  destruct (vpoint_solving _ _) as [l|[| | |msg'|]]; cbn [bind] in H;
    try discriminate.
  injection H as <-. right; right; left. reflexivity.
Qed.

(** X20. A [ValueError] of [expr_solving] has one of four messages: the
    wrong number of input parameters, the wrong driver definition, the
    failure of the external solver (whose own [ValueError] is reworded), or
    the failure of a point; [data_collecting] and the subscripts raise no
    [ValueError].  The stack holds the five functions of [Func], so the
    branch of [expr_parser] for an unsupported function is not taken. *)
Theorem expr_solving_messages (h : heap D) exprs mapping (vpoints : loc) angles msg :
  (expr_solving h exprs mapping vpoints angles).2 = Raise (ValueError msg) ->
  solving_message msg.
Proof.
  unfold_expr_solving.
  destruct (data_collecting h exprs mapping vpoints)
    as [h1 [[dd dof_input]|e1]] eqn:Hc; cbn [fst snd].
  - intros H.
    destruct (snapshot h1 vpoints) as [joints|e2] eqn:Hs; cbn [bind] in H.
    2: { injection H as ->. eapply plain_no_message; [|reflexivity].
         by eapply snapshot_plain. }
    destruct (expr_solving_stages _ _ _ _ _ _) as [[dd1 sb]|e2] eqn:Hst;
      cbn [bind] in H.
    + destruct (solved_points_message _ _ _ _ _ H) as [[]|[i Hm]].
      right; right; right. by exists i.
    + injection H as ->. by eapply expr_solving_stages_message.
  - intros H; injection H as ->. eapply plain_no_message; [|reflexivity].
    by eapply data_collecting_plain.
Qed.

End SolvingMessages.

Lemma expr_solving_messages_two_ground_pins :
  let msg := "wrong number of input parameters: 1 / -1"%string in
  (expr_solving (fun a => a) (fun a => a) (fun a _ => a) ieee_hypot 0%float
     (fun _ _ _ _ => 0%float) (fun _ _ => Ok [])
     (store_of two_ground_pins) two_ground_pins_exprs two_ground_pins_mapping
     2%nat []).2 = Raise (ValueError msg) /\
  solving_message msg.
Proof.
  intros msg.
  assert (H : (expr_solving (fun a => a) (fun a => a) (fun a _ => a) ieee_hypot
                 0%float (fun _ _ _ _ => 0%float) (fun _ _ => Ok [])
                 (store_of two_ground_pins) two_ground_pins_exprs
                 two_ground_pins_mapping 2%nat []).2 = Raise (ValueError msg))
    by (vm_compute; reflexivity).
  split; [exact H|].
  exact (expr_solving_messages _ _ _ _ _ _ _ _ _ _ _ _ _ H).
Defined.

(** ** The solver: what [expr_parser] writes *)

Ltac unfold_expr_parser_step := unfold expr_parser_step.
Ltac step_expr_parser := cbn [expr_parser].

Section ParserEffect.
Context {D : Type} {F : Float64 D}.
Variables (cos sin : D -> D) (atan2 hypot : D -> D -> D).

Local Abbreviation expr_parser_step := (@expr_parser_step D F cos sin atan2 hypot).
Local Abbreviation expr_parser := (@expr_parser D F cos sin atan2 hypot).

Lemma expr_parser_step_insert (dd dd1 : gmap string (PyData D)) expr :
  expr_parser_step dd expr = Ok dd1 ->
  exists c, dd1 = <[symbol_str (expr_target expr) := Coord c]> dd.
Proof.
  unfold_expr_parser_step. unfold expr_target.
  destruct (func expr);
    repeat match goal with
           | |- bind ?r _ = Ok _ -> _ =>
               destruct r as [[]|]; cbn [bind]; [|discriminate]
           | |- bind ?r _ = Ok _ -> _ =>
               destruct r; cbn [bind]; [|discriminate]
           end;
    intros H; injection H as <-; by eexists.
Qed.

(** X21. [expr_parser] always returns, and what it has written is the work
    of the expressions before the first one whose step fails, [done]: the
    stack is [done ++ rest], every step of [done] succeeds, and [rest] is
    empty or starts with an expression whose step fails on the entries
    [done] has left; the target of every expression of [done] holds a
    coordinate in [data_dict], and the entries under all other names are
    those of the call.  The exception of the failing step is dropped: the
    expressions of [rest] are not evaluated.  When no step fails, so is
    every target of the stack. *)
Theorem expr_parser_effect exprs : forall (dd : gmap string (PyData D)),
  exists done rest,
    exprs = done ++ rest /\
    (forall pre expr post, done = pre ++ expr :: post ->
       exists dd1, expr_parser_step (expr_parser pre dd) expr = Ok dd1) /\
    (rest = [] \/
     exists expr rest' e, rest = expr :: rest' /\
       expr_parser_step (expr_parser done dd) expr = Raise e) /\
    expr_parser exprs dd = expr_parser done dd /\
    (forall expr, expr ∈ done ->
       exists c, expr_parser exprs dd !! symbol_str (expr_target expr)
                 = Some (Coord c)) /\
    (forall name,
       (forall expr, expr ∈ done -> symbol_str (expr_target expr) <> name) ->
       expr_parser exprs dd !! name = dd !! name).
Proof.
  induction exprs as [|expr exprs IH]; intros dd.
  - exists [], []. split_and!; try done.
    + intros pre expr post Heq. by destruct pre.
    + by left.
    + intros expr Hin. by apply elem_of_nil in Hin.
  - destruct (expr_parser_step dd expr) as [dd1|e] eqn:E.
    + destruct (IH dd1) as (done & rest & -> & Hsteps & Hrest & Hrun & Ht & Hf).
      assert (Hcons : forall l, expr_parser (expr :: l) dd = expr_parser l dd1).
      { intros l. step_expr_parser. by rewrite E. }
      destruct (expr_parser_step_insert _ _ _ E) as [c Hdd1].
      exists (expr :: done), rest. split_and!.
      * done.
      * intros pre e0 post Heq. destruct pre as [|p pre]; cbn [app] in Heq.
        -- injection Heq as <- _. exists dd1. by step_expr_parser.
        -- injection Heq as <- Heq. rewrite Hcons. by eapply Hsteps.
      * destruct Hrest as [->|(e0 & rest' & e & -> & He)]; [by left|].
        right. exists e0, rest', e. split; [done|]. by rewrite Hcons.
      * by rewrite !Hcons.
      * rewrite Hcons. intros e He.
        destruct (decide (Exists (fun e' => symbol_str (expr_target e')
                                            = symbol_str (expr_target e)) done))
          as [Hex|Hno].
        -- apply Exists_exists in Hex as (e' & Hin' & <-). by apply Ht.
        -- apply elem_of_cons in He as [->|Hin]; [|by apply Ht].
           rewrite Hf.
           { exists c. by rewrite Hdd1, lookup_insert_eq. }
           intros e' Hin' Heq. apply Hno, Exists_exists. by exists e'.
      * rewrite Hcons. intros name Hn. rewrite Hf.
        -- rewrite Hdd1, lookup_insert_ne; [done|]. apply Hn. by left.
        -- intros e' Hin'. apply Hn. by right.
    + assert (Hstop : expr_parser (expr :: exprs) dd = dd).
      { step_expr_parser. by rewrite E. }
      exists [], (expr :: exprs). split_and!.
      * done.
      * intros pre e0 post Heq. by destruct pre.
      * right. by exists expr, exprs, e.
      * by rewrite Hstop.
      * intros e' Hin. by apply elem_of_nil in Hin.
      * intros name _. by rewrite Hstop.
Qed.

End ParserEffect.

(** ** The geometry kernel: line-circle intersection *)

Section PlppExact.
Local Open Scope R_scope.

Lemma rdist_pos x1 y1 x2 y2 : x1 <> x2 \/ y1 <> y2 -> 0 < rdist x1 y1 x2 y2.
Proof.
  intros Hne. pose proof (rdist_nonneg x1 y1 x2 y2) as H0.
  pose proof (rdist_sq x1 y1 x2 y2) as Hs.
  destruct (Req_dec (rdist x1 y1 x2 y2) 0) as [Hz|Hz]; [|lra].
  exfalso. rewrite Hz in Hs.
  assert (x2 - x1 <> 0 \/ y2 - y1 <> 0) as [H|H] by (destruct Hne; [left|right]; lra).
  - pose proof (Rsqr_pos_lt _ H) as Hp. pose proof (Rle_0_sqr (y2 - y1)) as Hq.
    unfold Rsqr in *. lra.
  - pose proof (Rsqr_pos_lt _ H) as Hp. pose proof (Rle_0_sqr (x2 - x1)) as Hq.
    unfold Rsqr in *. lra.
Qed.

(** The distance of [c1] to the foot of its perpendicular is its distance
    to the line. *)
Lemma foot_distance x1 y1 x2 y2 x3 y3 :
  x2 <> x3 \/ y2 <> y3 ->
  let dx := x3 - x2 in
  let dy := y3 - y2 in
  let l := rdist x2 y2 x3 y3 in
  let u := ((x1 - x2) * dx + (y1 - y2) * dy) / (l * l) in
  rdist x1 y1 (x2 + u * dx) (y2 + u * dy) = line_distance x1 y1 x2 y2 x3 y3.
Proof.
  intros Hne dx dy l u. unfold line_distance. fold dx dy l.
  pose proof (rdist_pos _ _ _ _ Hne) as Hl. fold l in Hl.
  pose proof (rdist_sq x2 y2 x3 y3) as Hll. fold l dx dy in Hll.
  apply rdist_eq.
  - apply Rmult_le_pos; [apply Rabs_pos|]. left. by apply Rinv_0_lt_compat.
  - set (c := (x1 - x2) * dy - (y1 - y2) * dx).
    transitivity (c * c / (l * l)).
    + unfold u, c. rewrite Hll. field. rewrite <- Hll. nra.
    + replace (c * c) with (Rabs c * Rabs c).
      * field. lra.
      * destruct (Rcase_abs c) as [Hc|Hc].
        -- rewrite (Rabs_left _ Hc). ring.
        -- rewrite (Rabs_right _ Hc). ring.
Qed.

(** X22. In exact real arithmetic, for a line through two distinct points
    [c2] and [c3]: [plpp] returns (NaN, NaN) exactly when the distance of
    [c1] to the line is larger than [d0]; otherwise it returns a point of
    the line at distance [d0] from [c1]. *)
Theorem plpp_exact_spec x1 y1 d0 x2 y2 x3 y3 inverse :
  x2 <> x3 \/ y2 <> y3 ->
  let d := line_distance x1 y1 x2 y2 x3 y3 in
  let r := plpp exact_hypot (xc x1 y1) (XR d0) (xc x2 y2) (xc x3 y3) inverse in
  (d0 < d /\ r = (XNaN, XNaN)) \/
  (d <= d0 /\ exists px py, r = (XR px, XR py) /\
      (px - x2) * (y3 - y2) = (py - y2) * (x3 - x2) /\
      Coordinate_distance exact_hypot (xc px py) (xc x1 y1) = XR d0).
Proof.
  intros Hne d r. subst r. unfold plpp. rewrite xc_distance.
  cbn [x y xc].
  pose proof (rdist_pos _ _ _ _ Hne) as Hl.
  pose proof (rdist_sq x2 y2 x3 y3) as Hll.
  pose proof (foot_distance x1 y1 x2 y2 x3 y3 Hne) as Hfoot. cbv zeta in Hfoot.
  fold d in Hfoot.
  set (l := rdist x2 y2 x3 y3) in *.
  set (dx := x3 - x2) in *. set (dy := y3 - y2) in *.
  rewrite !x_sub, !x_mul, !x_add. fold dx dy.
  rewrite (x_div _ (l * l)) by nra.
  set (u := ((x1 - x2) * dx + (y1 - y2) * dy) / (l * l)) in *.
  rewrite !x_mul, !x_add.
  change (mkCoordinate (XR x1) (XR y1)) with (xc x1 y1).
  change (mkCoordinate (XR (x2 + u * dx)) (XR (y2 + u * dy)))
    with (xc (x2 + u * dx) (y2 + u * dy)).
  rewrite xc_distance. cbn [x y]. rewrite Hfoot.
  assert (Hperp : (x2 + u * dx - x1) * dx + (y2 + u * dy - y1) * dy = 0).
  { unfold u. rewrite Hll. field. rewrite <- Hll. nra. }
  pose proof (rdist_sq x1 y1 (x2 + u * dx) (y2 + u * dy)) as Hdd.
  rewrite Hfoot in Hdd.
  pose proof (rdist_nonneg x1 y1 (x2 + u * dx) (y2 + u * dy)) as Hd0.
  rewrite Hfoot in Hd0.
  set (fx := x2 + u * dx) in *. set (fy := y2 + u * dy) in *.
  assert (Hline : forall k, (fx + dx * k - x2) * dy = (fy + dy * k - y2) * dx).
  { intros k. unfold fx, fy. ring. }
  rewrite !x_ltb, !x_eqb.
  destruct (Rlt_dec d0 d) as [Hgt|Hle].
  { left. by split. }
  right. split; [lra|].
  destruct (Req_dec_T d d0) as [He|Hn].
  - exists fx, fy. split; [reflexivity|]. split.
    + pose proof (Hline 0) as H. by rewrite !Rmult_0_r, !Rplus_0_r in H.
    + rewrite xc_distance. f_equal. apply rdist_eq; [lra|].
      rewrite <- He. lra.
  - rewrite !x_mul, !x_sub.
    assert (Hs : 0 <= d0 * d0 - d * d) by nra.
    rewrite (x_sqrt _ Hs). rewrite (x_div _ l) by lra.
    set (k := sqrt (d0 * d0 - d * d) / l).
    assert (Hkk : k * k * (dx * dx + dy * dy) = d0 * d0 - d * d).
    { unfold k. rewrite <- Hll. transitivity (sqrt (d0 * d0 - d * d)
                                               * sqrt (d0 * d0 - d * d)).
      - field. lra.
      - by apply sqrt_sqrt. }
    clearbody k fx fy.
    destruct inverse; rewrite !x_mul, ?x_sub, ?x_add.
    + exists (fx - dx * k), (fy - dy * k). split; [reflexivity|]. split.
      * pose proof (Hline (- k)) as H.
        by replace (fx + dx * - k) with (fx - dx * k) in H by ring;
           replace (fy + dy * - k) with (fy - dy * k) in H by ring.
      * rewrite xc_distance. f_equal. apply rdist_eq; [lra|].
        transitivity ((fx - x1) * (fx - x1) + (fy - y1) * (fy - y1)
                      + k * k * (dx * dx + dy * dy)
                      - 2 * k * ((fx - x1) * dx + (fy - y1) * dy)); [ring|].
        rewrite Hkk, Hperp, <- Hdd. ring.
    + exists (fx + dx * k), (fy + dy * k). split; [reflexivity|]. split.
      * apply Hline.
      * rewrite xc_distance. f_equal. apply rdist_eq; [lra|].
        transitivity ((fx - x1) * (fx - x1) + (fy - y1) * (fy - y1)
                      + k * k * (dx * dx + dy * dy)
                      + 2 * k * ((fx - x1) * dx + (fy - y1) * dy)); [ring|].
        rewrite Hkk, Hperp, <- Hdd. ring.
Qed.

End PlppExact.

Lemma plpp_exact_spec_axis :
  ((0 <> 1 \/ 0 <> 0) /\
   let d := line_distance 0 1 0 0 1 0 in
   let r := plpp exact_hypot (xc 0 1) (XR 2) (xc 0 0) (xc 1 0) false in
   (2 < d /\ r = (XNaN, XNaN)) \/
   (d <= 2 /\ exists px py, r = (XR px, XR py) /\
       (px - 0) * (0 - 0) = (py - 0) * (1 - 0) /\
       Coordinate_distance exact_hypot (xc px py) (xc 0 1) = XR 2))%R.
Proof.
  assert (H : (0 <> 1 \/ 0 <> 0)%R) by (left; lra).
  split; [exact H|]. exact (plpp_exact_spec 0 1 2 0 0 1 0 false H).
Defined.

(** ** The geometry kernel: the point by angle *)

Section PlapExact.
Local Open Scope R_scope.

Lemma sqrt_square_abs a : sqrt (a * a) = Rabs a.
Proof. rewrite <- (sqrt_Rsqr_abs a). reflexivity. Qed.

Lemma atan_unit dx dy :
  0 < dx ->
  cos (atan (dy / dx)) = dx / sqrt (dx * dx + dy * dy) /\
  sin (atan (dy / dx)) = dy / sqrt (dx * dx + dy * dy).
Proof.
  intros Hx. rewrite cos_atan, sin_atan.
  assert (Hs : sqrt (1 + (dy / dx)²) = sqrt (dx * dx + dy * dy) / dx).
  { replace (1 + (dy / dx)²) with ((dx * dx + dy * dy) / (dx * dx))
      by (unfold Rsqr; field; lra).
    rewrite sqrt_div_alt by nra. rewrite sqrt_square by lra. reflexivity. }
  rewrite Hs.
  assert (Hp : 0 < sqrt (dx * dx + dy * dy)) by (apply sqrt_lt_R0; nra).
  split; field; lra.
Qed.

Lemma atan_unit_neg dx dy :
  dx < 0 ->
  cos (atan (dy / dx)) = - dx / sqrt (dx * dx + dy * dy) /\
  sin (atan (dy / dx)) = - dy / sqrt (dx * dx + dy * dy).
Proof.
  intros Hx. destruct (atan_unit (- dx) (- dy)) as [Hc Hs]; [lra|].
  replace (- dy / - dx) with (dy / dx) in Hc, Hs by (field; lra).
  replace (- dx * - dx + - dy * - dy) with (dx * dx + dy * dy) in Hc, Hs by ring.
  by split.
Qed.

(** The angle of [Ratan2] is the angle of the vector. *)
Lemma Ratan2_unit dx dy :
  dx <> 0 \/ dy <> 0 ->
  cos (Ratan2 dy dx) = dx / sqrt (dx * dx + dy * dy) /\
  sin (Ratan2 dy dx) = dy / sqrt (dx * dx + dy * dy).
Proof.
  intros Hne. unfold Ratan2.
  destruct (Rlt_dec 0 dx) as [Hp|Hp]; [by apply atan_unit|].
  destruct (Rlt_dec dx 0) as [Hn|Hn].
  - destruct (atan_unit_neg dx dy Hn) as [Hc Hs].
    assert (Hq : 0 < sqrt (dx * dx + dy * dy)) by (apply sqrt_lt_R0; nra).
    destruct (Rle_dec 0 dy).
    + rewrite neg_cos, neg_sin, Hc, Hs. split; field; lra.
    + rewrite cos_minus, sin_minus, cos_PI, sin_PI, Hc, Hs. split; field; lra.
  - assert (dx = 0) as -> by lra.
    assert (Hy : dy <> 0) by (destruct Hne; [lra|done]).
    replace (0 * 0 + dy * dy) with (dy * dy) by ring.
    rewrite sqrt_square_abs.
    destruct (Rlt_dec 0 dy) as [Hyp|Hyp].
    + rewrite cos_PI2, sin_PI2, Rabs_right by lra. split; field; lra.
    + destruct (Rlt_dec dy 0) as [Hyn|Hyn]; [|lra].
      rewrite cos_neg, sin_neg, cos_PI2, sin_PI2, Rabs_left by lra.
      split; field; lra.
Qed.

(** X23. In exact real arithmetic, for two distinct points [c1] and [c2]:
    [plap] returns the point at distance [d0] from [c1] in the direction of
    [c2] turned by the angle [a0], counterclockwise, or clockwise when
    [inverse] is set. *)
Theorem plap_exact_spec (x1 y1 d0 a0 x2 y2 : R) (inverse : bool) :
  x1 <> x2 \/ y1 <> y2 ->
  let dx := x2 - x1 in
  let dy := y2 - y1 in
  let l := rdist x1 y1 x2 y2 in
  let a := if inverse then - a0 else a0 in
  plap exact_cos exact_sin exact_atan2 (xc x1 y1) (XR d0) (XR a0)
    (Some (xc x2 y2)) inverse
  = (XR (x1 + d0 * ((dx * cos a - dy * sin a) / l)),
     XR (y1 + d0 * ((dy * cos a + dx * sin a) / l))).
Proof.
  intros Hne dx dy l a. unfold plap. cbn [x y xc].
  rewrite !x_sub. fold dx dy. cbn [exact_atan2].
  assert (Hd : dx <> 0 \/ dy <> 0) by (destruct Hne; [left|right]; unfold dx, dy; lra).
  destruct (Ratan2_unit dx dy Hd) as [Hc Hs].
  assert (Hl : l = sqrt (dx * dx + dy * dy)) by reflexivity.
  rewrite <- Hl in Hc, Hs.
  pose proof (rdist_pos _ _ _ _ Hne) as Hpos. fold l in Hpos.
  subst a. destruct inverse; rewrite ?x_sub, ?x_add; cbn [exact_cos exact_sin];
    rewrite !x_mul, !x_add; do 2 f_equal.
  - rewrite cos_minus, cos_neg, sin_neg, Hc, Hs. field. lra.
  - rewrite sin_minus, cos_neg, sin_neg, Hc, Hs. field. lra.
  - rewrite cos_plus, Hc, Hs. field. lra.
  - rewrite sin_plus, Hc, Hs. field. lra.
Qed.

End PlapExact.

Lemma plap_exact_spec_quarter_turn :
  ((0 <> 1 \/ 0 <> 0) /\
   plap exact_cos exact_sin exact_atan2 (xc 0 0) (XR 2) (XR (PI / 2))
     (Some (xc 1 0)) false
   = (XR 0, XR 2))%R.
Proof.
  assert (H : (0 <> 1 \/ 0 <> 0)%R) by (left; lra).
  split; [exact H|].
  rewrite (plap_exact_spec 0 0 2 (PI / 2) 1 0 false H). cbv zeta.
  assert (Hl : rdist 0 0 1 0 = 1%R) by (apply rdist_eq; lra).
  rewrite Hl, cos_PI2, sin_PI2. do 2 f_equal; field.
Defined.

(** ** The outer loop: the nodes of the merged cycles *)

Section MergedCycles.
Implicit Types (cycles : list Cycle) (v : Z).

Lemma on_cycles_app cycles cycles' v :
  on_cycles (cycles ++ cycles') v <-> on_cycles cycles v \/ on_cycles cycles' v.
Proof.
  unfold on_cycles. split.
  - intros (c & [Hc|Hc]%elem_of_app & Hv); [left|right]; by exists c.
  - intros [(c & Hc & Hv)|(c & Hc & Hv)]; exists c; rewrite elem_of_app; tauto.
Qed.

Lemma on_cycles_one (c : Cycle) v : on_cycles [c] v <-> v ∈ cycle_nodes c.
Proof.
  unfold on_cycles. split.
  - by intros (c' & ->%list_elem_of_singleton & Hv).
  - intros Hv. exists c. split; [by left|done].
Qed.

Lemma on_cycles_cons (c : Cycle) cycles v :
  on_cycles (c :: cycles) v <-> v ∈ cycle_nodes c \/ on_cycles cycles v.
Proof.
  change (c :: cycles) with ([c] ++ cycles).
  by rewrite on_cycles_app, on_cycles_one.
Qed.

Lemma on_cycles_reverse cycles v : on_cycles (reverse cycles) v <-> on_cycles cycles v.
Proof.
  unfold on_cycles. split; intros (c & Hc & Hv); exists c;
    (split; [|done]); by apply elem_of_reverse.
Qed.

Lemma cycle_eqb_nodes (c c' : Cycle) : cycle_eqb c c' = true -> cycle_nodes c = cycle_nodes c'.
Proof.
  destruct c, c'; cbn; intros H; by apply bool_decide_eq_true in H.
Qed.

Lemma cycle_eqb_refl (c : Cycle) : cycle_eqb c c = true.
Proof. destruct c; cbn; by apply bool_decide_eq_true. Qed.

(** [list.remove] takes away an element with the nodes of its argument. *)
Lemma on_cycles_remove (c : Cycle) cycles v :
  c ∈ cycles ->
  on_cycles cycles v <-> on_cycles (list_remove c cycles) v \/ v ∈ cycle_nodes c.
Proof.
  induction cycles as [|a cycles IH]; [by intros ?%elem_of_nil|].
  intros Hin. cbn [list_remove].
  destruct (cycle_eqb a c) eqn:Heq.
  - rewrite on_cycles_cons, (cycle_eqb_nodes _ _ Heq). tauto.
  - apply elem_of_cons in Hin as [->|Hin]; [by rewrite cycle_eqb_refl in Heq|].
    rewrite !on_cycles_cons, (IH Hin). tauto.
Qed.

(** An element replaced by one with the same nodes. *)
Lemma on_cycles_insert cycles (i : nat) (c c' : Cycle) v :
  cycles !! i = Some c ->
  (forall x, x ∈ cycle_nodes c' <-> x ∈ cycle_nodes c) ->
  on_cycles (<[i := c']> cycles) v <-> on_cycles cycles v.
Proof.
  revert i. induction cycles as [|a cycles IH]; intros i Hi Hn; [done|].
  destruct i as [|i]; cbn in Hi |- *.
  - injection Hi as ->. rewrite !on_cycles_cons, Hn. tauto.
  - rewrite !on_cycles_cons, (IH i Hi Hn). tauto.
Qed.

Lemma elem_of_OrderedSet_reverse (A : OrderedSet Z) v :
  v ∈ OrderedSet_reverse A <-> v ∈ A.
Proof.
  unfold OrderedSet_reverse. rewrite elem_of_ior, elem_of_nil.
  split.
  - intros [[]|Hv]. apply list_elem_of_In, in_rev. by apply list_elem_of_In.
  - intros Hv. right. apply list_elem_of_In. rewrite <- in_rev.
    by apply list_elem_of_In.
Qed.

(** The cycle that [find_contact] returns is one of the list, as it is or
    reversed. *)
Lemma find_contact_spec (c1 : OrderedSet Z) cycles : forall (k i : nat) (c2 : OrderedSet Z),
  find_contact c1 cycles k = Ok (i, c2) ->
  exists c2', (k <= i)%nat /\ cycles !! (i - k)%nat = Some (CycleSet c2') /\
    (forall x, x ∈ c2 <-> x ∈ c2').
Proof.
  induction cycles as [|[l|s] cycles IH]; intros k i c2; cbn [find_contact];
    [discriminate|discriminate|].
  destruct (2 <=? length (OrderedSet_and c1 s))%nat.
  - destruct (Bool.eqb _ _); intros Hf; injection Hf as <- <-; exists s;
      rewrite Nat.sub_diag; (split; [lia|]); (split; [done|]); intros x;
      [apply elem_of_OrderedSet_reverse|done].
  - intros Hf. destruct (IH _ _ _ Hf) as (c2' & Hk & Hl & Hx).
    exists c2'. split; [lia|]. split; [|done].
    replace (i - k)%nat with (S (i - S k)) by lia. done.
Qed.

(** The rounds of [outer_loop] keep the nodes of the cycles. *)
Lemma merge_cycles_nodes (fuel : nat) : forall cycles cycles',
  merge_cycles fuel cycles = Some (Ok cycles') ->
  (length cycles' <= 1)%nat /\
  forall v, on_cycles cycles' v <-> on_cycles cycles v.
Proof.
  induction fuel as [|fuel IH]; intros cycles cycles'; [done|].
  cbn [merge_cycles].
  destruct (Nat.leb_spec (length cycles) 1) as [Hle|Hgt].
  { intros H; injection H as <-. by split. }
  destruct (reverse cycles) as [|[l|c1] rest] eqn:Hrev; [done|done|].
  assert (Hcycles : cycles = reverse rest ++ [CycleSet c1]).
  { rewrite <- (reverse_involutive cycles), Hrev. by rewrite reverse_cons. }
  destruct (find_contact c1 (reverse rest) 0) as [[i c2]|] eqn:Hfind; [|done].
  intros H. destruct (IH _ _ H) as [Hlen Hon]. split; [done|].
  intros v. rewrite Hon, Hcycles, !on_cycles_app, !on_cycles_one.
  cbn [cycle_nodes]. rewrite elem_of_OrderedSet_or.
  destruct (find_contact_spec _ _ _ _ _ Hfind) as (c2' & _ & Hl & Hx).
  rewrite Nat.sub_0_r in Hl.
  rewrite <- (on_cycles_insert (reverse rest) i (CycleSet c2') (CycleSet c2) v Hl Hx).
  rewrite (on_cycles_remove (CycleSet c2) (<[i := CycleSet c2]> (reverse rest))).
  - cbn [cycle_nodes]. tauto.
  - apply list_elem_of_lookup. exists i. apply list_lookup_insert_eq.
    by apply lookup_lt_Some in Hl.
Qed.

(** X24. The loop [outer_loop] returns has exactly the nodes that lie on
    the cycles of the basis: merging the cycles keeps every node of every
    cycle, also the nodes inside. *)
Theorem outer_loop_nodes (pop_index : list Z -> nat) (g : Graph) (o : OrderedSet Z) :
  outer_loop pop_index g = Some (Ok o) ->
  exists cycles, cycle_basis pop_index g = Some (Ok cycles) /\
    forall v, v ∈ o <-> on_cycles cycles v.
Proof.
  unfold outer_loop.
  destruct (cycle_basis pop_index g) as [[cycles|]|]; [|done|done].
  destruct (merge_cycles _ cycles) as [[cycles'|]|] eqn:Hm; [|done|done].
  destruct (merge_cycles_nodes _ _ _ Hm) as [Hlen Hon].
  destruct (reverse cycles') as [|[l|c] rest] eqn:Hrev; [done|done|].
  intros H; injection H as <-. exists cycles. split; [done|].
  intros v. rewrite <- Hon, <- on_cycles_reverse, Hrev.
  assert (rest = []) as ->.
  { rewrite <- length_reverse, Hrev in Hlen. destruct rest; [done|cbn in Hlen; lia]. }
  by rewrite on_cycles_one.
Qed.

End MergedCycles.

Lemma outer_loop_nodes_complete_four :
  outer_loop (fun _ => 0%nat) complete_four = Some (Ok [1; 2; 0; 3]%Z) /\
  exists cycles, cycle_basis (fun _ => 0%nat) complete_four = Some (Ok cycles) /\
    forall v, v ∈ [1; 2; 0; 3]%Z <-> on_cycles cycles v.
Proof.
  assert (H : outer_loop (fun _ => 0%nat) complete_four = Some (Ok [1; 2; 0; 3]%Z))
    by (vm_compute; reflexivity).
  split; [exact H|].
  exact (outer_loop_nodes (fun _ => 0%nat) complete_four [1; 2; 0; 3]%Z H).
Defined.

(** ** The outer loop: a graph without cycles *)

Section Edgeless.
Variable pop_index : list Z -> nat.

Lemma set_pop_length s r rest :
  set_pop pop_index s = Some (r, rest) -> S (length rest) = length s.
Proof.
  unfold set_pop. destruct (s !! _) as [e|] eqn:E; [|done].
  intros [= <- <-]. pose proof (lookup_lt_Some _ _ _ E) as Hlt.
  rewrite length_delete by (by eexists). lia.
Qed.

Lemma walk_edgeless g n (fuel bound : nat) cycles :
  adj g !! n = Some [] ->
  walk (S (S fuel)) bound g (mkWalk [n] {[n := n]} {[n := ∅]} cycles)
  = Some (Ok (mkWalk [] {[n := n]} {[n := ∅]} cycles)).
Proof.
  intros Hadj. cbn.
  rewrite lookup_singleton_eq, Hadj. reflexivity.
Qed.

Lemma components_edgeless g (bound : nat) : forall (fuel : nat) l,
  edgeless g -> (forall n, n ∈ l -> n ∈ nodes g) ->
  (length l < fuel)%nat -> (l <> [] -> 2 <= bound)%nat ->
  components pop_index fuel bound g l [] = Some (Ok []).
Proof.
  induction fuel as [|fuel IH]; intros l Hg Hl Hfuel Hbound; [lia|].
  cbn [components].
  destruct l as [|a l'] eqn:El; [by rewrite set_pop_nil|]. rewrite <- El in *.
  assert (Hne : l <> []) by (by rewrite El).
  destruct (set_pop_some pop_index l Hne) as (r & rest & Hpop). rewrite Hpop.
  destruct (set_pop_elem _ _ _ _ Hpop) as [Hr Hrest].
  pose proof (set_pop_length _ _ _ Hpop) as Hlen.
  destruct bound as [|[|bound]]; [specialize (Hbound Hne); lia..|].
  rewrite walk_edgeless by (apply Hg, Hl, Hr).
  apply IH; [done| | |lia].
  - intros n [_ Hn]%list_elem_of_filter. by apply Hl, Hrest.
  - pose proof (length_filter (fun n => ({[r := r]} : gmap Z Z) !! n = None) rest).
    lia.
Qed.

(** X25. On a graph without edges, and so on the empty graph, the cycle
    basis is empty and [outer_loop] raises [IndexError]: it pops from the
    empty list of cycles. *)
Theorem outer_loop_edgeless (g : Graph) :
  edgeless g ->
  cycle_basis pop_index g = Some (Ok []) /\
  outer_loop pop_index g = Some (Raise IndexError).
Proof.
  intros Hg.
  assert (Hb : cycle_basis pop_index g = Some (Ok [])).
  { unfold cycle_basis. apply components_edgeless; [done| | |].
    - intros n Hn. by rewrite elem_of_remove_dups in Hn.
    - unfold graph_size.
      assert (Hsub : remove_dups (nodes g) ⊆+ nodes g).
      { apply NoDup_submseteq; [apply NoDup_remove_dups|].
        intros n Hn. by rewrite elem_of_remove_dups in Hn. }
      apply submseteq_length in Hsub. lia.
    - intros Hne. unfold graph_size. destruct (nodes g); [done|]. cbn [length]. lia. }
  split; [done|]. unfold outer_loop. rewrite Hb. reflexivity.
Qed.

End Edgeless.

Lemma outer_loop_edgeless_three_points :
  edgeless three_points /\
  cycle_basis (fun _ => 0%nat) three_points = Some (Ok []) /\
  outer_loop (fun _ => 0%nat) three_points = Some (Raise IndexError).
Proof.
  assert (H : edgeless three_points).
  { intros n Hn.
    repeat (apply elem_of_cons in Hn as [->|Hn]; [by vm_compute|]).
    by apply elem_of_nil in Hn. }
  split; [exact H|].
  exact (outer_loop_edgeless (fun _ => 0%nat) three_points H).
Defined.

(** ** The synthesizer: a slider is placed on the ground only *)

Ltac unfold_get_not_base_friend := unfold _get_not_base_friend.

Section SliderOnGround.
Context {D : Type} {F : Float64 D}.
Variables (cos sin : D -> D) (M_PI : D).
Variables (pin_grounded has_offset : VPoint.t D -> bool).
Local Open Scope Z_scope.
Implicit Types (env : LoopEnv D) (s : LoopState).

Local Abbreviation _get_not_base_friend :=
  (@_get_not_base_friend D pin_grounded has_offset).
Local Abbreviation joint_P := (@joint_P D pin_grounded has_offset).
Local Abbreviation joint_RP := (@joint_RP D F cos sin M_PI pin_grounded has_offset).
Local Abbreviation t_config_step := (@t_config_step D F cos sin M_PI pin_grounded has_offset).
Local Abbreviation t_config_loop := (@t_config_loop D F cos sin M_PI pin_grounded has_offset).

(** A friend is found for a joint on the ground only. *)
Lemma get_not_base_friend_grounded nd (vps : list (VPoint.t D)) vl st fa vpoint :
  _get_not_base_friend nd vps vl st = Ok (true, fa) ->
  c_index vps nd = Ok vpoint ->
  VPoint.grounded vpoint = true.
Proof.
  unfold_get_not_base_friend. intros Hf Hv.
  assert (Hp : py_index vps nd = Ok vpoint).
  { revert Hv. unfold c_index, py_index.
    destruct (0 <=? nd); [|discriminate].
    by destruct (vps !! Z.to_nat nd). }
  rewrite Hp in Hf. cbn [bind] in Hf.
  destruct (VPoint.grounded vpoint); [done|].
  rewrite orb_true_r in Hf. cbn in Hf. discriminate.
Qed.

(** What the RP branch does: it skips, or it adds an expression for the
    point S and one for the joint. *)
Lemma joint_RP_targets env s s' :
  joint_RP env s = Ok s' ->
  s' = skipped s \/
  exists e1 e2,
    exprs s' = exprs s ++ [e1; e2] /\
    expr_target e1 = (S_LABEL, node s) /\ expr_target e2 = (P_LABEL, node s) /\
    status s' = <[node s := true]> (status s).
Proof.
  unfold_joint_RP.
  destruct (c_index _ _) as [vpoint|] eqn:Hv; cbn [bind]; [|discriminate].
  destruct (_get_not_base_friend _ _ _ _) as [[ok fa]|] eqn:Hf; cbn [bind];
    [|discriminate].
  destruct (_get_base_friend _ _ _ _) as [[[ok2 fb] fd]|]; cbn [bind]; [|discriminate].
  destruct ok; cbn [negb orb]; [|intros Hs; injection Hs as <-; by left].
  destruct ok2; cbn [negb orb]; [|intros Hs; injection Hs as <-; by left].
  rewrite (get_not_base_friend_grounded _ _ _ _ _ _ Hf Hv). cbn [negb].
  destruct (negb (_clockwise _ _ _)); intros Hs; injection Hs as <-; right;
    eexists _, _; cbn [exprs status];
    unfold add_plpp, add_pllp; rewrite <- app_assoc; cbn [app];
    split_and!; reflexivity.
Qed.

(** X26. The RP branch of [t_config] places a slider only when it is on
    the ground: its expression for a slot that is not grounded is never
    added.  A placement appends two expressions, a PLLP for the point S of
    the joint and a PLPP for the joint, and solves the joint. *)
Theorem joint_RP_on_ground env s s' :
  joint_RP env s = Ok s' ->
  s' = skipped s \/
  exists vpoint e1 e2,
    c_index (vpoints env) (node s) = Ok vpoint /\
    VPoint.grounded vpoint = true /\
    exprs s' = exprs s ++ [e1; e2] /\
    func e1 = PLLP /\ expr_target e1 = (S_LABEL, node s) /\
    func e2 = PLPP /\ expr_target e2 = (P_LABEL, node s) /\
    status s' = <[node s := true]> (status s).
Proof.
  unfold_joint_RP.
  destruct (c_index _ _) as [vpoint|] eqn:Hv; cbn [bind]; [|discriminate].
  destruct (_get_not_base_friend _ _ _ _) as [[ok fa]|] eqn:Hf; cbn [bind];
    [|discriminate].
  destruct (_get_base_friend _ _ _ _) as [[[ok2 fb] fd]|]; cbn [bind]; [|discriminate].
  destruct ok; cbn [negb orb]; [|intros Hs; injection Hs as <-; by left].
  destruct ok2; cbn [negb orb]; [|intros Hs; injection Hs as <-; by left].
  pose proof (get_not_base_friend_grounded _ _ _ _ _ _ Hf Hv) as Hg.
  rewrite Hg. cbn [negb].
  destruct (negb (_clockwise _ _ _)); intros Hs; injection Hs as <-; right;
    exists vpoint; eexists _, _; cbn [exprs status];
    unfold add_plpp, add_pllp; rewrite <- app_assoc; cbn [app];
    split_and!; first [exact Hv|exact Hg|reflexivity].
Qed.

End SliderOnGround.

Lemma joint_RP_on_ground_slider :
  exists s',
    joint_RP (fun a => a) (fun a => a) 0%float (fun _ => false) (fun _ => false)
      slider_env slider_start = Ok s' /\
    (s' = skipped slider_start \/
     exists vpoint e1 e2,
       c_index (vpoints slider_env) (node slider_start) = Ok vpoint /\
       VPoint.grounded vpoint = true /\
       exprs s' = exprs slider_start ++ [e1; e2] /\
       func e1 = PLLP /\ expr_target e1 = (S_LABEL, node slider_start) /\
       func e2 = PLPP /\ expr_target e2 = (P_LABEL, node slider_start) /\
       status s' = <[node slider_start := true]> (status slider_start)).
Proof.
  eexists. split; [vm_compute; reflexivity|].
  apply (joint_RP_on_ground (fun a => a) (fun a => a) 0%float (fun _ => false)
           (fun _ => false) slider_env slider_start).
  vm_compute. reflexivity.
Defined.

(** ** The synthesizer: every joint is placed once *)

Section Once.
Implicit Types (st : gmap Z bool) (ex added : EStack) (k : Z).

Lemma grows_refl st : grows st st.
Proof. by intros k. Qed.

Lemma grows_trans st1 st2 st3 : grows st1 st2 -> grows st2 st3 -> grows st1 st3.
Proof.
  intros H12 H23 k. destruct (H12 k) as [Ha Hb], (H23 k) as [Hc Hd]. split; auto.
Qed.

Lemma grows_insert st k : grows st (<[k := true]> st).
Proof.
  intros j. destruct (decide (j = k)) as [->|Hne].
  - rewrite lookup_insert_eq. split; [done|discriminate].
  - by rewrite lookup_insert_ne.
Qed.

Lemma places_once_refl st ex : places_once st ex st ex.
Proof.
  split; [apply grows_refl|]. exists []. split; [by rewrite app_nil_r|].
  split; [constructor|]. intros e He. by apply elem_of_nil in He.
Qed.

Lemma places_once_trans st1 ex1 st2 ex2 st3 ex3 :
  places_once st1 ex1 st2 ex2 -> places_once st2 ex2 st3 ex3 ->
  places_once st1 ex1 st3 ex3.
Proof.
  intros (Hg1 & a1 & -> & Hn1 & H1) (Hg2 & a2 & -> & Hn2 & H2).
  split; [by eapply grows_trans|]. exists (a1 ++ a2).
  split; [by rewrite app_assoc|]. split.
  - rewrite fmap_app. apply NoDup_app. split; [done|]. split; [|done].
    intros t (e1 & -> & He1)%list_elem_of_fmap (e2 & Heq & He2)%list_elem_of_fmap.
    destruct (H1 e1 He1) as [_ Ht], (H2 e2 He2) as [Hf _].
    rewrite <- Heq in Hf. congruence.
  - intros e [He|He]%elem_of_app.
    + destruct (H1 e He) as [Hf Ht]. split; [done|]. by apply Hg2.
    + destruct (H2 e He) as [Hf Ht]. split; [|done]. by apply Hg1.
Qed.

(** A placement of the joint [k] by expressions with distinct targets. *)
Lemma places_once_placed st ex added k :
  st !! k = Some false ->
  NoDup (expr_target <$> added) ->
  (forall e, e ∈ added -> (expr_target e).2 = k) ->
  places_once st ex (<[k := true]> st) (ex ++ added).
Proof.
  intros Hk Hn Hall. split; [apply grows_insert|]. exists added.
  split; [done|]. split; [done|]. intros e He. rewrite (Hall e He).
  by rewrite lookup_insert_eq.
Qed.

Lemma places_once_one st ex e k :
  st !! k = Some false -> (expr_target e).2 = k ->
  places_once st ex (<[k := true]> st) (ex ++ [e]).
Proof.
  intros Hk Ht. apply places_once_placed; [done| |].
  - cbn. apply NoDup_singleton.
  - by intros e' ->%list_elem_of_singleton.
Qed.

End Once.

Section OnceLoop.
Context {D : Type} {F : Float64 D}.
Variables (cos sin : D -> D) (M_PI : D).
Variables (pin_grounded has_offset : VPoint.t D -> bool).
Local Open Scope Z_scope.
Implicit Types (env : LoopEnv D) (s : LoopState).

Local Abbreviation joint_P := (@joint_P D pin_grounded has_offset).
Local Abbreviation joint_RP := (@joint_RP D F cos sin M_PI pin_grounded has_offset).
Local Abbreviation t_config_step := (@t_config_step D F cos sin M_PI pin_grounded has_offset).
Local Abbreviation t_config_loop := (@t_config_loop D F cos sin M_PI pin_grounded has_offset).

Lemma place_friends_once nd fs : forall st ex ls st' ex' ls',
  place_friends nd fs (st, ex, ls) = Ok (st', ex', ls') ->
  places_once st ex st' ex'.
Proof.
  induction fs as [|fb fs IH]; intros st ex ls st' ex' ls' Hp; simpl in Hp.
  - injection Hp as <- <- <-. apply places_once_refl.
  - unfold status_get in Hp. destruct (st !! fb) as [locked|] eqn:Hfb; simpl in Hp;
      [|discriminate].
    destruct locked.
    + by apply IH in Hp.
    + apply IH in Hp. eapply places_once_trans; [|exact Hp].
      unfold add_pxy. by apply places_once_one.
Qed.

Lemma place_links_once nd vl ls0 : forall st ex ls st' ex' ls',
  place_links nd vl ls0 (st, ex, ls) = Ok (st', ex', ls') ->
  places_once st ex st' ex'.
Proof.
  induction ls0 as [|link ls0 IH]; intros st ex ls st' ex' ls' Hp; simpl in Hp.
  - injection Hp as <- <- <-. apply places_once_refl.
  - destruct (vlinks_get vl link) as [members|]; simpl in Hp; [|discriminate].
    destruct (place_friends nd members (st, ex, ls)) as [[[st1 ex1] ls1]|] eqn:Hf;
      simpl in Hp; [|discriminate].
    apply place_friends_once in Hf. apply IH in Hp.
    eapply places_once_trans; eassumption.
Qed.

Lemma joint_R_once env s s' :
  status s !! node s = Some false ->
  joint_R env s = Ok s' ->
  places_once (status s) (exprs s) (status s') (exprs s').
Proof.
  intros Hn. unfold joint_R. case_bool_decide.
  - unfold status_get.
    destruct (status s !! _get_input_base (node s) (inputs env)) as [[|]|];
      simpl; intros Hs; [| |discriminate]; injection Hs as <-; cbn [status exprs].
    + unfold add_pla. by apply places_once_one.
    + apply places_once_refl.
  - destruct (_get_reliable_friend _ _ _ _) as [[[ok fa] fb]|]; simpl;
      [|discriminate].
    destruct ok; simpl.
    + destruct (negb (_clockwise _ _ _)); intros Hs; injection Hs as <-;
        cbn [status exprs]; unfold add_pllp; by apply places_once_one.
    + intros Hs; injection Hs as <-. apply places_once_refl.
Qed.

Lemma joint_P_once env s s' :
  status s !! node s = Some false ->
  joint_P env s = Ok s' ->
  places_once (status s) (exprs s) (status s') (exprs s').
Proof.
  intros Hn. unfold_joint_P.
  destruct (_get_not_base_friend _ _ _ _ _ _) as [[ok fa]|]; simpl; [|discriminate].
  destruct ok; simpl.
  - destruct (c_index _ _) as [vpoint|]; simpl; [|discriminate].
    destruct (place_links _ _ _ _) as [[[st ex] ls]|] eqn:Hp; simpl; [|discriminate].
    intros Hs; injection Hs as <-. cbn [status exprs].
    apply place_links_once in Hp.
    eapply places_once_trans; [|exact Hp]. unfold add_pxy. by apply places_once_one.
  - intros Hs; injection Hs as <-. apply places_once_refl.
Qed.

Lemma joint_RP_once env s s' :
  status s !! node s = Some false ->
  joint_RP env s = Ok s' ->
  places_once (status s) (exprs s) (status s') (exprs s').
Proof.
  intros Hn Hj.
  destruct (joint_RP_targets cos sin M_PI pin_grounded has_offset env s s' Hj)
    as [->|(e1 & e2 & Hex & Ht1 & Ht2 & Hst)].
  - apply places_once_refl.
  - rewrite Hex, Hst. apply places_once_placed; [done| |].
    + cbn. rewrite Ht1, Ht2. apply NoDup_cons. split.
      * intros Hin%list_elem_of_singleton. discriminate.
      * apply NoDup_singleton.
    + intros e He. apply list_elem_of_In in He. cbn [In] in He.
      destruct He as [<-|[<-|[]]]; [by rewrite Ht1|by rewrite Ht2].
Qed.

Lemma t_config_step_once env s s' :
  t_config_step env s = Continue s' \/ t_config_step env s = Stop s' ->
  places_once (status s) (exprs s) (status s') (exprs s').
Proof.
  pose proof (places_once_refl (status s) (exprs s)) as Hrefl.
  unfold_t_config_step.
  destruct (_is_all_lock (status s)).
  { intros [Hs|Hs]; [discriminate|]. by injection Hs as <-. }
  destruct (status s !! node s) as [locked|] eqn:Hn.
  - destruct (skip_times s >=? around env).
    { intros [Hs|Hs]; [discriminate|]. by injection Hs as <-. }
    destruct locked.
    + intros [Hs|Hs]; [|discriminate]. by injection Hs as <-.
    + destruct (c_index _ _) as [vpoint|]; simpl; [|by intros [?|?]].
      destruct (match VPoint.type vpoint with
                | VJoint.R => joint_R env s
                | VJoint.P => joint_P env s
                | VJoint.RP => joint_RP env s
                end) as [s1|] eqn:Hj; [|by intros [?|?]].
      intros [Hs|Hs]; [|discriminate]. injection Hs as <-.
      cbn [status exprs].
      destruct (VPoint.type vpoint);
        [eapply joint_R_once|eapply joint_P_once|eapply joint_RP_once];
        eassumption.
  - intros [Hs|Hs]; [|discriminate]. by injection Hs as <-.
Qed.

Lemma t_config_loop_once fuel env : forall s s',
  t_config_loop fuel env s = Some (Ok s') ->
  places_once (status s) (exprs s) (status s') (exprs s').
Proof.
  induction fuel as [|fuel IH]; intros s s'; [done|]. simpl.
  destruct (t_config_step env s) as [s1|s1|e] eqn:Hs.
  - intros Hl. eapply places_once_trans; [|by apply IH].
    apply (t_config_step_once env). by left.
  - intros [= <-]. apply (t_config_step_once env). by right.
  - done.
Qed.

(** X27. The main loop of [t_config] solves every joint at most once.
    When the loop returns, the targets of the expressions it has added are
    pairwise distinct, and each of them is a symbol of a joint that was
    unsolved when the loop started and is solved when it returns. *)
Theorem t_config_loop_places_once (fuel : nat) env s s' :
  t_config_loop fuel env s = Some (Ok s') ->
  exists added,
    exprs s' = exprs s ++ added /\
    NoDup (expr_target <$> added) /\
    forall e, e ∈ added ->
      status s !! (expr_target e).2 = Some false /\
      status s' !! (expr_target e).2 = Some true.
Proof.
  intros Hl. apply t_config_loop_once in Hl as (_ & added & Hex & Hn & Hall).
  by exists added.
Qed.

End OnceLoop.

Lemma t_config_loop_places_once_slider :
  exists s',
    t_config_loop (fun a => a) (fun a => a) 0%float (fun _ => false) (fun _ => false)
      20 slider_env slider_start = Some (Ok s') /\
    exists added,
      exprs s' = exprs slider_start ++ added /\
      NoDup (expr_target <$> added) /\
      forall e, e ∈ added ->
        status slider_start !! (expr_target e).2 = Some false /\
        status s' !! (expr_target e).2 = Some true.
Proof.
  eexists. split; [vm_compute; reflexivity|].
  apply (t_config_loop_places_once (fun a => a) (fun a => a) 0%float
           (fun _ => false) (fun _ => false) 20 slider_env slider_start).
  vm_compute. reflexivity.
Defined.

(** ** The stack as a list *)

Section AsList.
Implicit Types (e : Expr) (ex : EStack).

Lemma symbol_str_cancel (p q : sym) : symbol_str p = symbol_str q -> p = q.
Proof.
  destruct p as [lp np], q as [lq nq]. unfold symbol_str. cbn [fst snd].
  destruct lp, lq; rewrite !app_one_char; intros Heq; try discriminate Heq;
    injection Heq as Heq; apply (inj pretty) in Heq; by subst.
Qed.

Lemma as_list_fmap ex : as_list ex = as_list_tuple <$> ex.
Proof.
  unfold as_list.
  assert (Hacc : forall acc : list (list string),
             fold_left (fun stack expr => stack ++ [as_list_tuple expr]) ex acc
             = acc ++ (as_list_tuple <$> ex)).
  { induction ex as [|e ex IH]; intros acc; cbn [fold_left fmap list_fmap].
    - by rewrite app_nil_r.
    - rewrite IH, <- app_assoc. reflexivity. }
  by rewrite Hacc.
Qed.

Lemma as_list_tuple_without_op e : as_list_tuple (without_op e) = as_list_tuple e.
Proof. reflexivity. Qed.

Lemma as_list_without_op ex :
  as_list_tuple <$> (without_op <$> ex) = as_list_tuple <$> ex.
Proof.
  induction ex as [|e ex IH]; [done|]. cbn [fmap list_fmap] in *.
  by rewrite IH, as_list_tuple_without_op.
Qed.

(** A tuple determines its expression up to the flag. *)
Lemma as_list_tuple_cancel e e' :
  built e -> built e' ->
  as_list_tuple e = as_list_tuple e' -> without_op e = without_op e'.
Proof.
  intros He He'. destruct He, He'; cbn; intros Heq; try discriminate Heq;
    injection Heq as Heq;
    repeat match goal with
           | H : symbol_str _ = symbol_str _ |- _ =>
               apply symbol_str_cancel in H; subst
           end;
    reflexivity.
Qed.

(** X28. [as_list] renders a stack built by the [add_*] methods up to the
    flag [op]: two such stacks have the same list exactly when they are
    equal but for their flags.  The list has one tuple for every
    expression, and the flag of a PLPP, which selects the intersection,
    is not in it. *)
Theorem as_list_determines ex ex' :
  Forall built ex -> Forall built ex' ->
  length (as_list ex) = length ex /\
  (as_list ex = as_list ex' <-> without_op <$> ex = without_op <$> ex').
Proof.
  intros Hb Hb'. rewrite !as_list_fmap. split; [by rewrite length_fmap|]. split.
  - revert ex' Hb'. induction Hb as [|e ex He Hb IH]; intros ex' Hb' Heq.
    + destruct ex'; [done|discriminate].
    + destruct Hb' as [|e' ex' He' Hb']; [discriminate|].
      cbn [fmap list_fmap] in Heq |- *. injection Heq as Ht Hl.
      f_equal; [by apply as_list_tuple_cancel|by apply IH].
  - intros Heq.
    rewrite <- (as_list_without_op ex), <- (as_list_without_op ex'). by rewrite Heq.
Qed.

End AsList.

Lemma as_list_determines_slot :
  Forall built (slot_exprs true) /\ Forall built (slot_exprs false) /\
  slot_exprs true <> slot_exprs false /\
  as_list (slot_exprs true) = as_list (slot_exprs false).
Proof.
  assert (Hb : forall op, Forall built (slot_exprs op)).
  { intros op. repeat constructor. }
  split; [apply Hb|]. split; [apply Hb|]. split; [discriminate|].
  apply (as_list_determines (slot_exprs true) (slot_exprs false) (Hb true) (Hb false)).
  reflexivity.
Defined.

(** ** The synthesizer: when it returns a stack *)

Ltac unfold_friends :=
  unfold _get_reliable_friend, _get_not_base_friend, _get_base_friend, unset.
Ltac unfold_joint_R := unfold joint_R.
Ltac unfold_t_config_normalize := unfold t_config_normalize.
Ltac unfold_t_config_replace := unfold t_config_replace.

Section Returns.
Context {D : Type} {F : Float64 D}.
Variables (cos sin : D -> D) (M_PI : D).
Variables (pin_grounded has_offset : VPoint.t D -> bool).
Local Open Scope Z_scope.
Implicit Types (env : LoopEnv D) (s : LoopState) (st : gmap Z bool)
  (vl : gmap string (list Z)) (vps : list (VPoint.t D)).

Local Abbreviation _get_not_base_friend :=
  (@_get_not_base_friend D pin_grounded has_offset).
Local Abbreviation joint_R := (@joint_R D F).
Local Abbreviation joint_P := (@joint_P D pin_grounded has_offset).
Local Abbreviation joint_RP := (@joint_RP D F cos sin M_PI pin_grounded has_offset).
Local Abbreviation t_config_step := (@t_config_step D F cos sin M_PI pin_grounded has_offset).
Local Abbreviation t_config_loop := (@t_config_loop D F cos sin M_PI pin_grounded has_offset).
Local Abbreviation t_config := (@t_config D F cos sin M_PI pin_grounded has_offset).

(** *** The friends are found without a failed lookup *)

Lemma index_in_range {A : Type} (l : list A) (i : Z) :
  0 <= i < Z.of_nat (length l) ->
  exists a, l !! Z.to_nat i = Some a /\ c_index l i = Ok a /\ py_index l i = Ok a.
Proof.
  intros Hi. destruct (lookup_lt_is_Some_2 l (Z.to_nat i)) as [a Ha]; [lia|].
  exists a. unfold c_index, py_index.
  destruct (Z.leb_spec 0 i); [|lia]. by rewrite Ha.
Qed.

Lemma c_index_out_of_range {A : Type} (l : list A) (i : Z) e :
  c_index l i = Raise e -> e = Undefined /\ ~ 0 <= i < Z.of_nat (length l).
Proof.
  unfold c_index. destruct (Z.leb_spec 0 i) as [H0|H0].
  - destruct (l !! Z.to_nat i) as [a|] eqn:Ha; [done|].
    intros [= <-]. split; [done|]. apply lookup_ge_None in Ha. lia.
  - intros [= <-]. split; [done|lia].
Qed.

Lemma reliable_scan_ok nd st fs : forall fa,
  (forall f, f ∈ fs -> is_Some (st !! f)) ->
  exists r, reliable_scan nd st fs fa = Ok r.
Proof.
  induction fs as [|f fs IH]; intros fa Hk; cbn [reliable_scan]; [by eexists|].
  destruct (Hk f) as [b Hb]; [by left|].
  unfold status_get. rewrite Hb. cbn [or_raise bind].
  assert (Hk' : forall f', f' ∈ fs -> is_Some (st !! f')) by (intros; apply Hk; by right).
  destruct (b && negb (f =? nd)); [|by apply IH].
  destruct (fa =? -1); [by apply IH|by eexists].
Qed.

Lemma reliable_links_ok nd vl st links : forall fa,
  (forall link, link ∈ links -> is_Some (vl !! link)) ->
  (forall link members f, vl !! link = Some members -> f ∈ members ->
     is_Some (st !! f)) ->
  exists r, reliable_links nd vl st links fa = Ok r.
Proof.
  induction links as [|link links IH]; intros fa Hl Hm; cbn [reliable_links];
    [by eexists|].
  destruct (Hl link) as [members Hmem]; [by left|].
  unfold vlinks_get. rewrite Hmem. cbn [or_raise bind].
  assert (Hl' : forall l', l' ∈ links -> is_Some (vl !! l'))
    by (intros; apply Hl; by right).
  destruct (length members <? 2)%nat; [by apply IH|].
  destruct (reliable_scan_ok nd st members fa) as [[fa' fb] Hscan];
    [by eauto|].
  rewrite Hscan. cbn [bind]. destruct fb; [by eexists|by apply IH].
Qed.

Lemma first_locked_ok st fs :
  (forall f, f ∈ fs -> is_Some (st !! f)) ->
  exists r, first_locked st fs = Ok r.
Proof.
  induction fs as [|f fs IH]; intros Hk; cbn [first_locked]; [by eexists|].
  destruct (Hk f) as [b Hb]; [by left|].
  unfold status_get. rewrite Hb. cbn [or_raise bind].
  destruct b; [by eexists|]. apply IH. intros; apply Hk; by right.
Qed.

Section Friends.
Variables (env : LoopEnv D) (st : gmap Z bool) (nd : Z) (vpoint : VPoint.t D).
Hypothesis Henv : env_wf env.
Hypothesis Hst : status_wf env st.
Hypothesis Hnd : 0 <= nd < Z.of_nat (length (vpoints env)).
Hypothesis Hvp : vpoints env !! Z.to_nat nd = Some vpoint.

Lemma joint_links_known link :
  link ∈ VPoint.links vpoint -> is_Some (env_vlinks env !! link).
Proof using Henv Hvp.
  intros Hl. destruct Henv as [[Hlinks _] _].
  apply (Hlinks vpoint); [|done]. by eapply list_elem_of_lookup_2.
Qed.

Lemma link_members_keys link members f :
  env_vlinks env !! link = Some members -> f ∈ members -> is_Some (st !! f).
Proof using Henv Hst.
  intros Hl Hf. destruct Henv as [[_ Hmem] _]. destruct Hst as [Hkeys _].
  apply Hkeys. by eapply Hmem.
Qed.

Lemma py_index_joint : py_index (vpoints env) nd = Ok vpoint.
Proof using Hnd Hvp.
  destruct (index_in_range (vpoints env) nd Hnd) as (a & Ha & _ & Hp).
  congruence.
Qed.

Lemma c_index_joint : c_index (vpoints env) nd = Ok vpoint.
Proof using Hnd Hvp.
  destruct (index_in_range (vpoints env) nd Hnd) as (a & Ha & Hc & _).
  congruence.
Qed.

Lemma get_reliable_friend_ok :
  exists r, _get_reliable_friend nd (vpoints env) (env_vlinks env) st = Ok r.
Proof using Henv Hst Hnd Hvp.
  unfold_friends. rewrite py_index_joint. cbn [bind].
  destruct (reliable_links_ok nd (env_vlinks env) st (VPoint.links vpoint) (-1))
    as [r Hr].
  - apply joint_links_known.
  - apply link_members_keys.
  - rewrite Hr. by eexists.
Qed.

Lemma get_not_base_friend_ok :
  exists r, _get_not_base_friend nd (vpoints env) (env_vlinks env) st = Ok r.
Proof using Henv Hst Hnd Hvp.
  unfold_friends. rewrite py_index_joint. cbn [bind].
  destruct (_ || _ || _ || (length (VPoint.links vpoint) <? 2)%nat) eqn:Hc;
    [by eexists|].
  apply orb_false_iff in Hc as [_ Hlen]. apply Nat.ltb_ge in Hlen.
  destruct (lookup_lt_is_Some_2 (VPoint.links vpoint) 1) as [link Hlink]; [lia|].
  rewrite Hlink. cbn [or_raise bind].
  destruct (joint_links_known link) as [members Hm];
    [by eapply list_elem_of_lookup_2|].
  unfold vlinks_get. rewrite Hm. cbn [or_raise bind].
  destruct (first_locked_ok st members) as [r Hr].
  - intros f Hf. by eapply link_members_keys.
  - rewrite Hr. by eexists.
Qed.

Lemma get_base_friend_ok :
  exists r, _get_base_friend nd (vpoints env) (env_vlinks env) st = Ok r.
Proof using Henv Hnd Hvp.
  unfold_friends. rewrite py_index_joint. cbn [bind].
  destruct (length (VPoint.links vpoint) <? 1)%nat eqn:Hlen; [by eexists|].
  apply Nat.ltb_ge in Hlen.
  destruct (lookup_lt_is_Some_2 (VPoint.links vpoint) 0) as [link Hlink]; [lia|].
  rewrite Hlink. cbn [or_raise bind].
  destruct (joint_links_known link) as [members Hm];
    [by eapply list_elem_of_lookup_2|].
  unfold vlinks_get. rewrite Hm. cbn [or_raise bind].
  destruct members as [|fa [|fb ?]]; by eexists.
Qed.

End Friends.

Lemma place_friends_ok nd fs : forall st ex ls,
  (forall f, f ∈ fs -> is_Some (st !! f)) ->
  exists r, place_friends nd fs (st, ex, ls) = Ok r.
Proof.
  induction fs as [|f fs IH]; intros st ex ls Hk; cbn [place_friends];
    [by eexists|].
  destruct (Hk f) as [b Hb]; [by left|].
  unfold status_get. rewrite Hb. cbn [or_raise bind].
  destruct b.
  - apply IH. intros; apply Hk; by right.
  - apply IH. intros f' Hf'. destruct (decide (f' = f)) as [->|Hne].
    + by rewrite lookup_insert_eq.
    + rewrite lookup_insert_ne by done. apply Hk. by right.
Qed.

Lemma place_links_ok nd vl links : forall st ex ls,
  (forall link, link ∈ links -> is_Some (vl !! link)) ->
  (forall link members f, vl !! link = Some members -> f ∈ members ->
     is_Some (st !! f)) ->
  exists r, place_links nd vl links (st, ex, ls) = Ok r.
Proof.
  induction links as [|link links IH]; intros st ex ls Hl Hm; cbn [place_links];
    [by eexists|].
  destruct (Hl link) as [members Hmem]; [by left|].
  unfold vlinks_get. rewrite Hmem. cbn [or_raise bind].
  destruct (place_friends_ok nd members st ex ls) as [[[st' ex'] ls'] Hp];
    [by eauto|].
  rewrite Hp. cbn [bind].
  apply IH; [intros; apply Hl; by right|].
  intros link' members' f Hl' Hf.
  apply place_friends_advance in Hp as [Hkeys _]. apply Hkeys. by eauto.
Qed.

Lemma get_input_base_pair nd (inputs : list (Z * Z)) :
  nd ∈ inputs.*2 -> (_get_input_base nd inputs, nd) ∈ inputs.
Proof.
  induction inputs as [|[base node_] inputs IH]; cbn [fmap list_fmap _get_input_base];
    [by intros ?%elem_of_nil|].
  destruct (Z.eqb_spec nd node_) as [->|Hne]; [by left|].
  intros [?|Hin]%elem_of_cons; [done|]. right. by apply IH.
Qed.

(** *** The branches of the main loop *)

Section Branches.
Variables (env : LoopEnv D) (s : LoopState) (vpoint : VPoint.t D).
Hypothesis Henv : env_wf env.
Hypothesis Hst : status_wf env (status s).
Hypothesis Hnd : 0 <= node s < Z.of_nat (length (vpoints env)).
Hypothesis Hvp : vpoints env !! Z.to_nat (node s) = Some vpoint.

Lemma joint_R_ok : exists s', joint_R env s = Ok s'.
Proof using Henv Hst Hnd Hvp.
  unfold_joint_R. destruct (bool_decide _) eqn:Hin.
  - apply bool_decide_eq_true_1 in Hin.
    destruct Henv as [_ Htargets]. rewrite Htargets in Hin.
    apply get_input_base_pair in Hin.
    destruct Hst as [_ Hbases]. destruct (Hbases _ _ Hin) as [b Hb].
    unfold status_get. rewrite Hb. cbn [or_raise bind].
    destruct b; by eexists.
  - destruct (get_reliable_friend_ok env (status s) (node s) vpoint)
      as [[[ok fa] fb] Hr]; try done.
    rewrite Hr. cbn [bind]. destruct (negb ok); [by eexists|].
    destruct (negb (_clockwise _ _ _)); by eexists.
Qed.

Lemma joint_P_ok : exists s', joint_P env s = Ok s'.
Proof using Henv Hst Hnd Hvp.
  unfold_joint_P.
  destruct (get_not_base_friend_ok env (status s) (node s) vpoint)
    as [[ok fa] Hr]; try done.
  rewrite Hr. cbn [bind]. destruct (negb ok); [by eexists|].
  rewrite (c_index_joint env (node s) vpoint) by done. cbn [bind].
  match goal with
  | |- context [place_links ?nd ?vl ?links (?st, ?ex, ?ls)] =>
      destruct (place_links_ok nd vl links st ex ls) as [[[st' ex'] ls'] Hp]
  end.
  - intros link Hl. apply (joint_links_known env (node s) vpoint); [done..|].
    destruct (VPoint.links vpoint) as [|l0 ls]; [done|]. by right.
  - intros link members f Hl Hf.
    destruct (link_members_keys env (status s) Henv Hst link members f Hl Hf)
      as [b Hb].
    destruct (decide (f = node s)) as [->|Hne].
    + by rewrite lookup_insert_eq.
    + by rewrite lookup_insert_ne.
  - rewrite Hp. cbn [bind]. by eexists.
Qed.

Lemma joint_RP_ok : exists s', joint_RP env s = Ok s'.
Proof using Henv Hst Hnd Hvp.
  unfold_joint_RP.
  rewrite (c_index_joint env (node s) vpoint) by done. cbn [bind].
  destruct (get_not_base_friend_ok env (status s) (node s) vpoint)
    as [[ok fa] Hr]; try done.
  rewrite Hr. cbn [bind].
  destruct (get_base_friend_ok env (status s) (node s) vpoint)
    as [[[ok2 fb] fd] Hr2]; try done.
  rewrite Hr2. cbn [bind].
  destruct (negb ok || negb ok2); [by eexists|].
  destruct (negb (VPoint.grounded vpoint));
    repeat destruct (negb (_clockwise _ _ _)); by eexists.
Qed.

End Branches.

(** *** The preprocessing *)

Section Preprocessing.
Implicit Types (h : heap D) (items : list loc) (acc : gmap Z bool * gmap string (list Z)).

Lemma elem_of_set_add (members : list Z) (nd f : Z) :
  f ∈ set_add members nd -> f ∈ members \/ f = nd.
Proof.
  unfold set_add. destruct (bool_decide _); [by left|].
  intros [?|?%list_elem_of_singleton]%elem_of_app; by eauto.
Qed.

Lemma init_links_spec (nd : Z) (vpoint : VPoint.t D) (links : list string) :
  forall (st : gmap Z bool) (vl : gmap string (list Z)) st' vl',
  fold_left
    (fun '(status, vlinks) link =>
       let status :=
         if String.eqb link VLink.FRAME && VJoint.eqb (VPoint.type vpoint) VJoint.R
         then <[nd := true]> status else status in
       let vlinks :=
         match vlinks !! link with
         | None => <[link := [nd]]> vlinks
         | Some s => <[link := set_add s nd]> vlinks
         end in
       (status, vlinks))
    links (st, vl) = (st', vl') ->
  (forall k, st' !! k = Some false -> st !! k = Some false) /\
  (forall link, is_Some (vl !! link) \/ link ∈ links -> is_Some (vl' !! link)) /\
  (forall link members f, vl' !! link = Some members -> f ∈ members ->
     f = nd \/ exists members0, vl !! link = Some members0 /\ f ∈ members0).
Proof.
  induction links as [|link links IH]; intros st vl st' vl'; cbn [fold_left].
  - intros [= <- <-]. split_and!; [done| |by eauto].
    intros link [?|?%elem_of_nil]; done.
  - intros Hfold. apply IH in Hfold as (Hf & Hl & Hm). split_and!.
    + intros k Hk. apply Hf in Hk.
      destruct (String.eqb link VLink.FRAME && _); [|done].
      destruct (decide (k = nd)) as [->|Hne].
      * by rewrite lookup_insert_eq in Hk.
      * by rewrite lookup_insert_ne in Hk.
    + intros link' Hk. apply Hl.
      destruct (decide (link' = link)) as [->|Hne].
      * left. destruct (vl !! link); rewrite lookup_insert_eq; by eexists.
      * destruct Hk as [Hk|Hk].
        -- left. destruct (vl !! link); by rewrite lookup_insert_ne.
        -- apply elem_of_cons in Hk as [?|?]; [done|by right].
    + intros link' members f Hl' Hf'.
      destruct (Hm link' members f Hl' Hf') as [?|(members0 & Hm0 & Hf0)];
        [by left|].
      destruct (decide (link' = link)) as [->|Hne].
      * destruct (vl !! link) as [old|] eqn:Hold;
          rewrite lookup_insert_eq in Hm0; injection Hm0 as <-.
        -- apply elem_of_set_add in Hf0 as [?|?]; [right; by eauto|by left].
        -- left. by apply list_elem_of_singleton in Hf0.
      * right. exists members0. split; [|done].
        destruct (vl !! link); by rewrite lookup_insert_ne in Hm0.
Qed.

Lemma init_joint_spec acc (nd : Z) (vpoint : VPoint.t D) st' vl' :
  init_joint acc (nd, vpoint) = (st', vl') ->
  (forall k, st' !! k = Some false -> k = nd \/ acc.1 !! k = Some false) /\
  (forall link, is_Some (acc.2 !! link) \/ link ∈ VPoint.links vpoint ->
     is_Some (vl' !! link)) /\
  (forall link members f, vl' !! link = Some members -> f ∈ members ->
     f = nd \/ exists members0, acc.2 !! link = Some members0 /\ f ∈ members0).
Proof.
  destruct acc as [st vl]. cbn [init_joint fst snd].
  destruct (VPoint.links vpoint) as [|link links] eqn:Hlinks.
  - intros [= <- <-]. split_and!.
    + intros k Hk. destruct (decide (k = nd)) as [->|Hne]; [by left|].
      right. by rewrite !lookup_insert_ne in Hk.
    + intros link [?|?%elem_of_nil]; done.
    + by eauto.
  - intros Hfold. apply init_links_spec in Hfold as (Hf & Hl & Hm). split_and!.
    + intros k Hk. apply Hf in Hk.
      destruct (decide (k = nd)) as [->|Hne]; [by left|].
      right. by rewrite lookup_insert_ne in Hk.
    + done.
    + done.
Qed.

Lemma init_joints_spec (joints : list (Z * VPoint.t D)) : forall acc st' vl',
  fold_left init_joint joints acc = (st', vl') ->
  (forall k, st' !! k = Some false -> k ∈ joints.*1 \/ acc.1 !! k = Some false) /\
  (forall link,
     is_Some (acc.2 !! link) \/
     (exists item, item ∈ joints /\ link ∈ VPoint.links item.2) ->
     is_Some (vl' !! link)) /\
  (forall link members f, vl' !! link = Some members -> f ∈ members ->
     f ∈ joints.*1 \/ exists members0, acc.2 !! link = Some members0 /\ f ∈ members0).
Proof.
  induction joints as [|[nd vpoint] joints IH]; intros acc st' vl'; cbn [fold_left].
  - intros ->. cbn [fst snd]. split_and!; [by eauto| |by eauto].
    intros link [?|(item & ?%elem_of_nil & _)]; done.
  - intros Hfold. destruct (init_joint acc (nd, vpoint)) as [st1 vl1] eqn:Hone.
    apply init_joint_spec in Hone as (Hf1 & Hl1 & Hm1).
    apply IH in Hfold as (Hf & Hl & Hm). cbn [fst snd] in *. split_and!.
    + intros k Hk. rewrite fmap_cons, elem_of_cons. cbn [fst].
      destruct (Hf k Hk) as [?|Hk1]; [by eauto|].
      destruct (Hf1 k Hk1); by eauto.
    + intros link Hk. apply Hl. destruct Hk as [Hk|(item & Hin & Hlink)].
      * left. apply Hl1. by left.
      * apply elem_of_cons in Hin as [->|Hin]; [|right; by eauto].
        left. apply Hl1. by right.
    + intros link members f Hl' Hf'. rewrite fmap_cons, elem_of_cons. cbn [fst].
      destruct (Hm link members f Hl' Hf') as [?|(members1 & Hm1' & Hf1')];
        [by eauto|].
      destruct (Hm1 link members1 f Hm1' Hf1') as [?|?]; by eauto.
Qed.

Lemma enumerate_keys {A : Type} (l : list A) (k : Z) :
  k ∈ (enumerate l).*1 -> 0 <= k < Z.of_nat (length l).
Proof.
  intros ((k' & a) & -> & Hin)%list_elem_of_fmap.
  apply list_elem_of_lookup in Hin as [i Hi].
  apply enumerate_lookup_inv in Hi as [-> Hl]. cbn [fst snd] in *.
  apply lookup_lt_Some in Hl. lia.
Qed.

Lemma enumerate_elem {A : Type} (l : list A) (a : A) :
  a ∈ l -> exists item, item ∈ enumerate l /\ item.2 = a.
Proof.
  intros [i Hi]%list_elem_of_lookup. exists (Z.of_nat i, a). split; [|done].
  eapply list_elem_of_lookup_2. by apply enumerate_lookup.
Qed.

Lemma load_vpoints_Forall2 h items joints :
  load_vpoints h items = Ok joints <->
  Forall2 (fun a v => h !! a = Some (ObjVPoint v)) items joints.
Proof.
  revert joints. induction items as [|a items IH]; intros joints;
    cbn [load_vpoints].
  - split; [intros [= <-]; constructor|by intros ->%Forall2_nil_inv_l].
  - unfold load_vpoint. split.
    + destruct (h !! a) as [[v|]|] eqn:Ha; cbn [bind]; try done.
      destruct (load_vpoints h items) as [vs|] eqn:Hvs; cbn [bind]; [|done].
      intros [= <-]. constructor; [done|]. by apply IH.
    + intros (v & vs & Hv & Hvs & ->)%Forall2_cons_inv_l.
      rewrite Hv. cbn [bind]. apply IH in Hvs. by rewrite Hvs.
Qed.

Lemma hfor_ok {A : Type} (I : heap D -> Prop) (xs : list A)
    (body : A -> heap D -> heap D * result unit) :
  (forall a h, a ∈ xs -> I h -> exists h', body a h = (h', Ok tt) /\ I h') ->
  forall h, I h -> exists h', hfor xs body h = (h', Ok tt) /\ I h'.
Proof.
  induction xs as [|a xs IH]; intros Hbody h Hh; cbn [hfor]; [by eauto|].
  destruct (Hbody a h) as (h' & -> & Hh'); [by left|done|].
  apply IH; [|done]. intros; apply Hbody; [by right|done].
Qed.

Lemma stored_snapshot (vl : gmap string (list Z)) (n : nat) (vpoints : loc) h :
  joints_stored vl n vpoints h ->
  exists joints, snapshot h vpoints = Ok joints /\ length joints = n /\
    forall v link, v ∈ joints -> link ∈ VPoint.links v -> is_Some (vl !! link).
Proof.
  intros (items & Hlist & <- & Hitems).
  unfold snapshot, list_items. rewrite Hlist. cbn [bind]. clear Hlist.
  induction items as [|a items IH]; cbn [load_vpoints].
  - exists []. split_and!; [done|done|]. by intros v link ?%elem_of_nil.
  - destruct (Hitems a) as (v & Hv & Hlinks); [by left|].
    unfold load_vpoint. rewrite Hv. cbn [bind].
    destruct IH as (joints & -> & Hl & Hk).
    { intros a' Ha'. apply Hitems. by right. }
    cbn [bind]. exists (v :: joints). split_and!; [done|simpl; lia|].
    intros v' link [->|Hin]%elem_of_cons; [apply Hlinks|by apply Hk].
Qed.

Section Replace.
Variables (vl : gmap string (list Z)) (n : nat) (vpoints : loc).
Hypothesis Hmembers : forall link members f,
  vl !! link = Some members -> f ∈ members -> 0 <= f < Z.of_nat n.

Lemma stored_getitem h (i : Z) :
  joints_stored vl n vpoints h -> 0 <= i < Z.of_nat n ->
  exists v,
    bind (list_items h vpoints)
      (fun items => bind (c_index items i) (load_vpoint h)) = Ok v /\
    forall link, link ∈ VPoint.links v -> is_Some (vl !! link).
Proof.
  intros (items & Hlist & Hlen & Hitems) Hi.
  unfold list_items. rewrite Hlist. cbn [bind].
  destruct (index_in_range items i) as (a & Ha & Hc & _); [lia|].
  rewrite Hc. cbn [bind].
  destruct (Hitems a) as (v & Hv & Hlinks); [by eapply list_elem_of_lookup_2|].
  exists v. unfold load_vpoint. by rewrite Hv.
Qed.

Lemma stored_replace h (node : Z) (v : VPoint.t D) :
  joints_stored vl n vpoints h -> 0 <= node < Z.of_nat n ->
  (forall link, link ∈ VPoint.links v -> is_Some (vl !! link)) ->
  exists h',
    setitem (alloc h (ObjVPoint v)).1 vpoints (Z.to_nat node) (alloc h (ObjVPoint v)).2
      = Ok h' /\
    joints_stored vl n vpoints h'.
Proof.
  intros (items & Hlist & Hlen & Hitems) Hnode Hlinks.
  cbn [alloc fst snd]. unfold setitem, list_items.
  assert (Hlt : (vpoints < length h)%nat) by (by eapply lookup_lt_Some).
  rewrite lookup_app_l by done. rewrite Hlist. cbn [bind].
  destruct (decide _) as [_|Hno]; [|lia].
  eexists. split; [done|].
  exists (<[Z.to_nat node := length h]> items). split_and!.
  - rewrite list_lookup_insert_eq; [done|]. rewrite length_app. lia.
  - by rewrite length_insert.
  - intros a Ha. apply list_elem_of_lookup in Ha as [j Hj].
    destruct (decide (j = Z.to_nat node)) as [->|Hne].
    + rewrite list_lookup_insert_eq in Hj by lia. injection Hj as <-.
      exists v. split; [|done].
      rewrite list_lookup_insert_ne by lia. by rewrite list_lookup_middle.
    + rewrite list_lookup_insert_ne in Hj by done.
      destruct (Hitems a) as (v' & Hv' & Hl'); [by eapply list_elem_of_lookup_2|].
      exists v'. split; [|done].
      assert (a <> vpoints) by (intros ->; congruence).
      rewrite list_lookup_insert_ne by done.
      rewrite lookup_app_l; [done|]. by eapply lookup_lt_Some.
Qed.

Lemma merged_links_known (vpoint vpoint_ : VPoint.t D) :
  (forall link, link ∈ VPoint.links vpoint -> is_Some (vl !! link)) ->
  (forall link, link ∈ VPoint.links vpoint_ -> is_Some (vl !! link)) ->
  forall link, link ∈ merged_links vpoint vpoint_ -> is_Some (vl !! link).
Proof.
  intros H1 H2 link. unfold merged_links.
  destruct (VPoint.links vpoint) as [|link0 links]; [by intros ?%elem_of_nil|].
  intros [->|Hin]%elem_of_cons; [apply H1; by left|].
  apply list_elem_of_filter in Hin as [_ Hin]. by apply H2.
Qed.

Lemma t_config_replace_ok (base : Z) h :
  0 <= base < Z.of_nat n -> joints_stored vl n vpoints h ->
  exists h', t_config_replace vl vpoints base h = (h', Ok tt) /\
             joints_stored vl n vpoints h'.
Proof using Hmembers.
  intros Hbase Hh. unfold_t_config_replace.
  destruct (stored_getitem h base Hh Hbase) as (vpoint & -> & Hlinks).
  destruct (_ || _); [by eauto|].
  apply (hfor_ok (joints_stored vl n vpoints)); [|done].
  intros link h1 Hlink Hh1.
  destruct (Hlinks link) as [members Hm].
  { destruct (VPoint.links vpoint); [done|by right]. }
  rewrite Hm. apply (hfor_ok (joints_stored vl n vpoints)); [|done].
  intros node h2 Hnode Hh2.
  assert (Hr : 0 <= node < Z.of_nat n) by (by eapply Hmembers).
  destruct (stored_getitem h2 node Hh2 Hr) as (vpoint_ & -> & Hlinks_).
  destruct (_ || _); [by eauto|].
  match goal with
  | |- context [alloc h2 (ObjVPoint ?v)] =>
      destruct (stored_replace h2 node v Hh2 Hr) as (h3 & Hset & Hh3)
  end.
  { cbn [VPoint.c_slider_joint VPoint.links]. by apply merged_links_known. }
  cbn [alloc fst snd] in *. rewrite Hset. by eauto.
Qed.

End Replace.

End Preprocessing.

(** *** The main loop *)

Lemma c_index_in_range {A : Type} (l : list A) (i : Z) a :
  c_index l i = Ok a -> 0 <= i < Z.of_nat (length l) /\ l !! Z.to_nat i = Some a.
Proof.
  unfold c_index. destruct (Z.leb_spec 0 i) as [H0|H0]; [|done].
  destruct (l !! Z.to_nat i) as [a'|] eqn:Ha; [|done].
  intros [= <-]. split; [|done]. apply lookup_lt_Some in Ha. lia.
Qed.

(** A round of the main loop goes on with the same keys and no joint
    unsolved that was solved, or stops, or reads outside the joints: at a
    key of [status] that is not solved and is no joint. *)
Lemma t_config_step_safe env s :
  env_wf env -> status_wf env (status s) ->
  match t_config_step env s with
  | Continue s' => same_keys (status s) (status s') /\ grows (status s) (status s')
  | Stop s' => True
  | Raised e =>
      e = Undefined /\ status s !! node s = Some false /\
      ~ 0 <= node s < Z.of_nat (length (vpoints env))
  end.
Proof.
  intros Henv Hst. unfold_t_config_step.
  destruct (_is_all_lock (status s)); [done|].
  destruct (status s !! node s) as [locked|] eqn:Hnode.
  2: { split; [apply same_keys_refl|apply grows_refl]. }
  destruct (skip_times s >=? around env); [done|].
  destruct locked.
  { split; [apply same_keys_refl|apply grows_refl]. }
  destruct (c_index (vpoints env) (node s)) as [vpoint|e] eqn:Hc; cbn [bind].
  2: { apply c_index_out_of_range in Hc as [-> Hout]. done. }
  apply c_index_in_range in Hc as [Hnd Hvp].
  destruct (VPoint.type vpoint).
  - destruct (joint_R_ok env s vpoint Henv Hst Hnd Hvp) as [s' Hs'].
    rewrite Hs'. cbn [status]. split.
    + destruct (joint_R_cases env s s' Hnode Hs') as [->|[Hk _]];
        [apply same_keys_refl|done].
    + by destruct (joint_R_once env s s' Hnode Hs').
  - destruct (joint_P_ok env s vpoint Henv Hst Hnd Hvp) as [s' Hs'].
    rewrite Hs'. cbn [status]. split.
    + destruct (joint_P_cases pin_grounded has_offset env s s' Hnode Hs')
        as [->|[Hk _]]; [apply same_keys_refl|done].
    + by destruct (joint_P_once pin_grounded has_offset env s s' Hnode Hs').
  - destruct (joint_RP_ok env s vpoint Henv Hst Hnd Hvp) as [s' Hs'].
    rewrite Hs'. cbn [status]. split.
    + destruct (joint_RP_cases cos sin M_PI pin_grounded has_offset env s s'
                  Hnode Hs') as [->|[Hk _]]; [apply same_keys_refl|done].
    + by destruct (joint_RP_once cos sin M_PI pin_grounded has_offset env s s'
                     Hnode Hs').
Qed.

Lemma status_wf_same_keys env st st' :
  same_keys st st' -> status_wf env st -> status_wf env st'.
Proof.
  intros Hk [H1 H2]. split.
  - intros k Hr. apply Hk. by apply H1.
  - intros base nd Hin. apply Hk. by eapply H2.
Qed.

Lemma unsolved_are_joints_grows (n : nat) st st' :
  grows st st' -> unsolved_are_joints n st -> unsolved_are_joints n st'.
Proof. intros Hg Hu k Hk. apply Hu. by apply Hg. Qed.

(** The main loop raises no exception: when it ends, it has stopped, or it
    has read outside the joints, at a key of [status] that was not solved
    and is no joint. *)
Lemma t_config_loop_safe env : forall (fuel : nat) s r,
  env_wf env -> status_wf env (status s) ->
  t_config_loop fuel env s = Some r ->
  (exists s', r = Ok s') \/
  (r = Raise Undefined /\
   exists k, status s !! k = Some false /\
             ~ 0 <= k < Z.of_nat (length (vpoints env))).
Proof.
  induction fuel as [|fuel IH]; intros s r Henv Hst; cbn [t_config_loop]; [done|].
  pose proof (t_config_step_safe env s Henv Hst) as Hstep.
  destruct (t_config_step env s) as [s'|s'|e].
  - destruct Hstep as [Hk Hg]. intros Hr.
    destruct (IH s' r Henv (status_wf_same_keys env _ _ Hk Hst) Hr)
      as [Hok|[-> (k & Hfalse & Hout)]]; [by left|].
    right. split; [done|]. exists k. split; [by apply Hg|done].
  - intros [= <-]. left. by eexists.
  - destruct Hstep as (-> & Hnode & Hout). intros [= <-]. right.
    split; [done|]. by exists (node s).
Qed.

(** *** The input pairs *)

Lemma input_joints_safe (inputs : list (Z * Z)) : forall s,
  (exists s', input_joints inputs s = Ok s' /\
     grows (status s) (status s') /\
     (forall k, is_Some (status s !! k) -> is_Some (status s' !! k)) /\
     (forall base nd, (base, nd) ∈ inputs -> is_Some (status s' !! base))) \/
  (input_joints inputs s = Raise KeyError /\
   exists base nd, (base, nd) ∈ inputs /\ status s !! base = None).
Proof.
  induction inputs as [|[base nd] inputs IH]; intros s; cbn [input_joints].
  - left. exists s. split_and!; [done|apply grows_refl|done|].
    by intros base nd ?%elem_of_nil.
  - unfold status_get. destruct (status s !! base) as [locked|] eqn:Hbase;
      cbn [or_raise bind].
    2: { right. split; [done|]. exists base, nd. split; [by left|done]. }
    destruct locked.
    + match goal with
      | |- context [input_joints inputs ?s1] => destruct (IH s1) as
            [(s' & Hs' & Hg & Hk & Hb)|(Hr & base' & nd' & Hin & Hnone)]
      end; cbn [status] in *.
      * left. exists s'. split_and!; [done| | |].
        -- eapply grows_trans; [apply grows_insert|done].
        -- intros k Hsome. apply Hk.
           destruct (decide (k = nd)) as [->|Hne];
             [rewrite lookup_insert_eq; by eexists|by rewrite lookup_insert_ne].
        -- intros b n' Hin. apply elem_of_cons in Hin as [Heq|Hin];
             [|by eapply Hb].
           injection Heq as -> ->. apply Hk.
           destruct (decide (base = nd)) as [->|Hne];
             [rewrite lookup_insert_eq; by eexists
             |rewrite lookup_insert_ne by done; by eexists].
      * right. split; [done|]. exists base', nd'. split; [by right|].
        destruct (decide (base' = nd)) as [->|Hne];
          [by rewrite lookup_insert_eq in Hnone
          |by rewrite lookup_insert_ne in Hnone].
    + destruct (IH s) as [(s' & Hs' & Hg & Hk & Hb)|(Hr & base' & nd' & Hin & Hnone)].
      * left. exists s'. split_and!; [done..|].
        intros b n' Hin. apply elem_of_cons in Hin as [Heq|Hin]; [|by eapply Hb].
        injection Heq as -> ->. apply Hk. by eexists.
      * right. split; [done|]. exists base', nd'. split; [by right|done].
Qed.

Lemma same_keys_size st st' : same_keys st st' -> size st' = size st.
Proof.
  intros Hk. rewrite <- !size_dom. f_equal. apply set_eq. intros k.
  rewrite !elem_of_dom. apply Hk.
Qed.

(** *** The call *)

(** [t_config] on a list of joints: it returns the state in which its main
    loop has stopped, or it raises [KeyError] at the base of an input pair
    that is no joint and no key of [status], or it reads outside the
    joints at a key of [status] that is not solved and is no joint. *)
Lemma t_config_outcome (h : heap D) (vpoints_ : loc) (joints : list (VPoint.t D))
    (pairs : list (Z * Z)) (status0 : gmap Z bool) :
  snapshot h vpoints_ = Ok joints ->
  let r := (t_config h vpoints_ pairs status0).2 in
  (exists st stack, r = Some (Ok (st, stack)) /\
     ((joints = [] \/ pairs = []) /\ st = status0 /\ stack = [] \/
      exists env s s',
        t_config_setup h vpoints_ pairs status0 = Some (env, s) /\
        t_config_loop (t_config_fuel (around env) (status s)) env s
          = Some (Ok s') /\
        st = status s' /\ stack = exprs s' /\
        around env = int32 (Z.of_nat (size st)) /\
        (_is_all_lock st = true \/ around env <= skip_times s'))) \/
  (r = Some (Raise KeyError) /\
   exists base nd, (base, nd) ∈ pairs /\
     ~ 0 <= base < Z.of_nat (length joints) /\ status0 !! base = None) \/
  (r = Some (Raise Undefined) /\
   exists k, status0 !! k = Some false /\ ~ 0 <= k < Z.of_nat (length joints)).
Proof.
  intros Hsnap r.
  destruct (proj1 (t_config_ends cos sin M_PI pin_grounded has_offset)
              h vpoints_ pairs status0) as [r0 Hends].
  subst r. revert Hends. unfold_t_config. unfold t_config_setup.
  unfold snapshot in Hsnap.
  destruct (list_items h vpoints_) as [items|] eqn:Hitems; cbn [bind] in Hsnap;
    [|done].
  pose proof (load_vpoints_length h items joints Hsnap) as Hlen.
  destruct items as [|a items0].
  { intros _. left. exists status0, []. split; [done|]. left.
    destruct joints; [by auto|done]. }
  destruct pairs as [|input inputs0].
  { intros _. left. exists status0, []. split; [done|]. left. by auto. }
  cbv beta iota.
  set (items := a :: items0) in *. set (pairs := input :: inputs0) in *.
  unfold_t_config_normalize. cbn [alloc].
  (* The copy holds the joints of the caller. *)
  apply load_vpoints_Forall2 in Hsnap.
  assert (Hload : load_vpoints (h ++ [ObjList items]) items = Ok joints).
  { apply load_vpoints_Forall2. eapply Forall2_impl; [exact Hsnap|].
    intros a' v Ha'. cbn beta in *. rewrite lookup_app_l; [done|].
    by eapply lookup_lt_Some. }
  rewrite Hload.
  (* The first loop. *)
  destruct (fold_left init_joint (enumerate joints) (status0, ∅)) as [st vl]
    eqn:Hinit.
  pose proof (init_joints_keys (enumerate joints) (status0, ∅)) as Hkeys.
  rewrite Hinit in Hkeys. cbn [fst] in Hkeys.
  apply init_joints_spec in Hinit as (Hfalse & Hknown & Hmembers).
  cbn [fst snd] in Hfalse, Hknown, Hmembers.
  assert (Hrange : forall link members f,
            vl !! link = Some members -> f ∈ members ->
            0 <= f < Z.of_nat (length joints)).
  { intros link members f Hl Hf.
    destruct (Hmembers link members f Hl Hf) as [Hin|(m0 & Hm0 & _)].
    - by apply enumerate_keys.
    - by rewrite lookup_empty in Hm0. }
  (* The replacement of the friends of the P joints. *)
  assert (Hstored : joints_stored vl (length joints) (length h)
                      (h ++ [ObjList items])).
  { exists items. split_and!; [by rewrite list_lookup_middle|done|].
    intros a' Ha'. apply list_elem_of_lookup in Ha' as [i Hi].
    destruct (Forall2_lookup_l _ _ _ _ _ Hsnap Hi) as (v & Hv & Hload').
    exists v. split.
    - rewrite lookup_app_l; [done|]. by eapply lookup_lt_Some.
    - intros link Hlink. apply Hknown. right.
      destruct (enumerate_elem joints v) as (item & Hitem & <-);
        [by eapply list_elem_of_lookup_2|]. by eauto. }
  destruct (hfor_ok (joints_stored vl (length joints) (length h))
              (range (length items))
              (t_config_replace vl (length h))) with (h := h ++ [ObjList items])
    as (h2 & Hfor & Hstored2); [|done|].
  { intros base h1 Hbase Hh1. apply (t_config_replace_ok vl (length joints));
      [done| |done].
    unfold range in Hbase. apply list_elem_of_fmap in Hbase as (i & -> & Hi).
    apply elem_of_seq in Hi. lia. }
  rewrite Hfor.
  destruct (stored_snapshot vl (length joints) (length h) h2 Hstored2)
    as (joints' & Hsnap' & Hlen' & Hlinks').
  rewrite Hsnap'. cbn [bind].
  (* The input pairs. *)
  match goal with
  | |- context [input_joints ?l ?s0] =>
      destruct (input_joints_safe l s0) as
        [(s & -> & Hg & Hk & Hb)|(-> & base & nd & Hin & Hnone)]
  end; cbn [status] in *.
  2: { intros _. right. left. split; [done|]. exists base, nd.
       split; [done|].
       assert (Hnokey : ~ is_Some (st !! base))
         by (rewrite Hnone; by intros [? ?]).
       split.
       - intros Hr. apply Hnokey, Hkeys. right.
         unfold enumerate. rewrite fst_zip by (rewrite length_fmap, length_seq; lia).
         apply list_elem_of_fmap. exists (Z.to_nat base). split; [lia|].
         apply elem_of_seq. lia.
       - destruct (status0 !! base) eqn:H0; [|done].
         exfalso. apply Hnokey, Hkeys. left. by eexists. }
  (* The main loop. *)
  set (around0 := int32 (Z.of_nat (size (state_status s)))).
  set (env := mkLoopEnv joints' vl (positions joints') pairs (pairs.*2) around0).
  assert (Henv : env_wf env).
  { split; [|done]. split; cbn [vpoints env_vlinks env].
    - intros v link. apply Hlinks'.
    - rewrite Hlen'. exact Hrange. }
  assert (Hst : status_wf env (status s)).
  { split; cbn [vpoints inputs env].
    - intros k Hr. apply Hk, Hkeys. right. rewrite Hlen' in Hr.
      unfold enumerate. rewrite fst_zip by (rewrite length_fmap, length_seq; lia).
      apply list_elem_of_fmap. exists (Z.to_nat k). split; [lia|].
      apply elem_of_seq. lia.
    - exact Hb. }
  destruct (t_config_loop _ env s) as [res|] eqn:Hloop; [|intros [=]].
  intros _.
  destruct (t_config_loop_safe env _ s res Henv Hst Hloop)
    as [[s' ->]|[-> (k & Hfalse' & Hout)]].
  - left. exists (state_status s'), (exprs s'). split; [done|]. right.
    exists env, s, s'.
    split_and!; [done|done|done|done| |].
    + cbn [around env]. unfold around0, state_status. do 2 f_equal.
      symmetry. apply same_keys_size.
      by destruct (t_config_loop_follows cos sin M_PI pin_grounded has_offset
                     _ env s s' Hloop).
    + exact (t_config_loop_exit cos sin M_PI pin_grounded has_offset env _ s s' Hloop).
  - right. right. split; [done|]. exists k. cbn [vpoints env] in Hout.
    rewrite Hlen' in Hout. split; [|done].
    apply Hg in Hfalse'. destruct (Hfalse k Hfalse') as [Hin|H0]; [|done].
    apply enumerate_keys in Hin. done.
Qed.


End Returns.


